(** * udiald: the modem control engine, embedded and verified

    A shallow embedding of [src/tty.c] (the AT response reader, the
    flattener and the link-daemon configuration writer) and of the session
    phases of [src/udiald.c] (exit handling, identify, PIN / PUK entry, mode
    selection, modem selection, the [-t] gate and the translation of the
    link daemon's exit status).

    Conventions.
    - A C array is a [list]; [lengthof(a)] is [length a]; a pointer into
      an array is the offset from its start.  An access outside the array is
      undefined in C and shows up here as an explicit fault.
    - [size_t] arithmetic wraps modulo [2 ^ size_t_bits].
    - The serial line is an environment script: what each [poll] and each
      one-byte [read] delivers.  A [read] that returns 0 leaves the
      descriptor at end of file, where a call that waits for more does not
      return.
    - [exit] ends a run: the phases live in a small monad whose results are
      return, exit, or stuck (hang or fault).
    - A [string] stands for a C string and holds no NUL.
    - Logging and sleeping are left out. *)

From Stdlib Require Import ZArith Ascii String Lia Bool Decimal DecimalString.
From stdpp Require Import base option list strings gmap.

Open Scope Z_scope.
Open Scope nat_scope.

(** The width of [size_t] on the target. *)
Class target := { size_t_bits : Z }.

(** ** Characters and C strings *)

Definition NUL : ascii := "000"%char.
Definition CR : ascii := "013"%char.
Definition LF : ascii := "010"%char.
Definition CARET : ascii := "^"%char.
Definition DQUOTE : ascii := "034"%char.

Abbreviation chars := list_ascii_of_string.

(** [strlen]: the bytes before the first NUL. *)
Fixpoint cstr_of (l : list ascii) : list ascii :=
  match l with
  | [] => []
  | a :: l' => if Ascii.eqb a NUL then [] else a :: cstr_of l'
  end.

(** The C string that starts at offset [off] of [buf]. *)
Definition cstr_at (buf : list ascii) (off : nat) : list ascii :=
  cstr_of (drop off buf).

(** [strncmp(buf + off, p, n) == 0].  A byte past the end of either
    operand reads as NUL. *)
Fixpoint strncmp_eq (buf : list ascii) (off : nat) (p : list ascii) (n : nat) : bool :=
  match n with
  | 0 => true
  | S n' =>
      let a := default NUL (buf !! off) in
      let b := default NUL (head p) in
      if Ascii.eqb a b
      then if Ascii.eqb a NUL then true else strncmp_eq buf (S off) (tail p) n'
      else false
  end.

(** [!strncmp(start, s, strlen(s))]: the idiom of tty.c. *)
Definition starts_with (buf : list ascii) (off : nat) (s : string) : bool :=
  strncmp_eq buf off (chars s) (length (cstr_of (chars s))).

(** ** tty.c: the reader *)

Inductive udiald_atres :=
| UDIALD_AT_OK
| UDIALD_AT_CONNECT
| UDIALD_AT_ERROR
| UDIALD_AT_CMEERROR
| UDIALD_AT_NODIALTONE
| UDIALD_AT_BUSY
| UDIALD_AT_NOCARRIER
| UDIALD_AT_NOT_SUPPORTED.

(** [ttyresstr], in the order of its initialisers.  The array is indexed
    by the codes of udiald.h, which is not among the sources; they are taken
    to number the eight entries without a gap.  Their order does not matter:
    no line begins with two of the entries (lemma [ttyresstr_unique]). *)
Definition ttyresstr : list (udiald_atres * string) :=
  [ (UDIALD_AT_OK, "OK"%string);
    (UDIALD_AT_CONNECT, "CONNECT"%string);
    (UDIALD_AT_ERROR, "ERROR"%string);
    (UDIALD_AT_CMEERROR, "+CME ERROR"%string);
    (UDIALD_AT_NODIALTONE, "NO DIALTONE"%string);
    (UDIALD_AT_BUSY, "BUSY"%string);
    (UDIALD_AT_NOCARRIER, "NO CARRIER"%string);
    (UDIALD_AT_NOT_SUPPORTED, "COMMAND NOT SUPPORT"%string) ].

Inductive errno :=
| EAGAIN | EWOULDBLOCK | ETIMEDOUT | ERANGE | EINTR | EIO | EBADF | ENOENT.

Definition errno_eqb (a b : errno) : bool :=
  match a, b with
  | EAGAIN, EAGAIN | EWOULDBLOCK, EWOULDBLOCK | ETIMEDOUT, ETIMEDOUT
  | ERANGE, ERANGE | EINTR, EINTR | EIO, EIO | EBADF, EBADF | ENOENT, ENOENT => true
  | _, _ => false
  end.

(** [struct udiald_tty_read].  [raw_lines] and [result_line] hold offsets
    into [raw_buf]. *)
Record udiald_tty_read := {
  raw_buf : list ascii;
  raw_lines : list nat;
  lines : nat;
  result_line : option nat;
  flat_buf : list ascii
}.

(** The locals of [udiald_tty_get] next to [*r]. *)
Record get_state := {
  gs_r : udiald_tty_read;
  gs_c : nat;
  gs_rem : Z;
  gs_in_newline : bool
}.

Definition set_raw_buf (b : list ascii) (r : udiald_tty_read) : udiald_tty_read :=
  {| raw_buf := b; raw_lines := raw_lines r; lines := lines r;
     result_line := result_line r; flat_buf := flat_buf r |}.

Definition set_raw_lines (l : list nat) (r : udiald_tty_read) : udiald_tty_read :=
  {| raw_buf := raw_buf r; raw_lines := l; lines := lines r;
     result_line := result_line r; flat_buf := flat_buf r |}.

Definition set_lines (n : nat) (r : udiald_tty_read) : udiald_tty_read :=
  {| raw_buf := raw_buf r; raw_lines := raw_lines r; lines := n;
     result_line := result_line r; flat_buf := flat_buf r |}.

Definition set_result_line (o : option nat) (r : udiald_tty_read) : udiald_tty_read :=
  {| raw_buf := raw_buf r; raw_lines := raw_lines r; lines := lines r;
     result_line := o; flat_buf := flat_buf r |}.

(** What one pass through the body of the inner [while] leads to. *)
Inductive rx :=
| RxNext (s : get_state)
| RxReturn (t : udiald_atres) (s : get_state)
| RxError (e : errno) (s : get_state)
| RxFault (s : get_state).

Section Reader.
Context {T : target}.

(** The value of a [size_t] expression. *)
Definition size_wrap (z : Z) : Z := (z mod 2 ^ size_t_bits)%Z.

(** [rem -= rxed; c += rxed;] *)
Definition advance (rxed : nat) (in_nl : bool) (r : udiald_tty_read) (s : get_state) : get_state :=
  {| gs_r := r; gs_c := gs_c s + rxed;
     gs_rem := size_wrap (gs_rem s - Z.of_nat rxed);
     gs_in_newline := in_nl |}.

(** The loop over [ttyresstr]: the first entry the line begins with. *)
Definition match_atres (buf : list ascii) (start : nat) : option udiald_atres :=
  fst <$> List.find (fun e => starts_with buf start (snd e)) ttyresstr.

(** The body of [while ((rxed = read(fd, c, 1)) > 0)], for the byte [b]
    that [read] stored at [c].  The loop does not look at [rem]: a burst
    longer than the room left moves [c] past the end of [raw_buf], and the
    next [read] is a fault.  [lengthof(r->raw_lines) - 1] is written with
    the subtraction of [nat]; the array has at least one slot. *)
Definition rx_byte (result_prefix : option string) (b : ascii) (s : get_state) : rx :=
  let r := gs_r s in
  if negb (gs_c s <? length (raw_buf r)) then RxFault s else
  let r := set_raw_buf (<[gs_c s := b]> (raw_buf r)) r in
  if Ascii.eqb b CR || Ascii.eqb b LF then
    if negb (gs_in_newline s) then
      let r := set_raw_buf (<[gs_c s := NUL]> (raw_buf r)) r in
      match raw_lines r !! lines r with
      | None => RxFault s
      | Some start =>
          match raw_buf r !! start with
          | None => RxFault s
          | Some first =>
              if Ascii.eqb first CARET then
                (* c = start; continue; *)
                RxNext {| gs_r := r; gs_c := start; gs_rem := gs_rem s;
                          gs_in_newline := true |}
              else
                let r := set_lines (S (lines r)) r in
                let r :=
                  match result_line r, result_prefix with
                  | None, Some p =>
                      if starts_with (raw_buf r) start p
                      then set_result_line (Some start) r else r
                  | _, _ => r
                  end in
                match match_atres (raw_buf r) start with
                | Some t =>
                    RxReturn t {| gs_r := r; gs_c := gs_c s; gs_rem := gs_rem s;
                                  gs_in_newline := true |}
                | None => RxNext (advance 1 true r s)
                end
          end
      end
    else
      (* rxed = 0; *)
      RxNext (advance 0 true r s)
  else if gs_in_newline s then
    if lines r =? length (raw_lines r) - 1 then
      RxError ERANGE {| gs_r := r; gs_c := gs_c s; gs_rem := gs_rem s;
                        gs_in_newline := true |}
    else if negb (lines r <? length (raw_lines r)) then RxFault s
    else
      let r := set_raw_lines (<[lines r := gs_c s]> (raw_lines r)) r in
      RxNext (advance 1 false r s)
  else
    RxNext (advance 1 false r s).

(** The inner loop over the bytes one burst delivers. *)
Fixpoint rx_bytes (result_prefix : option string) (bs : list ascii) (s : get_state) : rx :=
  match bs with
  | [] => RxNext s
  | b :: bs' =>
      match rx_byte result_prefix b s with
      | RxNext s' => rx_bytes result_prefix bs' s'
      | other => other
      end
  end.

(** How a burst ends: [read] returns 0, or -1 with [errno]. *)
Inductive read_end := ReadEof | ReadErr (e : errno).

(** One wake-up of [poll]: after [delay] milliseconds the descriptor is
    readable and delivers [bytes], or [poll] itself fails. *)
Inductive poll_event :=
| PollIn (delay : Z) (bytes : list ascii) (fin : read_end)
| PollErr (delay : Z) (e : errno).

Definition delay_of (ev : poll_event) : Z :=
  Z.max 0 match ev with PollIn d _ _ => d | PollErr d _ => d end.

(** A record of one [poll] call: the timeout passed, the value returned
    and the milliseconds spent in it. *)
Record poll_call := { pc_timeout : Z; pc_ret : Z; pc_waited : Z }.

(** How a call of the reader ends: with a tag, with -1 and [errno], in an
    access outside [raw_buf], or not at all ([poll] waits without bound, or
    the loop polls and reads a descriptor at end of file for ever). *)
Inductive get_ret :=
| GetTag (t : udiald_atres)
| GetFail (e : errno)
| GetFault
| GetBlocked.

Record get_out := {
  go_ret : get_ret;
  go_r : udiald_tty_read;
  go_polls : list poll_call
}.

Definition recoverable (e : errno) : bool :=
  errno_eqb e EAGAIN || errno_eqb e EWOULDBLOCK.

(** The descriptor is at end of file and stays there: every further
    [poll] returns at once, every [read] returns 0 again and [rem] does not
    fall, so that the loop is left only when [rem] is 0 already. *)
Definition at_eof (s : get_state) (polls : list poll_call) : get_out :=
  if (0 <? gs_rem s)%Z
  then {| go_ret := GetBlocked; go_r := gs_r s; go_polls := polls |}
  else {| go_ret := GetFail ERANGE; go_r := gs_r s; go_polls := polls |}.

(** The outer [while (rem > 0)].  A negative timeout makes [poll] wait
    without bound; an exhausted script means that nothing arrives any
    more.  A [read] that returns 0 has found the descriptor at end of file:
    it stays there unless the script lists what arrives afterwards. *)
Fixpoint get_loop (result_prefix : option string) (timeout : Z)
    (script : list poll_event) (s : get_state) (polls : list poll_call) : get_out :=
  if (0 <? gs_rem s)%Z then
    match script with
    | [] =>
        if (timeout <? 0)%Z
        then {| go_ret := GetBlocked; go_r := gs_r s; go_polls := polls |}
        else {| go_ret := GetFail ETIMEDOUT; go_r := gs_r s;
                go_polls := polls ++ [{| pc_timeout := timeout; pc_ret := 0;
                                         pc_waited := timeout |}] |}
    | ev :: script' =>
        if (0 <=? timeout)%Z && (timeout <? delay_of ev)%Z then
          {| go_ret := GetFail ETIMEDOUT; go_r := gs_r s;
             go_polls := polls ++ [{| pc_timeout := timeout; pc_ret := 0;
                                      pc_waited := timeout |}] |}
        else
          match ev with
          | PollErr _ e =>
              {| go_ret := GetFail e; go_r := gs_r s;
                 go_polls := polls ++ [{| pc_timeout := timeout; pc_ret := (-1);
                                          pc_waited := delay_of ev |}] |}
          | PollIn _ bytes fin =>
              let polls := polls ++ [{| pc_timeout := timeout; pc_ret := 1;
                                        pc_waited := delay_of ev |}] in
              match rx_bytes result_prefix bytes s with
              | RxNext s' =>
                  match fin with
                  | ReadEof =>
                      match script' with
                      | [] => at_eof s' polls
                      | _ :: _ => get_loop result_prefix timeout script' s' polls
                      end
                  | ReadErr e =>
                      if recoverable e
                      then get_loop result_prefix timeout script' s' polls
                      else {| go_ret := GetFail e; go_r := gs_r s'; go_polls := polls |}
                  end
              | RxReturn t s' => {| go_ret := GetTag t; go_r := gs_r s'; go_polls := polls |}
              | RxError e s' => {| go_ret := GetFail e; go_r := gs_r s'; go_polls := polls |}
              | RxFault s' => {| go_ret := GetFault; go_r := gs_r s'; go_polls := polls |}
              end
          end
    end
  else {| go_ret := GetFail ERANGE; go_r := gs_r s; go_polls := polls |}.

Definition get_init (r : udiald_tty_read) : get_state :=
  {| gs_r := set_result_line None (set_lines 0 r);
     gs_c := 0;
     gs_rem := Z.of_nat (length (raw_buf r));
     gs_in_newline := true |}.

(** [udiald_tty_get(fd, r, result_prefix, timeout)] against the script
    of what the descriptor delivers during the call. *)
Definition udiald_tty_get (r : udiald_tty_read) (result_prefix : option string)
    (timeout : Z) (script : list poll_event) : get_out :=
  get_loop result_prefix timeout script (get_init r) [].

End Reader.


(** The committed lines of a read buffer, as C strings. *)
Definition committed (r : udiald_tty_read) : list (list ascii) :=
  (fun off => cstr_at (raw_buf r) off) <$> take (lines r) (raw_lines r).

Definition blank_read (nbuf nlines nflat : nat) : udiald_tty_read :=
  {| raw_buf := replicate nbuf NUL; raw_lines := replicate nlines 0; lines := 0;
     result_line := None; flat_buf := replicate nflat NUL |}.

(** ** Invariants of the reader *)

Section ReaderInvariantDefs.
Context {T : target}.

(** Where the next write into [raw_buf] may fall at the earliest: the
    cursor between lines, the start of the line while one is open. *)
Definition frontier (s : get_state) : nat :=
  if gs_in_newline s then gs_c s
  else default 0 (raw_lines (gs_r s) !! lines (gs_r s)).

(** Slot [i] of [raw_lines] points below [bound] at a byte other than
    the caret, and a NUL follows before [bound]. *)
Definition line_ok (r : udiald_tty_read) (bound i : nat) : Prop :=
  ∃ off ch e, raw_lines r !! i = Some off ∧ off < bound ∧
              raw_buf r !! off = Some ch ∧ ch ≠ CARET ∧
              off ≤ e ∧ e < bound ∧ raw_buf r !! e = Some NUL.

Definition result_ok (r : udiald_tty_read) : Prop :=
  ∀ off, result_line r = Some off →
         ∃ i, i < lines r ∧ raw_lines r !! i = Some off.

Record reader_inv (s : get_state) : Prop := {
  inv_frontier : frontier s ≤ gs_c s;
  inv_open : gs_in_newline s = false →
             is_Some (raw_lines (gs_r s) !! lines (gs_r s)) ∧ frontier s < gs_c s;
  inv_committed : ∀ i, i < lines (gs_r s) → line_ok (gs_r s) (frontier s) i;
  inv_result : result_ok (gs_r s)
}.

(** What holds of the buffer whichever way the call ends. *)
Definition read_ok (r : udiald_tty_read) : Prop :=
  (∀ i, i < lines r → line_ok r (length (raw_buf r)) i) ∧ result_ok r.

(** The last committed line begins with the text of [t]. *)
Definition ends_with_tag (r : udiald_tty_read) (t : udiald_atres) : Prop :=
  ∃ off s, 0 < lines r ∧ raw_lines r !! (lines r - 1) = Some off ∧
           (t, s) ∈ ttyresstr ∧ starts_with (raw_buf r) off s = true.

End ReaderInvariantDefs.

(** ** tty.c: the flattener *)

(** Results of a loop that is run with [fuel] evaluations of its
    condition. *)
Inductive loop_res (A : Type) :=
| LDone (a : A)
| LFault
| LFuel.
Arguments LDone {A} a.
Arguments LFault {A}.
Arguments LFuel {A}.

(** The write cursor [flat] and the contents of [flat_buf]. *)
Definition flat_state : Type := nat * list ascii.

(** [if (flat != end) *flat++ = ch;] *)
Definition flat_put (fin : nat) (ch : ascii) (fs : flat_state) : flat_state :=
  if fst fs =? fin then fs else (S (fst fs), <[fst fs := ch]> (snd fs)).

(** One evaluation of [while ( *in) if (flat != end) *flat++ = *in++;]:
    [inl] when the condition is false, [inr] after one pass through the
    body. *)
Definition copy_step (raw : list ascii) (fin : nat) (st : nat * flat_state)
    : option (flat_state + nat * flat_state) :=
  let '(inp, fs) := st in
  match raw !! inp with
  | None => None
  | Some ch =>
      if Ascii.eqb ch NUL then Some (inl fs)
      else if fst fs =? fin then Some (inr (inp, fs))
      else Some (inr (S inp, (S (fst fs), <[fst fs := ch]> (snd fs))))
  end.

Fixpoint copy_loop (fuel : nat) (raw : list ascii) (fin : nat) (st : nat * flat_state)
    : loop_res flat_state :=
  match fuel with
  | 0 => LFuel
  | S fuel' =>
      match copy_step raw fin st with
      | None => LFault
      | Some (inl fs) => LDone fs
      | Some (inr st') => copy_loop fuel' raw fin st'
      end
  end.

(** The [for] loop from index [i] on, [n] lines being left. *)
Fixpoint flatten_from (fuel : nat) (r : udiald_tty_read) (fin : nat) (n i : nat)
    (fs : flat_state) : loop_res flat_state :=
  match n with
  | 0 => LDone fs
  | S n' =>
      match raw_lines r !! i with
      | None => LFault
      | Some inp =>
          let fs := flat_put fin DQUOTE fs in
          match copy_loop fuel (raw_buf r) fin (inp, fs) with
          | LDone fs =>
              let fs := flat_put fin DQUOTE fs in
              let fs := if i =? lines r - 1 then fs
                        else flat_put fin " "%char (flat_put fin ","%char fs) in
              if fst fs =? fin then LDone fs
              else flatten_from fuel r fin n' (S i) fs
          | other => other
          end
      end
  end.

Definition set_flat_buf (b : list ascii) (r : udiald_tty_read) : udiald_tty_read :=
  {| raw_buf := raw_buf r; raw_lines := raw_lines r; lines := lines r;
     result_line := result_line r; flat_buf := b |}.

(** [udiald_tty_flatten_result(r)] with [fuel] evaluations allowed to each
    inner [while]: the buffer afterwards and the C string returned. *)
Definition flatten_fuel (fuel : nat) (r : udiald_tty_read)
    : loop_res (udiald_tty_read * list ascii) :=
  let fin := length (flat_buf r) - 1 in
  match flatten_from fuel r fin (lines r) 0 (0, flat_buf r) with
  | LDone (flat, buf) =>
      let buf := <[flat := NUL]> buf in
      LDone (set_flat_buf buf r, cstr_at buf 0)
  | LFault => LFault
  | LFuel => LFuel
  end.

(** How a call of the flattener ends. *)
Inductive flat_out :=
| FlatOk (r : udiald_tty_read) (s : list ascii)
| FlatFault
| FlatHang.

(** [udiald_tty_flatten_result(r)].  An inner [while] that makes
    progress advances [in], which it can do at most [length raw_buf]
    times; one that has not left by then never leaves (lemma
    [flatten_hang_forever]). *)
Definition udiald_tty_flatten_result (r : udiald_tty_read) : flat_out :=
  match flatten_fuel (S (length (raw_buf r))) r with
  | LDone (r', s) => FlatOk r' s
  | LFault => FlatFault
  | LFuel => FlatHang
  end.

(** What the spec asks of the flattener: every line in double quotes, a
    comma and a space between neighbours. *)
Fixpoint quoted_join (ls : list (list ascii)) : list ascii :=
  match ls with
  | [] => []
  | [l] => DQUOTE :: l ++ [DQUOTE]
  | l :: ls' => DQUOTE :: l ++ [DQUOTE; ","%char; " "%char] ++ quoted_join ls'
  end.

(** A read buffer with the given committed lines laid out back to back. *)
Definition read_of_lines (ls : list (list ascii)) (nflat : nat) : udiald_tty_read :=
  {| raw_buf := concat ((fun l => l ++ [NUL]) <$> ls);
     raw_lines :=
       (fix offs (ls : list (list ascii)) (o : nat) : list nat :=
          match ls with
          | [] => [0]
          | l :: ls' => o :: offs ls' (o + S (length l))
          end) ls 0;
     lines := length ls;
     result_line := None;
     flat_buf := replicate nflat "#"%char |}.

(** ** udiald.h: codes and flag bits *)

(** Modelled from the spec: the exit codes of udiald.h, which is not among
    the sources; their values are those of section 6 of the spec and of the
    "Return Codes" table that [udiald_usage] prints. *)
Definition UDIALD_OK : Z := 0.
Definition UDIALD_EINVAL : Z := 1.
Definition UDIALD_EINTERNAL : Z := 2.
Definition UDIALD_ESIGNALED : Z := 3.
Definition UDIALD_ENOMODEM : Z := 4.
Definition UDIALD_EMODEM : Z := 5.
Definition UDIALD_ESIM : Z := 6.
Definition UDIALD_EUNLOCK : Z := 7.
Definition UDIALD_EDIAL : Z := 8.
Definition UDIALD_EAUTH : Z := 9.
Definition UDIALD_EPPP : Z := 10.
Definition UDIALD_ENETWORK : Z := 11.

(** The bit masks of udiald.h; the header is not among the sources, so
    their values stay open. *)
Class udiald_h := {
  UDIALD_FLAG_TESTSTATE : Z;
  UDIALD_FLAG_SIGNALED : Z;
  UDIALD_FILTER_VENDOR : Z;
  UDIALD_FILTER_DEVICE : Z;
  UDIALD_FILTER_PROFILE : Z
}.

Inductive udiald_app :=
| UDIALD_APP_CONNECT
| UDIALD_APP_SCAN
| UDIALD_APP_PROBE
| UDIALD_APP_UNLOCK
| UDIALD_APP_PINPUK
| UDIALD_APP_DIAL
| UDIALD_APP_LIST_DEVICES
| UDIALD_APP_LIST_PROFILES.

Definition app_eqb (a b : udiald_app) : bool :=
  match a, b with
  | UDIALD_APP_CONNECT, UDIALD_APP_CONNECT | UDIALD_APP_SCAN, UDIALD_APP_SCAN
  | UDIALD_APP_PROBE, UDIALD_APP_PROBE | UDIALD_APP_UNLOCK, UDIALD_APP_UNLOCK
  | UDIALD_APP_PINPUK, UDIALD_APP_PINPUK | UDIALD_APP_DIAL, UDIALD_APP_DIAL
  | UDIALD_APP_LIST_DEVICES, UDIALD_APP_LIST_DEVICES
  | UDIALD_APP_LIST_PROFILES, UDIALD_APP_LIST_PROFILES => true
  | _, _ => false
  end.

Inductive udiald_mode :=
| UDIALD_MODE_AUTO
| UDIALD_FORCE_UMTS
| UDIALD_FORCE_GPRS
| UDIALD_PREFER_UMTS
| UDIALD_PREFER_GPRS.

(** [struct udiald_config]: [modecmd] maps a mode to its command, [None]
    standing for the null pointer. *)
Record udiald_config := {
  ctlidx : nat;
  datidx : nat;
  modecmd : udiald_mode → option string
}.

(** [struct udiald_profile]; a selector that is zero (or null) is unset. *)
Record udiald_profile := {
  pname : string;
  pvendor : Z;
  pdevice : Z;
  pdriver : option string;
  cfg : udiald_config
}.

(** [struct udiald_device_filter]. *)
Record udiald_device_filter := {
  fflags : Z;
  fvendor : Z;
  fdevice : Z;
  fdevice_id : option string;
  fprofile_name : option string
}.

(** [struct udiald_modem]. *)
Record udiald_modem := {
  vendor : Z;
  device : Z;
  driver : string;
  device_id : string;
  ttys : list string;
  ctl_tty : string;
  dat_tty : string;
  profile : option udiald_profile
}.

(** [struct udiald_state], with the globals [verbose] and [signaled] next
    to it. *)
Record udiald_state := {
  app : udiald_app;
  flags : Z;
  networkname : string;
  sim_state : Z;
  is_gsm : bool;
  pin : option string;
  filter : udiald_device_filter;
  modem : udiald_modem;
  custom_profiles : list udiald_profile;
  verbose : Z;
  signaled : Z
}.

(** ** The world around the process *)

(** A USB device as discovery sees it. *)
Record usb_device := {
  usb_vendor : Z;
  usb_device_no : Z;
  usb_driver : string;
  usb_id : string;
  usb_ttys : list string
}.

(** What [wait] reports of a child that is gone (neither [WUNTRACED] nor
    [WCONTINUED] is in use): [WIFEXITED] with [WEXITSTATUS], or
    [WIFSIGNALED] with [WTERMSIG]. *)
Inductive wait_status :=
| WExited (code : Z)
| WSignaled (sig : Z).

Record world := {
  (** the configuration store: (section, option) to value *)
  w_uci : gmap (string * string) string;
  (** list-valued options of the store *)
  w_uci_lists : gmap (string * string) (list string);
  (** every command handed to [write] on the control line, oldest first *)
  w_tty_out : list string;
  (** what the coming calls of [write] return; the full length once the
      list is used up *)
  w_write_ret : list Z;
  (** what the coming calls of [udiald_tty_get] are delivered *)
  w_tty_in : list (list poll_event);
  (** what automatic storage holds before it is written *)
  w_auto : udiald_tty_read;
  (** the USB devices present, in enumeration order *)
  w_usb : list usb_device;
  (** the filter flags of every discovery run so far *)
  w_discoveries : list Z;
  (** the link daemon: gone already when the supervise loop ends, and the
      status it leaves *)
  w_pppd_gone : bool;
  w_pppd_status : wait_status;
  (** signals sent with [kill] *)
  w_killed : list Z
}.

Definition with_uci (m : gmap (string * string) string) (w : world) : world :=
  {| w_uci := m; w_uci_lists := w_uci_lists w; w_tty_out := w_tty_out w;
     w_write_ret := w_write_ret w; w_tty_in := w_tty_in w; w_auto := w_auto w;
     w_usb := w_usb w; w_discoveries := w_discoveries w;
     w_pppd_gone := w_pppd_gone w; w_pppd_status := w_pppd_status w;
     w_killed := w_killed w |}.

(** UCI_SECTION_GLOBAL *)
Definition UCI_SECTION_GLOBAL : string := "udiald".

(** [ucix_get_option(uci, uciname, section, option)] and
    [ucix_add_option(uci, uciname, section, option, value)]. *)
Definition ucix_get_option (w : world) (sec opt : string) : option string :=
  w_uci w !! (sec, opt).

Definition ucix_add_option (sec opt value : string) (w : world) : world :=
  with_uci (<[(sec, opt) := value]> (w_uci w)) w.

(** Modelled from the spec: the helpers of config.c, which is not among the
    sources.  They read and write the option [key] of the section named
    after the network; an integer is stored in decimal, and one that is
    unset or does not parse reads as the default; reverting an option
    leaves it unset. *)
Definition udiald_config_get (st : udiald_state) (key : string) (w : world) : option string :=
  ucix_get_option w (networkname st) key.

Definition udiald_config_set (st : udiald_state) (key value : string) (w : world) : world :=
  ucix_add_option (networkname st) key value w.

Definition udiald_config_revert (st : udiald_state) (key : string) (w : world) : world :=
  with_uci (delete (networkname st, key) (w_uci w)) w.

Definition udiald_config_get_int (st : udiald_state) (key : string) (def : Z) (w : world) : Z :=
  match udiald_config_get st key w with
  | Some s =>
      match NilZero.int_of_string s with
      | Some i => Z.of_int i
      | None => def
      end
  | None => def
  end.

Definition udiald_config_set_int (st : udiald_state) (key : string) (v : Z) (w : world) : world :=
  udiald_config_set st key (NilZero.string_of_int (Z.to_int v)) w.

Definition udiald_config_get_list (st : udiald_state) (key : string) (w : world) : list string :=
  default [] (w_uci_lists w !! (networkname st, key)).

(** ** The run monad: return, [exit], or stuck *)

Inductive stuck := Hang | Fault | Blocked.

Inductive run (A : Type) :=
| Ret (a : A) (w : world)
| Exit (code : Z) (w : world)
| Stuck (why : stuck) (w : world).
Arguments Ret {A} a w.
Arguments Exit {A} code w.
Arguments Stuck {A} why w.

Definition bind {A B : Type} (m : run A) (k : A → world → run B) : run B :=
  match m with
  | Ret a w => k a w
  | Exit c w => Exit c w
  | Stuck y w => Stuck y w
  end.

(** ** Access to the control line *)

Definition CRs : string := String CR EmptyString.
Definition LFs : string := String LF EmptyString.
Definition DQs : string := String DQUOTE EmptyString.

Definition with_tty_out (out : list string) (rets : list Z) (w : world) : world :=
  {| w_uci := w_uci w; w_uci_lists := w_uci_lists w; w_tty_out := out;
     w_write_ret := rets; w_tty_in := w_tty_in w; w_auto := w_auto w;
     w_usb := w_usb w; w_discoveries := w_discoveries w;
     w_pppd_gone := w_pppd_gone w; w_pppd_status := w_pppd_status w;
     w_killed := w_killed w |}.

Definition with_tty_in (scripts : list (list poll_event)) (w : world) : world :=
  {| w_uci := w_uci w; w_uci_lists := w_uci_lists w; w_tty_out := w_tty_out w;
     w_write_ret := w_write_ret w; w_tty_in := scripts; w_auto := w_auto w;
     w_usb := w_usb w; w_discoveries := w_discoveries w;
     w_pppd_gone := w_pppd_gone w; w_pppd_status := w_pppd_status w;
     w_killed := w_killed w |}.

Definition with_uci_lists (m : gmap (string * string) (list string)) (w : world) : world :=
  {| w_uci := w_uci w; w_uci_lists := m; w_tty_out := w_tty_out w;
     w_write_ret := w_write_ret w; w_tty_in := w_tty_in w; w_auto := w_auto w;
     w_usb := w_usb w; w_discoveries := w_discoveries w;
     w_pppd_gone := w_pppd_gone w; w_pppd_status := w_pppd_status w;
     w_killed := w_killed w |}.

Definition with_discoveries (l : list Z) (w : world) : world :=
  {| w_uci := w_uci w; w_uci_lists := w_uci_lists w; w_tty_out := w_tty_out w;
     w_write_ret := w_write_ret w; w_tty_in := w_tty_in w; w_auto := w_auto w;
     w_usb := w_usb w; w_discoveries := l;
     w_pppd_gone := w_pppd_gone w; w_pppd_status := w_pppd_status w;
     w_killed := w_killed w |}.

Definition with_killed (l : list Z) (w : world) : world :=
  {| w_uci := w_uci w; w_uci_lists := w_uci_lists w; w_tty_out := w_tty_out w;
     w_write_ret := w_write_ret w; w_tty_in := w_tty_in w; w_auto := w_auto w;
     w_usb := w_usb w; w_discoveries := w_discoveries w;
     w_pppd_gone := w_pppd_gone w; w_pppd_status := w_pppd_status w;
     w_killed := l |}.

(** [udiald_tty_put(fd, cmd)]: -1 unless [write] takes the whole command.
    The command is logged in [w_tty_out] whatever [write] returns. *)
Definition udiald_tty_put (cmd : string) (w : world) : Z * world :=
  let n := Z.of_nat (String.length cmd) in
  let ret := default n (head (w_write_ret w)) in
  (if (ret =? n)%Z then n else (-1)%Z,
   with_tty_out (w_tty_out w ++ [cmd]) (tail (w_write_ret w)) w).

(** [snprintf(b, size, ...)]: at most [size - 1] bytes are kept. *)
Definition snprintf (size : nat) (s : string) : string :=
  string_of_list_ascii (take (size - 1) (chars s)).

(** [strpbrk(s, accept) != NULL] *)
Definition strpbrk (s accept : string) : bool :=
  existsb (fun c => existsb (Ascii.eqb c) (chars accept)) (chars s).

(** The characters refused in a PIN or PUK: double quote, CR, LF,
    semicolon. *)
Definition at_forbidden : string := DQs ++ CRs ++ LFs ++ ";".

(** The characters refused in the user name and password of the link
    daemon: double quote, CR, LF. *)
Definition pppd_forbidden : string := DQs ++ CRs ++ LFs.

Section Session.
Context {T : target} {H : udiald_h}.

(** [udiald_tty_get(state->ctlfd, &r, prefix, timeout)] on the control
    line.  [tcflush(fd, TCIFLUSH)] before it has nothing to do here: the
    script of a call lists just what that call gets to read. *)
Definition tty_get (r : udiald_tty_read) (prefix : option string) (timeout : Z)
    (w : world) : get_out * world :=
  (udiald_tty_get r prefix timeout (default [] (head (w_tty_in w))),
   with_tty_in (tail (w_tty_in w)) w).

(** [if (code && state.flags & UDIALD_FLAG_SIGNALED) code = UDIALD_ESIGNALED;] *)
Definition surfaced (st : udiald_state) (code : Z) : Z :=
  if negb (code =? 0)%Z && negb (Z.land (flags st) UDIALD_FLAG_SIGNALED =? 0)%Z
  then UDIALD_ESIGNALED else code.

(** [udiald_exitcode(code, fmt, ...)]; [msg] is the formatted message,
    [None] for a null [fmt].  Logging is left out. *)
Definition udiald_exitcode {A : Type} (code : Z) (msg : option string)
    (st : udiald_state) (w : world) : run A :=
  let code := surfaced st code in
  let w :=
    if negb (code =? 0)%Z && negb (code =? UDIALD_ESIGNALED)%Z then
      let w := udiald_config_set_int st "udiald_error_code" code w in
      match msg with
      | Some m => udiald_config_set st "udiald_error_msg" (snprintf 256 m) w
      | None => udiald_config_revert st "udiald_error_msg" w
      end
    else w in
  let w :=
    if app_eqb (app st) UDIALD_APP_CONNECT then
      if negb (code =? UDIALD_OK)%Z
      then udiald_config_set st "udiald_state" "error" w
      else udiald_config_revert st "udiald_state" w
    else w in
  Exit code w.

(** The value a call of the flattener contributes to a message; the run
    is stuck when the call does not come back. *)
Definition flattened {A : Type} (r : udiald_tty_read) (w : world)
    (k : string → run A) : run A :=
  match udiald_tty_flatten_result r with
  | FlatOk _ s => k (string_of_list_ascii s)
  | FlatFault => Stuck Fault w
  | FlatHang => Stuck Hang w
  end.

Definition is_at_ok (g : get_ret) : bool :=
  match g with GetTag UDIALD_AT_OK => true | _ => false end.

(** A call of the reader that does not come back leaves the run stuck. *)
Definition got {A : Type} (o : get_out) (w : world) (k : run A) : run A :=
  match go_ret o with
  | GetFault => Stuck Fault w
  | GetBlocked => Stuck Blocked w
  | _ => k
  end.

(** [udiald_identify] *)
Definition udiald_identify (st : udiald_state) (w : world) : run unit :=
  let r := w_auto w in
  let '(n, w) := udiald_tty_put ("AT+CGMI;+CGMM" ++ CRs) w in
  if (n <? 1)%Z then udiald_exitcode UDIALD_EMODEM (Some "Unable to identify modem"%string) st w
  else
    let '(o, w) := tty_get r None 2500 w in
    got o w
      (let r := go_r o in
       if negb (is_at_ok (go_ret o)) || (lines r <? 3)
       then udiald_exitcode UDIALD_EMODEM (Some "Unable to identify modem"%string) st w
       else
         match raw_lines r !! 0, raw_lines r !! 1 with
         | Some l0, Some l1 =>
             let b := snprintf 512 (string_of_list_ascii (cstr_at (raw_buf r) l0) ++ " "
                                    ++ string_of_list_ascii (cstr_at (raw_buf r) l1)) in
             Ret tt (udiald_config_set st "modem_name" b w)
         | _, _ => Stuck Fault w
         end).

(** [udiald_enter_puk] *)
Definition udiald_enter_puk (puk pin : string) (st : udiald_state) (w : world) : run unit :=
  bind (if negb (sim_state st =? 2)%Z
        then udiald_exitcode UDIALD_ESIM (Some "Cannot use PUK - SIM not locked"%string) st w
        else Ret tt w)
    (fun _ w =>
  bind (if strpbrk pin at_forbidden || strpbrk puk at_forbidden
        then udiald_exitcode UDIALD_EINVAL (Some "Invalid PIN or PUK"%string) st w
        else Ret tt w)
    (fun _ w =>
  let b := snprintf 512 ("AT+CPIN=" ++ DQs ++ puk ++ DQs ++ "," ++ DQs ++ pin ++ DQs ++ CRs) in
  let r := w_auto w in
  let '(n, w) := udiald_tty_put b w in
  if (0 <=? n)%Z then
    let '(o, w) := tty_get r None 2500 w in
    got o w
      (if is_at_ok (go_ret o)
       then udiald_exitcode UDIALD_OK None st (udiald_config_set st "sim_state" "ready" w)
       else udiald_exitcode UDIALD_EUNLOCK (Some "Failed to reset PIN"%string) st w)
  else udiald_exitcode UDIALD_EUNLOCK (Some "Failed to reset PIN"%string) st w)).

(** The tail of the three refusals of [udiald_enter_pin]: exit unless
    probing, where the failure is only logged. *)
Definition refuse (code : Z) (msg : string) (st : udiald_state) (w : world) : run unit :=
  if negb (app_eqb (app st) UDIALD_APP_PROBE)
  then udiald_exitcode code (Some msg) st w
  else Ret tt w.

(** The PIN to try: [state->pin], or else the option [udiald_pin]. *)
Definition candidate_pin (st : udiald_state) (w : world) : option string :=
  match pin st with
  | Some p => Some p
  | None => udiald_config_get st "udiald_pin" w
  end.

(** [udiald_enter_pin]; the five seconds of sleep at its end are left out. *)
Definition udiald_enter_pin (st : udiald_state) (w : world) : run unit :=
  match candidate_pin st w with
  | None | Some EmptyString => refuse UDIALD_EUNLOCK "No PIN configured" st w
  | Some pin =>
      if strpbrk pin at_forbidden
      then refuse UDIALD_EINVAL ("Invalid PIN configured (" ++ pin ++ ")") st w
      else
        let failed := ucix_get_option w UCI_SECTION_GLOBAL "failed_pin" in
        if match failed with Some f => String.eqb pin f | None => false end
        then refuse UDIALD_ESIM
               ("Not retrying previously failed pin (" ++ default EmptyString failed ++ ")") st w
        else
          let w := udiald_config_revert st "failed_pin" w in
          let b := snprintf 512 ("AT+CPIN=" ++ DQs ++ pin ++ DQs ++ CRs) in
          let r := w_auto w in
          let '(n, w) := udiald_tty_put b w in
          let rejected (r : udiald_tty_read) (w : world) : run unit :=
            let w := ucix_add_option UCI_SECTION_GLOBAL "failed_pin" pin w in
            flattened r w (fun flat =>
              refuse UDIALD_EUNLOCK ("PIN " ++ pin ++ " rejected (" ++ flat ++ ")") st w) in
          if (n <? 0)%Z then rejected r w
          else
            let '(o, w) := tty_get r None 2500 w in
            got o w
              (if negb (is_at_ok (go_ret o)) then rejected (go_r o) w
               else Ret tt (udiald_config_set st "sim_state" "ready" w))
  end.

End Session.

(** ** Modes, profiles and discovery *)

(** Modelled from the spec: [udiald_modem_modestr] and
    [udiald_modem_modeval] of modem.c, which is not among the sources.  The
    five tags carry the names of section 3 of the spec; a name that is none
    of them maps to the invalid sentinel (-1, here [None]).  What
    [udiald_modem_modestr] returns for the sentinel is not specified; the
    empty string stands in. *)
Definition udiald_modem_modestr (m : option udiald_mode) : string :=
  match m with
  | Some UDIALD_MODE_AUTO => "auto"
  | Some UDIALD_FORCE_UMTS => "force-umts"
  | Some UDIALD_FORCE_GPRS => "force-gprs"
  | Some UDIALD_PREFER_UMTS => "prefer-umts"
  | Some UDIALD_PREFER_GPRS => "prefer-gprs"
  | None => EmptyString
  end.

Definition all_modes : list udiald_mode :=
  [UDIALD_MODE_AUTO; UDIALD_FORCE_UMTS; UDIALD_FORCE_GPRS; UDIALD_PREFER_UMTS;
   UDIALD_PREFER_GPRS].

Definition udiald_modem_modeval (name : string) : option udiald_mode :=
  List.find (fun m => String.eqb (udiald_modem_modestr (Some m)) name) all_modes.

(** A [modecmd] initialiser: the five entries in the order of the enum. *)
Definition modecmds (a fu fg pu pg : option string) (m : udiald_mode) : option string :=
  match m with
  | UDIALD_MODE_AUTO => a
  | UDIALD_FORCE_UMTS => fu
  | UDIALD_FORCE_GPRS => fg
  | UDIALD_PREFER_UMTS => pu
  | UDIALD_PREFER_GPRS => pg
  end.

Definition huawei_modes : udiald_mode → option string :=
  modecmds (Some ("AT^SYSCFG=2,2,40000000,2,4" ++ CRs)%string)
           (Some ("AT^SYSCFG=14,2,40000000,2,4" ++ CRs)%string)
           (Some ("AT^SYSCFG=13,1,40000000,2,4" ++ CRs)%string)
           (Some ("AT^SYSCFG=2,2,40000000,2,4" ++ CRs)%string)
           (Some ("AT^SYSCFG=2,1,40000000,2,4" ++ CRs)%string).

Definition auto_only : udiald_mode → option string :=
  modecmds (Some EmptyString) None None None None.

Definition mk_profile (n : string) (v d : Z) (drv : option string) (ctl dat : nat)
    (cmds : udiald_mode → option string) : udiald_profile :=
  {| pname := n; pvendor := v; pdevice := d; pdriver := drv;
     cfg := {| ctlidx := ctl; datidx := dat; modecmd := cmds |} |}.

(** deviceconfig.h: the built-in table, in its order. *)
Definition profiles : list udiald_profile :=
  [ mk_profile "Ericsson F3705G" 0x0bdb 0x1900 None 1 0
      (modecmds (Some ("AT+CFUN=1" ++ CRs)%string) (Some ("AT+CFUN=6" ++ CRs)%string)
                (Some ("AT+CFUN=5" ++ CRs)%string) None None);
    mk_profile "Alcatel X060s" 0x1bbb 0x0000 None 1 2 auto_only;
    mk_profile "Huawei K3520" 0x12d1 0x1001 None 2 0 huawei_modes;
    mk_profile "Huawei E173" 0x12d1 0x1433 None 2 0 huawei_modes;
    mk_profile "Huawei generic" 0x12d1 0 None 1 0 huawei_modes;
    mk_profile "ZTE generic" 0x19d2 0 None 1 2
      (modecmds (Some ("AT+ZSNT=0,0,0" ++ CRs)%string) (Some ("AT+ZSNT=2,0,0" ++ CRs)%string)
                (Some ("AT+ZSNT=1,0,0" ++ CRs)%string) (Some ("AT+ZSNT=0,0,2" ++ CRs)%string)
                (Some ("AT+ZSNT=0,0,1" ++ CRs)%string));
    mk_profile "Option generic" 0 0 (Some "option"%string) 1 0 auto_only;
    mk_profile "Sierra generic" 0 0 (Some "sierra"%string) 0 2 auto_only;
    mk_profile "HSO generic" 0 0 (Some "hso"%string) 0 3
      (modecmds (Some ("at_opsys=2,2" ++ CRs)%string) (Some ("at_opsys=1,2" ++ CRs)%string)
                (Some ("at_opsys=0,2" ++ CRs)%string) (Some ("at_opsys=2,2" ++ CRs)%string)
                (Some ("at_opsys=3,2" ++ CRs)%string));
    mk_profile "CDC generic" 0 0 (Some "cdc_acm"%string) 1 0 auto_only;
    mk_profile "USB serial generic" 0 0 (Some "usbserial"%string) 0 2 auto_only ].

Definition set_filter_flags (z : Z) (f : udiald_device_filter) : udiald_device_filter :=
  {| fflags := z; fvendor := fvendor f; fdevice := fdevice f;
     fdevice_id := fdevice_id f; fprofile_name := fprofile_name f |}.

Definition set_filter (f : udiald_device_filter) (st : udiald_state) : udiald_state :=
  {| app := app st; flags := flags st; networkname := networkname st;
     sim_state := sim_state st; is_gsm := is_gsm st; pin := pin st; filter := f;
     modem := modem st; custom_profiles := custom_profiles st;
     verbose := verbose st; signaled := signaled st |}.

Definition set_modem (m : udiald_modem) (st : udiald_state) : udiald_state :=
  {| app := app st; flags := flags st; networkname := networkname st;
     sim_state := sim_state st; is_gsm := is_gsm st; pin := pin st;
     filter := filter st; modem := m; custom_profiles := custom_profiles st;
     verbose := verbose st; signaled := signaled st |}.

Section Discovery.
Context {H : udiald_h}.

(** Section 4.3 of the spec: every selector of the profile that is set
    equals the field of the candidate. *)
Definition profile_matches (p : udiald_profile) (d : usb_device) : bool :=
  ((pvendor p =? 0)%Z || (pvendor p =? usb_vendor d)%Z) &&
  ((pdevice p =? 0)%Z || (pdevice p =? usb_device_no d)%Z) &&
  match pdriver p with
  | None => true
  | Some s => String.eqb s (usb_driver d)
  end.

(** The profile of a candidate: the first entry of the user profiles
    followed by the built-in ones that matches it and, when the filter
    names a profile, carries that name. *)
Definition match_profile (st : udiald_state) (f : udiald_device_filter)
    (d : usb_device) : option udiald_profile :=
  List.find (fun p => profile_matches p d &&
                      match fprofile_name f with
                      | None => true
                      | Some n => String.eqb n (pname p)
                      end)
            (custom_profiles st ++ profiles).

Definition flag_set (z mask : Z) : bool := negb (Z.land z mask =? 0)%Z.

(** Section 4.4 of the spec: the set fields of the filter must all match. *)
Definition filter_accepts (f : udiald_device_filter) (d : usb_device) : bool :=
  (negb (flag_set (fflags f) UDIALD_FILTER_VENDOR) || (fvendor f =? usb_vendor d)%Z) &&
  (negb (flag_set (fflags f) UDIALD_FILTER_DEVICE) || (fdevice f =? usb_device_no d)%Z) &&
  match fdevice_id f with
  | None => true
  | Some i => String.eqb i (usb_id d)
  end.

Definition survives (st : udiald_state) (f : udiald_device_filter) (d : usb_device) : bool :=
  filter_accepts f d &&
  (negb (flag_set (fflags f) UDIALD_FILTER_PROFILE) || bool_decide (is_Some (match_profile st f d))).

(** Modelled from the spec: [udiald_modem_find_devices] of modem.c, which
    is not among the sources, after section 4.4.  Candidates that fail a set
    field of the filter are rejected, and so are, under the require-profile
    flag, candidates without a matching profile; the first survivor in
    enumeration order is chosen; an index of the profile outside the list of
    endpoints is a failure.  The spec names no code for the failures;
    [UDIALD_ENOMODEM] stands in.  Every run is logged with the flags of its
    filter. *)
Definition udiald_modem_find_devices (st : udiald_state) (f : udiald_device_filter)
    (w : world) : Z * udiald_modem * world :=
  let w' := with_discoveries (w_discoveries w ++ [fflags f]) w in
  match List.find (survives st f) (w_usb w) with
  | None => (UDIALD_ENOMODEM, modem st, w')
  | Some d =>
      let m ctl dat p :=
        {| vendor := usb_vendor d; device := usb_device_no d; driver := usb_driver d;
           device_id := usb_id d; ttys := usb_ttys d; ctl_tty := ctl; dat_tty := dat;
           profile := p |} in
      match match_profile st f d with
      | None => (UDIALD_OK, m EmptyString EmptyString None, w')
      | Some p =>
          match usb_ttys d !! ctlidx (cfg p), usb_ttys d !! datidx (cfg p) with
          | Some ctl, Some dat => (UDIALD_OK, m ctl dat (Some p), w')
          | _, _ => (UDIALD_ENOMODEM, modem st, w')
          end
      end
  end.

End Discovery.

(** [%04x] of a 16-bit value. *)
Definition hex_digit (z : Z) : ascii :=
  default "?"%char (chars "0123456789abcdef" !! Z.to_nat z).

Definition hex4 (z : Z) : string :=
  string_of_list_ascii
    [hex_digit (z / 4096 mod 16)%Z; hex_digit (z / 256 mod 16)%Z;
     hex_digit (z / 16 mod 16)%Z; hex_digit (z mod 16)%Z].

(** [%i] and [%d] *)
Definition dec (z : Z) : string := NilZero.string_of_int (Z.to_int z).

(** ** The later phases of the session *)

Section Phases.
Context {T : target} {H : udiald_h}.

(** [udiald_set_mode].  The format of the failure message has two
    directives for three arguments: the flattened response is computed and
    then not printed. *)
Definition udiald_set_mode (st : udiald_state) (w : world) : run unit :=
  let m := udiald_config_get st "udiald_mode" w in
  let mode := udiald_modem_modeval
                match m with
                | Some (String a s) => String a s
                | _ => "auto"%string
                end in
  let unsupported : run unit :=
    udiald_exitcode UDIALD_EINVAL
      (Some ("Unsupported mode (" ++ udiald_modem_modestr mode ++ ")")%string) st w in
  match mode with
  | None => unsupported
  | Some md =>
      match profile (modem st) with
      | None => Stuck Fault w
      | Some prof =>
          match modecmd (cfg prof) md with
          | None => unsupported
          | Some cmd =>
              let failed (r : udiald_tty_read) (w : world) : run unit :=
                flattened r w (fun _ =>
                  udiald_exitcode UDIALD_EMODEM
                    (Some ("Failed to set mode " ++ device_id (modem st) ++ " ("
                           ++ udiald_modem_modestr mode ++ ")")%string) st w) in
              match cmd with
              | EmptyString => Ret tt w
              | _ =>
                  let r := w_auto w in
                  let '(n, w) := udiald_tty_put cmd w in
                  if (n <? 0)%Z then failed r w
                  else
                    let '(o, w) := tty_get r None 5000 w in
                    got o w (if negb (is_at_ok (go_ret o)) then failed (go_r o) w
                             else Ret tt w)
              end
          end
      end
  end.

(** The statements of the [switch] of [udiald_connect_finish] in their
    order, and the statement each label jumps to. *)
Definition pppd_cases (code : Z) : list (Z * string) :=
  [ (UDIALD_EMODEM, "pppd: modem error"%string);
    (UDIALD_EDIAL, "pppd: dialing error"%string);
    (UDIALD_ENETWORK, "ppd: terminated by network"%string);
    (UDIALD_EAUTH, "pppd: invalid credentials"%string);
    (UDIALD_EPPP, ("pppd: other error (" ++ dec code ++ ")")%string) ].

Definition pppd_label (code : Z) : nat :=
  if (code =? 7)%Z || (code =? 16)%Z then 0
  else if (code =? 8)%Z then 1
  else if (code =? 0)%Z || (code =? 15)%Z then 2
  else if (code =? 19)%Z then 3
  else 4.

(** Statements run one after the other; [udiald_exitcode] does not come
    back, so a case that falls through is never seen to. *)
Fixpoint run_cases (cases : list (Z * string)) (st : udiald_state) (w : world) : run unit :=
  match cases with
  | [] => Ret tt w
  | (code, msg) :: rest =>
      bind (udiald_exitcode (A := unit) code (Some msg) st w)
           (fun _ w => run_cases rest st w)
  end.

Definition SIGTERM : Z := 15.

(** [udiald_connect_finish] *)
Definition udiald_connect_finish (st : udiald_state) (w : world) : run unit :=
  let w := udiald_config_revert st "pid" w in
  let w := udiald_config_revert st "connected" w in
  let w := udiald_config_revert st "provider" w in
  let w := udiald_config_revert st "rssi" w in
  let '(_, w) := udiald_tty_put ("ATH;&F" ++ CRs) w in
  bind (if negb (w_pppd_gone w)
        then udiald_exitcode UDIALD_ESIGNALED
               (Some ("Terminated by signal " ++ dec (signaled st))%string) st
               (with_killed (w_killed w ++ [SIGTERM]) w)
        else Ret tt w)
    (fun _ w =>
  bind (match w_pppd_status w with
        | WSignaled _ => udiald_exitcode UDIALD_ESIGNALED (Some "pppd terminated"%string) st w
        | WExited code =>
            if (code =? 5)%Z
            then udiald_exitcode UDIALD_ESIGNALED (Some "pppd terminated"%string) st w
            else Ret tt w
        end)
    (fun _ w =>
  let code := match w_pppd_status w with WExited c => c | WSignaled _ => 0%Z end in
  run_cases (drop (pppd_label code) (pppd_cases code)) st w)).

(** Modelled from the spec: [udiald_config_append] of config.c, which is
    not among the sources: one more value of a list option. *)
Definition udiald_config_append (st : udiald_state) (key value : string) (w : world) : world :=
  with_uci_lists
    (<[(networkname st, key) := udiald_config_get_list st key w ++ [value]]> (w_uci_lists w)) w.

(** [udiald_select_modem] *)
Definition udiald_select_modem (st : udiald_state) (w : world) : run udiald_state :=
  let st := set_filter (set_filter_flags (Z.lor (fflags (filter st)) UDIALD_FILTER_PROFILE)
                          (filter st)) st in
  let '(e, m, w) := udiald_modem_find_devices st (filter st) w in
  if negb (e =? UDIALD_OK)%Z
  then udiald_exitcode e (Some "No usable modem found"%string) st w
  else
    let st := set_modem m st in
    let b := (hex4 (vendor m) ++ ":" ++ hex4 (device m))%string in
    let w := udiald_config_set st "modem_id" b w in
    let w := udiald_config_set st "modem_driver" (driver m) w in
    match profile m with
    | None => Stuck Fault w
    | Some prof =>
        Ret st
          (fold_left
             (fun w i =>
                match modecmd (cfg prof) i with
                | Some _ => udiald_config_append st "modem_mode"
                              (udiald_modem_modestr (Some i)) w
                | None => w
                end)
             all_modes w)
    end.

(** Where [main] stands once modem selection is behind it: handed over to
    code outside these sources ([udiald_dial_main] and the two listings), or
    on its way with the selected modem. *)
Inductive main_stage :=
| HandedOver (a : udiald_app)
| Selected (st : udiald_state).

(** [main] from the dispatch on [state.app] up to [udiald_select_modem];
    [st] is the state as the command line left it. *)
Definition main_to_select (st : udiald_state) (w : world) : run main_stage :=
  if app_eqb (app st) UDIALD_APP_DIAL then Ret (HandedOver UDIALD_APP_DIAL) w
  else if app_eqb (app st) UDIALD_APP_LIST_PROFILES
  then Ret (HandedOver UDIALD_APP_LIST_PROFILES) w
  else if app_eqb (app st) UDIALD_APP_LIST_DEVICES
  then Ret (HandedOver UDIALD_APP_LIST_DEVICES) w
  else
    if app_eqb (app st) UDIALD_APP_CONNECT
       && negb (Z.land (flags st) UDIALD_FLAG_TESTSTATE =? 0)%Z
       && (udiald_config_get_int st "udiald_error" UDIALD_OK w =? UDIALD_EUNLOCK)%Z
    then Exit UDIALD_EUNLOCK w
    else
      let w := fold_left (fun w k => udiald_config_revert st k w)
                 ["modem_name"; "modem_driver"; "modem_id"; "modem_mode"; "modem_gsm";
                  "sim_state"; "udiald_error_code"; "udiald_error_msg"]%string w in
      let w := if app_eqb (app st) UDIALD_APP_CONNECT
               then udiald_config_set st "udiald_state" "init" w else w in
      bind (udiald_select_modem st w) (fun st w => Ret (Selected st) w).

End Phases.

(** ** tty.c: the configuration of the link daemon *)

(** What the system calls of [udiald_tty_pppd] meet. *)
Record pppd_env := {
  pe_pid : Z;
  pe_unlink : option errno;
  pe_open_ok : bool;
  pe_fdopen_ok : bool;
  pe_exe : option string;
  pe_vfork : Z
}.

(** What [udiald_tty_pppd] leaves: the value returned, the path of the
    file and, once the file is open, the strings written to it in order. *)
Record pppd_out := {
  po_ret : Z;
  po_path : string;
  po_file : option (list string)
}.

(** The value printed between the quotes of [user] and [password]: the
    option itself when it is set, not empty and free of the characters of
    [pppd_forbidden], the empty string otherwise. *)
Definition pppd_literal (s : option string) : string :=
  match s with
  | Some (String a r) =>
      if strpbrk (String a r) pppd_forbidden then EmptyString else String a r
  | _ => EmptyString
  end.

(** The [connect] directive: [buf] after [memcpy], [readlink] and
    [snprintf]. *)
Definition connect_line (st : udiald_state) (prof : udiald_profile) (exe : option string) : string :=
  let path := match exe with
              | Some p => take 246 (chars p)
              | None => []
              end in
  let l : Z := match exe with
               | Some _ => Z.of_nat (length path)
               | None => (-1)%Z
               end in
  let verbose_opts : string :=
    if (verbose st =? 0)%Z then EmptyString
    else if (verbose st =? 1)%Z then " -v" else " -v -v" in
  let head := take (Z.to_nat (9 + l)) (chars ("connect " ++ DQs) ++ path) in
  (string_of_list_ascii head ++
   snprintf (Z.to_nat (256 - 9 - l))
     (" -d -n" ++ networkname st ++ " -D" ++ device_id (modem st) ++ " -p" ++ pname prof
      ++ " " ++ verbose_opts ++ DQs ++ LFs))%string.

(** [key "value"] and a line feed. *)
Definition quoted_line (key value : string) : string :=
  ((key ++ " " ++ DQs ++ value ++ DQs) ++ LFs)%string.

(** The strings that go into the file, one per call of [fputs], [fputc]
    or [fprintf]. *)
Definition pppd_file (e : pppd_env) (st : udiald_state) (prof : udiald_profile)
    (w : world) : list string :=
  let geti (key : string) (def : Z) : Z := udiald_config_get_int st key def w in
  let flag (key : string) (def : Z) (text : string) : list string :=
    if negb (geti key def =? 0)%Z then [text] else [] in
  let line (s : string) : string := (s ++ LFs)%string in
  ["/dev/"%string; dat_tty (modem st);
   (LFs ++ line "460800" ++ line "crtscts" ++ line "lock" ++ line "noauth"
    ++ line "noipdefault" ++ line "novj" ++ line "nodetach")%string]
  ++ match udiald_config_get st "ifname" w with
     | Some (String a r) => [("ifname " ++ DQs)%string; String a r; line DQs]
     | _ => []
     end
  ++ [connect_line st prof (pe_exe e);
      (quoted_line "linkname" (networkname st)
       ++ quoted_line "ipparam" (networkname st))%string]
  ++ flag "defaultroute" 1%Z (line "defaultroute")
  ++ flag "replacedefaultroute" 0%Z (line "replacedefaultroute")
  ++ flag "usepeerdns" 1%Z (line "usepeerdns")
  ++ flag "persist" 1%Z (line "persist")
  ++ (if (0 <? geti "unit" (-1)%Z)%Z
      then [line ("unit " ++ dec (geti "unit" (-1)%Z))%string] else [])
  ++ (if (0 <=? geti "maxfail" 1%Z)%Z
      then [line ("maxfail " ++ dec (geti "maxfail" 1%Z))%string] else [])
  ++ (if (0 <=? geti "holdoff" 0%Z)%Z
      then [line ("holdoff " ++ dec (geti "holdoff" 0%Z))%string] else [])
  ++ (if (0 <? geti "udiald_mtu" (-1)%Z)%Z
      then [(line ("mtu " ++ dec (geti "udiald_mtu" (-1)%Z))
             ++ line ("mru " ++ dec (geti "udiald_mtu" (-1)%Z)))%string] else [])
  ++ (if (0 <? geti "noremoteip" 1%Z)%Z then [line "noremoteip"] else [])
  ++ [line "lcp-echo-failure 12";
      quoted_line "user" (pppd_literal (udiald_config_get st "udiald_user" w));
      quoted_line "password" (pppd_literal (udiald_config_get st "udiald_pass" w))]
  ++ (if negb (verbose st =? 0)%Z then [line "logfd 2"] else [])
  ++ (if (2 <=? verbose st)%Z then [line "debug"] else [])
  ++ concat ((fun v => [v; LFs]) <$> udiald_config_get_list st "udiald_pppdopt" w).

(** [udiald_tty_pppd]; [None] when [state->modem.profile] is null.  The
    copy of the [connect] directive on standard output is left out. *)
Definition udiald_tty_pppd (e : pppd_env) (st : udiald_state) (w : world) : option pppd_out :=
  let cpath := ("/tmp/udiald-pppd-" ++ networkname st ++ "-" ++ dec (pe_pid e))%string in
  let stop := Some {| po_ret := 0; po_path := cpath; po_file := None |} in
  if match pe_unlink e with
     | Some err => negb (errno_eqb err ENOENT)
     | None => false
     end then stop
  else if negb (pe_open_ok e) then stop
  else if negb (pe_fdopen_ok e) then stop
  else
    match profile (modem st) with
    | None => None
    | Some prof =>
        Some {| po_ret := if (pe_vfork e =? -1)%Z then 0%Z else pe_vfork e;
                po_path := cpath;
                po_file := Some (pppd_file e st prof w) |}
    end.

(** ** Concrete targets, buffers and scripts *)

#[local] Instance lp64 : target := {| size_t_bits := 64 |}.

Definition crlf (s : string) : list ascii := chars s ++ [CR; LF].

Definition scenario4 : list poll_event :=
  [PollIn 0 (crlf "^RSSI:12" ++ crlf "+CPIN: READY" ++ crlf "OK") (ReadErr EAGAIN)].

#[local] Instance header : udiald_h :=
  {| UDIALD_FLAG_TESTSTATE := 1; UDIALD_FLAG_SIGNALED := 2;
     UDIALD_FILTER_VENDOR := 1; UDIALD_FILTER_DEVICE := 2; UDIALD_FILTER_PROFILE := 4 |}.

(** The sum of the waits of the polls of a call. *)
Definition total_waited (polls : list poll_call) : Z :=
  fold_right Z.add 0%Z (pc_waited <$> polls).

(** The reading of C5: every poll is given what is left of the timeout
    once the waits before it are taken off. *)
Definition polls_use_remaining (timeout : Z) (polls : list poll_call) : Prop :=
  ∀ i c, polls !! i = Some c → pc_timeout c = (timeout - total_waited (take i polls))%Z.

(** An answer that trickles in: two bursts, each two seconds after the
    poll that waits for it. *)
Definition slow_ok : list poll_event :=
  [PollIn 2000 (chars "O") (ReadErr EAGAIN); PollIn 2000 (chars "K" ++ [CR]) (ReadErr EAGAIN)].

Section IdentifyTerms.
Context {T : target}.

Definition identify_cmd : string := ("AT+CGMI;+CGMM" ++ CRs)%string.



End IdentifyTerms.

(** The three options [udiald_exitcode] writes. *)
Definition exit_keys : list string :=
  ["udiald_error_code"; "udiald_error_msg"; "udiald_state"]%string.

(** Two worlds that differ at most in the options of [keys]. *)
Definition same_but (keys : list string) (w w' : world) : Prop :=
  w_uci_lists w' = w_uci_lists w ∧ w_tty_out w' = w_tty_out w ∧
  w_write_ret w' = w_write_ret w ∧ w_tty_in w' = w_tty_in w ∧
  w_auto w' = w_auto w ∧ w_usb w' = w_usb w ∧
  w_discoveries w' = w_discoveries w ∧ w_pppd_gone w' = w_pppd_gone w ∧
  w_pppd_status w' = w_pppd_status w ∧ w_killed w' = w_killed w ∧
  ∀ sec key, key ∉ keys → w_uci w' !! (sec, key) = w_uci w !! (sec, key).

(** The answer of scenario 1 of the spec to [AT+CGMI;+CGMM]. *)
Definition huawei_answer : list poll_event :=
  [PollIn 0 (crlf "Huawei" ++ crlf "E220" ++ crlf "OK") (ReadErr EAGAIN)].


Definition no_filter : udiald_device_filter :=
  {| fflags := 0; fvendor := 0; fdevice := 0; fdevice_id := None; fprofile_name := None |}.

Definition no_modem : udiald_modem :=
  {| vendor := 0; device := 0; driver := EmptyString; device_id := EmptyString;
     ttys := []; ctl_tty := EmptyString; dat_tty := EmptyString; profile := None |}.

(** A state as the command line leaves it. *)
Definition state_of (a : udiald_app) (fl : Z) : udiald_state :=
  {| app := a; flags := fl; networkname := "wan"; sim_state := 0; is_gsm := false;
     pin := None; filter := no_filter; modem := no_modem; custom_profiles := [];
     verbose := 0; signaled := 0 |}.

(** A world with the given store and answers on the control line. *)
Definition world_of (store : list (string * string * string))
    (answers : list (list poll_event)) : world :=
  {| w_uci := list_to_map store; w_uci_lists := ∅; w_tty_out := []; w_write_ret := [];
     w_tty_in := answers; w_auto := blank_read 64 8 64; w_usb := [];
     w_discoveries := []; w_pppd_gone := true; w_pppd_status := WExited 0;
     w_killed := [] |}.

(** A run ends in [udiald_exitcode] called with [kind]. *)
Definition exits_with {H : udiald_h} {A : Type} (st : udiald_state) (r : run A) (kind : Z) : Prop :=
  ∃ w', r = Exit (surfaced st kind) w'.

(** Scenario 2 of the spec: the PIN that failed before is configured
    again. *)
Definition failed_pin_world : world :=
  world_of [("udiald", "failed_pin", "1234"); ("wan", "udiald_pin", "1234")]%string [].

Definition with_usb (l : list usb_device) (w : world) : world :=
  {| w_uci := w_uci w; w_uci_lists := w_uci_lists w; w_tty_out := w_tty_out w;
     w_write_ret := w_write_ret w; w_tty_in := w_tty_in w; w_auto := w_auto w;
     w_usb := l; w_discoveries := w_discoveries w;
     w_pppd_gone := w_pppd_gone w; w_pppd_status := w_pppd_status w;
     w_killed := w_killed w |}.

Definition with_pppd (gone : bool) (status : wait_status) (w : world) : world :=
  {| w_uci := w_uci w; w_uci_lists := w_uci_lists w; w_tty_out := w_tty_out w;
     w_write_ret := w_write_ret w; w_tty_in := w_tty_in w; w_auto := w_auto w;
     w_usb := w_usb w; w_discoveries := w_discoveries w;
     w_pppd_gone := gone; w_pppd_status := status;
     w_killed := w_killed w |}.

(** The first modem of scenario 1 of the spec. *)
Definition huawei_e220 : usb_device :=
  {| usb_vendor := 0x12d1; usb_device_no := 0x1001; usb_driver := "option";
     usb_id := "1.2-1"; usb_ttys := ["ttyUSB0"; "ttyUSB1"; "ttyUSB2"]%string |}.

(** A serial adapter no profile knows. *)
Definition stranger : usb_device :=
  {| usb_vendor := 0x0403; usb_device_no := 0x6001; usb_driver := "ftdi_sio";
     usb_id := "1.1"; usb_ttys := ["ttyUSB9"]%string |}.

(** The world a run leaves behind, whichever way it ends. *)
Definition world_after {A : Type} (r : run A) : world :=
  match r with
  | Ret _ w | Exit _ w | Stuck _ w => w
  end.

(** The store after a run that ended in a rejected PIN: what
    [udiald_exitcode] leaves when it is called with [UDIALD_EUNLOCK] in
    connect mode. *)
Definition after_unlock_failure : world :=
  world_after
    (udiald_exitcode (H := header) (A := unit) UDIALD_EUNLOCK
       (Some "PIN 1234 rejected (ERROR)"%string)
       (state_of UDIALD_APP_CONNECT 0)
       (with_usb [huawei_e220] (world_of [("wan", "udiald_pin", "1234")]%string []))).

(** The applications that go through modem selection. *)
Definition selecting_apps : list udiald_app :=
  [UDIALD_APP_CONNECT; UDIALD_APP_SCAN; UDIALD_APP_PROBE; UDIALD_APP_UNLOCK;
   UDIALD_APP_PINPUK].

(** The discovery runs that [w'] logs beyond those of [w]. *)
Definition new_discoveries (w w' : world) : list Z :=
  drop (length (w_discoveries w)) (w_discoveries w').

Section SetModeTerms.
Context {T : target}.

(** The mode [udiald_set_mode] asks for: the option [udiald_mode], or
    [auto] when that is unset or empty. *)
Definition wanted_mode (st : udiald_state) (w : world) : string :=
  match udiald_config_get st "udiald_mode" w with
  | Some (String a s) => String a s
  | _ => "auto"
  end.



(** [write] took the whole of [cmd]. *)
Definition written (cmd : string) (w : world) : Prop :=
  default (Z.of_nat (String.length cmd)) (head (w_write_ret w))
  = Z.of_nat (String.length cmd).

End SetModeTerms.

Definition with_profile (p : udiald_profile) (st : udiald_state) : udiald_state :=
  set_modem
    {| vendor := vendor (modem st); device := device (modem st);
       driver := driver (modem st); device_id := device_id (modem st);
       ttys := ttys (modem st); ctl_tty := ctl_tty (modem st);
       dat_tty := dat_tty (modem st); profile := Some p |} st.

Definition huawei_k3520 : udiald_profile :=
  mk_profile "Huawei K3520" 0x12d1 0x1001 None 2 0 huawei_modes.

(** The modem answers the mode command with an error. *)
Definition error_answer : list poll_event :=
  [PollIn 0 (crlf "ERROR") (ReadErr EAGAIN)].


(** The options other than the user name and the password that go into
    the file of the link daemon. *)
Definition pppd_keys : list string :=
  ["ifname"; "defaultroute"; "replacedefaultroute"; "usepeerdns"; "persist"; "unit";
   "maxfail"; "holdoff"; "udiald_mtu"; "noremoteip"]%string.

(** System calls that all go well. *)
Definition plain_env : pppd_env :=
  {| pe_pid := 4711; pe_unlink := Some ENOENT; pe_open_ok := true;
     pe_fdopen_ok := true; pe_exe := Some "/usr/sbin/udiald"%string; pe_vfork := 4712 |}.

(** A user name with a semicolon in it. *)
Definition semicolon_user : string := "a;b".

Definition semicolon_world : world :=
  world_of [("wan", "udiald_user", semicolon_user)]%string [].

(** A user name with a line feed in it. *)
Definition linefeed_user : string := ("a" ++ LFs ++ "b")%string.

(** A read buffer of 512 bytes that holds one committed line of 511 bytes,
    with a scratch buffer of 512 bytes. *)
Definition long_line_read : udiald_tty_read :=
  read_of_lines [replicate 511 "A"%char] 512.

(** The bytes of [txt] put one after the other. *)
Definition flat_emit (fin : nat) (txt : list ascii) (fs : flat_state) : flat_state :=
  fold_left (fun fs ch => flat_put fin ch fs) txt fs.

(** Every committed line of the buffer has its slot in the line table and
    ends in a NUL inside [raw_buf]. *)
Definition lines_terminated (r : udiald_tty_read) : Prop :=
  ∀ i, i < lines r → ∃ off, raw_lines r !! i = Some off ∧ NUL ∈ drop off (raw_buf r).

(** The bytes a script delivers in all. *)
Definition script_bytes (script : list poll_event) : nat :=
  sum_list ((fun ev => match ev with
                       | PollIn _ bytes _ => length bytes
                       | PollErr _ _ => 0
                       end) <$> script).

(** The line table has room: the slot of an open line is not the last
    one. *)
Definition slots_ok (s : get_state) : Prop :=
  if gs_in_newline s
  then lines (gs_r s) ≤ length (raw_lines (gs_r s)) - 1
  else lines (gs_r s) < length (raw_lines (gs_r s)) - 1.

(** ** Further buffers and scripts *)

(** A read buffer with the two committed lines of an identification that
    the modem cut short, and a scratch buffer of 32 bytes. *)
Definition two_line_read : udiald_tty_read :=
  read_of_lines [chars "Huawei"; chars "OK"] 32.

(** A read buffer whose one committed line, [ERROR], has five bytes, with a
    scratch buffer of six bytes: the quoted line would take seven. *)
Definition tight_read : udiald_tty_read :=
  read_of_lines [chars "ERROR"] 6.

(** A read buffer with the two committed lines [+CME] and [X] and a scratch
    buffer of nine bytes: the room ends with the separator. *)
Definition cut_read : udiald_tty_read :=
  read_of_lines [chars "+CME"; chars "X"] 9.

(** ** The answer as a stream of bytes *)

Definition is_newline (b : ascii) : bool := Ascii.eqb b CR || Ascii.eqb b LF.

(** The bytes a script delivers, in order. *)
Definition script_stream (script : list poll_event) : list ascii :=
  concat ((fun ev => match ev with
                     | PollIn _ bytes _ => bytes
                     | PollErr _ _ => []
                     end) <$> script).

(** Reading a stream byte by byte: the runs of bytes other than CR and LF
    that a CR or LF has ended so far, and the run that is still open. *)
Definition split_step (st : list (list ascii) * list ascii) (b : ascii)
    : list (list ascii) * list ascii :=
  if is_newline b then
    match snd st with
    | [] => st
    | _ => (fst st ++ [snd st], [])
    end
  else (fst st, snd st ++ [b]).

Definition stream_lines (bs : list ascii) : list (list ascii) * list ascii :=
  fold_left split_step bs ([], []).

(** An unsolicited notification: a line that begins with the caret. *)
Definition is_async (l : list ascii) : bool :=
  match l with
  | c :: _ => Ascii.eqb c CARET
  | [] => false
  end.

(** The ended lines of a stream that are no notifications, as C strings. *)
Definition kept_lines (bs : list ascii) : list (list ascii) :=
  cstr_of <$> List.filter (fun l => negb (is_async l)) (fst (stream_lines bs)).

(** [p] is a prefix of [l]. *)
Fixpoint begins (l p : list ascii) {struct p} : bool :=
  match p with
  | [] => true
  | c :: p' =>
      match l with
      | a :: l' => Ascii.eqb a c && begins l' p'
      | [] => false
      end
  end.

(** The text [l] begins with the C string [s]. *)
Definition text_begins (l : list ascii) (s : string) : bool :=
  begins l (cstr_of (chars s)).

(** The tag of the first entry of [ttyresstr] the text begins with. *)
Definition text_tag (l : list ascii) : option udiald_atres :=
  fst <$> List.find (fun e => text_begins l (snd e)) ttyresstr.

(** [result_line] points at the first committed line that begins with the
    prefix asked for, and is null when there is none. *)
Definition first_with_prefix (r : udiald_tty_read) (p : option string) : Prop :=
  match result_line r with
  | Some off =>
      ∃ i pre txt, p = Some pre ∧ raw_lines r !! i = Some off ∧
                   committed r !! i = Some txt ∧ text_begins txt pre = true ∧
                   ∀ j txt', j < i → committed r !! j = Some txt' →
                             text_begins txt' pre = false
  | None =>
      ∀ pre, p = Some pre → Forall (fun txt => text_begins txt pre = false) (committed r)
  end.

(** What a call of the reader has made of the bytes [done] it has taken:
    the committed lines are the kept lines of the stream; the result line
    is the first of them with the prefix; a returned tag is the tag of the
    last line, no line before it begins with a terminator, and the stream
    taken ends with the end of that line. *)
Definition answer_of (p : option string) (r : udiald_tty_read) (done : list ascii)
    (tag : option udiald_atres) : Prop :=
  committed r = kept_lines done ∧ first_with_prefix r p ∧
  match tag with
  | Some t =>
      ∃ txts txt, committed r = txts ++ [txt] ∧
                  Forall (fun l => text_tag l = None) txts ∧ text_tag txt = Some t ∧
                  snd (stream_lines done) = []
  | None => Forall (fun l => text_tag l = None) (committed r)
  end.

Section StreamInvariantDefs.
Context {T : target}.

(** The reader between two bytes, [done] being the bytes taken so far. *)
Record stream_inv (p : option string) (s : get_state) (done : list ascii) : Prop := {
  si_lines : committed (gs_r s) = kept_lines done;
  si_closed : gs_in_newline s = true → snd (stream_lines done) = [];
  si_open : gs_in_newline s = false →
            ∃ start, raw_lines (gs_r s) !! lines (gs_r s) = Some start ∧
                     snd (stream_lines done) ≠ [] ∧
                     gs_c s = start + length (snd (stream_lines done)) ∧
                     ∀ k a, snd (stream_lines done) !! k = Some a →
                            raw_buf (gs_r s) !! (start + k) = Some a;
  si_result : first_with_prefix (gs_r s) p;
  si_tags : Forall (fun l => text_tag l = None) (committed (gs_r s))
}.

(** The tag a call returned, if it returned one. *)
Definition tag_of (g : get_ret) : option udiald_atres :=
  match g with
  | GetTag t => Some t
  | _ => None
  end.

End StreamInvariantDefs.

(** ** The budgets of the reader *)

(** [r] is [r0] after some bytes: the arrays have kept their sizes, there
    are fewer committed lines than slots, and the last slot of the line
    table has not been written. *)
Definition within_budget (r0 r : udiald_tty_read) : Prop :=
  length (raw_lines r) = length (raw_lines r0) ∧
  length (raw_buf r) = length (raw_buf r0) ∧
  lines r ≤ length (raw_lines r0) - 1 ∧
  ∀ i, length (raw_lines r0) - 1 ≤ i → raw_lines r !! i = raw_lines r0 !! i.

(** ** What a call of the reader depends on *)

(** Two states of the reader with the same cursor, counters and array
    sizes. *)
Definition scalars_eq (s1 s2 : get_state) : Prop :=
  gs_c s1 = gs_c s2 ∧ gs_rem s1 = gs_rem s2 ∧ gs_in_newline s1 = gs_in_newline s2 ∧
  lines (gs_r s1) = lines (gs_r s2) ∧ result_line (gs_r s1) = result_line (gs_r s2) ∧
  length (raw_buf (gs_r s1)) = length (raw_buf (gs_r s2)) ∧
  length (raw_lines (gs_r s1)) = length (raw_lines (gs_r s2)).

(** What a caller can see of a read buffer: the number of lines, their
    texts, and where the result line is and what it says. *)
Definition same_read (r1 r2 : udiald_tty_read) : Prop :=
  lines r1 = lines r2 ∧ committed r1 = committed r2 ∧
  result_line r1 = result_line r2 ∧
  cstr_at (raw_buf r1) <$> result_line r1 = cstr_at (raw_buf r2) <$> result_line r2.

(** Automatic storage full of other bytes: what a caller may pass as
    [struct udiald_tty_read r] without having written to it. *)
Definition stale_read : udiald_tty_read :=
  {| raw_buf := replicate 64 "^"%char; raw_lines := replicate 8 63; lines := 7;
     result_line := Some 5; flat_buf := replicate 64 "x"%char |}.

(** ** Terms of the PIN and PUK phases *)

(** [AT+CPIN="<pin>"] and a CR, as [snprintf] leaves it in [b]. *)
Definition pin_command (p : string) : string :=
  snprintf 512 ("AT+CPIN=" ++ DQs ++ p ++ DQs ++ CRs).

(** [AT+CPIN="<puk>","<pin>"] and a CR, as [snprintf] leaves it in [b]. *)
Definition puk_command (puk p : string) : string :=
  snprintf 512 ("AT+CPIN=" ++ DQs ++ puk ++ DQs ++ "," ++ DQs ++ p ++ DQs ++ CRs).

(** The modem answers [OK]. *)
Definition ok_answer : list poll_event :=
  [PollIn 0 (crlf "OK") (ReadErr EAGAIN)].

(** The PIN 1234 is configured and the modem rejects it. *)
Definition wrong_pin_world : world :=
  world_of [("wan", "udiald_pin", "1234")]%string [error_answer].

Section PinTerms.
Context {T : target} {H : udiald_h}.

(** The part of [udiald_enter_pin] that follows the refusals. *)
Definition pin_attempt (p : string) (st : udiald_state) (w : world) : run unit :=
  let w := udiald_config_revert st "failed_pin" w in
  let r := w_auto w in
  let '(n, w) := udiald_tty_put (pin_command p) w in
  let rejected (r : udiald_tty_read) (w : world) : run unit :=
    let w := ucix_add_option UCI_SECTION_GLOBAL "failed_pin" p w in
    flattened r w (fun flat =>
      refuse UDIALD_EUNLOCK ("PIN " ++ p ++ " rejected (" ++ flat ++ ")") st w) in
  if (n <? 0)%Z then rejected r w
  else
    let '(o, w) := tty_get r None 2500 w in
    got o w
      (if negb (is_at_ok (go_ret o)) then rejected (go_r o) w
       else Ret tt (udiald_config_set st "sim_state" "ready" w)).

End PinTerms.

(** ** udiald.c: the phases between modem selection and dialling *)

Definition set_sim_state (z : Z) (st : udiald_state) : udiald_state :=
  {| app := app st; flags := flags st; networkname := networkname st;
     sim_state := z; is_gsm := is_gsm st; pin := pin st; filter := filter st;
     modem := modem st; custom_profiles := custom_profiles st;
     verbose := verbose st; signaled := signaled st |}.

Definition set_is_gsm (b : bool) (st : udiald_state) : udiald_state :=
  {| app := app st; flags := flags st; networkname := networkname st;
     sim_state := sim_state st; is_gsm := b; pin := pin st; filter := filter st;
     modem := modem st; custom_profiles := custom_profiles st;
     verbose := verbose st; signaled := signaled st |}.

(** [strstr(h, n) != NULL] on the texts of two C strings. *)
Fixpoint strstr (h n : list ascii) : bool :=
  begins h n ||
  match h with
  | [] => false
  | _ :: h' => strstr h' n
  end.

(** [!strcmp(r.result_line, s)] *)
Definition strcmp_eq (r : udiald_tty_read) (off : nat) (s : string) : bool :=
  String.eqb (string_of_list_ascii (cstr_at (raw_buf r) off)) s.

Section Probing.
Context {T : target} {H : udiald_h}.

(** [udiald_modem_reset]: the outcome of neither call is looked at. *)
Definition udiald_modem_reset (st : udiald_state) (w : world) : run unit :=
  let r := w_auto w in
  let '(_, w) := udiald_tty_put ("ATE0" ++ CRs) w in
  let '(o, w) := tty_get r None 2500 w in
  got o w (Ret tt w).

(** [udiald_check_sim] *)
Definition udiald_check_sim (st : udiald_state) (w : world) : run udiald_state :=
  let r := w_auto w in
  let '(n, w) := udiald_tty_put ("AT+CPIN?" ++ CRs) w in
  let unable (r : udiald_tty_read) (w : world) : run udiald_state :=
    flattened r w (fun _ =>
      let w := udiald_config_set st "sim_state" "error" w in
      let st := set_sim_state (-1) st in
      if negb (app_eqb (app st) UDIALD_APP_PROBE)
      then udiald_exitcode UDIALD_ESIM (Some "Unable to get SIM status"%string) st w
      else Ret st w) in
  if (n <? 1)%Z then unable r w
  else
    let '(o, w) := tty_get r (Some "+CPIN: "%string) 2500 w in
    got o w
      (let r := go_r o in
       if negb (is_at_ok (go_ret o)) then unable r w
       else
         match result_line r with
         | None => unable r w
         | Some off =>
             if strcmp_eq r off "+CPIN: READY" then
               Ret (set_sim_state 0 st) (udiald_config_set st "sim_state" "ready" w)
             else if strcmp_eq r off "+CPIN: SIM PIN" then
               Ret (set_sim_state 1 st) (udiald_config_set st "sim_state" "wantpin" w)
             else if strcmp_eq r off "+CPIN: SIM PUK" then
               Ret (set_sim_state 2 st) (udiald_config_set st "sim_state" "wantpuk" w)
             else
               let w := udiald_config_set st "sim_state" "error" w in
               let st := set_sim_state (-1) st in
               if negb (app_eqb (app st) UDIALD_APP_PROBE)
               then udiald_exitcode UDIALD_ESIM
                      (Some ("Unknown SIM status ("
                             ++ string_of_list_ascii (cstr_at (raw_buf r) off) ++ ")")%string)
                      st w
               else Ret st w
         end).

(** [udiald_check_caps] *)
Definition udiald_check_caps (st : udiald_state) (w : world) : run udiald_state :=
  let st := set_is_gsm false st in
  let r := w_auto w in
  let '(n, w) := udiald_tty_put ("AT+GCAP" ++ CRs) w in
  if (0 <=? n)%Z then
    let '(o, w) := tty_get r (Some "+GCAP: "%string) 2500 w in
    got o w
      (let r := go_r o in
       if is_at_ok (go_ret o) then
         match result_line r with
         | Some off =>
             if strstr (cstr_at (raw_buf r) off) (chars "CGSM")
             then Ret (set_is_gsm true st) (udiald_config_set st "modem_gsm" "1" w)
             else Ret st w
         | None => Ret st w
         end
       else Ret st w)
  else Ret st w.

(** [udiald_probe_cmd]; what it logs is left out, so that of the loop over
    the lines only the accesses to [raw_lines] remain. *)
Definition udiald_probe_cmd (cmd : string) (timeout : Z) (st : udiald_state) (w : world)
    : run unit :=
  let b := snprintf 511 (cmd ++ CRs) in
  let r := w_auto w in
  let '(n, w) := udiald_tty_put b w in
  let failed (r : udiald_tty_read) (w : world) : run unit :=
    flattened r w (fun _ => Ret tt w) in
  if (n <? 1)%Z then failed r w
  else
    let '(o, w) := tty_get r None timeout w in
    got o w
      (let r := go_r o in
       if negb (is_at_ok (go_ret o)) then failed r w
       else if forallb (fun i => bool_decide (is_Some (raw_lines r !! i))) (seq 0 (lines r))
       then Ret tt w
       else Stuck Fault w).

(** The commands of [udiald_probe] with their timeouts, in order. *)
Definition probe_cmds : list (string * Z) :=
  [ ("ATI", 2500); ("AT+GMI", 2500); ("AT^HWVER", 2500); ("AT+CGMR", 2500);
    ("AT+GMM", 2500); ("AT+GMR", 2500); ("AT^CARDLOCK?", 2500); ("AT+GCAP", 2500);
    ("AT+CLCK=" ++ DQs ++ "SC" ++ DQs ++ ",2", 2500); ("AT+CLCK=?", 2500);
    ("AT+CFUN?", 2500); ("AT+CFUN=?", 2500); ("AT+CGDCONT?", 2500);
    ("AT+CGDCONT=?", 2500); ("AT+CREG?", 2500); ("AT+CGREG?", 2500);
    ("AT+CEREG?", 2500); ("AT!SELRAT=?", 2500); ("AT+ZSNT?", 2500);
    ("AT^SYSCFG?", 2500); ("AT^SYSCFGEX?", 2500); ("AT^SYSCFGEX=?", 2500);
    ("AT^PREFMODE?", 2500); ("AT+COPS?", 2500); ("AT+COPS=?", 45000) ]%string%Z.

Fixpoint run_probe (cmds : list (string * Z)) (st : udiald_state) (w : world) : run unit :=
  match cmds with
  | [] => Ret tt w
  | (cmd, timeout) :: rest =>
      bind (udiald_probe_cmd cmd timeout st w) (fun _ w => run_probe rest st w)
  end.

(** [udiald_probe] *)
Definition udiald_probe (st : udiald_state) (w : world) : run unit :=
  run_probe probe_cmds st w.

End Probing.

(** The persisted name of a SIM state. *)
Definition sim_state_name (z : Z) : string :=
  if (z =? 0)%Z then "ready"
  else if (z =? 1)%Z then "wantpin"
  else if (z =? 2)%Z then "wantpuk"
  else "error".

(** The modem reports a SIM that wants its PIN. *)
Definition sim_pin_answer : list poll_event :=
  [PollIn 0 (crlf "+CPIN: SIM PIN" ++ crlf "OK") (ReadErr EAGAIN)].

(** The modem lists its capabilities. *)
Definition gcap_answer : list poll_event :=
  [PollIn 0 (crlf "+GCAP: +CGSM,+DS,+ES" ++ crlf "OK") (ReadErr EAGAIN)].

Section ProbingTerms.
Context {T : target}.

(** The answer to [AT+CPIN?] as the reader sees it. *)
Definition cpin_answer (w : world) : get_out :=
  udiald_tty_get (w_auto w) (Some "+CPIN: "%string) 2500 (default [] (head (w_tty_in w))).

(** The answer to [AT+GCAP] as the reader sees it. *)
Definition caps_answer (w : world) : get_out :=
  udiald_tty_get (w_auto w) (Some "+GCAP: "%string) 2500 (default [] (head (w_tty_in w))).

(** The text of the result line of an answer. *)
Definition result_text (o : get_out) : option string :=
  (fun off => string_of_list_ascii (cstr_at (raw_buf (go_r o)) off))
    <$> result_line (go_r o).

End ProbingTerms.

Section SimChecked.
Context {T : target} {H : udiald_h}.

(** What [udiald_check_sim] has done when it ends in [r]: the query is on
    the line; the state that is stored is the state in memory; the phase
    returns with an unknown state only when probing, and with a known state
    only after the answer [OK] with that state in the result line; it ends
    the process only with [UDIALD_ESIM]. *)
Definition sim_checked (st : udiald_state) (w : world) (r : run udiald_state) : Prop :=
  match r with
  | Ret st' w' =>
      st' = set_sim_state (sim_state st') st ∧
      udiald_config_get st "sim_state" w' = Some (sim_state_name (sim_state st')) ∧
      w_tty_out w' = w_tty_out w ++ ["AT+CPIN?" ++ CRs]%string ∧
      ((sim_state st' = (-1)%Z ∧ app st = UDIALD_APP_PROBE) ∨
       (go_ret (cpin_answer w) = GetTag UDIALD_AT_OK ∧
        ((sim_state st' = 0%Z ∧ result_text (cpin_answer w) = Some "+CPIN: READY"%string) ∨
         (sim_state st' = 1%Z ∧ result_text (cpin_answer w) = Some "+CPIN: SIM PIN"%string) ∨
         (sim_state st' = 2%Z ∧ result_text (cpin_answer w) = Some "+CPIN: SIM PUK"%string))))
  | Exit c w' =>
      c = surfaced st UDIALD_ESIM ∧ app st ≠ UDIALD_APP_PROBE ∧
      udiald_config_get st "sim_state" w' = Some "error"%string ∧
      w_tty_out w' = w_tty_out w ++ ["AT+CPIN?" ++ CRs]%string
  | Stuck _ w' => w_tty_out w' = w_tty_out w ++ ["AT+CPIN?" ++ CRs]%string
  end.

End SimChecked.

Section CapsChecked.
Context {T : target} {H : udiald_h}.

(** What [udiald_check_caps] has done when it ends in [r]: it never ends
    the process; [is_gsm] is set exactly when the query was written, the
    answer ended in [OK] and its result line has [CGSM] in it, and then,
    and only then, [modem_gsm] is stored as 1. *)
Definition caps_checked (st : udiald_state) (w : world) (r : run udiald_state) : Prop :=
  match r with
  | Ret st' w' =>
      st' = set_is_gsm (is_gsm st') st ∧
      w_tty_out w' = w_tty_out w ++ ["AT+GCAP" ++ CRs]%string ∧
      w_uci w' = (if is_gsm st'
                  then <[(networkname st, "modem_gsm"%string) := "1"%string]> (w_uci w)
                  else w_uci w) ∧
      (is_gsm st' = true ↔
       written ("AT+GCAP" ++ CRs) w ∧ go_ret (caps_answer w) = GetTag UDIALD_AT_OK ∧
       ∃ pre post, cstr_at (raw_buf (go_r (caps_answer w))) <$> result_line (go_r (caps_answer w))
                   = Some (pre ++ chars "CGSM" ++ post))
  | Exit _ _ => False
  | Stuck _ w' => w_tty_out w' = w_tty_out w ++ ["AT+GCAP" ++ CRs]%string
  end.

End CapsChecked.

(** ** udiald.c: the supervise loop *)

(** [strchr(s, c)] for a [c] other than NUL: the text from the first [c]
    on. *)
Fixpoint strchr (s : list ascii) (c : ascii) : option (list ascii) :=
  match s with
  | [] => None
  | a :: s' => if Ascii.eqb a c then Some s else strchr s' c
  end.

Definition is_delim (delim : list ascii) (a : ascii) : bool :=
  existsb (Ascii.eqb a) delim.

(** [s + strspn(s, delim)] *)
Fixpoint skip_delims (delim s : list ascii) : list ascii :=
  match s with
  | a :: s' => if is_delim delim a then skip_delims delim s' else s
  | [] => []
  end.

(** The token at the start of [s] and what [saveptr] is left pointing at:
    the text behind the delimiter that ends the token, or the end of the
    string. *)
Fixpoint token (delim s : list ascii) : list ascii * list ascii :=
  match s with
  | [] => ([], [])
  | a :: s' =>
      if is_delim delim a then ([], s')
      else let '(t, rest) := token delim s' in (a :: t, rest)
  end.

(** [strtok_r(s, delim, &saveptr)] on the text of [s]: the token returned
    and the text [saveptr] points at, [None] for a null result.  The NUL it
    writes over the delimiter is left out: nothing reads the buffer again
    before the next call of the reader, which does not look at what the
    buffer holds. *)
Definition strtok_r (s delim : list ascii) : option (list ascii * list ascii) :=
  match skip_delims delim s with
  | [] => None
  | s' => Some (token delim s')
  end.

(** The provider in the answer to [AT+COPS?]: [strchr] for the first
    double quote, then the first token between double quotes. *)
Definition provider_of (cops : list ascii) : option (list ascii) :=
  match strchr cops DQUOTE with
  | None => None
  | Some s => fst <$> strtok_r s [DQUOTE]
  end.

(** The signal strength in the answer to [+CSQ]: the second token of the
    line, spaces and commas being the delimiters. *)
Definition rssi_of (csq : list ascii) : option (list ascii) :=
  match strtok_r csq [" "%char; ","%char] with
  | None => None
  | Some (_, rest) => fst <$> strtok_r rest [" "%char; ","%char]
  end.

Section Supervise.
Context {T : target} {H : udiald_h}.

(** The body of the loop from [tcflush] on.  [provider] is the text in the
    local array of that name, at most 63 bytes. *)
Definition mainloop_query (r : udiald_tty_read) (provider : list ascii)
    (st : udiald_state) (w : world) : run (udiald_tty_read * list ascii) :=
  let '(_, w) := udiald_tty_put ("AT+COPS?;+CSQ" ++ CRs) w in
  let '(o, w) := tty_get r None 2500 w in
  got o w
    (let r := go_r o in
     if negb (is_at_ok (go_ret o)) || (lines r <? 3) then Ret (r, provider) w
     else
       match raw_lines r !! 0, raw_lines r !! 1 with
       | Some l0, Some l1 =>
           let cops := cstr_at (raw_buf r) l0 in
           let csq := cstr_at (raw_buf r) l1 in
           let '(provider, w) :=
             match provider_of cops with
             | Some name =>
                 if negb (strncmp_eq name 0 provider 63)
                 then (take 63 name,
                       udiald_config_set st "provider" (string_of_list_ascii name)
                         (udiald_config_revert st "provider" w))
                 else (provider, w)
             | None => (provider, w)
             end in
           let w :=
             match rssi_of csq with
             | Some v => udiald_config_set st "rssi" (string_of_list_ascii v)
                           (udiald_config_revert st "rssi" w)
             | None => w
             end in
           Ret (r, provider) w
       | _, _ => Stuck Fault w
       end).

(** [while (!signaled) ...], [n] being the number of reads of [signaled]
    that find it zero: the condition of the loop reads it once, and every
    round but the first reads it once more after its sleep.  A process that
    no signal ever reaches stays in the loop and is not described.  The
    counter [status] only steers what is logged. *)
Fixpoint mainloop_rounds (n : nat) (first : bool) (r : udiald_tty_read)
    (provider : list ascii) (st : udiald_state) (w : world) : run unit :=
  match n with
  | 0 => Ret tt w
  | S n1 =>
      if first then
        bind (mainloop_query r provider st (udiald_config_set st "connected" "1" w))
             (fun rp w => mainloop_rounds n1 false (fst rp) (snd rp) st w)
      else
        match n1 with
        | 0 => Ret tt w
        | S n2 =>
            bind (mainloop_query r provider st w)
                 (fun rp w => mainloop_rounds n2 false (fst rp) (snd rp) st w)
        end
  end.

(** [udiald_connect_status_mainloop] *)
Definition udiald_connect_status_mainloop (n : nat) (st : udiald_state) (w : world)
    : run unit :=
  let r := w_auto w in
  let '(_, w) := udiald_tty_put ("AT+COPS=3,0" ++ CRs) w in
  let '(o, w) := tty_get r None 2500 w in
  got o w (mainloop_rounds n true (go_r o) [] st w).

End Supervise.

(** The options the supervise loop writes. *)
Definition status_keys : list string := ["connected"; "provider"; "rssi"]%string.



(** Two worlds that differ at most in the options of [keys] and in what
    has passed over the control line. *)
Definition talked_but (keys : list string) (w w' : world) : Prop :=
  w_uci_lists w' = w_uci_lists w ∧ w_auto w' = w_auto w ∧ w_usb w' = w_usb w ∧
  w_discoveries w' = w_discoveries w ∧ w_pppd_gone w' = w_pppd_gone w ∧
  w_pppd_status w' = w_pppd_status w ∧ w_killed w' = w_killed w ∧
  ∀ sec key, key ∉ keys → w_uci w' !! (sec, key) = w_uci w !! (sec, key).

(** The rounds of the supervise loop that query the modem, for [n] reads
    of [signaled] that find it zero. *)
Definition rounds_of (n : nat) (first : bool) : nat :=
  if first then Nat.div2 (S n) else Nat.div2 n.

(** What every round of the supervise loop sends. *)
Definition status_query : string := ("AT+COPS?;+CSQ" ++ CRs)%string.

(** ** udiald.c: [main] behind modem selection *)

Definition set_signaled (z : Z) (st : udiald_state) : udiald_state :=
  {| app := app st; flags := flags st; networkname := networkname st;
     sim_state := sim_state st; is_gsm := is_gsm st; pin := pin st; filter := filter st;
     modem := modem st; custom_profiles := custom_profiles st;
     verbose := verbose st; signaled := z |}.

(** What [main] meets besides the world once the modem is selected:
    whether the control terminal opens, the arguments left behind the
    options ([argv] from [optind] on), the system calls of
    [udiald_tty_pppd], the number of reads of [signaled] in the supervise
    loop that find it zero, and the signal that ends the loop. *)
Record session_env := {
  se_open_ok : bool;
  se_args : list string;
  se_pppd : pppd_env;
  se_reads : nat;
  se_signal : Z
}.

Section MainSession.
Context {T : target} {H : udiald_h}.

(** [udiald_open_control] *)
Definition udiald_open_control (e : session_env) (st : udiald_state) (w : world) : run unit :=
  if negb (se_open_ok e)
  then udiald_exitcode UDIALD_EMODEM (Some "Unable to open terminal"%string) st w
  else Ret tt w.

(** [main] from the test of [state.app] behind [udiald_check_sim] to its
    end.  The file [udiald_tty_pppd] writes is described by that function
    and not kept in the world.  [signaled] is zero until the handlers are
    replaced and holds the signal caught when the supervise loop is left. *)
Definition main_after_sim (e : session_env) (st : udiald_state) (w : world) : run unit :=
  bind (if app_eqb (app st) UDIALD_APP_SCAN then udiald_exitcode UDIALD_OK None st w
        else if app_eqb (app st) UDIALD_APP_PINPUK then
          match se_args e with
          | [puk; pin] => udiald_enter_puk puk pin st w
          | _ => udiald_exitcode UDIALD_EINVAL (Some "Invalid arguments"%string) st w
          end
        else Ret tt w)
    (fun _ w =>
  bind (if (sim_state st =? 1)%Z then udiald_enter_pin st w else Ret tt w)
    (fun _ w =>
  bind (if app_eqb (app st) UDIALD_APP_UNLOCK then udiald_exitcode UDIALD_OK None st w
        else Ret tt w)
    (fun _ w =>
  bind (if app_eqb (app st) UDIALD_APP_PROBE
        then bind (udiald_probe st w) (fun _ w => udiald_exitcode UDIALD_OK None st w)
        else Ret tt w)
    (fun _ w =>
  bind (if (sim_state st =? 2)%Z
        then udiald_exitcode UDIALD_EUNLOCK (Some "SIM locked - need PUK"%string) st w
        else Ret tt w)
    (fun _ w =>
  bind (udiald_check_caps st w)
    (fun st w =>
  bind (if is_gsm st then udiald_set_mode st w else Ret tt w)
    (fun _ w =>
  let w := udiald_config_set_int st "pid" (pe_pid (se_pppd e)) w in
  let w := if app_eqb (app st) UDIALD_APP_CONNECT
           then udiald_config_set st "udiald_state" "dial" w else w in
  match udiald_tty_pppd (se_pppd e) st w with
  | None => Stuck Fault w
  | Some out =>
      if (po_ret out =? 0)%Z
      then udiald_exitcode UDIALD_EINTERNAL (Some "pppd: Failed to start"%string) st w
      else
        bind (udiald_connect_status_mainloop (se_reads e) st w)
          (fun _ w => udiald_connect_finish (set_signaled (se_signal e) st) w)
  end))))))).

(** [main] from [udiald_open_control] on, for the state modem selection
    leaves.  The flags are those of [st] all along: a signal that arrives
    while [udiald_cleanup_safe] is the handler sets a flag and closes the
    control line under the phases, and such runs are not described. *)
Definition main_session (e : session_env) (st : udiald_state) (w : world) : run unit :=
  bind (udiald_open_control e st w) (fun _ w =>
  bind (udiald_modem_reset st w) (fun _ w =>
  bind (udiald_identify st w) (fun _ w =>
  bind (udiald_check_sim st w) (fun st w =>
  main_after_sim e st w)))).

End MainSession.

(** The commands a scan may send, in order. *)
Definition scan_commands : list string :=
  [("ATE0" ++ CRs)%string; ("AT+CGMI;+CGMM" ++ CRs)%string; ("AT+CPIN?" ++ CRs)%string].

(** A run ends as [R], [E] or [S] say, by the way it ends. *)
Definition run_spec {A : Type} (R : A → world → Prop) (E : Z → world → Prop)
    (S : world → Prop) (r : run A) : Prop :=
  match r with
  | Ret a w => R a w
  | Exit c w => E c w
  | Stuck _ w => S w
  end.

(** [c] and [w'] are what [udiald_exitcode] leaves when it is called with
    [code] in the world [wi]. *)
Definition exit_of {H : udiald_h} (st : udiald_state) (code : Z) (wi : world)
    (c : Z) (w' : world) : Prop :=
  ∃ msg, udiald_exitcode (A := unit) code msg st wi = Exit c w'.

(** An exit through [udiald_exitcode] with a code that is not zero. *)
Definition exits_nz {H : udiald_h} (st : udiald_state) (c : Z) (w' : world) : Prop :=
  ∃ code wi, code ≠ 0%Z ∧ exit_of st code wi c w'.

(** The applications that can end with [UDIALD_OK]. *)
Definition may_succeed (a : udiald_app) : Prop :=
  a = UDIALD_APP_SCAN ∨ a = UDIALD_APP_UNLOCK ∨ a = UDIALD_APP_PINPUK ∨ a = UDIALD_APP_PROBE.

(** An exit of the session: not zero, or zero in an application that can
    succeed. *)
Definition session_exit {H : udiald_h} (st : udiald_state) (c : Z) (w' : world) : Prop :=
  exits_nz st c w' ∨ (may_succeed (app st) ∧ ∃ wi, exit_of st 0 wi c w').

(** A session in which the terminal opens, the link daemon starts and the
    loop is left on [SIGTERM] after one round. *)
Definition plain_session : session_env :=
  {| se_open_ok := true; se_args := []; se_pppd := plain_env; se_reads := 1;
     se_signal := 15 |}.

(** A modem that answers the three queries of a scan, its SIM waiting for
    the PIN. *)
Definition scan_world : world :=
  world_of [] [ok_answer; huawei_answer; sim_pin_answer].

(** ** tty.c: the flattener run twice *)

(** Which way the copy loop goes does not depend on what the scratch
    buffer holds. *)
Definition same_way (a b : loop_res flat_state) : Prop :=
  match a, b with
  | LDone fa, LDone fb => fst fa = fst fb
  | LFault, LFault | LFuel, LFuel => True
  | _, _ => False
  end.

(** ** tty.c: the [connect] directive *)

(** What [snprintf] prints behind the path of the executable in the
    [connect] directive. *)
Definition connect_options (st : udiald_state) (prof : udiald_profile) : string :=
  (" -d -n" ++ networkname st ++ " -D" ++ device_id (modem st) ++ " -p" ++ pname prof
   ++ " " ++ (if (verbose st =? 0)%Z then EmptyString
              else if (verbose st =? 1)%Z then " -v" else " -v -v")
   ++ DQs ++ LFs)%string.
(** ** The reader keeps its invariants *)

Section ReaderInvariants.
Context {T : target}.

Lemma line_ok_mono r b1 b2 i : b1 ≤ b2 → line_ok r b1 i → line_ok r b2 i.
Proof.
  intros Hle (off & ch & e & ? & ? & ? & ? & ? & ? & ?). exists off, ch, e.
  repeat split; auto; lia.
Qed.

Lemma line_ok_below r r' bound i :
  raw_lines r' !! i = raw_lines r !! i →
  (∀ off, off < bound → raw_buf r' !! off = raw_buf r !! off) →
  line_ok r bound i → line_ok r' bound i.
Proof.
  intros Hl Hb (off & ch & e & H1 & H2 & H3 & H4 & H5 & H6 & H7). exists off, ch, e.
  rewrite Hl, !Hb by assumption. auto 10.
Qed.

Ltac below := cbn; intros; rewrite ?list_lookup_insert_ne by lia; reflexivity.

Lemma line_ok_bound r bound i : line_ok r bound i → line_ok r (length (raw_buf r)) i.
Proof.
  intros (off & ch & e & Hl & Hlt & Hb & Hne & Hle & He & Hnul). exists off, ch, e.
  repeat split; auto; eapply lookup_lt_Some; eauto.
Qed.

Lemma inv_read_ok s : reader_inv s → read_ok (gs_r s).
Proof.
  intros [_ _ Hc Hr]. split; [|exact Hr].
  intros i Hi. eapply line_ok_bound; eauto.
Qed.

Lemma get_init_inv r : reader_inv (get_init r).
Proof.
  split; unfold frontier, result_ok; cbn; intros; try lia; discriminate.
Qed.

Lemma match_atres_sound buf start t :
  match_atres buf start = Some t →
  ∃ s, (t, s) ∈ ttyresstr ∧ starts_with buf start s = true.
Proof.
  unfold match_atres. intros H.
  destruct (List.find _ ttyresstr) as [[t' s]|] eqn:Hf; [|discriminate].
  cbn in H. injection H as ->.
  apply List.find_some in Hf as [Hin Hs]. exists s. split; [|exact Hs].
  apply list_elem_of_In. exact Hin.
Qed.

Lemma result_ok_fields r r' :
  result_line r' = result_line r → lines r' = lines r →
  raw_lines r' = raw_lines r → result_ok r → result_ok r'.
Proof. unfold result_ok. intros -> -> ->. auto. Qed.

Lemma result_ok_commit r r' start :
  lines r' = S (lines r) → raw_lines r' = raw_lines r →
  raw_lines r !! lines r = Some start →
  (result_line r' = result_line r ∨ result_line r' = Some start) →
  result_ok r → result_ok r'.
Proof.
  unfold result_ok. intros Hl Hr Hs [He|He] H off Hoff.
  - rewrite He in Hoff. destruct (H off Hoff) as (i & Hi & Hlk).
    exists i. rewrite Hl, Hr. split; [lia|exact Hlk].
  - rewrite He in Hoff. injection Hoff as <-.
    exists (lines r). rewrite Hl, Hr. split; [lia|exact Hs].
Qed.

(** One byte keeps the invariant, and a return leaves the buffer in
    order with the terminator as its last line. *)
Lemma rx_byte_inv p b s :
  reader_inv s →
  match rx_byte p b s with
  | RxNext s' => reader_inv s'
  | RxReturn t s' => read_ok (gs_r s') ∧ ends_with_tag (gs_r s') t
  | RxError _ s' | RxFault s' => read_ok (gs_r s')
  end.
Proof.
  intros Hinv. pose proof (inv_read_ok s Hinv) as Hok.
  destruct Hinv as [Hfr Hopen Hcom Hres].
  unfold rx_byte.
  destruct (gs_c s <? length (raw_buf (gs_r s))) eqn:Hc; cbn [negb]; [|exact Hok].
  apply Nat.ltb_lt in Hc.
  destruct (Ascii.eqb b CR || Ascii.eqb b LF) eqn:Hnl.
  - destruct (gs_in_newline s) eqn:Hin; cbn [negb].
    + (* still inside a run of newlines *)
      unfold frontier in *. rewrite Hin in *.
      split; unfold frontier; cbn; rewrite ?Nat.add_0_r; try lia; try discriminate.
      * intros i Hi. eapply line_ok_below; [| |apply Hcom; exact Hi]; below.
      * eapply result_ok_fields; [..|exact Hres]; reflexivity.
    + (* end of the current line *)
      destruct (Hopen eq_refl) as [[start Hstart] Hlt].
      unfold frontier in *. rewrite Hin in *. rewrite Hstart in *. cbn in Hlt, Hfr, Hcom.
      cbn [raw_lines set_raw_buf lines raw_buf]. rewrite Hstart.
      rewrite !list_lookup_insert_ne by lia.
      destruct (raw_buf (gs_r s) !! start) as [first|] eqn:Hfirst; [|exact Hok].
      destruct (Ascii.eqb first CARET) eqn:Hcaret.
      * split; unfold frontier; cbn; try lia; try discriminate.
        -- intros i Hi. eapply line_ok_below; [| |apply Hcom; exact Hi]; below.
        -- eapply result_ok_fields; [..|exact Hres]; reflexivity.
      * apply Ascii.eqb_neq in Hcaret.
        set (buf' := <[gs_c s := NUL]> (<[gs_c s := b]> (raw_buf (gs_r s)))).
        set (r1 := set_lines _ _).
        set (r2 := match result_line r1, p with
                   | None, Some p0 => if starts_with (raw_buf r1) start p0
                                      then set_result_line (Some start) r1 else r1
                   | _, _ => r1 end).
        assert (Hr2 : raw_buf r2 = buf' ∧ raw_lines r2 = raw_lines (gs_r s) ∧
                      lines r2 = S (lines (gs_r s)) ∧
                      (result_line r2 = result_line (gs_r s) ∨ result_line r2 = Some start)).
        { subst r2. destruct (result_line r1) eqn:E1; [cbn; auto|].
          destruct p as [p0|]; [|cbn; auto].
          destruct (starts_with (raw_buf r1) start p0); cbn; auto. }
        destruct Hr2 as (Hb2 & Hl2 & Hn2 & Hres2).
        assert (Hcom2 : ∀ i, i < lines r2 → line_ok r2 (S (gs_c s)) i).
        { intros i Hi. rewrite Hn2 in Hi.
          destruct (decide (i = lines (gs_r s))) as [->|Hne].
          - exists start, first, (gs_c s). rewrite Hl2, Hb2. subst buf'.
            rewrite list_lookup_insert_eq by (rewrite length_insert; lia).
            rewrite !list_lookup_insert_ne by lia. repeat split; auto; lia.
          - destruct (Hcom i ltac:(lia)) as (off & ch & e & H1 & H2 & H3 & H4 & H5 & H6 & H7).
            exists off, ch, e. rewrite Hl2, Hb2. subst buf'.
            rewrite !list_lookup_insert_ne by lia. repeat split; auto; lia. }
        assert (Hres2' : result_ok r2).
        { eapply (result_ok_commit (gs_r s) r2 start); eauto. }
        rewrite Hb2.
        destruct (match_atres buf' start) as [t|] eqn:Hm.
        -- cbn [gs_r]. split.
           ++ split; [|exact Hres2'].
              intros i Hi. eapply line_ok_bound; eauto.
           ++ apply match_atres_sound in Hm as (str & Hin' & Hsw).
              exists start, str. rewrite Hn2, Hl2, Hb2.
              replace (S (lines (gs_r s)) - 1) with (lines (gs_r s)) by lia.
              repeat split; auto; lia.
        -- split; unfold frontier; cbn; try discriminate; try lia.
           ++ intros i Hi. replace (gs_c s + 1) with (S (gs_c s)) by lia. auto.
           ++ exact Hres2'.
  - destruct (gs_in_newline s) eqn:Hin.
    + (* a new line starts *)
      unfold frontier in *. rewrite Hin in *.
      cbn [raw_lines set_raw_buf lines raw_buf].
      destruct (lines (gs_r s) =? length (raw_lines (gs_r s)) - 1) eqn:Hfull.
      * cbn [gs_r]. split.
        -- intros i Hi. cbn in Hi.
           eapply line_ok_bound, line_ok_below; [| |apply Hcom; exact Hi]; below.
        -- eapply result_ok_fields; [..|exact Hres]; reflexivity.
      * destruct (lines (gs_r s) <? length (raw_lines (gs_r s))) eqn:Hslot;
          cbn [negb]; [|exact Hok].
        apply Nat.ltb_lt in Hslot.
        split; unfold frontier; cbn; rewrite ?list_lookup_insert_eq by lia; cbn;
          try lia.
        -- intros _. split; [eauto|lia].
        -- intros i Hi.
           destruct (Hcom i Hi) as (off & ch & e & H1 & H2 & H3 & H4 & H5 & H6 & H7).
           exists off, ch, e. cbn. rewrite !list_lookup_insert_ne by lia.
           repeat split; auto.
        -- intros off Hoff. destruct (Hres off Hoff) as (i & Hi & Hlk).
           exists i. cbn. rewrite list_lookup_insert_ne by lia. auto.
    + (* a byte in the middle of a line *)
      destruct (Hopen eq_refl) as [[start Hstart] Hlt].
      unfold frontier in *. rewrite Hin in *. rewrite Hstart in *. cbn in Hlt, Hfr, Hcom.
      split; unfold frontier; cbn; rewrite ?Hstart; cbn; try lia.
      * intros _. split; [eauto|lia].
      * intros i Hi. eapply line_ok_below; [| |apply Hcom; exact Hi]; below.
      * eapply result_ok_fields; [..|exact Hres]; reflexivity.
Qed.

Lemma rx_bytes_inv p bs : ∀ s,
  reader_inv s →
  match rx_bytes p bs s with
  | RxNext s' => reader_inv s'
  | RxReturn t s' => read_ok (gs_r s') ∧ ends_with_tag (gs_r s') t
  | RxError _ s' | RxFault s' => read_ok (gs_r s')
  end.
Proof.
  induction bs as [|b bs IH]; intros s Hinv; cbn; [exact Hinv|].
  pose proof (rx_byte_inv p b s Hinv) as Hb.
  destruct (rx_byte p b s); [apply IH; exact Hb|exact Hb..].
Qed.

Lemma get_loop_ok p timeout script : ∀ s polls,
  reader_inv s →
  let o := get_loop p timeout script s polls in
  read_ok (go_r o) ∧ ∀ t, go_ret o = GetTag t → ends_with_tag (go_r o) t.
Proof.
  induction script as [|ev script IH]; intros s polls Hinv; cbn.
  - destruct (0 <? gs_rem s)%Z; [destruct (timeout <? 0)%Z|]; cbn;
      (split; [apply inv_read_ok; exact Hinv|discriminate]).
  - destruct (0 <? gs_rem s)%Z;
      [|cbn; split; [apply inv_read_ok; exact Hinv|discriminate]].
    destruct ((0 <=? timeout)%Z && (timeout <? delay_of ev)%Z);
      [cbn; split; [apply inv_read_ok; exact Hinv|discriminate]|].
    destruct ev as [d bytes fin|d e];
      [|cbn; split; [apply inv_read_ok; exact Hinv|discriminate]].
    pose proof (rx_bytes_inv p bytes s Hinv) as Hb.
    destruct (rx_bytes p bytes s) as [s'|t s'|e s'|s'].
    + destruct fin as [|e].
      { destruct script; [|apply IH; exact Hb].
        unfold at_eof. destruct (0 <? gs_rem s')%Z; cbn;
          (split; [apply inv_read_ok; exact Hb|discriminate]). }
      destruct (recoverable e); [apply IH; exact Hb|].
      cbn; split; [apply inv_read_ok; exact Hb|discriminate].
    + cbn. destruct Hb as [Hb1 Hb2]. split; [exact Hb1|].
      intros t' [= <-]. exact Hb2.
    + cbn; split; [exact Hb|discriminate].
    + cbn; split; [exact Hb|discriminate].
Qed.

(** Bytes in the middle of a line only move the cursor. *)
Lemma rx_bytes_midline p body : ∀ s,
  gs_in_newline s = false →
  Forall (fun b => Ascii.eqb b CR || Ascii.eqb b LF = false) body →
  gs_c s + length body ≤ length (raw_buf (gs_r s)) →
  ∃ s', rx_bytes p body s = RxNext s' ∧
        gs_c s' = gs_c s + length body ∧ gs_in_newline s' = false ∧
        lines (gs_r s') = lines (gs_r s) ∧
        raw_lines (gs_r s') = raw_lines (gs_r s) ∧
        result_line (gs_r s') = result_line (gs_r s) ∧
        length (raw_buf (gs_r s')) = length (raw_buf (gs_r s)) ∧
        ∀ off, off < gs_c s → raw_buf (gs_r s') !! off = raw_buf (gs_r s) !! off.
Proof.
  induction body as [|b body IH]; intros s Hin Hnl Hroom.
  - exists s. cbn. repeat split; auto.
  - apply Forall_cons in Hnl as [Hb Hnl]. cbn [length] in Hroom.
    cbn [rx_bytes]. unfold rx_byte.
    assert (Hc : (gs_c s <? length (raw_buf (gs_r s))) = true)
      by (apply Nat.ltb_lt; lia).
    rewrite Hc, Hb, Hin. cbn [negb].
    set (s1 := advance 1 false _ s).
    destruct (IH s1) as (s' & Hrun & H1 & H2 & H3 & H4 & H5 & H6 & H7).
    + reflexivity.
    + exact Hnl.
    + subst s1; cbn. rewrite length_insert. lia.
    + exists s'. split; [exact Hrun|]. subst s1. cbn in *.
      rewrite length_insert in H6.
      repeat split; auto; try lia.
      intros off Hoff. rewrite H7 by lia.
      rewrite list_lookup_insert_ne by lia. reflexivity.
Qed.

(** A whole line that begins with the caret leaves cursor, line count,
    line table and result line as they were: it is erased. *)
Lemma caret_line_erased p body nl s :
  gs_in_newline s = true →
  Forall (fun b => Ascii.eqb b CR || Ascii.eqb b LF = false) body →
  Ascii.eqb nl CR || Ascii.eqb nl LF = true →
  S (lines (gs_r s)) < length (raw_lines (gs_r s)) →
  gs_c s + S (length body) < length (raw_buf (gs_r s)) →
  ∃ s', rx_bytes p (CARET :: body ++ [nl]) s = RxNext s' ∧
        gs_c s' = gs_c s ∧ gs_in_newline s' = true ∧
        lines (gs_r s') = lines (gs_r s) ∧
        result_line (gs_r s') = result_line (gs_r s) ∧
        take (lines (gs_r s)) (raw_lines (gs_r s')) =
          take (lines (gs_r s)) (raw_lines (gs_r s)) ∧
        ∀ off, off < gs_c s → raw_buf (gs_r s') !! off = raw_buf (gs_r s) !! off.
Proof.
  intros Hin Hbody Hnl Hslot Hroom.
  cbn [rx_bytes]. unfold rx_byte at 1.
  assert (Hc : (gs_c s <? length (raw_buf (gs_r s))) = true)
    by (apply Nat.ltb_lt; lia).
  rewrite Hc, Hin. cbn [negb orb Ascii.eqb CARET CR LF Bool.eqb andb].
  cbn [raw_lines set_raw_buf lines raw_buf].
  assert (Hfull : (lines (gs_r s) =? length (raw_lines (gs_r s)) - 1) = false)
    by (apply Nat.eqb_neq; lia).
  assert (Hlt : (lines (gs_r s) <? length (raw_lines (gs_r s))) = true)
    by (apply Nat.ltb_lt; lia).
  rewrite Hfull, Hlt. cbn [negb].
  set (s1 := advance 1 false _ s).
  destruct (rx_bytes_midline p body s1) as (s2 & Hrun & H1 & H2 & H3 & H4 & H5 & H6 & H7).
  { reflexivity. }
  { exact Hbody. }
  { subst s1; cbn. rewrite length_insert. lia. }
  assert (Happ : ∀ bs1 bs2 sa sb, rx_bytes p bs1 sa = RxNext sb →
                 rx_bytes p (bs1 ++ bs2) sa = rx_bytes p bs2 sb).
  { induction bs1 as [|x bs1 IH1]; intros bs2 sa sb Hr; cbn in *.
    - injection Hr as ->. reflexivity.
    - destruct (rx_byte p x sa); try discriminate. apply IH1. exact Hr. }
  rewrite (Happ _ _ _ _ Hrun). cbn [rx_bytes]. unfold rx_byte.
  subst s1. cbn in H1, H3, H4, H5, H6, H7. rewrite length_insert in H6.
  assert (Hc2 : (gs_c s2 <? length (raw_buf (gs_r s2))) = true)
    by (apply Nat.ltb_lt; lia).
  rewrite Hc2, Hnl, H2. cbn [negb].
  cbn [raw_lines set_raw_buf lines raw_buf].
  rewrite H3, H4. rewrite list_lookup_insert_eq by lia.
  rewrite !list_lookup_insert_ne by lia.
  rewrite H7 by lia. rewrite list_lookup_insert_eq by lia.
  cbn [Ascii.eqb CARET Bool.eqb andb].
  eexists. split; [reflexivity|]. cbn.
  repeat split; auto.
  - rewrite H4. rewrite take_insert_ge by lia. reflexivity.
  - intros off Hoff. rewrite !list_lookup_insert_ne by lia.
    rewrite H7 by lia. rewrite list_lookup_insert_ne by lia. reflexivity.
Qed.

End ReaderInvariants.

(** ** The table of terminators *)

Section Terminators.
Context {T : target}.

Lemma cstr_of_id p : NUL ∉ p → cstr_of p = p.
Proof.
  induction p as [|a p IH]; intros Hno; [reflexivity|].
  apply not_elem_of_cons in Hno as [Ha Hno]. cbn.
  assert (E : Ascii.eqb a NUL = false) by (apply Ascii.eqb_neq; congruence).
  rewrite E, IH by exact Hno. reflexivity.
Qed.

Lemma strncmp_eq_lookup buf p : ∀ off i c,
  NUL ∉ p → strncmp_eq buf off p (length p) = true →
  p !! i = Some c → buf !! (off + i) = Some c.
Proof.
  induction p as [|a p IH]; intros off i c Hno Hcmp Hi; [discriminate|].
  apply not_elem_of_cons in Hno as [Ha Hno].
  cbn [length strncmp_eq] in Hcmp.
  change (default NUL (head (a :: p))) with a in Hcmp.
  change (tail (a :: p)) with p in Hcmp.
  destruct (buf !! off) as [b|] eqn:Hb.
  - change (default NUL (Some b)) with b in Hcmp.
    destruct (Ascii.eqb b a) eqn:E; [|discriminate].
    apply Ascii.eqb_eq in E as ->.
    assert (E : Ascii.eqb a NUL = false) by (apply Ascii.eqb_neq; congruence).
    rewrite E in Hcmp. destruct i as [|i].
    + cbn in Hi. injection Hi as <-. rewrite Nat.add_0_r. exact Hb.
    + cbn in Hi. replace (off + S i) with (S off + i) by lia. eauto.
  - change (default NUL None) with NUL in Hcmp.
    destruct (Ascii.eqb NUL a) eqn:E; [|discriminate].
    apply Ascii.eqb_eq in E. congruence.
Qed.

Lemma starts_with_lookup buf off s i c :
  NUL ∉ chars s → starts_with buf off s = true →
  chars s !! i = Some c → buf !! (off + i) = Some c.
Proof.
  intros Hno Hsw. unfold starts_with in Hsw. rewrite cstr_of_id in Hsw by exact Hno.
  apply strncmp_eq_lookup; assumption.
Qed.

Ltac no_nul := cbn; rewrite ?not_elem_of_cons; repeat split; try discriminate;
               apply not_elem_of_nil.

(** No line begins with two of the terminators: the order in which the
    table is searched, that is the numbering of the codes in udiald.h, does
    not matter. *)
Lemma ttyresstr_unique buf off t1 s1 t2 s2 :
  (t1, s1) ∈ ttyresstr → (t2, s2) ∈ ttyresstr →
  starts_with buf off s1 = true → starts_with buf off s2 = true → t1 = t2.
Proof.
  unfold ttyresstr. rewrite !elem_of_cons, !elem_of_nil.
  intros H1 H2 Hs1 Hs2.
  assert (L1 : ∀ i c, chars s1 !! i = Some c → buf !! (off + i) = Some c).
  { intros i c. apply starts_with_lookup; [|exact Hs1].
    repeat (destruct H1 as [[= _ ->]|H1]; [no_nul|]); destruct H1. }
  assert (L2 : ∀ i c, chars s2 !! i = Some c → buf !! (off + i) = Some c).
  { intros i c. apply starts_with_lookup; [|exact Hs2].
    repeat (destruct H2 as [[= _ ->]|H2]; [no_nul|]); destruct H2. }
  repeat (destruct H1 as [[= -> ->]|H1];
          [repeat (destruct H2 as [[= -> ->]|H2];
                   [first [reflexivity
                          | exfalso;
                            pose proof (L1 0 _ eq_refl) as A0; pose proof (L2 0 _ eq_refl) as B0;
                            pose proof (L1 1 _ eq_refl) as A1; pose proof (L2 1 _ eq_refl) as B1;
                            try (pose proof (L1 2 _ eq_refl) as A2;
                                 pose proof (L2 2 _ eq_refl) as B2;
                                 pose proof (L1 3 _ eq_refl) as A3;
                                 pose proof (L2 3 _ eq_refl) as B3);
                            congruence]|]); destruct H2|]);
    destruct H1.
Qed.

Lemma match_atres_complete buf off t s :
  (t, s) ∈ ttyresstr → starts_with buf off s = true → match_atres buf off = Some t.
Proof.
  intros Hin Hsw. unfold match_atres.
  destruct (List.find _ ttyresstr) as [[t' s']|] eqn:Hfind.
  - apply List.find_some in Hfind as [Hin' Hsw']. cbn [snd] in Hsw'.
    apply list_elem_of_In in Hin'. cbn [fmap option_fmap option_map fst].
    f_equal. exact (ttyresstr_unique buf off t' s' t s Hin' Hin Hsw' Hsw).
  - apply list_elem_of_In in Hin.
    pose proof (List.find_none _ _ Hfind _ Hin) as Hnone. cbn [snd] in Hnone. congruence.
Qed.

End Terminators.

(** ** C3: lines that begin with the caret are never committed *)

(** C3.  Whatever the descriptor delivers and however the call ends, no
    committed line of the read buffer begins with the caret, the result
    line is one of the committed lines, and a returned tag is the tag the
    last committed line begins with.  A whole line that begins with the
    caret, met between two lines anywhere in the stream, is erased: cursor,
    line count, result line and the committed part of the line table are
    afterwards what they were before.  For the stream
    [^RSSI:12 CRLF +CPIN: READY CRLF OK CRLF] and the prefix [+CPIN: ] the
    call returns OK with the two lines [+CPIN: READY] and [OK], the first
    of them being the result line. *)
Theorem tty_get_drops_caret_lines :
  (∀ (T : target) (r : udiald_tty_read) (prefix : option string) (timeout : Z)
     (script : list poll_event),
     let o := udiald_tty_get r prefix timeout script in
     (∀ i, i < lines (go_r o) →
           ∃ off ch, raw_lines (go_r o) !! i = Some off ∧
                     raw_buf (go_r o) !! off = Some ch ∧ ch ≠ CARET) ∧
     (∀ off, result_line (go_r o) = Some off →
             ∃ i, i < lines (go_r o) ∧ raw_lines (go_r o) !! i = Some off) ∧
     (∀ t, go_ret o = GetTag t → ends_with_tag (go_r o) t)) ∧
  (∀ (T : target) (p : option string) (body : list ascii) (nl : ascii) (s : get_state),
     gs_in_newline s = true →
     Forall (fun b => Ascii.eqb b CR || Ascii.eqb b LF = false) body →
     Ascii.eqb nl CR || Ascii.eqb nl LF = true →
     S (lines (gs_r s)) < length (raw_lines (gs_r s)) →
     gs_c s + S (length body) < length (raw_buf (gs_r s)) →
     ∃ s', rx_bytes p (CARET :: body ++ [nl]) s = RxNext s' ∧
           gs_c s' = gs_c s ∧ gs_in_newline s' = true ∧
           lines (gs_r s') = lines (gs_r s) ∧
           result_line (gs_r s') = result_line (gs_r s) ∧
           take (lines (gs_r s)) (raw_lines (gs_r s')) =
             take (lines (gs_r s)) (raw_lines (gs_r s))) ∧
  (let o := udiald_tty_get (T := lp64) (blank_read 64 8 64) (Some "+CPIN: "%string)
              2500 scenario4 in
   go_ret o = GetTag UDIALD_AT_OK ∧ lines (go_r o) = 2 ∧
   committed (go_r o) = [chars "+CPIN: READY"; chars "OK"] ∧
   cstr_at (raw_buf (go_r o)) <$> result_line (go_r o) = Some (chars "+CPIN: READY")).
Proof.
  split; [|split].
  - intros T r prefix timeout script o.
    destruct (get_loop_ok prefix timeout script (get_init r) [] (get_init_inv r))
      as [[Hlines Hres] Htag].
    fold (udiald_tty_get r prefix timeout script) in Hlines, Hres, Htag. fold o in Hlines, Hres, Htag.
    repeat split.
    + intros i Hi. destruct (Hlines i Hi) as (off & ch & e & H1 & _ & H3 & H4 & _). eauto.
    + exact Hres.
    + exact Htag.
  - intros T p body nl s H1 H2 H3 H4 H5.
    destruct (caret_line_erased p body nl s H1 H2 H3 H4 H5)
      as (s' & Hr & Ha & Hb & Hc & Hd & He & _).
    exists s'. auto 10.
  - vm_compute. auto.
Qed.

Lemma tty_get_drops_caret_lines_witness :
  let o := udiald_tty_get (T := lp64) (blank_read 64 8 64) (Some "+CPIN: "%string)
             2500 scenario4 in
  1 < lines (go_r o) ∧
  ∃ off ch, raw_lines (go_r o) !! 1 = Some off ∧
            raw_buf (go_r o) !! off = Some ch ∧ ch ≠ CARET.
Proof.
  split.
  - vm_compute. lia.
  - apply (proj1 (proj1 tty_get_drops_caret_lines lp64 (blank_read 64 8 64)
                    (Some "+CPIN: "%string) 2500%Z scenario4)).
    vm_compute. lia.
Defined.

(** ** C5: the timeout of the polls *)

Section Polls.
Context {T : target}.

Lemma get_loop_polls p timeout script : ∀ s polls,
  Forall (fun c => pc_timeout c = timeout ∧ pc_ret c ≠ 0%Z ∧
                   (0 ≤ timeout → 0 ≤ pc_waited c ≤ timeout)%Z) polls →
  let o := get_loop p timeout script s polls in
  Forall (fun c => pc_timeout c = timeout ∧
                   (0 ≤ timeout → 0 ≤ pc_waited c ≤ timeout)%Z) (go_polls o) ∧
  (Exists (fun c => pc_ret c = 0%Z) (go_polls o) → go_ret o = GetFail ETIMEDOUT).
Proof.
  assert (Hweak : ∀ polls,
    Forall (fun c => pc_timeout c = timeout ∧ pc_ret c ≠ 0%Z ∧
                     (0 ≤ timeout → 0 ≤ pc_waited c ≤ timeout)%Z) polls →
    Forall (fun c => pc_timeout c = timeout ∧
                     (0 ≤ timeout → 0 ≤ pc_waited c ≤ timeout)%Z) polls ∧
    ¬ Exists (fun c => pc_ret c = 0%Z) polls).
  { intros polls Hp. split.
    - eapply Forall_impl; [exact Hp|]. cbn. tauto.
    - rewrite Exists_exists. intros (c & Hin & Hc).
      rewrite Forall_forall in Hp. destruct (Hp c Hin) as (_ & Hne & _). contradiction. }
  assert (Hstop : ∀ polls g r,
    Forall (fun c => pc_timeout c = timeout ∧ pc_ret c ≠ 0%Z ∧
                     (0 ≤ timeout → 0 ≤ pc_waited c ≤ timeout)%Z) polls →
    let o := {| go_ret := g; go_r := r; go_polls := polls |} in
    Forall (fun c => pc_timeout c = timeout ∧
                     (0 ≤ timeout → 0 ≤ pc_waited c ≤ timeout)%Z) (go_polls o) ∧
    (Exists (fun c => pc_ret c = 0%Z) (go_polls o) → go_ret o = GetFail ETIMEDOUT)).
  { intros polls g r Hp. destruct (Hweak polls Hp) as [H1 H2]. cbn. tauto. }
  assert (Hexpire : ∀ polls r, (0 ≤ timeout)%Z →
    Forall (fun c => pc_timeout c = timeout ∧ pc_ret c ≠ 0%Z ∧
                     (0 ≤ timeout → 0 ≤ pc_waited c ≤ timeout)%Z) polls →
    let o := {| go_ret := GetFail ETIMEDOUT; go_r := r;
                go_polls := polls ++ [{| pc_timeout := timeout; pc_ret := 0;
                                         pc_waited := timeout |}] |} in
    Forall (fun c => pc_timeout c = timeout ∧
                     (0 ≤ timeout → 0 ≤ pc_waited c ≤ timeout)%Z) (go_polls o) ∧
    (Exists (fun c => pc_ret c = 0%Z) (go_polls o) → go_ret o = GetFail ETIMEDOUT)).
  { intros polls r Hpos Hp. destruct (Hweak polls Hp) as [H1 H2]. cbn. split; [|reflexivity].
    apply Forall_app. split; [exact H1|].
    apply Forall_cons. split; [cbn; split; [reflexivity|lia]|constructor]. }
  induction script as [|ev script IH]; intros s polls Hp; cbn.
  - destruct (0 <? gs_rem s)%Z; [|apply Hstop; exact Hp].
    destruct (timeout <? 0)%Z eqn:Hneg; [apply Hstop; exact Hp|].
    apply Hexpire; [lia|exact Hp].
  - destruct (0 <? gs_rem s)%Z; [|apply Hstop; exact Hp].
    destruct ((0 <=? timeout)%Z && (timeout <? delay_of ev)%Z) eqn:Hexp.
    { apply Hexpire; [lia|exact Hp]. }
    assert (Hp' : ∀ ret, ret ≠ 0%Z →
      Forall (fun c => pc_timeout c = timeout ∧ pc_ret c ≠ 0%Z ∧
                       (0 ≤ timeout → 0 ≤ pc_waited c ≤ timeout)%Z)
             (polls ++ [{| pc_timeout := timeout; pc_ret := ret; pc_waited := delay_of ev |}])).
    { intros ret Hret. apply Forall_app. split; [exact Hp|].
      apply Forall_cons. split; [|constructor]. cbn.
      split; [reflexivity|]. split; [exact Hret|]. intros Hpos.
      apply andb_false_iff in Hexp as [Hexp|Hexp].
      - apply Z.leb_gt in Hexp. lia.
      - apply Z.ltb_ge in Hexp. unfold delay_of in *. lia. }
    destruct ev as [d bytes fin|d e]; [|apply Hstop, Hp'; lia].
    destruct (rx_bytes p bytes s) as [s'|t s'|e s'|s'];
      try (apply Hstop, Hp'; lia).
    destruct fin as [|e].
    { destruct script; [|apply IH, Hp'; lia].
      unfold at_eof. destruct (0 <? gs_rem s')%Z; apply Hstop, Hp'; lia. }
    destruct (recoverable e); [apply IH, Hp'; lia|apply Hstop, Hp'; lia].
Qed.

End Polls.

(** C5, the claim as it stands, fails: where the answer trickles in, the
    second poll is again given the whole 2500 ms although 2000 ms are gone,
    and the call waits 4000 ms in all and returns OK. *)
Lemma tty_get_restarts_timeout :
  let o := udiald_tty_get (T := lp64) (blank_read 64 8 64) None 2500 slow_ok in
  go_ret o = GetTag UDIALD_AT_OK ∧
  go_polls o = [ {| pc_timeout := 2500; pc_ret := 1; pc_waited := 2000 |};
                 {| pc_timeout := 2500; pc_ret := 1; pc_waited := 2000 |} ] ∧
  ¬ polls_use_remaining 2500 (go_polls o) ∧
  ¬ (total_waited (go_polls o) ≤ 2500)%Z.
Proof.
  cbv zeta. change (udiald_tty_get (T := lp64) (blank_read 64 8 64) None 2500 slow_ok)
    with {| go_ret := GetTag UDIALD_AT_OK;
            go_r := go_r (udiald_tty_get (T := lp64) (blank_read 64 8 64) None 2500 slow_ok);
            go_polls := [ {| pc_timeout := 2500; pc_ret := 1; pc_waited := 2000 |};
                          {| pc_timeout := 2500; pc_ret := 1; pc_waited := 2000 |} ] |}.
  cbn [go_ret go_polls]. repeat split.
  - intros Hrem. specialize (Hrem 1 _ eq_refl). cbn in Hrem. discriminate.
  - cbn. lia.
Qed.

(** C5, amended.  Every poll of a call is given the whole timeout of the
    call, so no single poll waits longer than the timeout (when that is not
    negative); and as soon as a poll expires with nothing to read the call
    returns failure with [ETIMEDOUT]. *)
Theorem tty_get_polls_with_full_timeout :
  ∀ (T : target) (r : udiald_tty_read) (prefix : option string) (timeout : Z)
    (script : list poll_event),
    let o := udiald_tty_get r prefix timeout script in
    Forall (fun c => pc_timeout c = timeout) (go_polls o) ∧
    ((0 ≤ timeout)%Z → Forall (fun c => (0 ≤ pc_waited c ≤ timeout)%Z) (go_polls o)) ∧
    (Exists (fun c => pc_ret c = 0%Z) (go_polls o) → go_ret o = GetFail ETIMEDOUT).
Proof.
  intros T r prefix timeout script o.
  destruct (get_loop_polls prefix timeout script (get_init r) [] (Forall_nil_2 _)) as [Hall Hexp].
  fold (udiald_tty_get r prefix timeout script) in Hall, Hexp. fold o in Hall, Hexp.
  repeat split.
  - eapply Forall_impl; [exact Hall|]. cbn. tauto.
  - intros Hpos. eapply Forall_impl; [exact Hall|]. cbn. intros c [_ Hc]. auto.
  - exact Hexp.
Qed.

Lemma tty_get_polls_with_full_timeout_witness :
  let o := udiald_tty_get (T := lp64) (blank_read 64 8 64) None 2500 [] in
  Exists (fun c => pc_ret c = 0%Z) (go_polls o) ∧ go_ret o = GetFail ETIMEDOUT.
Proof.
  assert (He : Exists (fun c => pc_ret c = 0%Z)
                 (go_polls (udiald_tty_get (T := lp64) (blank_read 64 8 64) None 2500 []))).
  { vm_compute. constructor. reflexivity. }
  split; [exact He|].
  apply (proj2 (proj2 (tty_get_polls_with_full_timeout lp64 (blank_read 64 8 64) None
                         2500%Z []))).
  exact He.
Defined.

(** ** Facts about the session primitives *)

(** A string literal is none of the members of a list of literals. *)
Ltac not_among :=
  rewrite ?elem_of_cons, elem_of_nil; intros Hamong;
  repeat (destruct Hamong as [Hamong|Hamong]; [discriminate Hamong|]);
  exact Hamong.

(** A string literal is a member of a list of literals. *)
Ltac among := rewrite ?elem_of_cons; repeat (try (left; reflexivity); right).

Section SessionFacts.
Context {T : target} {H : udiald_h}.

Lemma same_but_refl keys w : same_but keys w w.
Proof. repeat split. Qed.

Lemma same_but_trans keys w1 w2 w3 :
  same_but keys w1 w2 → same_but keys w2 w3 → same_but keys w1 w3.
Proof.
  unfold same_but. intros H1 H2.
  destruct H1 as (?&?&?&?&?&?&?&?&?&?&Hk1), H2 as (?&?&?&?&?&?&?&?&?&?&Hk2).
  repeat split; try congruence.
  intros sec key Hkey. rewrite Hk2, Hk1 by exact Hkey. reflexivity.
Qed.

Lemma same_but_set keys st key v w :
  key ∈ keys → same_but keys w (udiald_config_set st key v w).
Proof.
  intros Hin. repeat split. intros sec k Hk. cbn.
  apply lookup_insert_ne. intros [= _ ->]. contradiction.
Qed.

Lemma same_but_revert keys st key w :
  key ∈ keys → same_but keys w (udiald_config_revert st key w).
Proof.
  intros Hin. repeat split. intros sec k Hk. cbn.
  apply lookup_delete_ne. intros [= _ ->]. contradiction.
Qed.

(** [udiald_exitcode] always exits, with the code surfaced, and touches
    nothing but its three options. *)
Lemma exitcode_exits {A : Type} code msg st w :
  ∃ w', udiald_exitcode (A := A) code msg st w = Exit (surfaced st code) w' ∧
        same_but exit_keys w w'.
Proof.
  unfold udiald_exitcode. eexists. split; [reflexivity|].
  set (w1 := if _ : bool then _ else w).
  assert (H1 : same_but exit_keys w w1).
  { subst w1. destruct (_ && _); [|apply same_but_refl].
    eapply same_but_trans.
    - apply (same_but_set exit_keys st "udiald_error_code"). unfold exit_keys. among.
    - destruct msg.
      + apply (same_but_set exit_keys st "udiald_error_msg"). unfold exit_keys. among.
      + apply (same_but_revert exit_keys st "udiald_error_msg"). unfold exit_keys. among. }
  eapply same_but_trans; [exact H1|].
  destruct (app_eqb _ _); [|apply same_but_refl].
  destruct (negb _).
  - apply (same_but_set exit_keys st "udiald_state"). unfold exit_keys. among.
  - apply (same_but_revert exit_keys st "udiald_state"). unfold exit_keys. among.
Qed.

Lemma config_get_set st key v w :
  udiald_config_get st key (udiald_config_set st key v w) = Some v.
Proof. unfold udiald_config_get, ucix_get_option. cbn. apply lookup_insert_eq. Qed.

Lemma surfaced_clear st code :
  Z.land (flags st) UDIALD_FLAG_SIGNALED = 0%Z → surfaced st code = code.
Proof. unfold surfaced. intros ->. cbn. rewrite andb_false_r. reflexivity. Qed.

Lemma surfaced_signaled st code :
  Z.land (flags st) UDIALD_FLAG_SIGNALED ≠ 0%Z → code ≠ 0%Z →
  surfaced st code = UDIALD_ESIGNALED.
Proof.
  unfold surfaced. intros Hf Hc.
  apply Z.eqb_neq in Hf, Hc. rewrite Hf, Hc. reflexivity.
Qed.




Lemma committed_lookup r i off :
  i < lines r → raw_lines r !! i = Some off →
  committed r !! i = Some (cstr_at (raw_buf r) off).
Proof.
  intros Hi Hoff. unfold committed.
  rewrite list_lookup_fmap, lookup_take_lt by exact Hi.
  rewrite Hoff. reflexivity.
Qed.

End SessionFacts.

(** ** C8: the flattener *)

Section Flattener.

Lemma copy_loop_stuck raw fin st :
  copy_step raw fin st = Some (inr st) → ∀ m, copy_loop m raw fin st = LFuel.
Proof.
  intros Hstep m. induction m as [|m IH]; cbn [copy_loop]; [reflexivity|].
  rewrite Hstep. exact IH.
Qed.

(** A copy loop that has not left after more evaluations of its condition
    than the input has bytes never leaves. *)
Lemma copy_loop_hang raw fin : ∀ fuel st,
  length raw - fst st < fuel →
  copy_loop fuel raw fin st = LFuel →
  ∀ m, copy_loop m raw fin st = LFuel.
Proof.
  induction fuel as [|fuel IH]; intros [inp fs] Hfuel Hrun; [cbn in Hfuel; lia|].
  cbn [copy_loop] in Hrun.
  destruct (copy_step raw fin (inp, fs)) as [[fs'|st']|] eqn:Hstep; try discriminate.
  pose proof Hstep as Hstep'. unfold copy_step in Hstep'.
  destruct (raw !! inp) as [ch|] eqn:Hch; [|discriminate].
  apply lookup_lt_Some in Hch as Hlt.
  destruct (Ascii.eqb ch NUL) eqn:Hnul; [discriminate|].
  destruct (fst fs =? fin) eqn:Hfull; injection Hstep' as <-.
  - apply copy_loop_stuck. exact Hstep.
  - assert (Hrest : ∀ m, copy_loop m raw fin
                           (S inp, (S (fst fs), <[fst fs := ch]> (snd fs))) = LFuel).
    { apply IH; [cbn [fst] in *; lia|exact Hrun]. }
    intros [|m]; [reflexivity|]. cbn [copy_loop]. rewrite Hstep. apply Hrest.
Qed.

(** More fuel does not change the result of a copy loop that has left. *)
Lemma copy_loop_mono raw fin : ∀ fuel st m,
  copy_loop fuel raw fin st ≠ LFuel →
  copy_loop m raw fin st = copy_loop fuel raw fin st ∨ copy_loop m raw fin st = LFuel.
Proof.
  induction fuel as [|fuel IH]; intros st m Hrun; [cbn in Hrun; contradiction|].
  destruct m as [|m]; [right; reflexivity|].
  cbn [copy_loop] in *.
  destruct (copy_step raw fin st) as [[fs'|st']|]; auto.
Qed.

Lemma flatten_from_hang r fin : ∀ n i fs,
  flatten_from (S (length (raw_buf r))) r fin n i fs = LFuel →
  ∀ m, flatten_from m r fin n i fs = LFuel.
Proof.
  induction n as [|n IH]; intros i fs Hrun m; cbn [flatten_from] in *; [discriminate|].
  destruct (raw_lines r !! i) as [inp|]; [|discriminate].
  set (fs1 := flat_put fin DQUOTE fs) in *.
  destruct (copy_loop (S (length (raw_buf r))) (raw_buf r) fin (inp, fs1)) as [fs2| |] eqn:Hcopy;
    try discriminate.
  - destruct (copy_loop_mono (raw_buf r) fin _ (inp, fs1) m ltac:(rewrite Hcopy; discriminate))
      as [Hm|Hm]; rewrite Hm; [|reflexivity].
    rewrite Hcopy.
    destruct (fst _ =? fin); [discriminate|]. apply IH. exact Hrun.
  - rewrite (copy_loop_hang (raw_buf r) fin (S (length (raw_buf r))) (inp, fs1)
               ltac:(cbn [fst]; lia) Hcopy m).
    reflexivity.
Qed.

(** When the flattener is reported to hang, no amount of fuel makes it
    return. *)
Lemma flatten_hang_forever r :
  udiald_tty_flatten_result r = FlatHang → ∀ fuel, flatten_fuel fuel r = LFuel.
Proof.
  unfold udiald_tty_flatten_result, flatten_fuel. intros Hhang fuel.
  destruct (flatten_from (S (length (raw_buf r))) r _ _ _ _) as [[flat buf]| |] eqn:Hrun;
    try discriminate.
  rewrite (flatten_from_hang r _ _ _ _ Hrun fuel). reflexivity.
Qed.

End Flattener.

(** *** When the text fits *)

Section FlattenerFits.

Lemma cstr_of_split l :
  NUL ∈ l → ∃ rest, l = cstr_of l ++ NUL :: rest ∧ NUL ∉ cstr_of l.
Proof.
  induction l as [|a l IH]; intros Hin; [inversion Hin|].
  cbn [cstr_of]. destruct (Ascii.eqb a NUL) eqn:Ha.
  - apply Ascii.eqb_eq in Ha as ->. exists l. split; [reflexivity|]. apply not_elem_of_nil.
  - apply Ascii.eqb_neq in Ha.
    apply elem_of_cons in Hin as [Hin|Hin]; [congruence|].
    destruct (IH Hin) as (rest & Hl & Hno). exists rest. split.
    + cbn. rewrite <- Hl. reflexivity.
    + intros Hc. apply elem_of_cons in Hc as [Hc|Hc]; [congruence|contradiction].
Qed.

Lemma flat_put_fits fin ch done x rest :
  length done < fin →
  flat_put fin ch (length done, done ++ x :: rest)
  = (length (done ++ [ch]), (done ++ [ch]) ++ rest).
Proof.
  intros Hlt. unfold flat_put. cbn [fst snd].
  destruct (length done =? fin) eqn:E; [apply Nat.eqb_eq in E; lia|].
  rewrite length_app. cbn [length]. rewrite Nat.add_1_r. f_equal.
  rewrite <- app_assoc. cbn [app].
  replace (length done) with (length done + 0) at 1 by lia.
  rewrite insert_app_r. reflexivity.
Qed.

(** Text that fits is written one byte after the other. *)
Lemma flat_emit_fits fin txt : ∀ done rest,
  length done + length txt ≤ fin → fin < length done + length rest →
  flat_emit fin txt (length done, done ++ rest)
  = (length (done ++ txt), (done ++ txt) ++ drop (length txt) rest).
Proof.
  induction txt as [|ch txt IH]; intros done rest Hfit Hroom.
  - cbn. rewrite app_nil_r. reflexivity.
  - cbn [length] in Hfit. destruct rest as [|x rest]; [cbn in Hroom; lia|].
    unfold flat_emit. cbn [fold_left]. rewrite flat_put_fits by lia.
    fold (flat_emit fin txt (length (done ++ [ch]), (done ++ [ch]) ++ rest)).
    rewrite IH.
    + rewrite <- !app_assoc. reflexivity.
    + rewrite length_app. cbn. lia.
    + rewrite length_app. cbn in *. lia.
Qed.

Lemma flat_emit_app fin t1 t2 fs :
  flat_emit fin (t1 ++ t2) fs = flat_emit fin t2 (flat_emit fin t1 fs).
Proof. unfold flat_emit. apply fold_left_app. Qed.

Lemma flat_emit_fst fin txt : ∀ fs,
  fst fs + length txt ≤ fin → fst (flat_emit fin txt fs) = fst fs + length txt.
Proof.
  induction txt as [|ch txt IH]; intros fs Hfit; [cbn; lia|].
  cbn [length] in Hfit. unfold flat_emit. cbn [fold_left].
  fold (flat_emit fin txt (flat_put fin ch fs)).
  assert (Hput : fst (flat_put fin ch fs) = S (fst fs)).
  { unfold flat_put. destruct (fst fs =? fin) eqn:E; [apply Nat.eqb_eq in E; lia|].
    reflexivity. }
  rewrite IH; rewrite Hput; cbn [length]; lia.
Qed.

(** The copy loop over a terminated string whose text fits is the
    emission of the text. *)
Lemma copy_loop_emit raw fin txt : ∀ inp tail fs fuel,
  drop inp raw = txt ++ NUL :: tail → NUL ∉ txt →
  fst fs + length txt ≤ fin → length txt < fuel →
  copy_loop fuel raw fin (inp, fs) = LDone (flat_emit fin txt fs).
Proof.
  induction txt as [|ch txt IH]; intros inp tail fs fuel Hdrop Hno Hfit Hfuel.
  - destruct fuel as [|fuel]; [lia|]. cbn [copy_loop]. unfold copy_step.
    assert (Hnul : raw !! inp = Some NUL).
    { rewrite <- (Nat.add_0_r inp), <- lookup_drop, Hdrop. reflexivity. }
    rewrite Hnul. reflexivity.
  - destruct fuel as [|fuel]; [cbn in Hfuel; lia|]. cbn [copy_loop]. unfold copy_step.
    assert (Hch : raw !! inp = Some ch).
    { rewrite <- (Nat.add_0_r inp), <- lookup_drop, Hdrop. reflexivity. }
    rewrite Hch.
    assert (Hne : ch ≠ NUL) by (intros ->; apply Hno; left).
    apply Ascii.eqb_neq in Hne. rewrite Hne. cbn [length] in *.
    destruct (fst fs =? fin) eqn:E; [apply Nat.eqb_eq in E; lia|].
    assert (Hput : flat_put fin ch fs = (S (fst fs), <[fst fs := ch]> (snd fs)))
      by (unfold flat_put; rewrite E; reflexivity).
    change (flat_emit fin (ch :: txt) fs) with (flat_emit fin txt (flat_put fin ch fs)).
    rewrite Hput.
    apply (IH (S inp) tail).
    + replace (S inp) with (inp + 1) by lia. rewrite <- drop_drop, Hdrop. reflexivity.
    + intros Hc. apply Hno. right. exact Hc.
    + cbn [fst]. lia.
    + lia.
Qed.

Lemma committed_length r : lines_terminated r → length (committed r) = lines r.
Proof.
  intros Hwf. unfold committed. rewrite length_fmap, length_take.
  destruct (lines r) as [|n] eqn:E; [lia|].
  destruct (Hwf n ltac:(lia)) as (off & Hoff & _).
  apply lookup_lt_Some in Hoff. lia.
Qed.

Lemma committed_drop r i off :
  i < lines r → raw_lines r !! i = Some off →
  drop i (committed r) = cstr_at (raw_buf r) off :: drop (S i) (committed r).
Proof.
  intros Hi Hoff.
  pose proof (committed_lookup r i off Hi Hoff) as Hlk.
  apply drop_S. exact Hlk.
Qed.

Lemma quoted_join_cons l ls :
  quoted_join (l :: ls) =
  DQUOTE :: l ++ [DQUOTE] ++
  match ls with [] => [] | _ => [","%char; " "%char] ++ quoted_join ls end.
Proof. destruct ls; cbn; rewrite ?app_nil_r; reflexivity. Qed.

(** The loop over the lines, when the text of the lines left fits. *)
Lemma flatten_from_emit r fin :
  lines_terminated r →
  ∀ n i fs,
    i + n = lines r →
    fst fs + length (quoted_join (drop i (committed r))) ≤ fin →
    flatten_from (S (length (raw_buf r))) r fin n i fs
    = LDone (flat_emit fin (quoted_join (drop i (committed r))) fs).
Proof.
  intros Hwf. induction n as [|n IH]; intros i fs Hi Hfit.
  - cbn [flatten_from]. rewrite drop_ge by (rewrite committed_length by exact Hwf; lia).
    reflexivity.
  - cbn [flatten_from].
    destruct (Hwf i ltac:(lia)) as (off & Hoff & Hnul). rewrite Hoff.
    pose proof (committed_drop r i off ltac:(lia) Hoff) as Hd.
    rewrite Hd in Hfit. rewrite Hd. clear Hd.
    set (l := cstr_at (raw_buf r) off) in *.
    destruct (cstr_of_split _ Hnul) as (tail & Hsplit & Hno).
    fold (cstr_at (raw_buf r) off) in Hsplit, Hno. fold l in Hsplit, Hno.
    rewrite quoted_join_cons in Hfit. rewrite quoted_join_cons.
    assert (Hlen : length l ≤ length (raw_buf r)).
    { apply (f_equal length) in Hsplit. rewrite length_drop, length_app in Hsplit. lia. }
    repeat rewrite ?length_app, ?length_cons in Hfit. cbn [length] in Hfit.
    change (flat_put fin DQUOTE fs) with (flat_emit fin [DQUOTE] fs).
    rewrite (copy_loop_emit (raw_buf r) fin l off tail);
      [|exact Hsplit|exact Hno|rewrite flat_emit_fst; cbn [length]; lia|lia].
    rewrite <- flat_emit_app.
    change (flat_put fin DQUOTE (flat_emit fin ([DQUOTE] ++ l) fs))
      with (flat_emit fin [DQUOTE] (flat_emit fin ([DQUOTE] ++ l) fs)).
    rewrite <- flat_emit_app.
    destruct (decide (i = lines r - 1)) as [Hlast|Hmore].
    + assert (Hnil : drop (S i) (committed r) = []).
      { apply drop_ge. rewrite committed_length by exact Hwf. lia. }
      rewrite Hnil in *. cbn [app].
      assert (Hn : n = 0) by lia. subst n.
      apply Nat.eqb_eq in Hlast. rewrite Hlast.
      cbn [flatten_from]. rewrite app_nil_r.
      rewrite <- app_assoc. cbn [app].
      destruct (_ =? fin); reflexivity.
    + destruct (drop (S i) (committed r)) as [|l2 ls2] eqn:Hrest.
      { apply (f_equal length) in Hrest. rewrite length_drop, committed_length in Hrest
          by exact Hwf. cbn in Hrest. lia. }
      apply Nat.eqb_neq in Hmore. rewrite Hmore.
      change (flat_put fin " "%char (flat_put fin ","%char ?x))
        with (flat_emit fin [","%char; " "%char] x).
      rewrite <- flat_emit_app.
      set (Q2 := quoted_join (l2 :: ls2)) in *.
      assert (HQ2 : 2 ≤ length Q2).
      { subst Q2. rewrite quoted_join_cons. cbn [length app].
        rewrite length_app. cbn. lia. }
      repeat rewrite ?length_app, ?length_cons in Hfit. cbn [length] in Hfit.
      assert (Hpos : fst (flat_emit fin ((([DQUOTE] ++ l) ++ [DQUOTE]) ++ [","%char; " "%char]) fs)
                     = fst fs + (length l + 4)).
      { rewrite flat_emit_fst; repeat rewrite ?length_app, ?length_cons; cbn [length]; lia. }
      destruct (_ =? fin) eqn:Hbrk; [apply Nat.eqb_eq in Hbrk; rewrite Hpos in Hbrk; lia|].
      rewrite IH; [|lia|].
      * rewrite Hrest. fold Q2. rewrite <- flat_emit_app. f_equal. f_equal.
        rewrite <- !app_assoc. reflexivity.
      * rewrite Hrest. fold Q2. rewrite Hpos. lia.
Qed.

Lemma quoted_join_no_nul ls :
  Forall (fun l => NUL ∉ l) ls → NUL ∉ quoted_join ls.
Proof.
  induction ls as [|l ls IH]; intros Hall; [apply not_elem_of_nil|].
  apply Forall_cons in Hall as [Hl Hls]. rewrite quoted_join_cons.
  rewrite not_elem_of_cons, !not_elem_of_app. split; [discriminate|].
  split; [exact Hl|]. split.
  - rewrite not_elem_of_cons. split; [discriminate|apply not_elem_of_nil].
  - destruct ls as [|l2 ls2]; [apply not_elem_of_nil|].
    rewrite not_elem_of_app. split; [|apply IH; exact Hls].
    rewrite !not_elem_of_cons. repeat split; try discriminate. apply not_elem_of_nil.
Qed.

Lemma cstr_of_no_nul l : NUL ∉ cstr_of l.
Proof.
  induction l as [|a l IH]; cbn; [apply not_elem_of_nil|].
  destruct (Ascii.eqb a NUL) eqn:E; [apply not_elem_of_nil|].
  apply Ascii.eqb_neq in E. rewrite not_elem_of_cons. auto.
Qed.

Lemma cstr_of_text txt rest : NUL ∉ txt → cstr_of (txt ++ NUL :: rest) = txt.
Proof.
  induction txt as [|a txt IH]; intros Hno; [reflexivity|].
  apply not_elem_of_cons in Hno as [Ha Hno]. cbn.
  assert (E : Ascii.eqb a NUL = false) by (apply Ascii.eqb_neq; congruence).
  rewrite E, IH by exact Hno. reflexivity.
Qed.

(** The flattener on a buffer whose text fits the scratch buffer: it
    returns the committed lines, each in double quotes, with a comma and a
    space between neighbours, and leaves that text and a NUL at the start of
    [flat_buf]. *)
Lemma flatten_fits r :
  lines_terminated r →
  length (quoted_join (committed r)) < length (flat_buf r) →
  udiald_tty_flatten_result r
  = FlatOk (set_flat_buf (quoted_join (committed r) ++ NUL ::
                          drop (S (length (quoted_join (committed r)))) (flat_buf r)) r)
           (quoted_join (committed r)).
Proof.
  intros Hwf Hfit. unfold udiald_tty_flatten_result, flatten_fuel.
  set (Q := quoted_join (committed r)) in *.
  rewrite (flatten_from_emit r _ Hwf (lines r) 0 (0, flat_buf r) ltac:(lia));
    [|rewrite drop_0; fold Q; cbn [fst]; lia].
  rewrite drop_0. fold Q.
  pose proof (flat_emit_fits (length (flat_buf r) - 1) Q [] (flat_buf r)
                ltac:(cbn [length]; lia) ltac:(cbn [length]; lia)) as Hemit.
  rewrite !app_nil_l in Hemit. change (length (@nil ascii)) with 0 in Hemit.
  rewrite Hemit.
  destruct (drop (length Q) (flat_buf r)) as [|x rest] eqn:Hdrop.
  { apply (f_equal length) in Hdrop. rewrite length_drop in Hdrop. cbn in Hdrop. lia. }
  assert (Hins : <[length Q := NUL]> (Q ++ x :: rest) = Q ++ NUL :: rest).
  { replace (length Q) with (length Q + 0) at 1 by lia. rewrite insert_app_r. reflexivity. }
  rewrite Hins.
  assert (Hrest : rest = drop (S (length Q)) (flat_buf r)).
  { replace (S (length Q)) with (length Q + 1) by lia.
    rewrite <- drop_drop, Hdrop. reflexivity. }
  rewrite <- Hrest. f_equal.
  unfold cstr_at. rewrite drop_0. apply cstr_of_text.
  apply quoted_join_no_nul. unfold committed. apply Forall_fmap, Forall_forall.
  intros off _. cbn. apply cstr_of_no_nul.
Qed.

(** Flattening the flattened buffer again changes nothing. *)
Lemma flatten_again r r' s :
  lines_terminated r →
  length (quoted_join (committed r)) < length (flat_buf r) →
  udiald_tty_flatten_result r = FlatOk r' s →
  udiald_tty_flatten_result r' = FlatOk r' s.
Proof.
  intros Hwf Hfit Hrun. rewrite (flatten_fits r Hwf Hfit) in Hrun.
  injection Hrun as <- <-.
  set (Q := quoted_join (committed r)) in *.
  set (r' := set_flat_buf _ r).
  assert (Hlen : length (flat_buf r') = length (flat_buf r)).
  { subst r'. cbn. rewrite length_app. cbn [length]. rewrite length_drop. lia. }
  rewrite (flatten_fits r'); [| exact Hwf | change (committed r') with (committed r); fold Q; lia].
  change (committed r') with (committed r). fold Q. f_equal.
  subst r'. unfold set_flat_buf. cbn. f_equal.
  f_equal. f_equal.
  replace (S (length Q)) with (length Q + 1) by lia.
  rewrite <- drop_drop, drop_app_length. reflexivity.
Qed.

End FlattenerFits.

(** *** The buffers the reader hands back *)

Section ReaderBuffers.
Context {T : target}.

Lemma read_ok_terminated r : read_ok r → lines_terminated r.
Proof.
  intros [Hlines _] i Hi.
  destruct (Hlines i Hi) as (off & ch & e & Hoff & _ & _ & _ & Hle & _ & Hnul).
  exists off. split; [exact Hoff|].
  apply list_elem_of_lookup. exists (e - off).
  rewrite lookup_drop. replace (off + (e - off)) with e by lia. exact Hnul.
Qed.

Lemma tty_get_terminated r p timeout script :
  lines_terminated (go_r (udiald_tty_get r p timeout script)).
Proof.
  apply read_ok_terminated.
  apply (get_loop_ok p timeout script (get_init r) [] (get_init_inv r)).
Qed.






(** One byte that finds room in [raw_buf] is taken without a fault, and
    the cursor moves on by one byte at most. *)
Lemma rx_byte_no_fault p b s :
  reader_inv s → slots_ok s → gs_c s < length (raw_buf (gs_r s)) →
  match rx_byte p b s with
  | RxNext s' =>
      slots_ok s' ∧ gs_c s' ≤ S (gs_c s) ∧
      length (raw_buf (gs_r s')) = length (raw_buf (gs_r s))
  | RxFault _ => False
  | _ => True
  end.
Proof.
  intros [Hfr Hopen Hcom Hres] Hslots Hc. unfold rx_byte. cbv zeta.
  apply Nat.ltb_lt in Hc as Hc'. rewrite Hc'. cbn [negb].
  unfold slots_ok in *.
  destruct (Ascii.eqb b CR || Ascii.eqb b LF).
  - destruct (gs_in_newline s) eqn:Hin; cbn [negb].
    + cbn. rewrite length_insert. repeat split; lia.
    + destruct (Hopen eq_refl) as [[start Hstart] Hlt].
      unfold frontier in Hlt. rewrite Hin, Hstart in Hlt. cbn in Hlt.
      cbn [raw_lines set_raw_buf lines raw_buf]. rewrite Hstart.
      destruct (lookup_lt_is_Some_2 (<[gs_c s := NUL]> (<[gs_c s := b]> (raw_buf (gs_r s))))
                  start ltac:(rewrite !length_insert; lia)) as [first Hfirst].
      rewrite Hfirst.
      destruct (Ascii.eqb first CARET).
      * cbn. rewrite !length_insert. repeat split; lia.
      * match goal with |- context [match_atres ?x ?y] => destruct (match_atres x y) end;
          [exact I|].
        cbn [advance gs_c gs_in_newline gs_r].
        assert (Hfields : ∀ r0 : udiald_tty_read,
                  let r1 := match result_line r0, p with
                            | None, Some p0 =>
                                if starts_with (raw_buf r0) start p0
                                then set_result_line (Some start) r0 else r0
                            | _, _ => r0
                            end in
                  lines r1 = lines r0 ∧ raw_lines r1 = raw_lines r0 ∧
                  raw_buf r1 = raw_buf r0).
        { intros r0. cbv zeta. destruct (result_line r0); [auto|].
          destruct p as [p0|]; [|auto]. destruct (starts_with _ _ _); auto. }
        match goal with |- context [lines ?r1] =>
          match r1 with
          | context [set_lines ?n ?r0] =>
              destruct (Hfields (set_lines n r0)) as (Hl & Hr & Hb)
          end end.
        cbv zeta in Hl, Hr, Hb. rewrite Hl, Hr, Hb. cbn.
        rewrite !length_insert. repeat split; lia.
  - destruct (gs_in_newline s) eqn:Hin.
    + cbn [raw_lines set_raw_buf lines raw_buf].
      destruct (lines (gs_r s) =? length (raw_lines (gs_r s)) - 1) eqn:Hfull; [exact I|].
      apply Nat.eqb_neq in Hfull.
      assert (Hslot : (lines (gs_r s) <? length (raw_lines (gs_r s))) = true)
        by (apply Nat.ltb_lt; lia).
      rewrite Hslot. cbn. rewrite !length_insert. repeat split; lia.
    + cbn. rewrite length_insert. repeat split; lia.
Qed.

Lemma rx_bytes_no_fault p bs : ∀ s,
  reader_inv s → slots_ok s → gs_c s + length bs ≤ length (raw_buf (gs_r s)) →
  match rx_bytes p bs s with
  | RxNext s' =>
      slots_ok s' ∧ gs_c s' ≤ gs_c s + length bs ∧
      length (raw_buf (gs_r s')) = length (raw_buf (gs_r s))
  | RxFault _ => False
  | _ => True
  end.
Proof.
  induction bs as [|b bs IH]; intros s Hinv Hslots Hroom; cbn [rx_bytes length] in *.
  - repeat split; [exact Hslots|lia].
  - pose proof (rx_byte_no_fault p b s Hinv Hslots ltac:(lia)) as Hb.
    pose proof (rx_byte_inv p b s Hinv) as Hi.
    destruct (rx_byte p b s) as [s'| | |]; try exact Hb.
    destruct Hb as (Hs' & Hc' & Hlen).
    specialize (IH s' Hi Hs' ltac:(lia)).
    destruct (rx_bytes p bs s') as [s2| | |]; try exact IH.
    destruct IH as (H1 & H2 & H3). repeat split; [exact H1|lia|congruence].
Qed.

Lemma get_loop_no_fault p timeout script : ∀ s polls,
  reader_inv s → slots_ok s →
  gs_c s + script_bytes script ≤ length (raw_buf (gs_r s)) →
  go_ret (get_loop p timeout script s polls) ≠ GetFault.
Proof.
  induction script as [|ev script IH]; intros s polls Hinv Hslots Hroom; cbn [get_loop].
  - destruct (0 <? gs_rem s)%Z; [destruct (timeout <? 0)%Z|]; discriminate.
  - destruct (0 <? gs_rem s)%Z; [|discriminate].
    destruct (_ && _); [discriminate|].
    destruct ev as [d bytes fin|d e]; [|discriminate].
    change (script_bytes (PollIn d bytes fin :: script))
      with (length bytes + script_bytes script) in Hroom.
    pose proof (rx_bytes_no_fault p bytes s Hinv Hslots ltac:(lia)) as Hb.
    pose proof (rx_bytes_inv p bytes s Hinv) as Hi.
    destruct (rx_bytes p bytes s) as [s'| | |]; try discriminate; [|contradiction].
    destruct Hb as (Hs' & Hc' & Hlen).
    assert (Hroom' : gs_c s' + script_bytes script ≤ length (raw_buf (gs_r s'))) by lia.
    destruct fin as [|e].
    { destruct script; [|apply IH; assumption].
      unfold at_eof. destruct (0 <? gs_rem s')%Z; discriminate. }
    destruct (recoverable e); [apply IH; assumption|discriminate].
Qed.

(** The reader runs past [raw_buf] only when the script delivers more
    bytes than the buffer holds. *)
Lemma tty_get_no_fault r p timeout script :
  script_bytes script ≤ length (raw_buf r) →
  go_ret (udiald_tty_get r p timeout script) ≠ GetFault.
Proof.
  intros Hroom. apply get_loop_no_fault.
  - apply get_init_inv.
  - unfold slots_ok. cbn. lia.
  - cbn. exact Hroom.
Qed.

End ReaderBuffers.

(** C8, on the code: a read buffer whose one committed line has 511
    bytes, flattened into a scratch buffer of 512 bytes.  The text would
    exceed the scratch buffer; the copy loop reaches the end of the buffer
    inside the line and from then on neither writes nor advances: whatever
    the fuel, the call does not return, where the claim has it return the
    truncated text. *)
Theorem flatten_hangs_on_long_line :
  committed long_line_read = [replicate 511 "A"%char] ∧
  length (flat_buf long_line_read) = 512 ∧
  udiald_tty_flatten_result long_line_read = FlatHang ∧
  ∀ fuel, flatten_fuel fuel long_line_read = LFuel.
Proof.
  assert (Hhang : udiald_tty_flatten_result long_line_read = FlatHang)
    by (vm_compute; reflexivity).
  split; [vm_compute; reflexivity|]. split; [vm_compute; reflexivity|].
  split; [exact Hhang|]. apply flatten_hang_forever. exact Hhang.
Qed.

(** ** C4: identification *)

Section Identify.
Context {T : target} {H : udiald_h}.





End Identify.




(** ** C1: the PIN that failed before *)

Section EnterPin.
Context {T : target} {H : udiald_h}.

(** The refusal of a PIN that is stored as failed: nothing is written to
    the control line; outside probe mode [udiald_exitcode] is called with
    [UDIALD_ESIM], in probe mode the phase just returns. *)
Lemma enter_pin_refuses_failed_pin st w p :
  candidate_pin st w = Some p → p ≠ EmptyString →
  strpbrk p at_forbidden = false →
  ucix_get_option w UCI_SECTION_GLOBAL "failed_pin" = Some p →
  (app st ≠ UDIALD_APP_PROBE →
   ∃ w', udiald_enter_pin st w = Exit (surfaced st UDIALD_ESIM) w' ∧
         same_but exit_keys w w') ∧
  (app st = UDIALD_APP_PROBE → udiald_enter_pin st w = Ret tt w).
Proof.
  intros Hpin Hne Hok Hfailed. unfold udiald_enter_pin. rewrite Hpin.
  destruct p as [|a p']; [contradiction|].
  rewrite Hok, Hfailed, String.eqb_refl. unfold refuse. split.
  - intros Happ. destruct (app st); try contradiction; cbn [app_eqb negb];
      apply exitcode_exits.
  - intros ->. reflexivity.
Qed.

End EnterPin.

(** C1, on the code: with [failed_pin] and [udiald_pin] both 1234 the
    enter-PIN phase writes nothing to the control line, as the claim says,
    but the process exits with [UDIALD_ESIM], 6, where the claim has
    [UDIALD_EUNLOCK], 7. *)
Theorem enter_pin_failed_pin_exits_ESIM :
  ∃ w', udiald_enter_pin (T := lp64) (H := header)
          (state_of UDIALD_APP_CONNECT 0) failed_pin_world = Exit 6 w' ∧
        w_tty_out w' = w_tty_out failed_pin_world ∧
        w_uci w' !! ("wan"%string, "udiald_error_code"%string) = Some "6"%string ∧
        UDIALD_ESIM = 6%Z ∧ UDIALD_EUNLOCK = 7%Z.
Proof.
  eexists. split; [vm_compute; reflexivity|].
  repeat split; vm_compute; reflexivity.
Qed.

(** ** C2: the [-t] gate *)

Section TestState.
Context {H : udiald_h}.

(** The gate exits when the option it reads, [udiald_error], holds 7. *)
Lemma teststate_gate_exits st w :
  app st = UDIALD_APP_CONNECT →
  Z.land (flags st) UDIALD_FLAG_TESTSTATE ≠ 0%Z →
  udiald_config_get_int st "udiald_error" UDIALD_OK w = UDIALD_EUNLOCK →
  main_to_select st w = Exit UDIALD_EUNLOCK w.
Proof.
  intros Happ Hflag Hval. unfold main_to_select. rewrite Happ, Hval.
  apply Z.eqb_neq in Hflag. rewrite Hflag. reflexivity.
Qed.

(** [udiald_exitcode] never writes that option. *)
Lemma exitcode_leaves_udiald_error {A : Type} code msg st w w' c sec :
  udiald_exitcode (A := A) code msg st w = Exit c w' →
  w_uci w' !! (sec, "udiald_error"%string) = w_uci w !! (sec, "udiald_error"%string).
Proof.
  intros Hrun. destruct (exitcode_exits (A := A) code msg st w) as (w2 & Hw2 & Hsame).
  rewrite Hrun in Hw2. injection Hw2 as _ <-.
  destruct Hsame as (_ & _ & _ & _ & _ & _ & _ & _ & _ & _ & Hk).
  apply Hk. unfold exit_keys. not_among.
Qed.

End TestState.

(** C2, on the code: after a run that ended in [UDIALD_EUNLOCK] the store
    holds [udiald_error_code] = 7, the option [udiald_exitcode] writes, and
    no option [udiald_error], the one the gate reads; a connect run with
    [-t] therefore does not exit 7: it goes on to modem discovery and
    selects the modem. *)
Theorem teststate_gate_misses_recorded_failure :
  w_uci after_unlock_failure !! ("wan"%string, "udiald_error_code"%string) = Some "7"%string ∧
  w_uci after_unlock_failure !! ("wan"%string, "udiald_error"%string) = None ∧
  ∃ st' w',
    main_to_select (H := header) (state_of UDIALD_APP_CONNECT UDIALD_FLAG_TESTSTATE)
      after_unlock_failure = Ret (Selected st') w' ∧
    new_discoveries after_unlock_failure w' = [UDIALD_FILTER_PROFILE] ∧
    device_id (modem st') = "1.2-1"%string.
Proof.
  split; [vm_compute; reflexivity|]. split; [vm_compute; reflexivity|].
  eexists _, _. split; [vm_compute; reflexivity|].
  split; vm_compute; reflexivity.
Qed.

(** ** C6: the exit status of the link daemon *)

Section ConnectFinish.
Context {T : target} {H : udiald_h}.

Lemma run_cases_first code msg rest st w :
  exits_with st (run_cases ((code, msg) :: rest) st w) code.
Proof.
  unfold exits_with. cbn [run_cases].
  destruct (exitcode_exits (A := unit) code (Some msg) st w) as (w' & -> & _).
  cbn. eauto.
Qed.

(** A daemon that is still running is sent SIGTERM and the exit is
    [UDIALD_ESIGNALED], whatever status it leaves. *)
Lemma connect_finish_kills_running_daemon st w :
  w_pppd_gone w = false →
  ∃ w', udiald_connect_finish st w = Exit (surfaced st UDIALD_ESIGNALED) w' ∧
        w_killed w' = w_killed w ++ [SIGTERM].
Proof.
  intros Hgone. unfold udiald_connect_finish, udiald_tty_put. cbn [w_pppd_gone with_tty_out].
  cbn [udiald_config_revert with_uci w_pppd_gone]. rewrite Hgone. cbn [negb].
  match goal with |- context [udiald_exitcode ?c ?m ?s ?x] =>
    destruct (exitcode_exits (A := unit) c m s x) as (w' & -> & Hsame) end.
  cbn [bind]. exists w'. split; [reflexivity|].
  destruct Hsame as (_ & _ & _ & _ & _ & _ & _ & _ & _ & -> & _). reflexivity.
Qed.

Lemma connect_finish_gone st w :
  w_pppd_gone w = true →
  ∃ w1, w_pppd_status w1 = w_pppd_status w ∧
    udiald_connect_finish st w =
    bind (match w_pppd_status w with
          | WSignaled _ =>
              udiald_exitcode UDIALD_ESIGNALED (Some "pppd terminated"%string) st w1
          | WExited code =>
              if (code =? 5)%Z
              then udiald_exitcode UDIALD_ESIGNALED (Some "pppd terminated"%string) st w1
              else Ret tt w1
          end)
      (fun _ w =>
         let code := match w_pppd_status w with WExited c => c | WSignaled _ => 0%Z end in
         run_cases (drop (pppd_label code) (pppd_cases code)) st w).
Proof.
  intros Hgone. unfold udiald_connect_finish, udiald_tty_put.
  cbn [w_pppd_gone with_tty_out udiald_config_revert with_uci]. rewrite Hgone.
  cbn [negb bind w_pppd_status]. eexists. split; [|reflexivity]. reflexivity.
Qed.

End ConnectFinish.

(** C6, the claim as it stands, fails: a link daemon that is still running
    when the supervise loop ends is sent [SIGTERM] and waited for, and its
    status is not translated: it leaves with status 19 and the process ends
    with [UDIALD_ESIGNALED], not with [UDIALD_EAUTH]. *)
Lemma connect_finish_ignores_status_of_killed_daemon :
  let st := state_of UDIALD_APP_CONNECT 0 in
  let w := with_pppd false (WExited 19) (world_of [] []) in
  w_pppd_status w = WExited 19 ∧
  (∃ w', udiald_connect_finish (H := header) st w = Exit UDIALD_ESIGNALED w' ∧
         w_killed w' = [SIGTERM]) ∧
  ¬ exits_with (H := header) st (udiald_connect_finish (H := header) st w) UDIALD_EAUTH.
Proof.
  cbv zeta. split; [reflexivity|]. split.
  - eexists. split; [vm_compute; reflexivity|reflexivity].
  - intros [w' Hx]. vm_compute in Hx. discriminate Hx.
Qed.

(** C6, amended.  When the link daemon is gone by the time the supervise
    loop has ended (the non-blocking reap returns it),
    [udiald_connect_finish] calls [udiald_exitcode] with: [UDIALD_EMODEM] for
    exit status 7 or 16, [UDIALD_EDIAL] for 8, [UDIALD_ENETWORK] for 0 or
    15, [UDIALD_EAUTH] for 19, [UDIALD_ESIGNALED] for 5 and for death by a
    signal, and [UDIALD_EPPP] for every other exit status.  When the daemon
    is still running it is sent [SIGTERM] and [udiald_exitcode] is called
    with [UDIALD_ESIGNALED], whatever status the daemon leaves.  The process
    exits with that very code while the signaled flag is clear. *)
Theorem connect_finish_translates_status :
  ∀ (T : target) (H : udiald_h) (st : udiald_state) (w : world),
    (w_pppd_gone w = false →
     ∃ w', udiald_connect_finish st w = Exit (surfaced st UDIALD_ESIGNALED) w' ∧
           w_killed w' = w_killed w ++ [SIGTERM]) ∧
    (w_pppd_gone w = true →
     (∀ sg, w_pppd_status w = WSignaled sg →
            exits_with st (udiald_connect_finish st w) UDIALD_ESIGNALED) ∧
     (∀ c, w_pppd_status w = WExited c →
        (c = 7%Z ∨ c = 16%Z → exits_with st (udiald_connect_finish st w) UDIALD_EMODEM) ∧
        (c = 8%Z → exits_with st (udiald_connect_finish st w) UDIALD_EDIAL) ∧
        (c = 0%Z ∨ c = 15%Z → exits_with st (udiald_connect_finish st w) UDIALD_ENETWORK) ∧
        (c = 19%Z → exits_with st (udiald_connect_finish st w) UDIALD_EAUTH) ∧
        (c = 5%Z → exits_with st (udiald_connect_finish st w) UDIALD_ESIGNALED) ∧
        (c ∉ [0; 5; 7; 8; 15; 16; 19]%Z →
         exits_with st (udiald_connect_finish st w) UDIALD_EPPP))) ∧
    (Z.land (flags st) UDIALD_FLAG_SIGNALED = 0%Z → ∀ kind, surfaced st kind = kind).
Proof.
  intros T H st w.
  split; [apply connect_finish_kills_running_daemon|].
  split; [|intros Hclear kind; apply surfaced_clear; exact Hclear].
  intros Hgone.
  destruct (connect_finish_gone st w Hgone) as (w1 & Hst & ->).
  split.
  - intros sg Hs. rewrite Hs. unfold exits_with.
    destruct (exitcode_exits (A := unit) UDIALD_ESIGNALED (Some "pppd terminated"%string) st w1)
      as (w' & -> & _). cbn. eauto.
  - intros c Hs. rewrite Hs.
    assert (Hcase : ∀ kind n msg rest,
      c ≠ 5%Z → pppd_label c = n → drop n (pppd_cases c) = (kind, msg) :: rest →
      exits_with st
        (bind (if (c =? 5)%Z
               then udiald_exitcode UDIALD_ESIGNALED (Some "pppd terminated"%string) st w1
               else Ret tt w1)
           (fun _ w => run_cases (drop (pppd_label
               match w_pppd_status w with WExited c0 => c0 | WSignaled _ => 0%Z end)
               (pppd_cases match w_pppd_status w with WExited c0 => c0 | WSignaled _ => 0%Z end))
               st w)) kind).
    { intros kind n msg rest Hne Hlab Hdrop. apply Z.eqb_neq in Hne. rewrite Hne.
      cbn [bind]. rewrite Hst, Hs, Hlab, Hdrop. apply run_cases_first. }
    repeat split.
    + intros [-> | ->]; eapply Hcase; try reflexivity; lia.
    + intros ->; eapply Hcase; try reflexivity; lia.
    + intros [-> | ->]; eapply Hcase; try reflexivity; lia.
    + intros ->; eapply Hcase; try reflexivity; lia.
    + intros ->. rewrite Z.eqb_refl. unfold exits_with.
      destruct (exitcode_exits (A := unit) UDIALD_ESIGNALED
                  (Some "pppd terminated"%string) st w1) as (w' & -> & _).
      cbn [bind]. eauto.
    + intros Hother.
      assert (Hne : c ≠ 0%Z ∧ c ≠ 5%Z ∧ c ≠ 7%Z ∧ c ≠ 8%Z ∧ c ≠ 15%Z ∧ c ≠ 16%Z ∧ c ≠ 19%Z).
      { repeat split; intros ->; apply Hother; among. }
      destruct Hne as (H0 & H5 & H7 & H8 & H15 & H16 & H19).
      eapply (Hcase UDIALD_EPPP 4); [exact H5| |reflexivity].
      unfold pppd_label.
      apply Z.eqb_neq in H0, H7, H8, H15, H16, H19.
      rewrite H0, H7, H8, H15, H16, H19. reflexivity.
Qed.

Lemma connect_finish_translates_status_witness :
  let st := state_of UDIALD_APP_CONNECT 0 in
  let w := with_pppd true (WExited 19) (world_of [] []) in
  w_pppd_gone w = true ∧ w_pppd_status w = WExited 19 ∧
  exits_with (H := header) st (udiald_connect_finish (H := header) st w) UDIALD_EAUTH.
Proof.
  cbv zeta. split; [reflexivity|]. split; [reflexivity|].
  apply (proj1 (proj2 (proj2 (proj2
           (proj2 (proj1 (proj2 (connect_finish_translates_status lp64 header
                            (state_of UDIALD_APP_CONNECT 0)
                            (with_pppd true (WExited 19) (world_of [] []))))
                     eq_refl)
              19%Z eq_refl))))).
  reflexivity.
Defined.

(** ** C10: modem selection requires a profile *)

Section SelectModem.
Context {H : udiald_h}.

Lemma flag_set_lor z mask : mask ≠ 0%Z → flag_set (Z.lor z mask) mask = true.
Proof.
  intros Hm. unfold flag_set.
  assert (Habs : Z.land (Z.lor z mask) mask = mask).
  { apply Z.bits_inj'. intros n Hn. rewrite Z.land_spec, Z.lor_spec.
    destruct (Z.testbit z n), (Z.testbit mask n); reflexivity. }
  rewrite Habs. apply Z.eqb_neq in Hm. rewrite Hm. reflexivity.
Qed.

(** Under the require-profile flag a successful discovery binds a profile
    that matches the chosen device. *)
Lemma find_devices_binds_profile st f w e m w' :
  flag_set (fflags f) UDIALD_FILTER_PROFILE = true →
  udiald_modem_find_devices st f w = (e, m, w') →
  w_discoveries w' = w_discoveries w ++ [fflags f] ∧
  (e = UDIALD_OK →
   ∃ d p, d ∈ w_usb w ∧ filter_accepts f d = true ∧
          match_profile st f d = Some p ∧ profile m = Some p ∧
          vendor m = usb_vendor d ∧ device m = usb_device_no d ∧
          device_id m = usb_id d).
Proof.
  intros Hflag. unfold udiald_modem_find_devices.
  destruct (List.find (survives st f) (w_usb w)) as [d|] eqn:Hfind.
  - apply List.find_some in Hfind as [Hin Hsurv].
    unfold survives in Hsurv. rewrite Hflag in Hsurv. cbn [negb orb] in Hsurv.
    apply andb_true_iff in Hsurv as [Hacc Hprof].
    apply bool_decide_eq_true in Hprof as [p Hp]. rewrite Hp.
    destruct (usb_ttys d !! ctlidx (cfg p)) as [ctl|];
      [destruct (usb_ttys d !! datidx (cfg p)) as [dat|]|];
      intros [= <- <- <-]; (split; [reflexivity|]); try discriminate.
    intros _. exists d, p. cbn. repeat split; auto.
    apply list_elem_of_In. exact Hin.
  - intros [= <- <- <-]. split; [reflexivity|discriminate].
Qed.

Lemma match_profile_sound st f d p :
  match_profile st f d = Some p →
  p ∈ custom_profiles st ++ profiles ∧ profile_matches p d = true.
Proof.
  unfold match_profile. intros Hf. apply List.find_some in Hf as [Hin Hm].
  apply andb_true_iff in Hm as [Hm _]. split; [|exact Hm].
  apply list_elem_of_In. exact Hin.
Qed.

(** [udiald_select_modem]: the flag is set before discovery runs, and a
    modem that comes back has a profile that matches it. *)
Lemma select_modem_requires_profile st w :
  UDIALD_FILTER_PROFILE ≠ 0%Z →
  (new_discoveries w (world_after (udiald_select_modem st w))
   = [Z.lor (fflags (filter st)) UDIALD_FILTER_PROFILE] ∧
   flag_set (Z.lor (fflags (filter st)) UDIALD_FILTER_PROFILE) UDIALD_FILTER_PROFILE = true) ∧
  ∀ st' w', udiald_select_modem st w = Ret st' w' →
    fflags (filter st') = Z.lor (fflags (filter st)) UDIALD_FILTER_PROFILE ∧
    ∃ d p, d ∈ w_usb w ∧ profile (modem st') = Some p ∧
           p ∈ custom_profiles st ++ profiles ∧ profile_matches p d = true ∧
           vendor (modem st') = usb_vendor d ∧ device (modem st') = usb_device_no d ∧
           device_id (modem st') = usb_id d.
Proof.
  intros Hmask. unfold udiald_select_modem.
  set (f := set_filter_flags _ _). set (st1 := set_filter f st).
  assert (Hflag : flag_set (fflags f) UDIALD_FILTER_PROFILE = true)
    by (apply flag_set_lor; exact Hmask).
  change (filter st1) with f.
  destruct (udiald_modem_find_devices st1 f w) as [[e m] w1] eqn:Hfind.
  destruct (find_devices_binds_profile st1 f w e m w1 Hflag Hfind) as [Hlog Hbind].
  assert (Hnew : ∀ w2, w_discoveries w2 = w_discoveries w1 →
                 new_discoveries w w2 = [fflags f]).
  { intros w2 Hw2. unfold new_discoveries. rewrite Hw2, Hlog.
    rewrite drop_app_length. reflexivity. }
  destruct (e =? UDIALD_OK)%Z eqn:He; cbn [negb].
  - apply Z.eqb_eq in He. destruct (Hbind He) as (d & p & Hd & _ & Hp & Hpm & Hv & Hdv & Hid).
    rewrite Hpm. cbn [world_after]. split.
    + split; [|exact Hflag]. apply Hnew.
      set (w2 := udiald_config_set _ _ _ (udiald_config_set _ _ _ w1)).
      assert (Hfold : ∀ l wa, w_discoveries
                (fold_left (fun w i => match modecmd (cfg p) i with
                                       | Some _ => udiald_config_append (set_modem m st1)
                                                     "modem_mode"
                                                     (udiald_modem_modestr (Some i)) w
                                       | None => w
                                       end) l wa) = w_discoveries wa).
      { induction l as [|x l IH]; intros wa; cbn [fold_left]; [reflexivity|].
        rewrite IH. destruct (modecmd (cfg p) x); reflexivity. }
      rewrite Hfold. reflexivity.
    + intros st' w' [= <- _]. split; [reflexivity|]. exists d, p. cbn.
      destruct (match_profile_sound st1 f d p Hp) as [Hin Hm].
      repeat split; auto.
  - destruct (exitcode_exits (A := udiald_state) e (Some "No usable modem found"%string) st1 w1)
      as (w2 & -> & Hsame).
    cbn [world_after]. split; [|discriminate].
    split; [|exact Hflag]. apply Hnew.
    destruct Hsame as (_ & _ & _ & _ & _ & _ & -> & _). reflexivity.
Qed.

Lemma new_discoveries_same w w' :
  w_discoveries w' = w_discoveries w → new_discoveries w w' = [].
Proof. unfold new_discoveries. intros ->. apply drop_all. Qed.

End SelectModem.

(** C10.  In the connect, scan, probe, unlock-PIN and enter-PUK flows
    [main] reaches [udiald_select_modem] unless the [-t] gate ends the
    process first.  [udiald_select_modem] sets the require-profile bit of
    the filter, whatever the command line left in it, and then runs
    discovery once, with that filter: the one discovery run of these flows
    is logged with the flags of the command line and the bit; the state it
    returns carries the bit; and a modem that is selected has a profile
    bound whose set selectors equal the fields of the chosen device.  The
    bit mask is taken to be other than zero. *)
Theorem selection_never_without_profile :
  ∀ (H : udiald_h) (st : udiald_state) (w : world),
    UDIALD_FILTER_PROFILE ≠ 0%Z →
    app st ∈ selecting_apps →
    flag_set (Z.lor (fflags (filter st)) UDIALD_FILTER_PROFILE) UDIALD_FILTER_PROFILE = true ∧
    (if app_eqb (app st) UDIALD_APP_CONNECT
        && negb (Z.land (flags st) UDIALD_FLAG_TESTSTATE =? 0)%Z
        && (udiald_config_get_int st "udiald_error" UDIALD_OK w =? UDIALD_EUNLOCK)%Z
     then main_to_select st w = Exit UDIALD_EUNLOCK w
     else new_discoveries w (world_after (main_to_select st w))
          = [Z.lor (fflags (filter st)) UDIALD_FILTER_PROFILE]) ∧
    Forall (fun fl => flag_set fl UDIALD_FILTER_PROFILE = true)
           (new_discoveries w (world_after (main_to_select st w))) ∧
    (∀ a w', main_to_select st w ≠ Ret (HandedOver a) w') ∧
    (∀ st' w', main_to_select st w = Ret (Selected st') w' →
       fflags (filter st') = Z.lor (fflags (filter st)) UDIALD_FILTER_PROFILE ∧
       ∃ d p, d ∈ w_usb w ∧ profile (modem st') = Some p ∧
              p ∈ custom_profiles st ++ profiles ∧ profile_matches p d = true ∧
              vendor (modem st') = usb_vendor d ∧ device (modem st') = usb_device_no d ∧
              device_id (modem st') = usb_id d) ∧
    (∀ st0 w0,
       new_discoveries w0 (world_after (udiald_select_modem st0 w0))
       = [Z.lor (fflags (filter st0)) UDIALD_FILTER_PROFILE]).
Proof.
  intros H st w Hmask Happ.
  split; [apply flag_set_lor; exact Hmask|].
  assert (Hall : ∀ st0 w0,
            new_discoveries w0 (world_after (udiald_select_modem st0 w0))
            = [Z.lor (fflags (filter st0)) UDIALD_FILTER_PROFILE]).
  { intros st0 w0. apply (select_modem_requires_profile st0 w0 Hmask). }
  cut ((if app_eqb (app st) UDIALD_APP_CONNECT
           && negb (Z.land (flags st) UDIALD_FLAG_TESTSTATE =? 0)%Z
           && (udiald_config_get_int st "udiald_error" UDIALD_OK w =? UDIALD_EUNLOCK)%Z
        then main_to_select st w = Exit UDIALD_EUNLOCK w
        else new_discoveries w (world_after (main_to_select st w))
             = [Z.lor (fflags (filter st)) UDIALD_FILTER_PROFILE]) ∧
       (∀ a w', main_to_select st w ≠ Ret (HandedOver a) w') ∧
       (∀ st' w', main_to_select st w = Ret (Selected st') w' →
          fflags (filter st') = Z.lor (fflags (filter st)) UDIALD_FILTER_PROFILE ∧
          ∃ d p, d ∈ w_usb w ∧ profile (modem st') = Some p ∧
                 p ∈ custom_profiles st ++ profiles ∧ profile_matches p d = true ∧
                 vendor (modem st') = usb_vendor d ∧ device (modem st') = usb_device_no d ∧
                 device_id (modem st') = usb_id d)).
  { intros (Hlog & Hno & Hsel). split; [exact Hlog|]. split; [|auto].
    destruct (_ && _ && _).
    - rewrite Hlog. cbn [world_after]. rewrite new_discoveries_same by reflexivity.
      constructor.
    - rewrite Hlog. repeat constructor. apply flag_set_lor. exact Hmask. }
  unfold main_to_select.
  assert (Hsel : app_eqb (app st) UDIALD_APP_DIAL = false ∧
                 app_eqb (app st) UDIALD_APP_LIST_PROFILES = false ∧
                 app_eqb (app st) UDIALD_APP_LIST_DEVICES = false).
  { unfold selecting_apps in Happ. rewrite !elem_of_cons, elem_of_nil in Happ.
    destruct Happ as [->|[->|[->|[->|[->|[]]]]]]; auto. }
  destruct Hsel as (-> & -> & ->).
  destruct (_ && _ && _).
  { split; [reflexivity|split; discriminate]. }
  set (w1 := if app_eqb _ _ then _ else _).
  assert (Hw1 : w_discoveries w1 = w_discoveries w ∧ w_usb w1 = w_usb w).
  { subst w1. destruct (app_eqb _ _); split; reflexivity. }
  destruct Hw1 as [Hd1 Hu1].
  destruct (select_modem_requires_profile st w1 Hmask) as [[Hnew Hfl] Hprof].
  destruct (udiald_select_modem st w1) as [st' w'|c w'|y w'] eqn:Hrun; cbn [bind world_after] in *.
  - split; [|split].
    + unfold new_discoveries in *. rewrite <- Hd1, Hnew. reflexivity.
    + discriminate.
    + intros st2 w2 [= <- <-].
      destruct (Hprof st' w' eq_refl) as (Hbit & d & p & Hd & Hrest).
      split; [exact Hbit|]. exists d, p. rewrite <- Hu1. auto.
  - split; [|split; discriminate].
    unfold new_discoveries in *. rewrite <- Hd1, Hnew. reflexivity.
  - split; [|split; discriminate].
    unfold new_discoveries in *. rewrite <- Hd1, Hnew. reflexivity.
Qed.

Lemma selection_never_without_profile_witness :
  let st := state_of UDIALD_APP_CONNECT 0 in
  let w := with_usb [stranger; huawei_e220] (world_of [] []) in
  (@UDIALD_FILTER_PROFILE header ≠ 0%Z ∧ app st ∈ selecting_apps) ∧
  new_discoveries w (world_after (main_to_select (H := header) st w))
  = [Z.lor (fflags (filter st)) (@UDIALD_FILTER_PROFILE header)] ∧
  ∃ st' w', main_to_select (H := header) st w = Ret (Selected st') w' ∧
            device_id (modem st') = usb_id huawei_e220.
Proof.
  cbv zeta.
  assert (Hm : @UDIALD_FILTER_PROFILE header ≠ 0%Z) by (cbn; lia).
  assert (Ha : app (state_of UDIALD_APP_CONNECT 0) ∈ selecting_apps)
    by (unfold selecting_apps; cbn; among).
  split; [auto|]. split.
  - exact (proj1 (proj2 (selection_never_without_profile header
                           (state_of UDIALD_APP_CONNECT 0)
                           (with_usb [stranger; huawei_e220] (world_of [] [])) Hm Ha))).
  - eexists _, _. split; [vm_compute; reflexivity|reflexivity].
Defined.

(** ** C7: setting the mode *)

Section SetMode.
Context {T : target} {H : udiald_h}.

Lemma set_mode_unfold st w :
  udiald_set_mode st w =
  let mode := udiald_modem_modeval (wanted_mode st w) in
  let unsupported : run unit :=
    udiald_exitcode UDIALD_EINVAL
      (Some ("Unsupported mode (" ++ udiald_modem_modestr mode ++ ")")%string) st w in
  match mode with
  | None => unsupported
  | Some md =>
      match profile (modem st) with
      | None => Stuck Fault w
      | Some prof =>
          match modecmd (cfg prof) md with
          | None => unsupported
          | Some cmd =>
              let failed (r : udiald_tty_read) (w : world) : run unit :=
                flattened r w (fun _ =>
                  udiald_exitcode UDIALD_EMODEM
                    (Some ("Failed to set mode " ++ device_id (modem st) ++ " ("
                           ++ udiald_modem_modestr mode ++ ")")%string) st w) in
              match cmd with
              | EmptyString => Ret tt w
              | _ =>
                  let r := w_auto w in
                  let '(n, w) := udiald_tty_put cmd w in
                  if (n <? 0)%Z then failed r w
                  else
                    let '(o, w) := tty_get r None 5000 w in
                    got o w (if negb (is_at_ok (go_ret o)) then failed (go_r o) w
                             else Ret tt w)
              end
          end
      end
  end.
Proof. reflexivity. Qed.


Lemma set_mode_empty_command st w prof md :
  profile (modem st) = Some prof →
  udiald_modem_modeval (wanted_mode st w) = Some md →
  modecmd (cfg prof) md = Some EmptyString →
  udiald_set_mode st w = Ret tt w.
Proof.
  intros Hprof Hmd Hcmd. rewrite set_mode_unfold. cbv zeta.
  rewrite Hmd, Hprof, Hcmd. reflexivity.
Qed.



End SetMode.




(** ** C9: forbidden characters *)

Section Forbidden.
Context {T : target} {H : udiald_h}.

Lemma strpbrk_spec s accept :
  strpbrk s accept = true ↔ ∃ c, c ∈ chars s ∧ c ∈ chars accept.
Proof.
  unfold strpbrk. rewrite existsb_exists. split.
  - intros (c & Hin & Hc). apply existsb_exists in Hc as (c' & Hin' & Heq).
    apply Ascii.eqb_eq in Heq as ->. exists c'.
    split; apply list_elem_of_In; assumption.
  - intros (c & Hin & Hc). exists c. split; [apply list_elem_of_In; exact Hin|].
    apply existsb_exists. exists c. split; [apply list_elem_of_In; exact Hc|].
    apply Ascii.eqb_refl.
Qed.

Lemma enter_pin_rejects_forbidden st w p :
  candidate_pin st w = Some p → strpbrk p at_forbidden = true →
  (app st ≠ UDIALD_APP_PROBE →
   ∃ w', udiald_enter_pin st w = Exit (surfaced st UDIALD_EINVAL) w' ∧
         same_but exit_keys w w') ∧
  (app st = UDIALD_APP_PROBE → udiald_enter_pin st w = Ret tt w).
Proof.
  intros Hpin Hbad. unfold udiald_enter_pin. rewrite Hpin.
  destruct p as [|a p']; [discriminate Hbad|].
  rewrite Hbad. unfold refuse. split.
  - intros Happ. destruct (app st); try contradiction; cbn [app_eqb negb];
      apply exitcode_exits.
  - intros ->. reflexivity.
Qed.

Lemma enter_puk_rejects_forbidden puk pin st w :
  sim_state st = 2%Z →
  strpbrk pin at_forbidden = true ∨ strpbrk puk at_forbidden = true →
  ∃ w', udiald_enter_puk puk pin st w = Exit (surfaced st UDIALD_EINVAL) w' ∧
        same_but exit_keys w w'.
Proof.
  intros Hsim Hbad. unfold udiald_enter_puk. rewrite Hsim. cbn [Z.eqb Pos.eqb negb bind].
  assert (Hor : strpbrk pin at_forbidden || strpbrk puk at_forbidden = true)
    by (apply orb_true_iff; exact Hbad).
  rewrite Hor.
  destruct (exitcode_exits (A := unit) UDIALD_EINVAL (Some "Invalid PIN or PUK"%string) st w)
    as (w' & -> & Hsame).
  cbn [bind]. eauto.
Qed.

(** The file depends on the store only through the options it reads. *)
Lemma pppd_file_ext e st prof w1 w2 :
  w_uci_lists w1 = w_uci_lists w2 →
  (∀ key, key ∈ pppd_keys → udiald_config_get st key w1 = udiald_config_get st key w2) →
  pppd_literal (udiald_config_get st "udiald_user" w1)
  = pppd_literal (udiald_config_get st "udiald_user" w2) →
  pppd_literal (udiald_config_get st "udiald_pass" w1)
  = pppd_literal (udiald_config_get st "udiald_pass" w2) →
  pppd_file e st prof w1 = pppd_file e st prof w2.
Proof.
  intros Hlists Hkeys Huser Hpass.
  unfold pppd_file, udiald_config_get_int, udiald_config_get_list.
  rewrite Huser, Hpass, Hlists.
  rewrite (Hkeys "ifname"%string) by (unfold pppd_keys; among).
  rewrite (Hkeys "defaultroute"%string) by (unfold pppd_keys; among).
  rewrite (Hkeys "replacedefaultroute"%string) by (unfold pppd_keys; among).
  rewrite (Hkeys "usepeerdns"%string) by (unfold pppd_keys; among).
  rewrite (Hkeys "persist"%string) by (unfold pppd_keys; among).
  rewrite (Hkeys "unit"%string) by (unfold pppd_keys; among).
  rewrite (Hkeys "maxfail"%string) by (unfold pppd_keys; among).
  rewrite (Hkeys "holdoff"%string) by (unfold pppd_keys; among).
  rewrite (Hkeys "udiald_mtu"%string) by (unfold pppd_keys; among).
  rewrite (Hkeys "noremoteip"%string) by (unfold pppd_keys; among).
  reflexivity.
Qed.

Lemma pppd_file_drops_user e st prof w s :
  strpbrk s pppd_forbidden = true →
  pppd_file e st prof (udiald_config_set st "udiald_user" s w)
  = pppd_file e st prof (udiald_config_revert st "udiald_user" w).
Proof.
  intros Hbad. apply pppd_file_ext.
  - reflexivity.
  - intros key Hkey. unfold udiald_config_get, ucix_get_option. cbn.
    rewrite lookup_insert_ne, lookup_delete_ne; [reflexivity| |];
      intros [= <-]; revert Hkey; unfold pppd_keys; not_among.
  - unfold udiald_config_get, ucix_get_option. cbn.
    rewrite lookup_insert_eq, lookup_delete_eq. unfold pppd_literal.
    destruct s; [reflexivity|]. rewrite Hbad. reflexivity.
  - unfold udiald_config_get, ucix_get_option. cbn.
    rewrite lookup_insert_ne, lookup_delete_ne by discriminate. reflexivity.
Qed.

Lemma pppd_file_drops_pass e st prof w s :
  strpbrk s pppd_forbidden = true →
  pppd_file e st prof (udiald_config_set st "udiald_pass" s w)
  = pppd_file e st prof (udiald_config_revert st "udiald_pass" w).
Proof.
  intros Hbad. apply pppd_file_ext.
  - reflexivity.
  - intros key Hkey. unfold udiald_config_get, ucix_get_option. cbn.
    rewrite lookup_insert_ne, lookup_delete_ne; [reflexivity| |];
      intros [= <-]; revert Hkey; unfold pppd_keys; not_among.
  - unfold udiald_config_get, ucix_get_option. cbn.
    rewrite lookup_insert_ne, lookup_delete_ne by discriminate. reflexivity.
  - unfold udiald_config_get, ucix_get_option. cbn.
    rewrite lookup_insert_eq, lookup_delete_eq. unfold pppd_literal.
    destruct s; [reflexivity|]. rewrite Hbad. reflexivity.
Qed.

Lemma pppd_file_has_user e st prof w :
  quoted_line "user" (pppd_literal (udiald_config_get st "udiald_user" w))
    ∈ pppd_file e st prof w ∧
  quoted_line "password" (pppd_literal (udiald_config_get st "udiald_pass" w))
    ∈ pppd_file e st prof w.
Proof.
  unfold pppd_file. rewrite !elem_of_app. split.
  - do 12 right. left. rewrite !elem_of_cons. right. left. reflexivity.
  - do 12 right. left. rewrite !elem_of_cons. right. right. left. reflexivity.
Qed.

End Forbidden.

(** C9, the claim as it stands, fails: a user name with a semicolon holds
    one of the four characters of the claim, and it is written into the
    file of the link daemon all the same. *)
Lemma pppd_file_keeps_semicolon :
  strpbrk semicolon_user at_forbidden = true ∧
  ∃ out body,
    udiald_tty_pppd plain_env (with_profile huawei_k3520 (state_of UDIALD_APP_CONNECT 0))
      semicolon_world = Some out ∧
    po_file out = Some body ∧
    quoted_line "user" semicolon_user ∈ body.
Proof.
  split; [reflexivity|].
  eexists _, _. split; [reflexivity|]. split; [reflexivity|].
  cbn [semicolon_user].
  pose proof (proj1 (pppd_file_has_user plain_env
                (with_profile huawei_k3520 (state_of UDIALD_APP_CONNECT 0))
                huawei_k3520 semicolon_world)) as Hin.
  exact Hin.
Qed.

(** C9, amended.  A PIN or PUK that holds a double quote, CR, LF or
    semicolon is rejected: the enter-PIN phase writes nothing to the
    control line and calls [udiald_exitcode] with [UDIALD_EINVAL] (in probe
    mode it just returns), and so does the enter-PUK phase for the PUK and
    for the new PIN.  A user name or password that holds a double quote, CR
    or LF is not written into the file of the link daemon: the file is the
    one an unset option gives.  A semicolon in the user name or password is
    let through: what is written is the option itself whenever it is not
    empty and free of those three characters. *)
Theorem forbidden_characters_are_rejected :
  ∀ (T : target) (H : udiald_h) (st : udiald_state) (w : world),
    (∀ s accept, strpbrk s accept = true ↔ ∃ c, c ∈ chars s ∧ c ∈ chars accept) ∧
    chars at_forbidden = [DQUOTE; CR; LF; ";"%char] ∧
    chars pppd_forbidden = [DQUOTE; CR; LF] ∧
    (∀ p, candidate_pin st w = Some p → strpbrk p at_forbidden = true →
       (app st ≠ UDIALD_APP_PROBE →
        ∃ w', udiald_enter_pin st w = Exit (surfaced st UDIALD_EINVAL) w' ∧
              same_but exit_keys w w') ∧
       (app st = UDIALD_APP_PROBE → udiald_enter_pin st w = Ret tt w)) ∧
    (∀ puk pin, sim_state st = 2%Z →
       strpbrk pin at_forbidden = true ∨ strpbrk puk at_forbidden = true →
       ∃ w', udiald_enter_puk puk pin st w = Exit (surfaced st UDIALD_EINVAL) w' ∧
             same_but exit_keys w w') ∧
    (∀ e prof s, strpbrk s pppd_forbidden = true →
       pppd_file e st prof (udiald_config_set st "udiald_user" s w)
       = pppd_file e st prof (udiald_config_revert st "udiald_user" w) ∧
       pppd_file e st prof (udiald_config_set st "udiald_pass" s w)
       = pppd_file e st prof (udiald_config_revert st "udiald_pass" w)) ∧
    (∀ e prof s, s ≠ EmptyString → strpbrk s pppd_forbidden = false →
       quoted_line "user" s
         ∈ pppd_file e st prof (udiald_config_set st "udiald_user" s w) ∧
       quoted_line "password" s
         ∈ pppd_file e st prof (udiald_config_set st "udiald_pass" s w)).
Proof.
  intros T H st w. repeat apply conj.
  - intros s accept. apply strpbrk_spec.
  - reflexivity.
  - reflexivity.
  - intros p. apply enter_pin_rejects_forbidden.
  - intros puk pin. apply enter_puk_rejects_forbidden.
  - intros e prof s Hbad. split.
    + apply pppd_file_drops_user. exact Hbad.
    + apply pppd_file_drops_pass. exact Hbad.
  - intros e prof s Hne Hok.
    assert (Hlit : pppd_literal (Some s) = s).
    { unfold pppd_literal. destruct s; [contradiction|]. rewrite Hok. reflexivity. }
    split.
    + pose proof (proj1 (pppd_file_has_user e st prof
                           (udiald_config_set st "udiald_user" s w))) as Hin.
      rewrite config_get_set, Hlit in Hin. exact Hin.
    + pose proof (proj2 (pppd_file_has_user e st prof
                           (udiald_config_set st "udiald_pass" s w))) as Hin.
      rewrite config_get_set, Hlit in Hin. exact Hin.
Qed.

Lemma forbidden_characters_are_rejected_witness :
  let st := with_profile huawei_k3520 (state_of UDIALD_APP_CONNECT 0) in
  let w := world_of [] [] in
  strpbrk linefeed_user pppd_forbidden = true ∧
  pppd_file plain_env st huawei_k3520 (udiald_config_set st "udiald_user" linefeed_user w)
  = pppd_file plain_env st huawei_k3520 (udiald_config_revert st "udiald_user" w).
Proof.
  cbv zeta.
  assert (Hbad : strpbrk linefeed_user pppd_forbidden = true) by reflexivity.
  split; [exact Hbad|].
  exact (proj1 (proj1 (proj2 (proj2 (proj2 (proj2 (proj2
           (forbidden_characters_are_rejected lp64 header
              (with_profile huawei_k3520 (state_of UDIALD_APP_CONNECT 0))
              (world_of [] [])))))))
           plain_env huawei_k3520 linefeed_user Hbad)).
Defined.


(** * Further properties of the code *)

(** ** tty.c: the flattener beyond the scratch buffer *)

Section FlattenerCut.

(** Once the write cursor stands at the end, nothing more is written. *)
Lemma flat_emit_full fin txt : ∀ fs, fst fs = fin → flat_emit fin txt fs = fs.
Proof.
  induction txt as [|ch txt IH]; intros fs Hfull; [reflexivity|].
  change (flat_emit fin (ch :: txt) fs) with (flat_emit fin txt (flat_put fin ch fs)).
  assert (Hput : flat_put fin ch fs = fs).
  { unfold flat_put. rewrite Hfull, Nat.eqb_refl. reflexivity. }
  rewrite Hput. apply IH. exact Hfull.
Qed.

(** The copy loop over a terminated string either never ends or has
    emitted the text. *)
Lemma copy_loop_cut raw fin txt : ∀ inp tail fs fuel,
  drop inp raw = txt ++ NUL :: tail → NUL ∉ txt →
  copy_loop fuel raw fin (inp, fs) = LFuel ∨
  copy_loop fuel raw fin (inp, fs) = LDone (flat_emit fin txt fs).
Proof.
  induction txt as [|ch txt IH]; intros inp tail fs fuel Hdrop Hno.
  - destruct fuel as [|fuel]; [left; reflexivity|]. right.
    cbn [copy_loop]. unfold copy_step.
    assert (Hnul : raw !! inp = Some NUL).
    { rewrite <- (Nat.add_0_r inp), <- lookup_drop, Hdrop. reflexivity. }
    rewrite Hnul. reflexivity.
  - destruct fuel as [|fuel]; [left; reflexivity|].
    cbn [copy_loop]. unfold copy_step.
    assert (Hch : raw !! inp = Some ch).
    { rewrite <- (Nat.add_0_r inp), <- lookup_drop, Hdrop. reflexivity. }
    rewrite Hch.
    assert (Hne : ch ≠ NUL) by (intros ->; apply Hno; left).
    apply Ascii.eqb_neq in Hne. rewrite Hne.
    destruct (fst fs =? fin) eqn:E.
    + left. apply copy_loop_stuck. unfold copy_step. rewrite Hch, Hne, E. reflexivity.
    + assert (Hput : flat_put fin ch fs = (S (fst fs), <[fst fs := ch]> (snd fs)))
        by (unfold flat_put; rewrite E; reflexivity).
      change (flat_emit fin (ch :: txt) fs) with (flat_emit fin txt (flat_put fin ch fs)).
      rewrite Hput. apply (IH (S inp) tail).
      * replace (S inp) with (inp + 1) by lia. rewrite <- drop_drop, Hdrop. reflexivity.
      * intros Hc. apply Hno. right. exact Hc.
Qed.

(** The copy loop over a string that does not fit never ends. *)
Lemma copy_loop_overrun raw fin txt : ∀ inp tail fs fuel,
  drop inp raw = txt ++ NUL :: tail → NUL ∉ txt →
  fst fs ≤ fin → fin < fst fs + length txt →
  copy_loop fuel raw fin (inp, fs) = LFuel.
Proof.
  induction txt as [|ch txt IH]; intros inp tail fs fuel Hdrop Hno Hle Hover.
  - cbn in Hover. lia.
  - destruct fuel as [|fuel]; [reflexivity|].
    cbn [copy_loop]. unfold copy_step.
    assert (Hch : raw !! inp = Some ch).
    { rewrite <- (Nat.add_0_r inp), <- lookup_drop, Hdrop. reflexivity. }
    rewrite Hch.
    assert (Hne : ch ≠ NUL) by (intros ->; apply Hno; left).
    apply Ascii.eqb_neq in Hne. rewrite Hne.
    destruct (fst fs =? fin) eqn:E.
    + apply copy_loop_stuck. unfold copy_step. rewrite Hch, Hne, E. reflexivity.
    + apply Nat.eqb_neq in E. apply (IH (S inp) tail).
      * replace (S inp) with (inp + 1) by lia. rewrite <- drop_drop, Hdrop. reflexivity.
      * intros Hc. apply Hno. right. exact Hc.
      * cbn [fst]. lia.
      * cbn [fst length] in *. lia.
Qed.

(** The loop over the lines either never ends or has emitted the quoted
    lines that were left. *)
Lemma flatten_from_cut r fin fuel :
  lines_terminated r →
  ∀ n i fs,
    i + n = lines r →
    flatten_from fuel r fin n i fs = LFuel ∨
    flatten_from fuel r fin n i fs
    = LDone (flat_emit fin (quoted_join (drop i (committed r))) fs).
Proof.
  intros Hwf. induction n as [|n IH]; intros i fs Hi.
  - right. cbn [flatten_from].
    rewrite drop_ge by (rewrite committed_length by exact Hwf; lia). reflexivity.
  - cbn [flatten_from].
    destruct (Hwf i ltac:(lia)) as (off & Hoff & Hnul). rewrite Hoff.
    rewrite (committed_drop r i off ltac:(lia) Hoff).
    set (l := cstr_at (raw_buf r) off).
    destruct (cstr_of_split _ Hnul) as (tail & Hsplit & Hno).
    fold (cstr_at (raw_buf r) off) in Hsplit, Hno. fold l in Hsplit, Hno.
    rewrite quoted_join_cons.
    change (flat_put fin DQUOTE fs) with (flat_emit fin [DQUOTE] fs).
    destruct (copy_loop_cut (raw_buf r) fin l off tail (flat_emit fin [DQUOTE] fs) fuel
                Hsplit Hno) as [Hc|Hc]; rewrite Hc; [left; reflexivity|].
    rewrite <- flat_emit_app.
    change (flat_put fin DQUOTE (flat_emit fin ([DQUOTE] ++ l) fs))
      with (flat_emit fin [DQUOTE] (flat_emit fin ([DQUOTE] ++ l) fs)).
    rewrite <- flat_emit_app.
    destruct (decide (i = lines r - 1)) as [Hlast|Hmore].
    + assert (Hnil : drop (S i) (committed r) = []).
      { apply drop_ge. rewrite committed_length by exact Hwf. lia. }
      rewrite Hnil. assert (Hn : n = 0) by lia. subst n.
      apply Nat.eqb_eq in Hlast. rewrite Hlast. right.
      cbn [flatten_from app]. rewrite app_nil_r, <- app_assoc. cbn [app].
      destruct (_ =? fin); reflexivity.
    + destruct (drop (S i) (committed r)) as [|l2 ls2] eqn:Hrest.
      { apply (f_equal length) in Hrest. rewrite length_drop, committed_length in Hrest
          by exact Hwf. cbn in Hrest. lia. }
      apply Nat.eqb_neq in Hmore. rewrite Hmore.
      change (flat_put fin " "%char (flat_put fin ","%char ?x))
        with (flat_emit fin [","%char; " "%char] x).
      rewrite <- flat_emit_app.
      set (Q2 := quoted_join (l2 :: ls2)).
      set (done := (([DQUOTE] ++ l) ++ [DQUOTE]) ++ [","%char; " "%char]).
      assert (Hall : DQUOTE :: l ++ [DQUOTE] ++ [","%char; " "%char] ++ Q2 = done ++ Q2).
      { subst done. rewrite <- !app_assoc. reflexivity. }
      rewrite Hall, flat_emit_app.
      destruct (_ =? fin) eqn:Hbrk.
      * right. apply Nat.eqb_eq in Hbrk.
        rewrite (flat_emit_full fin Q2 (flat_emit fin done fs) Hbrk). reflexivity.
      * destruct (IH (S i) (flat_emit fin done fs) ltac:(lia)) as [Hr|Hr]; rewrite Hr.
        -- left. reflexivity.
        -- right. rewrite Hrest. reflexivity.
Qed.

(** What the emission of a text into the scratch buffer leaves: as much
    of the text as there is room for. *)
Lemma flat_emit_take fin txt : ∀ done rest,
  length done ≤ fin → fin ≤ length done + length rest →
  flat_emit fin txt (length done, done ++ rest)
  = (length done + length (take (fin - length done) txt),
     done ++ take (fin - length done) txt
          ++ drop (length (take (fin - length done) txt)) rest).
Proof.
  induction txt as [|ch txt IH]; intros done rest Hle Hroom.
  - rewrite take_nil. cbn. rewrite Nat.add_0_r, drop_0. reflexivity.
  - destruct (decide (length done = fin)) as [Hfull|Hless].
    + rewrite flat_emit_full by exact Hfull.
      replace (fin - length done) with 0 by lia.
      cbn. rewrite Nat.add_0_r, drop_0. reflexivity.
    + destruct rest as [|x rest]; [cbn in Hroom; lia|].
      change (flat_emit fin (ch :: txt) (length done, done ++ x :: rest))
        with (flat_emit fin txt (flat_put fin ch (length done, done ++ x :: rest))).
      rewrite flat_put_fits by lia.
      rewrite IH.
      * rewrite length_app. cbn [length].
        replace (fin - length done) with (S (fin - (length done + 1))) by lia.
        cbn [take length drop]. rewrite <- !app_assoc. cbn [app].
        f_equal. lia.
      * rewrite length_app. cbn. lia.
      * rewrite length_app. cbn in *. lia.
Qed.

(** On a buffer whose committed lines are terminated the flattener never
    leaves its buffers, and what it returns is the quoted lines cut to the
    room of the scratch buffer. *)
Lemma flatten_cut r :
  lines_terminated r →
  udiald_tty_flatten_result r = FlatHang ∨
  ∃ buf, length buf = length (flat_buf r) ∧
    udiald_tty_flatten_result r
    = FlatOk (set_flat_buf buf r)
             (take (length (flat_buf r) - 1) (quoted_join (committed r))).
Proof.
  intros Hwf. unfold udiald_tty_flatten_result, flatten_fuel.
  set (fin := length (flat_buf r) - 1).
  set (Q := quoted_join (committed r)).
  destruct (flatten_from_cut r fin (S (length (raw_buf r))) Hwf (lines r) 0 (0, flat_buf r)
              ltac:(lia)) as [Hr|Hr]; rewrite Hr; [left; reflexivity|].
  right. rewrite drop_0. fold Q.
  pose proof (flat_emit_take fin Q [] (flat_buf r) ltac:(cbn; lia)
                ltac:(subst fin; cbn [length]; lia)) as Hemit.
  rewrite !app_nil_l in Hemit. change (length (@nil ascii)) with 0 in Hemit.
  rewrite Nat.sub_0_r, Nat.add_0_l in Hemit. rewrite Hemit.
  set (cutQ := take fin Q).
  assert (Hcut : length cutQ ≤ fin) by (subst cutQ; rewrite length_take; lia).
  eexists. split; [|f_equal].
  - rewrite length_insert, length_app, length_drop. subst fin. lia.
  - destruct (drop (length cutQ) (flat_buf r)) as [|x rest] eqn:Hdrop.
    + apply (f_equal length) in Hdrop. rewrite length_drop in Hdrop. cbn in Hdrop.
      assert (Hempty : cutQ = []).
      { apply length_zero_iff_nil. subst fin. lia. }
      rewrite Hempty. reflexivity.
    + replace (length cutQ) with (length cutQ + 0) at 1 by lia.
      rewrite insert_app_r. cbn [insert]. unfold cstr_at. rewrite drop_0.
      change (<[0:=NUL]> (x :: rest)) with (NUL :: rest).
      apply cstr_of_text.
      intros Hin. subst cutQ. apply elem_of_take in Hin as (i & Hin & _).
      apply list_elem_of_lookup_2 in Hin. revert Hin. subst Q.
      apply quoted_join_no_nul. unfold committed. apply Forall_fmap, Forall_forall.
      intros off _. cbn. apply cstr_of_no_nul.
Qed.

End FlattenerCut.

Section FlattenAgain.

Lemma copy_loop_same_way raw fin fuel : ∀ inp k b1 b2,
  same_way (copy_loop fuel raw fin (inp, (k, b1))) (copy_loop fuel raw fin (inp, (k, b2))).
Proof.
  induction fuel as [|fuel IH]; intros inp k b1 b2; cbn [copy_loop]; [exact I|].
  unfold copy_step. destruct (raw !! inp) as [ch|]; [|exact I].
  destruct (Ascii.eqb ch NUL); [reflexivity|].
  cbn [fst snd]. destruct (k =? fin); apply IH.
Qed.

Lemma flatten_from_same_way r fin fuel : ∀ n i k b1 b2,
  same_way (flatten_from fuel r fin n i (k, b1)) (flatten_from fuel r fin n i (k, b2)).
Proof.
  induction n as [|n IH]; intros i k b1 b2; cbn [flatten_from]; [reflexivity|].
  cbv zeta. destruct (raw_lines r !! i) as [inp|]; [|exact I].
  assert (Hput : ∀ ch k b1 b2, ∃ k' c1 c2,
            flat_put fin ch (k, b1) = (k', c1) ∧ flat_put fin ch (k, b2) = (k', c2)).
  { intros ch k0 c1 c2. unfold flat_put. cbn [fst snd].
    destruct (k0 =? fin); eexists _, _, _; split; reflexivity. }
  destruct (Hput DQUOTE k b1 b2) as (k1 & c1 & c2 & -> & ->).
  match goal with
  | |- same_way (match ?a with _ => _ end) (match ?b with _ => _ end) =>
      assert (Hc : same_way a b) by apply copy_loop_same_way;
      destruct a as [[k2 d1]| |], b as [[k2' d2]| |]
  end; try contradiction; try exact I.
  cbn in Hc. subst k2'.
  destruct (Hput DQUOTE k2 d1 d2) as (k3 & e1 & e2 & -> & ->).
  destruct (i =? lines r - 1).
  - cbn [fst]. destruct (k3 =? fin); [reflexivity|apply IH].
  - destruct (Hput ","%char k3 e1 e2) as (k4 & f1 & f2 & -> & ->).
    destruct (Hput " "%char k4 f1 f2) as (k5 & g1 & g2 & -> & ->).
    cbn [fst]. destruct (k5 =? fin); [reflexivity|apply IH].
Qed.

Lemma flatten_from_set_flat_buf b r fin fuel : ∀ n i fs,
  flatten_from fuel (set_flat_buf b r) fin n i fs = flatten_from fuel r fin n i fs.
Proof.
  induction n as [|n IH]; intros i fs; cbn [flatten_from]; [reflexivity|].
  cbn [set_flat_buf raw_lines raw_buf lines].
  destruct (raw_lines r !! i); [|reflexivity].
  destruct (copy_loop _ _ _ _); try reflexivity.
  destruct (fst _ =? fin); [reflexivity|apply IH].
Qed.

(** Flattening the buffer a call has left changes nothing, whether the
    call returned the whole text or a cut one. *)
Lemma flatten_again_cut r r' s :
  lines_terminated r →
  udiald_tty_flatten_result r = FlatOk r' s →
  udiald_tty_flatten_result r' = FlatOk r' s.
Proof.
  intros Hwf. unfold udiald_tty_flatten_result, flatten_fuel.
  set (fin := length (flat_buf r) - 1).
  set (fuel := S (length (raw_buf r))).
  set (Q := quoted_join (committed r)).
  destruct (flatten_from_cut r fin fuel Hwf (lines r) 0 (0, flat_buf r) ltac:(lia))
    as [Hr|Hr]; rewrite Hr; [discriminate|].
  rewrite drop_0. fold Q.
  pose proof (flat_emit_take fin Q [] (flat_buf r) ltac:(cbn; lia)
                ltac:(subst fin; cbn [length]; lia)) as Hemit.
  rewrite !app_nil_l in Hemit. change (length (@nil ascii)) with 0 in Hemit.
  rewrite Nat.sub_0_r, Nat.add_0_l in Hemit. rewrite Hemit.
  set (cutQ := take fin Q).
  assert (Hcut : length cutQ ≤ fin) by (subst cutQ; rewrite length_take; lia).
  set (buf := <[length cutQ := NUL]> (cutQ ++ drop (length cutQ) (flat_buf r))).
  assert (Hlen : length buf = length (flat_buf r)).
  { subst buf. rewrite length_insert, length_app, length_drop. subst fin. lia. }
  intros [= <- <-].
  cbn [set_flat_buf flat_buf raw_buf lines]. rewrite Hlen. fold fin. fold fuel.
  rewrite flatten_from_set_flat_buf.
  pose proof (flatten_from_same_way r fin fuel (lines r) 0 0 (flat_buf r) buf) as Hway.
  rewrite Hr in Hway.
  destruct (flatten_from_cut r fin fuel Hwf (lines r) 0 (0, buf) ltac:(lia)) as [Hr2|Hr2];
    rewrite Hr2 in Hway |- *; [contradiction|].
  rewrite drop_0. fold Q.
  pose proof (flat_emit_take fin Q [] buf ltac:(cbn; lia)
                ltac:(rewrite Hlen; subst fin; cbn [length]; lia)) as Hemit2.
  rewrite !app_nil_l in Hemit2. change (length (@nil ascii)) with 0 in Hemit2.
  rewrite Nat.sub_0_r, Nat.add_0_l in Hemit2. rewrite Hemit2. fold cutQ.
  assert (Hsame : <[length cutQ := NUL]> (cutQ ++ drop (length cutQ) buf) = buf).
  { subst buf. destruct (drop (length cutQ) (flat_buf r)) as [|x rest] eqn:Hdrop.
    - rewrite app_nil_r.
      rewrite (list_insert_ge cutQ) by lia.
      rewrite drop_ge by lia. rewrite app_nil_r. apply list_insert_ge. lia.
    - assert (HB : <[length cutQ := NUL]> (cutQ ++ x :: rest) = cutQ ++ NUL :: rest)
        by (rewrite insert_app_r_alt by lia; rewrite Nat.sub_diag; reflexivity).
      rewrite HB, drop_app_length.
      rewrite insert_app_r_alt by lia. rewrite Nat.sub_diag. reflexivity. }
  rewrite Hsame. reflexivity.
Qed.

End FlattenAgain.

Ltac terminated_by_cases :=
  intros i Hi; cbn in Hi;
  repeat (destruct i as [|i];
          [eexists; split; [reflexivity|]; cbn; rewrite ?elem_of_cons;
           repeat (try (left; reflexivity); right)|]);
  lia.

(** X1.  [udiald_tty_flatten_result] on a buffer whose committed lines are
    terminated and whose quoted text is shorter than [flat_buf]: it returns
    the committed lines, each between double quotes, neighbours separated
    by a comma and a space; the text and a NUL stand at the start of
    [flat_buf], the rest of [flat_buf] and the read buffer are as they
    were. *)
Theorem flatten_quotes_and_joins (r : udiald_tty_read) :
  lines_terminated r →
  length (quoted_join (committed r)) < length (flat_buf r) →
  udiald_tty_flatten_result r
  = FlatOk (set_flat_buf (quoted_join (committed r) ++ NUL ::
                          drop (S (length (quoted_join (committed r)))) (flat_buf r)) r)
           (quoted_join (committed r)).
Proof. apply flatten_fits. Qed.

Lemma flatten_quotes_and_joins_witness :
  (lines_terminated two_line_read ∧
   length (quoted_join (committed two_line_read)) < length (flat_buf two_line_read)) ∧
  ∃ r', udiald_tty_flatten_result two_line_read
        = FlatOk r' (chars (DQs ++ "Huawei" ++ DQs ++ ", " ++ DQs ++ "OK" ++ DQs)).
Proof.
  assert (H1 : lines_terminated two_line_read) by terminated_by_cases.
  assert (H2 : length (quoted_join (committed two_line_read))
               < length (flat_buf two_line_read)) by (vm_compute; lia).
  split; [split; assumption|].
  eexists. exact (flatten_quotes_and_joins two_line_read H1 H2).
Defined.

(** X2.  Flattening is idempotent.  On a buffer whose committed lines are
    terminated, whenever [udiald_tty_flatten_result] returns, with the
    whole text or with a text cut to the room of [flat_buf], a second call
    on the buffer the first call left returns the same string and leaves
    the buffer as it is. *)
Theorem flatten_twice_is_flatten_once (r r' : udiald_tty_read) (s : list ascii) :
  lines_terminated r →
  udiald_tty_flatten_result r = FlatOk r' s →
  udiald_tty_flatten_result r' = FlatOk r' s.
Proof. apply flatten_again_cut. Qed.

Lemma flatten_twice_is_flatten_once_witness :
  lines_terminated cut_read ∧
  ∃ r' s, udiald_tty_flatten_result cut_read = FlatOk r' s ∧
          length s < length (quoted_join (committed cut_read)) ∧
          udiald_tty_flatten_result r' = FlatOk r' s.
Proof.
  assert (H1 : lines_terminated cut_read) by terminated_by_cases.
  split; [exact H1|].
  destruct (udiald_tty_flatten_result cut_read) as [r' s| |] eqn:E.
  - exists r', s. split; [reflexivity|]. split.
    + pose proof E as E'. vm_compute in E'. injection E' as _ <-. vm_compute. lia.
    + exact (flatten_twice_is_flatten_once cut_read r' s H1 E).
  - exfalso. vm_compute in E. discriminate E.
  - exfalso. vm_compute in E. discriminate E.
Defined.

(** X3.  On a buffer whose committed lines are terminated, as every buffer
    is that the reader hands back, [udiald_tty_flatten_result] never reads
    or writes outside its buffers, and whenever it returns, the string is
    the quoted and joined lines cut to [lengthof(flat_buf) - 1] bytes; the
    read buffer is untouched and [flat_buf] keeps its size. *)
Theorem flatten_returns_cut_text (r : udiald_tty_read) :
  lines_terminated r →
  udiald_tty_flatten_result r ≠ FlatFault ∧
  ∀ r' s, udiald_tty_flatten_result r = FlatOk r' s →
    s = take (length (flat_buf r) - 1) (quoted_join (committed r)) ∧
    raw_buf r' = raw_buf r ∧ raw_lines r' = raw_lines r ∧ lines r' = lines r ∧
    result_line r' = result_line r ∧ length (flat_buf r') = length (flat_buf r).
Proof.
  intros Hwf. destruct (flatten_cut r Hwf) as [Hh|(buf & Hlen & Hok)].
  - rewrite Hh. split; [discriminate|]. intros r' s [=].
  - rewrite Hok. split; [discriminate|]. intros r' s [= <- <-].
    cbn. repeat split. exact Hlen.
Qed.

Lemma flatten_returns_cut_text_witness :
  lines_terminated cut_read ∧
  ∃ r', udiald_tty_flatten_result cut_read
        = FlatOk r' (chars (DQs ++ "+CME" ++ DQs ++ ", ")) ∧
        chars (DQs ++ "+CME" ++ DQs ++ ", ")
        = take (length (flat_buf cut_read) - 1) (quoted_join (committed cut_read)).
Proof.
  assert (H1 : lines_terminated cut_read) by terminated_by_cases.
  split; [exact H1|].
  eexists. split; [reflexivity|].
  exact (proj1 (proj2 (flatten_returns_cut_text cut_read H1) _ _ eq_refl)).
Defined.

(** X4.  [udiald_tty_flatten_result] does not return when the first
    committed line alone fills the scratch buffer: with a first line of at
    least [lengthof(flat_buf) - 1] bytes the copy loop reaches the end of
    [flat_buf] inside the line and spins there. *)
Theorem flatten_hangs_on_long_first_line (r : udiald_tty_read) (off : nat) :
  raw_lines r !! 0 = Some off →
  NUL ∈ drop off (raw_buf r) →
  0 < lines r →
  0 < length (cstr_at (raw_buf r) off) →
  length (flat_buf r) - 1 ≤ length (cstr_at (raw_buf r) off) →
  udiald_tty_flatten_result r = FlatHang ∧ ∀ fuel, flatten_fuel fuel r = LFuel.
Proof.
  intros Hoff Hnul Hlines Hpos Hlong.
  assert (Hfrom : ∀ fuel, flatten_from fuel r (length (flat_buf r) - 1) (lines r) 0
                            (0, flat_buf r) = LFuel).
  { intros fuel. destruct (lines r) as [|n]; [lia|].
    cbn [flatten_from]. rewrite Hoff.
    destruct (cstr_of_split _ Hnul) as (tail & Hsplit & Hno).
    fold (cstr_at (raw_buf r) off) in Hsplit, Hno.
    rewrite (copy_loop_overrun (raw_buf r) _ (cstr_at (raw_buf r) off) off tail _ fuel
               Hsplit Hno); [reflexivity| |].
    - unfold flat_put. cbn [fst]. destruct (0 =? _) eqn:E; cbn [fst].
      + lia.
      + apply Nat.eqb_neq in E. lia.
    - unfold flat_put. cbn [fst]. destruct (0 =? _) eqn:E; cbn [fst].
      + apply Nat.eqb_eq in E. lia.
      + lia. }
  split.
  - unfold udiald_tty_flatten_result, flatten_fuel. rewrite Hfrom. reflexivity.
  - intros fuel. unfold flatten_fuel. rewrite Hfrom. reflexivity.
Qed.

Lemma flatten_hangs_on_long_first_line_witness :
  (raw_lines tight_read !! 0 = Some 0 ∧ NUL ∈ drop 0 (raw_buf tight_read) ∧
   0 < lines tight_read ∧ 0 < length (cstr_at (raw_buf tight_read) 0) ∧
   length (flat_buf tight_read) - 1 ≤ length (cstr_at (raw_buf tight_read) 0)) ∧
  udiald_tty_flatten_result tight_read = FlatHang.
Proof.
  assert (H1 : raw_lines tight_read !! 0 = Some 0) by reflexivity.
  assert (H2 : NUL ∈ drop 0 (raw_buf tight_read))
    by (cbn; rewrite ?elem_of_cons; repeat (try (left; reflexivity); right)).
  assert (H3 : 0 < lines tight_read) by (cbn; lia).
  assert (H4 : 0 < length (cstr_at (raw_buf tight_read) 0)) by (vm_compute; lia).
  assert (H5 : length (flat_buf tight_read) - 1 ≤ length (cstr_at (raw_buf tight_read) 0))
    by (vm_compute; lia).
  split; [repeat split; assumption|].
  exact (proj1 (flatten_hangs_on_long_first_line tight_read 0 H1 H2 H3 H4 H5)).
Defined.

(** ** tty.c: the reader and the stream it reads *)

Section StreamFacts.
Context {T : target}.

Lemma stream_lines_snoc done b :
  stream_lines (done ++ [b]) = split_step (stream_lines done) b.
Proof. unfold stream_lines. rewrite fold_left_app. reflexivity. Qed.

Lemma cstr_of_nul l rest : cstr_of (l ++ NUL :: rest) = cstr_of l.
Proof.
  induction l as [|a l IH]; [reflexivity|].
  cbn. destruct (Ascii.eqb a NUL); [reflexivity|]. rewrite IH. reflexivity.
Qed.

(** A text that stands in the buffer with a NUL behind it is the C string
    there, up to its own first NUL. *)
Lemma cstr_at_holds buf txt : ∀ start,
  (∀ k a, txt !! k = Some a → buf !! (start + k) = Some a) →
  buf !! (start + length txt) = Some NUL →
  cstr_at buf start = cstr_of txt.
Proof.
  unfold cstr_at. induction txt as [|a txt IH]; intros start Htxt Hnul.
  - cbn in Hnul. rewrite Nat.add_0_r in Hnul.
    rewrite (drop_S _ _ _ Hnul). reflexivity.
  - pose proof (Htxt 0 a eq_refl) as Ha. rewrite Nat.add_0_r in Ha.
    rewrite (drop_S _ _ _ Ha). cbn [cstr_of].
    destruct (Ascii.eqb a NUL); [reflexivity|]. f_equal.
    apply IH.
    + intros k c Hk. replace (S start + k) with (start + S k) by lia.
      apply Htxt. exact Hk.
    + replace (S start + length txt) with (start + length (a :: txt)) by (cbn; lia).
      exact Hnul.
Qed.

(** A C string that ends below [bound] does not depend on the bytes from
    [bound] on. *)
Lemma cstr_at_below buf buf' bound e :
  (∀ k, k < bound → buf' !! k = buf !! k) →
  e < bound → buf !! e = Some NUL →
  ∀ off, off ≤ e → cstr_at buf' off = cstr_at buf off.
Proof.
  intros Hsame He Hnul off Hoff. unfold cstr_at.
  remember (e - off) as d eqn:Hd. revert off Hoff Hd.
  induction d as [|d IH]; intros off Hoff Hd.
  - assert (off = e) by lia. subst off.
    pose proof (Hsame e He) as H'. rewrite Hnul in H'.
    rewrite (drop_S _ _ _ Hnul), (drop_S _ _ _ H'). reflexivity.
  - assert (Hlt : off < length buf).
    { apply lookup_lt_Some in Hnul. lia. }
    destruct (lookup_lt_is_Some_2 buf off Hlt) as [a Ha].
    pose proof (Hsame off ltac:(lia)) as H'. rewrite Ha in H'.
    rewrite (drop_S _ _ _ Ha), (drop_S _ _ _ H'). cbn [cstr_of].
    destruct (Ascii.eqb a NUL); [reflexivity|]. f_equal.
    apply IH; lia.
Qed.

(** The committed lines do not depend on what lies beyond them. *)
Lemma committed_stable r r' bound :
  (∀ i, i < lines r → line_ok r bound i) →
  lines r' = lines r →
  (∀ i, i < lines r → raw_lines r' !! i = raw_lines r !! i) →
  (∀ k, k < bound → raw_buf r' !! k = raw_buf r !! k) →
  committed r' = committed r.
Proof.
  intros Hok Hl Hslots Hbuf. apply list_eq. intros i. unfold committed.
  rewrite !list_lookup_fmap, Hl.
  destruct (decide (i < lines r)) as [Hi|Hi].
  - rewrite !lookup_take_lt by exact Hi. rewrite Hslots by exact Hi.
    destruct (Hok i Hi) as (off & ch & e & H1 & H2 & H3 & H4 & H5 & H6 & H7).
    rewrite H1. cbn. f_equal. eapply cstr_at_below; eauto.
  - rewrite !lookup_take_ge by lia. reflexivity.
Qed.

(** Committing one more line appends its text. *)
Lemma committed_commit r r' bound start :
  (∀ i, i < lines r → line_ok r bound i) →
  lines r' = S (lines r) →
  raw_lines r' = raw_lines r →
  raw_lines r !! lines r = Some start →
  (∀ k, k < bound → raw_buf r' !! k = raw_buf r !! k) →
  committed r' = committed r ++ [cstr_at (raw_buf r') start].
Proof.
  intros Hok Hl Hslots Hstart Hbuf. unfold committed at 1.
  rewrite Hl, Hslots. rewrite (take_S_r _ _ _ Hstart), fmap_app. cbn. f_equal.
  apply list_eq. intros i. unfold committed. rewrite !list_lookup_fmap.
  destruct (decide (i < lines r)) as [Hi|Hi].
  - rewrite !lookup_take_lt by exact Hi.
    destruct (Hok i Hi) as (off & ch & e & H1 & H2 & H3 & H4 & H5 & H6 & H7).
    rewrite H1. cbn. f_equal. eapply cstr_at_below; eauto.
  - rewrite !lookup_take_ge by lia. reflexivity.
Qed.

(** [strncmp] against a C string looks at the text of the line only. *)
Lemma strncmp_eq_begins buf p : ∀ off,
  strncmp_eq buf off p (length (cstr_of p)) = begins (cstr_at buf off) (cstr_of p).
Proof.
  unfold cstr_at. induction p as [|c p IH]; intros off; [reflexivity|].
  cbn [cstr_of]. destruct (Ascii.eqb c NUL) eqn:Hc; [reflexivity|].
  cbn [length strncmp_eq head tail default from_option id begins].
  destruct (buf !! off) as [a|] eqn:Ha.
  - rewrite (drop_S _ _ _ Ha). cbn [default from_option id cstr_of].
    destruct (Ascii.eqb a NUL) eqn:Hnul.
    + apply Ascii.eqb_eq in Hnul as ->. rewrite (Ascii.eqb_sym NUL c), Hc. reflexivity.
    + cbn [begins]. destruct (Ascii.eqb a c); [|reflexivity]. cbn. apply IH.
  - rewrite drop_ge by (apply lookup_ge_None; exact Ha).
    cbn [default from_option id cstr_of begins].
    rewrite (Ascii.eqb_sym NUL c), Hc. reflexivity.
Qed.

Lemma starts_with_text buf off s :
  starts_with buf off s = text_begins (cstr_at buf off) s.
Proof. apply strncmp_eq_begins. Qed.

Lemma match_atres_text buf off : match_atres buf off = text_tag (cstr_at buf off).
Proof.
  unfold match_atres, text_tag. f_equal.
  induction ttyresstr as [|e l IH]; [reflexivity|].
  cbn [List.find]. rewrite starts_with_text, IH. reflexivity.
Qed.

Lemma kept_lines_skip done b :
  is_newline b = true → snd (stream_lines done) = [] →
  kept_lines (done ++ [b]) = kept_lines done ∧ snd (stream_lines (done ++ [b])) = [].
Proof.
  intros Hnl Hcur. unfold kept_lines. rewrite stream_lines_snoc.
  unfold split_step. rewrite Hnl, Hcur. auto.
Qed.

Lemma kept_lines_end done b :
  is_newline b = true → snd (stream_lines done) ≠ [] →
  kept_lines (done ++ [b])
  = kept_lines done ++ (if is_async (snd (stream_lines done)) then []
                        else [cstr_of (snd (stream_lines done))]) ∧
  snd (stream_lines (done ++ [b])) = [].
Proof.
  intros Hnl Hcur. unfold kept_lines. rewrite stream_lines_snoc.
  unfold split_step. rewrite Hnl.
  destruct (snd (stream_lines done)) as [|a cur] eqn:E; [contradiction|].
  cbn [fst snd]. rewrite List.filter_app, fmap_app. cbn [List.filter].
  destruct (is_async (a :: cur)); cbn; auto.
Qed.

Lemma kept_lines_byte done b :
  is_newline b = false →
  kept_lines (done ++ [b]) = kept_lines done ∧
  snd (stream_lines (done ++ [b])) = snd (stream_lines done) ++ [b].
Proof.
  intros Hnl. unfold kept_lines. rewrite stream_lines_snoc.
  unfold split_step. rewrite Hnl. auto.
Qed.

End StreamFacts.

Section StreamInvariant.
Context {T : target}.

Lemma inv_committed_length s : reader_inv s → length (committed (gs_r s)) = lines (gs_r s).
Proof.
  intros Hinv. apply committed_length, read_ok_terminated, inv_read_ok. exact Hinv.
Qed.

Lemma first_with_prefix_same r r' p :
  committed r' = committed r → result_line r' = result_line r →
  (∀ i, i < lines r → raw_lines r' !! i = raw_lines r !! i) →
  first_with_prefix r p → first_with_prefix r' p.
Proof.
  unfold first_with_prefix. intros Hc Hr Hs. rewrite Hr, Hc.
  destruct (result_line r) as [off|]; [|auto].
  intros (i & pre & txt & Hp & Hoff & Htxt & Hb & Hfirst).
  exists i, pre, txt. repeat split; auto.
  rewrite Hs; [exact Hoff|].
  apply lookup_lt_Some in Htxt. unfold committed in Htxt.
  rewrite length_fmap, length_take in Htxt. lia.
Qed.

Lemma first_with_prefix_commit r r' p start txt :
  committed r' = committed r ++ [txt] →
  raw_lines r' = raw_lines r →
  raw_lines r !! lines r = Some start →
  length (committed r) = lines r →
  result_line r' = match result_line r, p with
                   | None, Some pre => if text_begins txt pre then Some start else None
                   | x, _ => x
                   end →
  first_with_prefix r p → first_with_prefix r' p.
Proof.
  unfold first_with_prefix. intros Hc Hs Hstart Hlen Hr Hfirst. rewrite Hr, Hc, Hs.
  destruct (result_line r) as [off|].
  - destruct Hfirst as (i & pre & txt0 & Hp & Hoff & Htxt & Hb & Hbefore).
    exists i, pre, txt0. repeat split; auto.
    + rewrite lookup_app_l; [exact Htxt|]. apply lookup_lt_Some in Htxt. exact Htxt.
    + intros j txt' Hj Hlk. apply (Hbefore j txt' Hj).
      rewrite lookup_app_l in Hlk; [exact Hlk|].
      apply lookup_lt_Some in Htxt. lia.
  - destruct p as [pre|].
    + specialize (Hfirst pre eq_refl).
      destruct (text_begins txt pre) eqn:Hb.
      * exists (lines r), pre, txt. repeat split; auto.
        -- rewrite lookup_app_r by lia. rewrite Hlen, Nat.sub_diag. reflexivity.
        -- intros j txt' Hj Hlk. rewrite lookup_app_l in Hlk by lia.
           rewrite Forall_forall in Hfirst. apply Hfirst.
           apply list_elem_of_lookup_2 in Hlk. exact Hlk.
      * intros pre' [= <-]. apply Forall_app. split; [exact Hfirst|].
        constructor; [exact Hb|constructor].
    + intros pre [=].
Qed.


Lemma rx_byte_stream p b s done :
  reader_inv s → stream_inv p s done →
  match rx_byte p b s with
  | RxNext s' => stream_inv p s' (done ++ [b])
  | RxReturn t s' => answer_of p (gs_r s') (done ++ [b]) (Some t)
  | RxError _ s' | RxFault s' => answer_of p (gs_r s') done None
  end.
Proof.
  intros Hinv [Hlines Hclosed Hopen Hres Htags].
  pose proof (inv_committed_length s Hinv) as Hlen.
  assert (Hok : answer_of p (gs_r s) done None) by (repeat split; assumption).
  destruct Hinv as [Hfr Hop Hcom Hrok].
  unfold rx_byte.
  destruct (gs_c s <? length (raw_buf (gs_r s))) eqn:Hc; cbn [negb]; [|exact Hok].
  apply Nat.ltb_lt in Hc.
  change (Ascii.eqb b CR || Ascii.eqb b LF) with (is_newline b).
  destruct (is_newline b) eqn:Hnl.
  - destruct (gs_in_newline s) eqn:Hin; cbn [negb].
    + (* inside a run of newlines *)
      unfold frontier in *. rewrite Hin in *.
      destruct (kept_lines_skip done b Hnl (Hclosed eq_refl)) as [Hk Hs].
      set (r1 := set_raw_buf _ _).
      assert (Hc1 : committed r1 = committed (gs_r s)).
      { apply (committed_stable (gs_r s) r1 (gs_c s)); [exact Hcom|reflexivity| |].
        - reflexivity.
        - intros k Hk'. cbn. apply list_lookup_insert_ne. lia. }
      split; cbn [gs_r gs_in_newline advance gs_c].
      * rewrite Hc1, Hk. exact Hlines.
      * intros _. exact Hs.
      * discriminate.
      * eapply first_with_prefix_same; [exact Hc1|reflexivity| |exact Hres]. reflexivity.
      * rewrite Hc1. exact Htags.
    + (* the end of a line *)
      destruct (Hopen eq_refl) as (start & Hstart & Hcur & Hcpos & Hholds).
      unfold frontier in *. rewrite Hin in *. rewrite Hstart in *. cbn in Hfr, Hcom.
      set (cur := snd (stream_lines done)) in *.
      assert (Hcurlen : 0 < length cur) by (destruct cur; [contradiction|cbn; lia]).
      destruct (kept_lines_end done b Hnl Hcur) as [Hk Hs]. fold cur in Hk.
      cbn [raw_lines set_raw_buf lines raw_buf]. rewrite Hstart.
      rewrite !list_lookup_insert_ne by lia.
      destruct cur as [|first cur'] eqn:Ecur; [contradiction|].
      pose proof (Hholds 0 first eq_refl) as Hfirst. rewrite Nat.add_0_r in Hfirst.
      rewrite Hfirst.
      set (buf' := <[gs_c s := NUL]> (<[gs_c s := b]> (raw_buf (gs_r s)))).
      assert (Hbelow : ∀ k, k < gs_c s → buf' !! k = raw_buf (gs_r s) !! k).
      { intros k Hk'. subst buf'. rewrite !list_lookup_insert_ne by lia. reflexivity. }
      assert (Htxt : cstr_at buf' start = cstr_of (first :: cur')).
      { apply cstr_at_holds.
        - intros k a Hk'. rewrite Hbelow.
          + apply Hholds. exact Hk'.
          + apply lookup_lt_Some in Hk'. lia.
        - rewrite <- Hcpos. subst buf'.
          apply list_lookup_insert_eq. rewrite length_insert. exact Hc. }
      change (is_async (first :: cur')) with (Ascii.eqb first CARET) in Hk.
      destruct (Ascii.eqb first CARET) eqn:Hcaret.
      * (* a notification: the line is dropped *)
        rewrite app_nil_r in Hk.
        set (r1 := set_raw_buf buf' _).
        assert (Hc1 : committed r1 = committed (gs_r s)).
        { apply (committed_stable (gs_r s) r1 start); [exact Hcom|reflexivity| |].
          - reflexivity.
          - intros k Hk'. cbn. apply Hbelow. lia. }
        split; cbn [gs_r gs_in_newline gs_c].
        -- rewrite Hc1, Hk. exact Hlines.
        -- intros _. exact Hs.
        -- discriminate.
        -- eapply first_with_prefix_same; [exact Hc1|reflexivity| |exact Hres]. reflexivity.
        -- rewrite Hc1. exact Htags.
      * (* the line is committed *)
        set (r1 := set_lines _ _).
        set (r2 := match result_line r1, p with
                   | None, Some p0 => if starts_with (raw_buf r1) start p0
                                      then set_result_line (Some start) r1 else r1
                   | _, _ => r1 end).
        assert (Hr2 : raw_buf r2 = buf' ∧ raw_lines r2 = raw_lines (gs_r s) ∧
                      lines r2 = S (lines (gs_r s)) ∧
                      result_line r2
                      = match result_line (gs_r s), p with
                        | None, Some pre =>
                            if text_begins (cstr_at buf' start) pre then Some start else None
                        | x, _ => x
                        end).
        { subst r2. change (result_line r1) with (result_line (gs_r s)).
          destruct (result_line (gs_r s)) eqn:E1; [cbn; auto|].
          destruct p as [p0|]; [|cbn; auto].
          rewrite starts_with_text. change (raw_buf r1) with buf'.
          destruct (text_begins (cstr_at buf' start) p0); cbn; auto. }
        destruct Hr2 as (Hb2 & Hl2 & Hn2 & Hres2).
        assert (Hc2 : committed r2 = committed (gs_r s) ++ [cstr_at buf' start]).
        { rewrite <- Hb2.
          apply (committed_commit (gs_r s) r2 start); auto.
          intros k Hk'. rewrite Hb2. apply Hbelow. lia. }
        assert (Hf2 : first_with_prefix r2 p).
        { eapply (first_with_prefix_commit (gs_r s) r2 p start); eauto. }
        assert (Hk2 : committed r2 = kept_lines (done ++ [b])).
        { rewrite Hc2, Hk, Htxt, Hlines. reflexivity. }
        rewrite Hb2, match_atres_text.
        destruct (text_tag (cstr_at buf' start)) as [t|] eqn:Hm.
        -- cbn [gs_r]. split; [exact Hk2|]. split; [exact Hf2|].
           exists (committed (gs_r s)), (cstr_at buf' start). auto.
        -- split; cbn [gs_r gs_in_newline advance gs_c].
           ++ exact Hk2.
           ++ intros _. exact Hs.
           ++ discriminate.
           ++ exact Hf2.
           ++ rewrite Hc2. apply Forall_app. split; [exact Htags|].
              constructor; [exact Hm|constructor].
  - destruct (kept_lines_byte done b Hnl) as [Hk Hs].
    destruct (gs_in_newline s) eqn:Hin.
    + (* a new line starts *)
      unfold frontier in *. rewrite Hin in *.
      cbn [raw_lines set_raw_buf lines raw_buf].
      set (r1 := set_raw_buf _ _).
      assert (Hc1 : committed r1 = committed (gs_r s)).
      { apply (committed_stable (gs_r s) r1 (gs_c s)); [exact Hcom|reflexivity| |].
        - reflexivity.
        - intros k Hk'. cbn. apply list_lookup_insert_ne. lia. }
      assert (Hf1 : first_with_prefix r1 p).
      { eapply first_with_prefix_same; [exact Hc1|reflexivity| |exact Hres]. reflexivity. }
      destruct (lines (gs_r s) =? length (raw_lines (gs_r s)) - 1) eqn:Hfull.
      * cbn [gs_r]. split; [rewrite Hc1; exact Hlines|]. split; [exact Hf1|].
        rewrite Hc1. exact Htags.
      * destruct (lines (gs_r s) <? length (raw_lines (gs_r s))) eqn:Hslot;
          cbn [negb]; [|exact Hok].
        apply Nat.ltb_lt in Hslot.
        set (r2 := set_raw_lines _ r1).
        assert (Hc2 : committed r2 = committed (gs_r s)).
        { apply (committed_stable (gs_r s) r2 (gs_c s)); [exact Hcom|reflexivity| |].
          - intros i Hi. cbn. apply list_lookup_insert_ne. lia.
          - intros k Hk'. cbn. apply list_lookup_insert_ne. lia. }
        split; cbn [gs_r gs_in_newline advance gs_c].
        -- rewrite Hc2, Hk. exact Hlines.
        -- discriminate.
        -- intros _. exists (gs_c s). rewrite Hs, (Hclosed eq_refl). cbn.
           rewrite list_lookup_insert_eq by exact Hslot.
           split; [reflexivity|]. split; [discriminate|]. split; [lia|].
           intros k a Hk'. destruct k as [|k]; [|discriminate].
           injection Hk' as <-. rewrite Nat.add_0_r.
           apply list_lookup_insert_eq. exact Hc.
        -- eapply first_with_prefix_same; [exact Hc2|reflexivity| |exact Hres].
           intros i Hi. cbn. apply list_lookup_insert_ne. lia.
        -- rewrite Hc2. exact Htags.
    + (* a byte in the middle of a line *)
      destruct (Hopen eq_refl) as (start & Hstart & Hcur & Hcpos & Hholds).
      unfold frontier in *. rewrite Hin in *. rewrite Hstart in *. cbn in Hfr, Hcom.
      set (r1 := set_raw_buf _ _).
      assert (Hc1 : committed r1 = committed (gs_r s)).
      { apply (committed_stable (gs_r s) r1 start); [exact Hcom|reflexivity| |].
        - reflexivity.
        - intros k Hk'. cbn. apply list_lookup_insert_ne. lia. }
      split; cbn [gs_r gs_in_newline advance gs_c].
      * rewrite Hc1, Hk. exact Hlines.
      * discriminate.
      * intros _. exists start. rewrite Hs. cbn. rewrite Hstart.
        repeat split.
        -- intros Hnil. apply app_eq_nil in Hnil as [_ [=]].
        -- rewrite length_app. cbn. lia.
        -- intros k a Hk'.
           destruct (decide (k < length (snd (stream_lines done)))) as [Hlt|Hge].
           ++ rewrite lookup_app_l in Hk' by exact Hlt.
              rewrite list_lookup_insert_ne by lia. apply Hholds. exact Hk'.
           ++ rewrite lookup_app_r in Hk' by lia.
              destruct (k - length (snd (stream_lines done))) as [|d] eqn:Hd; [|discriminate].
              injection Hk' as <-.
              replace (start + k) with (gs_c s) by lia.
              apply list_lookup_insert_eq. exact Hc.
      * eapply first_with_prefix_same; [exact Hc1|reflexivity| |exact Hres]. reflexivity.
      * rewrite Hc1. exact Htags.
Qed.


Lemma stream_inv_answer p s done :
  stream_inv p s done → answer_of p (gs_r s) done None.
Proof. intros [H1 _ _ H4 H5]. repeat split; assumption. Qed.

Lemma rx_bytes_stream p bs : ∀ s done,
  reader_inv s → stream_inv p s done →
  match rx_bytes p bs s with
  | RxNext s' => stream_inv p s' (done ++ bs)
  | RxReturn t s' =>
      ∃ more, (more `prefix_of` bs) ∧ answer_of p (gs_r s') (done ++ more) (Some t)
  | RxError _ s' | RxFault s' =>
      ∃ more, (more `prefix_of` bs) ∧ answer_of p (gs_r s') (done ++ more) None
  end.
Proof.
  induction bs as [|b bs IH]; intros s done Hinv Hst; cbn [rx_bytes].
  - rewrite app_nil_r. exact Hst.
  - pose proof (rx_byte_stream p b s done Hinv Hst) as Hb.
    pose proof (rx_byte_inv p b s Hinv) as Hi.
    destruct (rx_byte p b s) as [s'|t s'|e s'|s'].
    + specialize (IH s' (done ++ [b]) Hi Hb).
      destruct (rx_bytes p bs s') as [s2|t s2|e s2|s2].
      * rewrite <- app_assoc in IH. exact IH.
      * destruct IH as (more & Hpre & Hans). exists (b :: more).
        split; [apply prefix_cons; exact Hpre|].
        rewrite <- app_assoc in Hans. exact Hans.
      * destruct IH as (more & Hpre & Hans). exists (b :: more).
        split; [apply prefix_cons; exact Hpre|].
        rewrite <- app_assoc in Hans. exact Hans.
      * destruct IH as (more & Hpre & Hans). exists (b :: more).
        split; [apply prefix_cons; exact Hpre|].
        rewrite <- app_assoc in Hans. exact Hans.
    + exists [b]. split; [exists bs; reflexivity|exact Hb].
    + exists []. split; [apply prefix_nil|]. rewrite app_nil_r. exact Hb.
    + exists []. split; [apply prefix_nil|]. rewrite app_nil_r. exact Hb.
Qed.

Lemma get_loop_stream p timeout script : ∀ s polls done,
  reader_inv s → stream_inv p s done →
  let o := get_loop p timeout script s polls in
  ∃ more, (more `prefix_of` script_stream script) ∧
          answer_of p (go_r o) (done ++ more) (tag_of (go_ret o)).
Proof.
  induction script as [|ev script IH]; intros s polls done Hinv Hst; cbn [get_loop].
  - exists []. split; [apply prefix_nil|]. rewrite app_nil_r.
    destruct (0 <? gs_rem s)%Z; [destruct (timeout <? 0)%Z|];
      cbn; apply stream_inv_answer; exact Hst.
  - assert (Hstop : ∃ more, (more `prefix_of` script_stream (ev :: script)) ∧
                            answer_of p (gs_r s) (done ++ more) None).
    { exists []. split; [apply prefix_nil|]. rewrite app_nil_r.
      apply stream_inv_answer. exact Hst. }
    destruct (0 <? gs_rem s)%Z; [|exact Hstop].
    destruct (_ && _); [exact Hstop|].
    destruct ev as [d bytes fin|d e]; [|exact Hstop].
    change (script_stream (PollIn d bytes fin :: script))
      with (bytes ++ script_stream script).
    pose proof (rx_bytes_stream p bytes s done Hinv Hst) as Hb.
    pose proof (rx_bytes_inv p bytes s Hinv) as Hi.
    assert (Hwiden : ∀ more, more `prefix_of` bytes →
                             more `prefix_of` bytes ++ script_stream script).
    { intros more Hpre. apply prefix_app_r. exact Hpre. }
    destruct (rx_bytes p bytes s) as [s'|t s'|e s'|s'].
    + assert (Hgo : ∀ polls',
                let o := get_loop p timeout script s' polls' in
                ∃ more, (more `prefix_of` bytes ++ script_stream script) ∧
                        answer_of p (go_r o) (done ++ more) (tag_of (go_ret o))).
      { intros polls'. destruct (IH s' polls' (done ++ bytes) Hi Hb) as (more & Hpre & Hans).
        exists (bytes ++ more). split; [apply prefix_app; exact Hpre|].
        rewrite app_assoc. exact Hans. }
      destruct fin as [|e].
      { destruct script; [|apply Hgo].
        unfold at_eof. destruct (0 <? gs_rem s')%Z; cbn;
          (exists bytes; split; [apply prefix_app_r; reflexivity|]);
          apply stream_inv_answer; exact Hb. }
      destruct (recoverable e); [apply Hgo|].
      exists bytes. split; [apply prefix_app_r; reflexivity|].
      apply stream_inv_answer. exact Hb.
    + destruct Hb as (more & Hpre & Hans). exists more. split; [auto|exact Hans].
    + destruct Hb as (more & Hpre & Hans). exists more. split; [auto|exact Hans].
    + destruct Hb as (more & Hpre & Hans). exists more. split; [auto|exact Hans].
Qed.

Lemma get_init_stream p r : stream_inv p (get_init r) [].
Proof.
  split; cbn.
  - reflexivity.
  - reflexivity.
  - discriminate.
  - unfold first_with_prefix. cbn. intros pre _. constructor.
  - constructor.
Qed.

(** What every call of the reader leaves. *)
Lemma tty_get_answer r p timeout script :
  let o := udiald_tty_get r p timeout script in
  ∃ bs, (bs `prefix_of` script_stream script) ∧
        answer_of p (go_r o) bs (tag_of (go_ret o)).
Proof.
  exact (get_loop_stream p timeout script (get_init r) [] [] (get_init_inv r)
           (get_init_stream p r)).
Qed.


Lemma cstr_of_Forall (P : ascii → Prop) l : Forall P l → Forall P (cstr_of l).
Proof.
  induction 1 as [|a l Ha Hl IH]; cbn; [constructor|].
  destruct (Ascii.eqb a NUL); constructor; assumption.
Qed.

(** Neither an ended line of a stream nor the open one holds a CR or LF. *)
Lemma stream_lines_plain bs :
  Forall (Forall (fun b => is_newline b = false)) (fst (stream_lines bs)) ∧
  Forall (fun b => is_newline b = false) (snd (stream_lines bs)).
Proof.
  induction bs as [|b bs IH] using rev_ind; [split; constructor|].
  rewrite stream_lines_snoc. destruct IH as [Hl Hc]. unfold split_step.
  destruct (is_newline b) eqn:Hnl.
  - destruct (snd (stream_lines bs)) as [|a cur] eqn:E.
    + rewrite E. auto.
    + cbn [fst snd]. split; [|constructor].
      apply Forall_app. split; [exact Hl|]. constructor; [exact Hc|constructor].
  - cbn [fst snd]. split; [exact Hl|].
    apply Forall_app. split; [exact Hc|]. constructor; [exact Hnl|constructor].
Qed.

Lemma kept_lines_plain bs :
  Forall (Forall (fun b => is_newline b = false)) (kept_lines bs).
Proof.
  unfold kept_lines. apply Forall_fmap, Forall_forall. intros l Hl. cbn.
  apply cstr_of_Forall.
  apply list_elem_of_In, List.filter_In in Hl as [Hl _].
  destruct (stream_lines_plain bs) as [Hall _].
  rewrite Forall_forall in Hall. apply Hall, list_elem_of_In. exact Hl.
Qed.

Lemma committed_lookup_inv r i txt :
  committed r !! i = Some txt →
  i < lines r ∧ ∃ off, raw_lines r !! i = Some off ∧ txt = cstr_at (raw_buf r) off.
Proof.
  unfold committed. rewrite list_lookup_fmap. intros Hlk.
  destruct (take (lines r) (raw_lines r) !! i) as [off|] eqn:E; [|discriminate].
  injection Hlk as <-.
  pose proof (lookup_lt_Some _ _ _ E) as Hlt. rewrite length_take in Hlt.
  split; [lia|]. exists off. split; [|reflexivity].
  rewrite lookup_take_lt in E by lia. exact E.
Qed.

End StreamInvariant.

(** X5.  Whatever the descriptor delivers and however [udiald_tty_get]
    ends, the committed lines are the lines of the bytes it has taken, a
    prefix of the stream: the runs of bytes between CR and LF that a CR or
    LF has ended, without the empty ones and without those that begin with
    the caret, each as a C string, in the order of the stream, none left
    out and none made up.  No committed line holds a CR or LF, and a call
    that returns a tag has taken the stream up to the end of a line. *)
Theorem tty_get_commits_the_lines_of_the_stream :
  ∀ (T : target) (r : udiald_tty_read) (prefix : option string) (timeout : Z)
    (script : list poll_event),
    let o := udiald_tty_get r prefix timeout script in
    (∃ bs, (bs `prefix_of` script_stream script) ∧
           committed (go_r o) = kept_lines bs ∧
           (∀ t, go_ret o = GetTag t → snd (stream_lines bs) = [])) ∧
    Forall (fun l => (CR ∉ l) ∧ (LF ∉ l)) (committed (go_r o)).
Proof.
  intros T r p timeout script o.
  destruct (tty_get_answer r p timeout script) as (bs & Hpre & Hk & _ & Htag).
  fold o in Hk, Htag. split.
  - exists bs. split; [exact Hpre|]. split; [exact Hk|].
    intros t Ht. rewrite Ht in Htag. cbn in Htag.
    destruct Htag as (txts & txt & _ & _ & _ & Hs). exact Hs.
  - rewrite Hk. eapply Forall_impl; [apply kept_lines_plain|].
    intros l Hl. rewrite Forall_forall in Hl. split; intros Hin.
    + apply Hl in Hin. discriminate Hin.
    + apply Hl in Hin. discriminate Hin.
Qed.

(** X6.  [result_line] after [udiald_tty_get] points at the first committed
    line that begins with [result_prefix]: the line it points at begins with
    the prefix and no committed line before it does; it is null only when
    no prefix was given or no committed line begins with it. *)
Theorem tty_get_result_line_is_first_match :
  ∀ (T : target) (r : udiald_tty_read) (prefix : option string) (timeout : Z)
    (script : list poll_event),
    let o := udiald_tty_get r prefix timeout script in
    (∀ off, result_line (go_r o) = Some off →
       ∃ i pre, prefix = Some pre ∧ i < lines (go_r o) ∧
                raw_lines (go_r o) !! i = Some off ∧
                starts_with (raw_buf (go_r o)) off pre = true ∧
                ∀ j offj, j < i → raw_lines (go_r o) !! j = Some offj →
                          starts_with (raw_buf (go_r o)) offj pre = false) ∧
    (result_line (go_r o) = None →
       ∀ pre i off, prefix = Some pre → i < lines (go_r o) →
                    raw_lines (go_r o) !! i = Some off →
                    starts_with (raw_buf (go_r o)) off pre = false).
Proof.
  intros T r p timeout script o.
  destruct (tty_get_answer r p timeout script) as (bs & _ & _ & Hfirst & _).
  fold o in Hfirst. unfold first_with_prefix in Hfirst. split.
  - intros off Hoff. rewrite Hoff in Hfirst.
    destruct Hfirst as (i & pre & txt & Hp & Hslot & Htxt & Hb & Hbefore).
    apply committed_lookup_inv in Htxt as (Hi & off' & Hoff' & ->).
    assert (off' = off) by congruence. subst off'.
    exists i, pre. repeat split; auto.
    + rewrite starts_with_text. exact Hb.
    + intros j offj Hj Hslotj. rewrite starts_with_text.
      apply (Hbefore j _ Hj). apply committed_lookup; [lia|exact Hslotj].
  - intros Hnone pre i off Hp Hi Hslot. rewrite Hnone in Hfirst.
    specialize (Hfirst pre Hp). rewrite Forall_forall in Hfirst.
    rewrite starts_with_text. apply Hfirst.
    eapply list_elem_of_lookup_2. apply committed_lookup; eassumption.
Qed.

(** X7.  [udiald_tty_get] returns at the first terminator: when it returns
    a tag, the last committed line is the only committed line that begins
    with an entry of [ttyresstr], and the tag is that entry's; when it
    fails, no committed line begins with an entry of [ttyresstr]. *)
Theorem tty_get_returns_at_first_terminator :
  ∀ (T : target) (r : udiald_tty_read) (prefix : option string) (timeout : Z)
    (script : list poll_event),
    let o := udiald_tty_get r prefix timeout script in
    (∀ t, go_ret o = GetTag t →
       0 < lines (go_r o) ∧
       ∀ i off, i < lines (go_r o) → raw_lines (go_r o) !! i = Some off →
                match_atres (raw_buf (go_r o)) off
                = if i =? lines (go_r o) - 1 then Some t else None) ∧
    ((∀ t, go_ret o ≠ GetTag t) →
       ∀ i off, i < lines (go_r o) → raw_lines (go_r o) !! i = Some off →
                match_atres (raw_buf (go_r o)) off = None).
Proof.
  intros T r p timeout script o.
  destruct (tty_get_answer r p timeout script) as (bs & _ & _ & _ & Htag).
  fold o in Htag.
  pose proof (committed_length (go_r o) (tty_get_terminated r p timeout script)) as Hlen.
  split.
  - intros t Ht. rewrite Ht in Htag. cbn in Htag.
    destruct Htag as (txts & txt & Hc & Hnone & Hlast & _).
    rewrite Hc, length_app in Hlen. cbn in Hlen.
    split; [lia|]. intros i off Hi Hslot.
    pose proof (committed_lookup (go_r o) i off Hi Hslot) as Hlk.
    rewrite match_atres_text, Hc in *.
    destruct (i =? lines (go_r o) - 1) eqn:E.
    + apply Nat.eqb_eq in E. rewrite lookup_app_r in Hlk by lia.
      replace (i - length txts) with 0 in Hlk by lia.
      injection Hlk as <-. exact Hlast.
    + apply Nat.eqb_neq in E. rewrite lookup_app_l in Hlk by lia.
      rewrite Forall_forall in Hnone. apply Hnone.
      eapply list_elem_of_lookup_2. exact Hlk.
  - intros Hfail i off Hi Hslot.
    assert (Hnone : tag_of (go_ret o) = None).
    { destruct (go_ret o) as [t| | |] eqn:E; try reflexivity.
      exfalso. exact (Hfail t eq_refl). }
    rewrite Hnone in Htag. rewrite Forall_forall in Htag.
    rewrite match_atres_text. apply Htag.
    eapply list_elem_of_lookup_2. apply committed_lookup; eassumption.
Qed.

Section Budgets.
Context {T : target}.

Lemma rx_byte_budget p b s r0 :
  slots_ok s → within_budget r0 (gs_r s) →
  match rx_byte p b s with
  | RxNext s' => slots_ok s' ∧ within_budget r0 (gs_r s')
  | RxReturn _ s' | RxError _ s' | RxFault s' => within_budget r0 (gs_r s')
  end.
Proof.
  intros Hslots Hwb. pose proof Hwb as (Hl & Hb & Hn & Hlast).
  unfold rx_byte, slots_ok in *.
  destruct (gs_c s <? length (raw_buf (gs_r s))) eqn:Hc; cbn [negb]; [|exact Hwb].
  destruct (Ascii.eqb b CR || Ascii.eqb b LF).
  - destruct (gs_in_newline s) eqn:Hin; cbn [negb].
    + cbn. unfold within_budget. cbn. rewrite length_insert. auto.
    + cbn [raw_lines set_raw_buf lines raw_buf].
      destruct (raw_lines (gs_r s) !! lines (gs_r s)) as [start|]; [|exact Hwb].
      destruct (_ !! start) as [first|]; [|exact Hwb].
      destruct (Ascii.eqb first CARET).
      * cbn. unfold within_budget. cbn. rewrite !length_insert.
        repeat split; auto; lia.
      * set (r1 := set_lines _ _).
        set (r2 := match result_line r1, p with
                   | None, Some p0 => if starts_with (raw_buf r1) start p0
                                      then set_result_line (Some start) r1 else r1
                   | _, _ => r1 end).
        assert (Hr2 : raw_buf r2 = raw_buf r1 ∧ raw_lines r2 = raw_lines r1 ∧
                      lines r2 = lines r1).
        { subst r2. destruct (result_line r1); [auto|].
          destruct p as [p0|]; [|auto]. destruct (starts_with _ _ _); auto. }
        destruct Hr2 as (Hb2 & Hl2 & Hn2).
        assert (Hw2 : within_budget r0 r2).
        { unfold within_budget. rewrite Hb2, Hl2, Hn2. subst r1. cbn.
          rewrite !length_insert. repeat split; auto; lia. }
        destruct (match_atres _ _); [exact Hw2|].
        cbn. rewrite Hn2, Hl2. subst r1. cbn. split; [lia|exact Hw2].
  - destruct (gs_in_newline s) eqn:Hin.
    + cbn [raw_lines set_raw_buf lines raw_buf].
      destruct (lines (gs_r s) =? length (raw_lines (gs_r s)) - 1) eqn:Hfull.
      * cbn. unfold within_budget. cbn. rewrite length_insert. auto.
      * apply Nat.eqb_neq in Hfull.
        destruct (lines (gs_r s) <? length (raw_lines (gs_r s))) eqn:Hslot;
          cbn [negb]; [|exact Hwb].
        cbn. unfold within_budget. cbn. rewrite !length_insert.
        repeat split; auto; try lia.
        intros i Hi. rewrite list_lookup_insert_ne by lia. apply Hlast. exact Hi.
    + cbn. unfold within_budget. cbn. rewrite length_insert.
      repeat split; auto; lia.
Qed.

Lemma rx_bytes_budget p bs r0 : ∀ s,
  slots_ok s → within_budget r0 (gs_r s) →
  match rx_bytes p bs s with
  | RxNext s' => slots_ok s' ∧ within_budget r0 (gs_r s')
  | RxReturn _ s' | RxError _ s' | RxFault s' => within_budget r0 (gs_r s')
  end.
Proof.
  induction bs as [|b bs IH]; intros s Hslots Hwb; cbn [rx_bytes]; [auto|].
  pose proof (rx_byte_budget p b s r0 Hslots Hwb) as Hb.
  destruct (rx_byte p b s) as [s'| | |]; try exact Hb.
  destruct Hb as [Hs' Hw']. apply IH; assumption.
Qed.

Lemma get_loop_budget p timeout script r0 : ∀ s polls,
  slots_ok s → within_budget r0 (gs_r s) →
  within_budget r0 (go_r (get_loop p timeout script s polls)).
Proof.
  induction script as [|ev script IH]; intros s polls Hslots Hwb; cbn [get_loop].
  - destruct (0 <? gs_rem s)%Z; [destruct (timeout <? 0)%Z|]; exact Hwb.
  - destruct (0 <? gs_rem s)%Z; [|exact Hwb].
    destruct (_ && _); [exact Hwb|].
    destruct ev as [d bytes fin|d e]; [|exact Hwb].
    pose proof (rx_bytes_budget p bytes r0 s Hslots Hwb) as Hb.
    destruct (rx_bytes p bytes s) as [s'| | |]; try exact Hb.
    destruct Hb as [Hs' Hw'].
    destruct fin as [|e].
    { destruct script; [|apply IH; assumption].
      unfold at_eof. destruct (0 <? gs_rem s')%Z; exact Hw'. }
    destruct (recoverable e); [apply IH; assumption|exact Hw'].
Qed.

End Budgets.

(** X8.  The line budget of [udiald_tty_get]: however the call ends, at
    most [lengthof(raw_lines) - 1] lines are committed, the last slot of
    [raw_lines] is never written, and both arrays keep their sizes. *)
Theorem tty_get_keeps_line_budget :
  ∀ (T : target) (r : udiald_tty_read) (prefix : option string) (timeout : Z)
    (script : list poll_event),
    let o := udiald_tty_get r prefix timeout script in
    lines (go_r o) ≤ length (raw_lines r) - 1 ∧
    raw_lines (go_r o) !! (length (raw_lines r) - 1)
    = raw_lines r !! (length (raw_lines r) - 1) ∧
    length (raw_lines (go_r o)) = length (raw_lines r) ∧
    length (raw_buf (go_r o)) = length (raw_buf r).
Proof.
  intros T r p timeout script o.
  assert (Hwb : within_budget r (go_r o)).
  { apply get_loop_budget.
    - unfold slots_ok. cbn. lia.
    - unfold within_budget. cbn. repeat split; auto; lia. }
  destruct Hwb as (Hl & Hb & Hn & Hlast). repeat split; auto.
Qed.

Section ByteBudget.
Context {T : target}.

Lemma rx_bytes_app p a : ∀ b s,
  rx_bytes p (a ++ b) s
  = match rx_bytes p a s with
    | RxNext s' => rx_bytes p b s'
    | other => other
    end.
Proof.
  induction a as [|x a IH]; intros b s; [reflexivity|].
  change ((x :: a) ++ b) with (x :: (a ++ b)). cbn [rx_bytes].
  destruct (rx_byte p x s); try reflexivity. apply IH.
Qed.

(** Bytes in the middle of a line count against [rem] one by one. *)
Lemma rx_bytes_midline_rem p body : ∀ s s' a,
  gs_in_newline s = false →
  Forall (fun b => is_newline b = false) body →
  gs_rem s = size_wrap a →
  rx_bytes p body s = RxNext s' →
  gs_rem s' = size_wrap (a - Z.of_nat (length body)).
Proof.
  induction body as [|b body IH]; intros s s' a Hin Hplain Hrem Hrun.
  - cbn in Hrun. injection Hrun as <-. rewrite Hrem. cbn. f_equal. lia.
  - apply Forall_cons in Hplain as [Hb Hplain]. cbn [rx_bytes] in Hrun.
    unfold rx_byte in Hrun. fold (is_newline b) in Hrun. rewrite Hb, Hin in Hrun.
    destruct (negb _); [discriminate|].
    apply (IH _ _ (a - 1)%Z) in Hrun; [|reflexivity|exact Hplain|].
    + rewrite Hrun. f_equal. cbn [length]. lia.
    + cbn [advance gs_rem]. rewrite Hrem. unfold size_wrap.
      apply Zminus_mod_idemp_l.
Qed.

End ByteBudget.

(** X9.  The byte budget of [udiald_tty_get] is looked at between two
    bursts only.  When the first burst, free of CR and LF, is exactly as
    long as [raw_buf], the call fails with [ERANGE]; when it is longer, the
    inner loop goes on reading into the byte behind [raw_buf]. *)
Theorem tty_get_byte_budget :
  ∀ (T : target) (r : udiald_tty_read) (prefix : option string) (timeout d : Z)
    (bytes : list ascii) (fin : read_end) (script : list poll_event),
    2 ≤ length (raw_lines r) →
    0 < length (raw_buf r) →
    Forall (fun b => is_newline b = false) bytes →
    (timeout < 0 ∨ d ≤ timeout)%Z →
    let o := udiald_tty_get r prefix timeout (PollIn d bytes fin :: script) in
    (length (raw_buf r) < length bytes → go_ret o = GetFault) ∧
    (length bytes = length (raw_buf r) →
     fin = ReadEof ∨ fin = ReadErr EAGAIN ∨ fin = ReadErr EWOULDBLOCK →
     go_ret o = GetFail ERANGE).
Proof.
  intros T r p timeout d bytes fin script Hslots Hroom Hplain Htime o.
  assert (Hpoll : (0 <=? timeout)%Z && (timeout <? delay_of (PollIn d bytes fin))%Z = false).
  { unfold delay_of. apply andb_false_iff.
    destruct Htime as [Hneg|Hle]; [left; apply Z.leb_gt; exact Hneg|].
    destruct (Z.le_gt_cases 0 timeout) as [Hpos|Hneg]; [|left; apply Z.leb_gt; exact Hneg].
    right. apply Z.ltb_ge. lia. }
  assert (Hrem : (0 <? gs_rem (get_init r))%Z = true) by (apply Z.ltb_lt; cbn; lia).
  subst o. unfold udiald_tty_get. cbn [get_loop]. rewrite Hrem, Hpoll.
  destruct bytes as [|b0 rest].
  { split; [cbn; lia|]. cbn. lia. }
  apply Forall_cons in Hplain as [Hb0 Hrest].
  (* the first byte opens line 0 *)
  set (s1 := advance 1 false
               (set_raw_lines (<[0:=0]> (raw_lines r))
                  (set_raw_buf (<[0:=b0]> (raw_buf r))
                     (set_result_line None (set_lines 0 r))))
               (get_init r)).
  assert (Hfirst : rx_byte p b0 (get_init r) = RxNext s1).
  { unfold rx_byte. fold (is_newline b0). rewrite Hb0.
    cbn [get_init gs_c gs_r gs_in_newline raw_buf set_result_line set_lines raw_lines lines
         set_raw_buf].
    assert (Hc0 : (0 <? length (raw_buf r)) = true) by (apply Nat.ltb_lt; exact Hroom).
    rewrite Hc0. cbn [negb].
    assert (Hfull : (0 =? length (raw_lines r) - 1) = false) by (apply Nat.eqb_neq; lia).
    assert (Hslot : (0 <? length (raw_lines r)) = true) by (apply Nat.ltb_lt; lia).
    rewrite Hfull, Hslot. reflexivity. }
  cbn [rx_bytes]. rewrite Hfirst.
  assert (Hin1 : gs_in_newline s1 = false) by reflexivity.
  assert (Hc1 : gs_c s1 = 1) by reflexivity.
  assert (Hlen1 : length (raw_buf (gs_r s1)) = length (raw_buf r)).
  { subst s1. cbn. rewrite length_insert. reflexivity. }
  assert (Hrem1 : gs_rem s1 = size_wrap (Z.of_nat (length (raw_buf r)) - 1)) by reflexivity.
  cbn [length]. split.
  - intros Hlong.
    rewrite <- (take_drop (length (raw_buf r) - 1) rest), rx_bytes_app.
    destruct (rx_bytes_midline p (take (length (raw_buf r) - 1) rest) s1 Hin1)
      as (s2 & Hrun & Hc2 & _ & _ & _ & _ & Hlen2 & _).
    { apply Forall_take. exact Hrest. }
    { rewrite length_take. lia. }
    rewrite Hrun.
    destruct (drop (length (raw_buf r) - 1) rest) as [|x tail] eqn:Hdrop.
    { apply (f_equal length) in Hdrop. rewrite length_drop in Hdrop. cbn in Hdrop. lia. }
    cbn [rx_bytes]. unfold rx_byte.
    assert (Hout : (gs_c s2 <? length (raw_buf (gs_r s2))) = false).
    { apply Nat.ltb_ge. rewrite length_take in Hc2. lia. }
    rewrite Hout. reflexivity.
  - intros Hexact Hfin.
    destruct (rx_bytes_midline p rest s1 Hin1) as (s2 & Hrun & _).
    { exact Hrest. }
    { lia. }
    pose proof (rx_bytes_midline_rem p rest s1 s2 _ Hin1 Hrest Hrem1 Hrun) as Hrem2.
    rewrite Hrun.
    assert (Hzero : gs_rem s2 = 0%Z).
    { rewrite Hrem2. cbn [length] in Hexact. rewrite <- Hexact.
      replace (Z.of_nat (S (length rest)) - 1 - Z.of_nat (length rest))%Z with 0%Z by lia.
      reflexivity. }
    assert (Hstop : ∀ polls, go_ret (get_loop p timeout script s2 polls) = GetFail ERANGE).
    { intros polls. destruct script; cbn [get_loop]; rewrite Hzero; reflexivity. }
    destruct Hfin as [->|[->| ->]]; cbn [recoverable errno_eqb orb]; [|apply Hstop..].
    destruct script; [|apply Hstop]. unfold at_eof. rewrite Hzero. reflexivity.
Qed.

Lemma tty_get_byte_budget_witness :
  let o := udiald_tty_get (T := lp64) (blank_read 4 2 4) None 2500
             [PollIn 0 (chars "HELLO") (ReadErr EAGAIN)] in
  (2 ≤ length (raw_lines (blank_read 4 2 4)) ∧ 0 < length (raw_buf (blank_read 4 2 4)) ∧
   Forall (fun b => is_newline b = false) (chars "HELLO") ∧ (0 ≤ 2500)%Z ∧
   length (raw_buf (blank_read 4 2 4)) < length (chars "HELLO")) ∧
  go_ret o = GetFault.
Proof.
  cbv zeta.
  assert (H1 : 2 ≤ length (raw_lines (blank_read 4 2 4))) by (cbn; lia).
  assert (H2 : 0 < length (raw_buf (blank_read 4 2 4))) by (cbn; lia).
  assert (H3 : Forall (fun b => is_newline b = false) (chars "HELLO"))
    by (repeat constructor).
  assert (H4 : (2500 < 0 ∨ 0 ≤ 2500)%Z) by (right; lia).
  assert (H5 : length (raw_buf (blank_read 4 2 4)) < length (chars "HELLO")) by (cbn; lia).
  split; [repeat split; try assumption; lia|].
  exact (proj1 (tty_get_byte_budget lp64 (blank_read 4 2 4) None 2500 0 (chars "HELLO")
                  (ReadErr EAGAIN) [] H1 H2 H3 H4) H5).
Defined.

(** X10.  A call of [udiald_tty_get] whose descriptor delivers no more
    bytes than [raw_buf] holds never reads or writes outside [raw_buf] or
    [raw_lines]. *)
Theorem tty_get_stays_inside_its_buffers :
  ∀ (T : target) (r : udiald_tty_read) (prefix : option string) (timeout : Z)
    (script : list poll_event),
    script_bytes script ≤ length (raw_buf r) →
    go_ret (udiald_tty_get r prefix timeout script) ≠ GetFault.
Proof. intros T r p timeout script. apply tty_get_no_fault. Qed.

Lemma tty_get_stays_inside_its_buffers_witness :
  script_bytes huawei_answer ≤ length (raw_buf (blank_read 64 8 64)) ∧
  go_ret (udiald_tty_get (T := lp64) (blank_read 64 8 64) None 2500 huawei_answer)
  ≠ GetFault.
Proof.
  assert (H1 : script_bytes huawei_answer ≤ length (raw_buf (blank_read 64 8 64)))
    by (vm_compute; lia).
  split; [exact H1|].
  exact (tty_get_stays_inside_its_buffers lp64 (blank_read 64 8 64) None 2500
           huawei_answer H1).
Defined.

(** X11.  The tag the loop over [ttyresstr] finds for a line is [t] exactly
    when the line begins with the string of [t]: no line begins with the
    strings of two entries, so the order of the table does not matter, and
    whatever follows the terminator word on its line is ignored. *)
Theorem terminator_tag_iff_line_begins_with_it :
  ∀ (T : target) (buf : list ascii) (off : nat) (t : udiald_atres),
    match_atres buf off = Some t ↔
    ∃ s, (t, s) ∈ ttyresstr ∧ starts_with buf off s = true.
Proof.
  intros T buf off t. split.
  - apply match_atres_sound.
  - intros (s & Hin & Hsw). eapply match_atres_complete; eassumption.
Qed.

Section Lockstep.
Context {T : target}.

Lemma line_end_text buf c b cur start :
  c < length buf → c = start + length cur →
  (∀ k a, cur !! k = Some a → buf !! (start + k) = Some a) →
  cstr_at (<[c:=NUL]> (<[c:=b]> buf)) start = cstr_of cur.
Proof.
  intros Hc Hpos Hholds. apply cstr_at_holds.
  - intros k a Hk. pose proof (lookup_lt_Some _ _ _ Hk) as Hlt.
    rewrite !list_lookup_insert_ne by lia. apply Hholds. exact Hk.
  - rewrite <- Hpos. apply list_lookup_insert_eq. rewrite length_insert. exact Hc.
Qed.

Lemma result_text_same p r1 r2 :
  first_with_prefix r1 p → first_with_prefix r2 p →
  committed r1 = committed r2 → result_line r1 = result_line r2 →
  cstr_at (raw_buf r1) <$> result_line r1 = cstr_at (raw_buf r2) <$> result_line r2.
Proof.
  unfold first_with_prefix. intros H1 H2 Hc Hr. rewrite <- Hr in *.
  destruct (result_line r1) as [off|]; [|reflexivity]. cbn. f_equal.
  destruct H1 as (i1 & pre & txt1 & Hp & Hs1 & Ht1 & Hb1 & Hn1).
  destruct H2 as (i2 & pre' & txt2 & Hp' & Hs2 & Ht2 & Hb2 & Hn2).
  assert (pre' = pre) by congruence. subst pre'.
  assert (i1 = i2).
  { destruct (Nat.lt_trichotomy i1 i2) as [Hlt|[Heq|Hgt]]; [|exact Heq|].
    - rewrite Hc in Ht1. rewrite (Hn2 i1 txt1 Hlt Ht1) in Hb1. discriminate.
    - rewrite <- Hc in Ht2. rewrite (Hn1 i2 txt2 Hgt Ht2) in Hb2. discriminate. }
  subst i2.
  destruct (committed_lookup_inv r1 i1 txt1 Ht1) as (_ & o1 & Ho1 & E1).
  destruct (committed_lookup_inv r2 i1 txt2 Ht2) as (_ & o2 & Ho2 & E2).
  assert (o1 = off) by congruence. assert (o2 = off) by congruence. subst o1 o2.
  rewrite <- E1, <- E2. rewrite Hc in Ht1. congruence.
Qed.

(** One byte takes two readers with the same cursor and counters, fed the
    same bytes so far, the same way. *)
Lemma rx_byte_lockstep p b s1 s2 done :
  scalars_eq s1 s2 → stream_inv p s1 done → stream_inv p s2 done →
  match rx_byte p b s1, rx_byte p b s2 with
  | RxNext a, RxNext c => scalars_eq a c
  | RxReturn t a, RxReturn t' c =>
      t = t' ∧ lines (gs_r a) = lines (gs_r c) ∧ result_line (gs_r a) = result_line (gs_r c)
  | RxError e a, RxError e' c =>
      e = e' ∧ lines (gs_r a) = lines (gs_r c) ∧ result_line (gs_r a) = result_line (gs_r c)
  | RxFault a, RxFault c =>
      lines (gs_r a) = lines (gs_r c) ∧ result_line (gs_r a) = result_line (gs_r c)
  | _, _ => False
  end.
Proof.
  intros Hsc Hst1 Hst2. pose proof Hsc as (Hc & Hrem & Hin & Hl & Hr & Hb & Hn).
  destruct Hst1 as [_ _ Hopen1 _ _], Hst2 as [_ _ Hopen2 _ _].
  unfold rx_byte. cbv zeta. rewrite <- Hc, <- Hin, <- ?Hl, <- ?Hb, <- ?Hn, <- ?Hrem.
  destruct (gs_c s1 <? length (raw_buf (gs_r s1))) eqn:Hroom; cbn [negb]; [|auto].
  apply Nat.ltb_lt in Hroom.
  destruct (Ascii.eqb b CR || Ascii.eqb b LF) eqn:Hnl.
  - destruct (gs_in_newline s1) eqn:Hin1; cbn [negb].
    + unfold scalars_eq. cbn. rewrite !length_insert. repeat split; congruence.
    + symmetry in Hin.
      destruct (Hopen1 eq_refl) as (start & Hs1 & Hcur & Hpos1 & Hh1).
      destruct (Hopen2 Hin) as (start2 & Hs2 & _ & Hpos2 & Hh2).
      assert (start2 = start) by lia. subst start2.
      rewrite <- Hl in Hs2.
      cbn [raw_lines set_raw_buf lines raw_buf]. rewrite <- ?Hl. rewrite Hs1, Hs2.
      set (cur := snd (stream_lines done)) in *.
      destruct cur as [|first cur'] eqn:Ecur; [contradiction|].
      pose proof (Hh1 0 first eq_refl) as Hf1. rewrite Nat.add_0_r in Hf1.
      pose proof (Hh2 0 first eq_refl) as Hf2. rewrite Nat.add_0_r in Hf2.
      cbn [length] in Hpos1.
      rewrite !list_lookup_insert_ne by lia. rewrite Hf1, Hf2.
      destruct (Ascii.eqb first CARET).
      * unfold scalars_eq. cbn. rewrite !length_insert. repeat split; congruence.
      * pose proof (line_end_text (raw_buf (gs_r s1)) (gs_c s1) b (first :: cur') start
                      Hroom Hpos1 Hh1) as Ht1.
        pose proof (line_end_text (raw_buf (gs_r s2)) (gs_c s1) b (first :: cur') start
                      ltac:(lia) Hpos1 Hh2) as Ht2.
        set (buf1 := <[gs_c s1:=NUL]> (<[gs_c s1:=b]> (raw_buf (gs_r s1)))) in *.
        set (buf2 := <[gs_c s1:=NUL]> (<[gs_c s1:=b]> (raw_buf (gs_r s2)))) in *.
        set (r1 := set_lines _ (set_raw_buf buf1 _)).
        set (r2 := set_lines _ (set_raw_buf buf2 _)).
        set (m1 := match result_line r1, p with
                   | None, Some p0 => if starts_with (raw_buf r1) start p0
                                      then set_result_line (Some start) r1 else r1
                   | _, _ => r1 end).
        set (m2 := match result_line r2, p with
                   | None, Some p0 => if starts_with (raw_buf r2) start p0
                                      then set_result_line (Some start) r2 else r2
                   | _, _ => r2 end).
        assert (Hm : raw_buf m1 = buf1 ∧ raw_buf m2 = buf2 ∧
                     lines m1 = S (lines (gs_r s1)) ∧ lines m2 = S (lines (gs_r s1)) ∧
                     result_line m1 = result_line m2 ∧
                     length (raw_lines m1) = length (raw_lines m2)).
        { subst m1 m2. change (result_line r1) with (result_line (gs_r s1)).
          change (result_line r2) with (result_line (gs_r s2)). rewrite <- Hr.
          change (raw_buf r1) with buf1. change (raw_buf r2) with buf2.
          destruct (result_line (gs_r s1)) eqn:E1.
          { cbn. rewrite <- Hr, E1. auto 10. }
          destruct p as [p0|].
          2:{ cbn. rewrite <- Hr, E1. auto 10. }
          rewrite !starts_with_text, Ht1, Ht2.
          destruct (text_begins _ p0); cbn; rewrite <- ?Hr, ?E1; auto 10. }
        destruct Hm as (Hb1 & Hb2 & Hl1 & Hl2 & Hrm & Hnm).
        rewrite Hb1, Hb2, !match_atres_text, Ht1, Ht2.
        destruct (text_tag _).
        -- cbn [gs_r]. rewrite Hl1, Hl2. auto.
        -- unfold scalars_eq. cbn [gs_r gs_c gs_rem gs_in_newline advance].
           rewrite Hb1, Hb2, Hl1, Hl2. subst buf1 buf2. rewrite !length_insert.
           repeat split; congruence.
  - destruct (gs_in_newline s1) eqn:Hin1.
    + cbn [raw_lines set_raw_buf lines raw_buf]. rewrite <- ?Hl, <- ?Hn.
      destruct (lines (gs_r s1) =? length (raw_lines (gs_r s1)) - 1); [cbn; auto|].
      destruct (lines (gs_r s1) <? length (raw_lines (gs_r s1))); cbn [negb]; [|auto].
      unfold scalars_eq. cbn. rewrite !length_insert. repeat split; congruence.
    + unfold scalars_eq. cbn. rewrite !length_insert. repeat split; congruence.
Qed.


Lemma answers_same p r1 r2 bs tag1 tag2 :
  answer_of p r1 bs tag1 → answer_of p r2 bs tag2 →
  lines r1 = lines r2 → result_line r1 = result_line r2 →
  same_read r1 r2.
Proof.
  intros (Hk1 & Hf1 & _) (Hk2 & Hf2 & _) Hl Hr.
  assert (Hc : committed r1 = committed r2) by congruence.
  repeat split; auto. eapply result_text_same; eassumption.
Qed.

Lemma rx_bytes_lockstep p bs : ∀ s1 s2 done,
  scalars_eq s1 s2 → reader_inv s1 → reader_inv s2 →
  stream_inv p s1 done → stream_inv p s2 done →
  match rx_bytes p bs s1, rx_bytes p bs s2 with
  | RxNext a, RxNext c =>
      scalars_eq a c ∧ reader_inv a ∧ reader_inv c ∧
      stream_inv p a (done ++ bs) ∧ stream_inv p c (done ++ bs)
  | RxReturn t a, RxReturn t' c => t = t' ∧ same_read (gs_r a) (gs_r c)
  | RxError e a, RxError e' c => e = e' ∧ same_read (gs_r a) (gs_r c)
  | RxFault a, RxFault c => same_read (gs_r a) (gs_r c)
  | _, _ => False
  end.
Proof.
  induction bs as [|b bs IH]; intros s1 s2 done Hsc Hi1 Hi2 Hst1 Hst2; cbn [rx_bytes].
  - rewrite app_nil_r. auto.
  - pose proof (rx_byte_lockstep p b s1 s2 done Hsc Hst1 Hst2) as Hstep.
    pose proof (rx_byte_stream p b s1 done Hi1 Hst1) as Hs1.
    pose proof (rx_byte_stream p b s2 done Hi2 Hst2) as Hs2.
    pose proof (rx_byte_inv p b s1 Hi1) as Hn1.
    pose proof (rx_byte_inv p b s2 Hi2) as Hn2.
    destruct (rx_byte p b s1) as [a|t a|e a|a], (rx_byte p b s2) as [c|t' c|e' c|c];
      try contradiction.
    + specialize (IH a c (done ++ [b]) Hstep Hn1 Hn2 Hs1 Hs2).
      destruct (rx_bytes p bs a), (rx_bytes p bs c); try contradiction; try exact IH.
      rewrite <- app_assoc in IH. exact IH.
    + destruct Hstep as (-> & Hl & Hr). split; [reflexivity|].
      eapply answers_same; eassumption.
    + destruct Hstep as (-> & Hl & Hr). split; [reflexivity|].
      eapply answers_same; eassumption.
    + destruct Hstep as (Hl & Hr). eapply answers_same; eassumption.
Qed.

Lemma get_loop_lockstep p timeout script : ∀ s1 s2 polls done,
  scalars_eq s1 s2 → reader_inv s1 → reader_inv s2 →
  stream_inv p s1 done → stream_inv p s2 done →
  let o1 := get_loop p timeout script s1 polls in
  let o2 := get_loop p timeout script s2 polls in
  go_ret o1 = go_ret o2 ∧ go_polls o1 = go_polls o2 ∧ same_read (go_r o1) (go_r o2).
Proof.
  induction script as [|ev script IH]; intros s1 s2 polls done Hsc Hi1 Hi2 Hst1 Hst2;
    cbn [get_loop]; cbv zeta.
  all: assert (Hsame : same_read (gs_r s1) (gs_r s2))
    by (destruct Hsc as (_ & _ & _ & Hl & Hr & _);
        eapply answers_same; eauto using stream_inv_answer).
  all: pose proof Hsc as (_ & Hrem & _); rewrite <- Hrem.
  - destruct (0 <? gs_rem s1)%Z; [destruct (timeout <? 0)%Z|]; cbn; auto.
  - destruct (0 <? gs_rem s1)%Z; [|cbn; auto].
    destruct (_ && _); [cbn; auto|].
    destruct ev as [d bytes fin|d e]; [|cbn; auto].
    pose proof (rx_bytes_lockstep p bytes s1 s2 done Hsc Hi1 Hi2 Hst1 Hst2) as Hb.
    destruct (rx_bytes p bytes s1) as [a|t a|e a|a],
             (rx_bytes p bytes s2) as [c|t' c|e' c|c]; try contradiction.
    + destruct Hb as (Hsc' & Hi1' & Hi2' & Hst1' & Hst2').
      assert (Hsame' : same_read (gs_r a) (gs_r c))
        by (destruct Hsc' as (_ & _ & _ & Hl & Hr & _);
            eapply answers_same; eauto using stream_inv_answer).
      destruct fin as [|e].
      { destruct script; [|eapply IH; eassumption].
        unfold at_eof. destruct Hsc' as (_ & Hrem' & _). rewrite <- Hrem'.
        destruct (0 <? gs_rem a)%Z; cbn; auto. }
      destruct (recoverable e); [eapply IH; eassumption|].
      cbn. auto.
    + destruct Hb as (-> & Hs). cbn. auto.
    + destruct Hb as (-> & Hs). cbn. auto.
    + cbn. auto.
Qed.

End Lockstep.

(** X12.  The outcome of [udiald_tty_get] does not depend on what the
    buffer held before the call, only on the sizes of its arrays: the value
    returned, the polls made, the number of lines, their texts, and the
    result line are the same for two buffers of equal sizes.  The callers
    rely on this: they pass a [struct udiald_tty_read] from automatic
    storage that nothing has written to. *)
Theorem tty_get_ignores_old_contents :
  ∀ (T : target) (r r' : udiald_tty_read) (prefix : option string) (timeout : Z)
    (script : list poll_event),
    length (raw_buf r') = length (raw_buf r) →
    length (raw_lines r') = length (raw_lines r) →
    let o := udiald_tty_get r prefix timeout script in
    let o' := udiald_tty_get r' prefix timeout script in
    go_ret o' = go_ret o ∧ go_polls o' = go_polls o ∧
    lines (go_r o') = lines (go_r o) ∧
    committed (go_r o') = committed (go_r o) ∧
    result_line (go_r o') = result_line (go_r o) ∧
    cstr_at (raw_buf (go_r o')) <$> result_line (go_r o')
    = cstr_at (raw_buf (go_r o)) <$> result_line (go_r o).
Proof.
  intros T r r' p timeout script Hb Hn o o'.
  assert (Hsc : scalars_eq (get_init r') (get_init r)).
  { unfold scalars_eq. cbn. repeat split; congruence. }
  destruct (get_loop_lockstep p timeout script (get_init r') (get_init r) [] [] Hsc
              (get_init_inv r') (get_init_inv r) (get_init_stream p r')
              (get_init_stream p r)) as (H1 & H2 & H3 & H4 & H5 & H6).
  repeat split; assumption.
Qed.

Lemma tty_get_ignores_old_contents_witness :
  let o := udiald_tty_get (T := lp64) (blank_read 64 8 64) (Some "+CPIN: "%string) 2500
             scenario4 in
  let o' := udiald_tty_get (T := lp64) stale_read (Some "+CPIN: "%string) 2500
              scenario4 in
  (length (raw_buf stale_read) = length (raw_buf (blank_read 64 8 64)) ∧
   length (raw_lines stale_read) = length (raw_lines (blank_read 64 8 64))) ∧
  go_ret o' = go_ret o ∧ committed (go_r o') = committed (go_r o).
Proof.
  cbv zeta.
  assert (H1 : length (raw_buf stale_read) = length (raw_buf (blank_read 64 8 64)))
    by reflexivity.
  assert (H2 : length (raw_lines stale_read) = length (raw_lines (blank_read 64 8 64)))
    by reflexivity.
  split; [split; assumption|].
  pose proof (tty_get_ignores_old_contents lp64 (blank_read 64 8 64) stale_read
                (Some "+CPIN: "%string) 2500 scenario4 H1 H2) as H.
  cbv zeta in H. split; [exact (proj1 H)|exact (proj1 (proj2 (proj2 (proj2 H))))].
Defined.

(** ** udiald.c: leaving the process *)

Lemma get_after_set st key v w key' :
  key' ≠ key →
  udiald_config_get st key' (udiald_config_set st key v w) = udiald_config_get st key' w.
Proof.
  intros Hne. unfold udiald_config_get, ucix_get_option. cbn.
  apply lookup_insert_ne. intros [= E]. congruence.
Qed.

Lemma get_after_revert st key w key' :
  key' ≠ key →
  udiald_config_get st key' (udiald_config_revert st key w) = udiald_config_get st key' w.
Proof.
  intros Hne. unfold udiald_config_get, ucix_get_option. cbn.
  apply lookup_delete_ne. intros [= E]. congruence.
Qed.

Lemma get_after_revert_eq st key w :
  udiald_config_get st key (udiald_config_revert st key w) = None.
Proof. unfold udiald_config_get, ucix_get_option. cbn. apply lookup_delete_eq. Qed.

Ltac store_other :=
  repeat first [rewrite get_after_set by discriminate
               |rewrite get_after_revert by discriminate].

Section ExitProtocol.
Context {T : target} {H : udiald_h}.

(** What [udiald_exitcode] leaves in the store. *)
Lemma exitcode_store {A : Type} code msg st w :
  ∃ w', udiald_exitcode (A := A) code msg st w = Exit (surfaced st code) w' ∧
        same_but exit_keys w w' ∧
        (surfaced st code ≠ 0%Z → surfaced st code ≠ UDIALD_ESIGNALED →
         udiald_config_get st "udiald_error_code" w' = Some (dec (surfaced st code)) ∧
         udiald_config_get st "udiald_error_msg" w' = snprintf 256 <$> msg) ∧
        (surfaced st code = 0%Z ∨ surfaced st code = UDIALD_ESIGNALED →
         udiald_config_get st "udiald_error_code" w'
         = udiald_config_get st "udiald_error_code" w ∧
         udiald_config_get st "udiald_error_msg" w'
         = udiald_config_get st "udiald_error_msg" w) ∧
        (app st = UDIALD_APP_CONNECT →
         udiald_config_get st "udiald_state" w'
         = if (surfaced st code =? 0)%Z then None else Some "error"%string) ∧
        (app st ≠ UDIALD_APP_CONNECT →
         udiald_config_get st "udiald_state" w' = udiald_config_get st "udiald_state" w).
Proof.
  destruct (exitcode_exits (A := A) code msg st w) as (w' & Hrun & Hsame).
  exists w'. split; [exact Hrun|]. split; [exact Hsame|].
  unfold udiald_exitcode, udiald_config_set_int in Hrun. cbv zeta in Hrun.
  injection Hrun as Hw'.
  set (c := surfaced st code) in *.
  assert (Hrec : (negb (c =? 0)%Z && negb (c =? UDIALD_ESIGNALED)%Z = true ↔
                  c ≠ 0%Z ∧ c ≠ UDIALD_ESIGNALED)).
  { rewrite andb_true_iff, !negb_true_iff, !Z.eqb_neq. reflexivity. }
  repeat split.
  - destruct Hrec as [_ Hrec]. rewrite Hrec in Hw' by auto. subst w'.
    destruct (app_eqb _ _); [destruct (negb _)|];
      store_other;
      destruct msg; store_other;
      apply config_get_set.
  - destruct Hrec as [_ Hrec]. rewrite Hrec in Hw' by auto. subst w'.
    destruct (app_eqb _ _); [destruct (negb _)|];
      store_other;
      destruct msg; cbn [fmap option_fmap option_map];
      first [apply config_get_set|apply get_after_revert_eq].
  - assert (E : negb (c =? 0)%Z && negb (c =? UDIALD_ESIGNALED)%Z = false).
    { apply not_true_is_false. intros E. apply Hrec in E. intuition congruence. }
    rewrite E in Hw'. subst w'. destruct (app_eqb _ _); [destruct (negb _)|];
      store_other; reflexivity.
  - assert (E : negb (c =? 0)%Z && negb (c =? UDIALD_ESIGNALED)%Z = false).
    { apply not_true_is_false. intros E. apply Hrec in E. intuition congruence. }
    rewrite E in Hw'. subst w'. destruct (app_eqb _ _); [destruct (negb _)|];
      store_other; reflexivity.
  - intros Happ. subst w'. rewrite Happ. cbn [app_eqb].
    change UDIALD_OK with 0%Z. destruct (c =? 0)%Z; cbn [negb].
    + apply get_after_revert_eq.
    + apply config_get_set.
  - intros Happ. subst w'.
    assert (E : app_eqb (app st) UDIALD_APP_CONNECT = false)
      by (destruct (app st); try reflexivity; contradiction).
    rewrite E.
    destruct (_ && _); [|reflexivity].
    store_other.
    destruct msg; store_other; reflexivity.
Qed.

End ExitProtocol.

(** X13.  [udiald_exitcode] always ends the process, with [code], or with
    [UDIALD_ESIGNALED] in place of a code other than 0 once the signaled
    flag is set.  A code other than 0 and [UDIALD_ESIGNALED] is stored in
    decimal under [udiald_error_code], and the message, cut to 255 bytes,
    under [udiald_error_msg] (unset without a message); with 0 and
    [UDIALD_ESIGNALED] both options stay as they were.  In connect mode
    [udiald_state] becomes [error], or is unset for code 0; in the other
    modes it is not touched.  Nothing else is changed: no other option, not
    the control line. *)
Theorem exitcode_records_the_failure :
  ∀ (T : target) (H : udiald_h) (A : Type) (code : Z) (msg : option string)
    (st : udiald_state) (w : world),
    ∃ w', udiald_exitcode (A := A) code msg st w = Exit (surfaced st code) w' ∧
          surfaced st code
          = (if negb (code =? 0)%Z && negb (Z.land (flags st) UDIALD_FLAG_SIGNALED =? 0)%Z
             then UDIALD_ESIGNALED else code) ∧
          same_but exit_keys w w' ∧
          (surfaced st code ≠ 0%Z → surfaced st code ≠ UDIALD_ESIGNALED →
           udiald_config_get st "udiald_error_code" w' = Some (dec (surfaced st code)) ∧
           udiald_config_get st "udiald_error_msg" w' = snprintf 256 <$> msg) ∧
          (surfaced st code = 0%Z ∨ surfaced st code = UDIALD_ESIGNALED →
           udiald_config_get st "udiald_error_code" w'
           = udiald_config_get st "udiald_error_code" w ∧
           udiald_config_get st "udiald_error_msg" w'
           = udiald_config_get st "udiald_error_msg" w) ∧
          (app st = UDIALD_APP_CONNECT →
           udiald_config_get st "udiald_state" w'
           = if (surfaced st code =? 0)%Z then None else Some "error"%string) ∧
          (app st ≠ UDIALD_APP_CONNECT →
           udiald_config_get st "udiald_state" w' = udiald_config_get st "udiald_state" w).
Proof.
  intros T H A code msg st w.
  destruct (exitcode_store (A := A) code msg st w) as (w' & H1 & H2 & H3 & H4 & H5 & H6).
  exists w'. split; [exact H1|]. split; [reflexivity|].
  split; [exact H2|]. split; [exact H3|]. split; [exact H4|]. split; [exact H5|exact H6].
Qed.

(** ** udiald.c: entering the PIN and the PUK *)

Section PinAndPuk.
Context {T : target} {H : udiald_h}.

Lemma refuse_quiet code msg st w :
  w_tty_out (world_after (refuse code msg st w)) = w_tty_out w ∧
  (∀ sec key, key ∉ exit_keys →
     w_uci (world_after (refuse code msg st w)) !! (sec, key) = w_uci w !! (sec, key)) ∧
  w_tty_in (world_after (refuse code msg st w)) = w_tty_in w.
Proof.
  unfold refuse. destruct (negb _); [|cbn; auto].
  destruct (exitcode_exits (A := unit) code (Some msg) st w) as (w' & -> & Hsame).
  cbn. destruct Hsame as (_ & Ho & _ & Hi & _ & _ & _ & _ & _ & _ & Hk). auto.
Qed.


Lemma enter_pin_unfold st w :
  udiald_enter_pin st w =
  match candidate_pin st w with
  | None | Some EmptyString => refuse UDIALD_EUNLOCK "No PIN configured" st w
  | Some p =>
      if strpbrk p at_forbidden
      then refuse UDIALD_EINVAL ("Invalid PIN configured (" ++ p ++ ")") st w
      else
        let failed := ucix_get_option w UCI_SECTION_GLOBAL "failed_pin" in
        if match failed with Some f => String.eqb p f | None => false end
        then refuse UDIALD_ESIM
               ("Not retrying previously failed pin (" ++ default EmptyString failed ++ ")")
               st w
        else pin_attempt p st w
  end.
Proof. reflexivity. Qed.

(** Whatever the attempt leads to, the command is on the line. *)
Lemma pin_attempt_out p st w :
  w_tty_out (world_after (pin_attempt p st w)) = w_tty_out w ++ [pin_command p].
Proof.
  unfold pin_attempt, udiald_tty_put, tty_get, got, flattened. cbv zeta.
  cbn [fst snd].
  repeat match goal with
         | |- context [if ?b then _ else _] => destruct b
         | |- context [match udiald_tty_flatten_result ?r with _ => _ end] =>
             destruct (udiald_tty_flatten_result r)
         | |- context [match go_ret ?o with _ => _ end] => destruct (go_ret o)
         | |- context [refuse ?c ?m ?s ?x] =>
             rewrite (proj1 (refuse_quiet c m s x))
         end; try reflexivity.
Qed.


Lemma enter_pin_no_pin st w :
  candidate_pin st w = None ∨ candidate_pin st w = Some EmptyString →
  (app st ≠ UDIALD_APP_PROBE →
   ∃ w', udiald_enter_pin st w = Exit (surfaced st UDIALD_EUNLOCK) w' ∧
         same_but exit_keys w w') ∧
  (app st = UDIALD_APP_PROBE → udiald_enter_pin st w = Ret tt w).
Proof.
  intros Hpin. rewrite enter_pin_unfold.
  assert (Hrun : match candidate_pin st w with
                 | None | Some EmptyString => True
                 | _ => False
                 end) by (destruct Hpin as [-> | ->]; exact I).
  destruct (candidate_pin st w) as [[|a p]|]; try contradiction.
  all: unfold refuse; split;
    [intros Happ; destruct (app st); try contradiction; cbn [app_eqb negb];
     apply exitcode_exits
    |intros ->; reflexivity].
Qed.

Lemma enter_pin_out st w :
  w_tty_out (world_after (udiald_enter_pin st w)) = w_tty_out w ∨
  ∃ p, candidate_pin st w = Some p ∧ p ≠ EmptyString ∧
       strpbrk p at_forbidden = false ∧
       ucix_get_option w UCI_SECTION_GLOBAL "failed_pin" ≠ Some p ∧
       udiald_enter_pin st w = pin_attempt p st w ∧
       w_tty_out (world_after (udiald_enter_pin st w)) = w_tty_out w ++ [pin_command p].
Proof.
  rewrite enter_pin_unfold.
  destruct (candidate_pin st w) as [[|a p]|] eqn:Hpin;
    try (left; apply refuse_quiet).
  destruct (strpbrk (String a p) at_forbidden) eqn:Hok; [left; apply refuse_quiet|].
  cbv zeta.
  destruct (ucix_get_option w UCI_SECTION_GLOBAL "failed_pin") as [f|] eqn:Hf.
  - destruct (String.eqb (String a p) f) eqn:E; [left; apply refuse_quiet|].
    right. exists (String a p).
    split; [reflexivity|]. split; [discriminate|]. split; [exact Hok|].
    split; [|split; [reflexivity|apply pin_attempt_out]].
    intros [= ->]. rewrite String.eqb_refl in E. discriminate.
  - right. exists (String a p).
    split; [reflexivity|]. split; [discriminate|]. split; [exact Hok|].
    split; [discriminate|]. split; [reflexivity|apply pin_attempt_out].
Qed.

(** An attempt that ends the process has recorded the PIN as failed. *)
Lemma pin_attempt_exit p st w c w' :
  pin_attempt p st w = Exit c w' →
  app st ≠ UDIALD_APP_PROBE ∧
  ucix_get_option w' UCI_SECTION_GLOBAL "failed_pin" = Some p ∧
  (∀ key, key ∉ "failed_pin"%string :: exit_keys →
          udiald_config_get st key w' = udiald_config_get st key w).
Proof.
  unfold pin_attempt, udiald_tty_put, tty_get, got, flattened. cbv zeta. cbn [fst snd].
  set (w1 := with_tty_out _ _ _).
  assert (Hrej : ∀ wi msg,
            w_uci wi = w_uci w1 →
            refuse UDIALD_EUNLOCK msg st
              (ucix_add_option UCI_SECTION_GLOBAL "failed_pin" p wi) = Exit c w' →
            app st ≠ UDIALD_APP_PROBE ∧
            ucix_get_option w' UCI_SECTION_GLOBAL "failed_pin" = Some p ∧
            (∀ key, key ∉ "failed_pin"%string :: exit_keys →
                    udiald_config_get st key w' = udiald_config_get st key w)).
  { intros wi msg Hwi Hrun. unfold refuse in Hrun.
    destruct (app_eqb (app st) UDIALD_APP_PROBE) eqn:Happ; cbn [negb] in Hrun;
      [discriminate|].
    destruct (exitcode_exits (A := unit) UDIALD_EUNLOCK (Some msg) st
                (ucix_add_option UCI_SECTION_GLOBAL "failed_pin" p wi))
      as (w2 & Hex & Hsame).
    rewrite Hex in Hrun. injection Hrun as _ <-.
    destruct Hsame as (_ & _ & _ & _ & _ & _ & _ & _ & _ & _ & Hk).
    split; [intros E; rewrite E in Happ; discriminate|]. split.
    - unfold ucix_get_option. rewrite Hk by (unfold exit_keys; not_among).
      cbn. apply lookup_insert_eq.
    - intros key Hkey. apply not_elem_of_cons in Hkey as [Hne Hkey].
      unfold udiald_config_get, ucix_get_option. rewrite Hk by exact Hkey.
      cbn. rewrite lookup_insert_ne by (intros [= _ E]; congruence).
      rewrite Hwi. subst w1. cbn.
      apply lookup_delete_ne. intros [= E]. congruence. }
  repeat match goal with
         | |- context [if ?b then _ else _] => destruct b
         | |- context [match udiald_tty_flatten_result ?r with _ => _ end] =>
             destruct (udiald_tty_flatten_result r)
         | |- context [match go_ret ?o with _ => _ end] => destruct (go_ret o)
         end; try discriminate; apply Hrej; reflexivity.
Qed.

End PinAndPuk.

(** X14.  Without a PIN, neither on the command line nor a non-empty
    [udiald_pin] in the store, [udiald_enter_pin] sends nothing: outside
    probe mode it ends the process through [udiald_exitcode] with
    [UDIALD_EUNLOCK], in probe mode it returns with the world as it was. *)
Theorem enter_pin_needs_a_pin :
  ∀ (T : target) (H : udiald_h) (st : udiald_state) (w : world),
    candidate_pin st w = None ∨ candidate_pin st w = Some EmptyString →
    (app st ≠ UDIALD_APP_PROBE →
     ∃ w', udiald_enter_pin st w = Exit (surfaced st UDIALD_EUNLOCK) w' ∧
           same_but exit_keys w w') ∧
    (app st = UDIALD_APP_PROBE → udiald_enter_pin st w = Ret tt w).
Proof. intros T H st w. apply enter_pin_no_pin. Qed.

Lemma enter_pin_needs_a_pin_witness :
  let st := state_of UDIALD_APP_UNLOCK 0 in
  let w := world_of [("wan", "udiald_pin", EmptyString)]%string [] in
  candidate_pin st w = Some EmptyString ∧
  ∃ w', udiald_enter_pin (T := lp64) (H := header) st w = Exit UDIALD_EUNLOCK w' ∧
        w_tty_out w' = [].
Proof.
  cbv zeta.
  assert (H1 : candidate_pin (state_of UDIALD_APP_UNLOCK 0)
                 (world_of [("wan", "udiald_pin", EmptyString)]%string [])
               = Some EmptyString) by reflexivity.
  split; [exact H1|].
  destruct (proj1 (enter_pin_needs_a_pin lp64 header _ _ (or_intror H1)) ltac:(discriminate))
    as (w' & Hrun & Hsame).
  exists w'. split; [exact Hrun|].
  destruct Hsame as (_ & Ho & _). exact Ho.
Defined.

(** X15.  [udiald_enter_pin] writes at most one command to the control
    line, and only the command [AT+CPIN="<pin>"] with the candidate PIN:
    the PIN is then not empty, holds none of double quote, CR, LF and
    semicolon, and is not the PIN stored as failed. *)
Theorem enter_pin_sends_only_the_pin :
  ∀ (T : target) (H : udiald_h) (st : udiald_state) (w : world),
    w_tty_out (world_after (udiald_enter_pin st w)) = w_tty_out w ∨
    ∃ p, candidate_pin st w = Some p ∧ p ≠ EmptyString ∧
         strpbrk p at_forbidden = false ∧
         ucix_get_option w UCI_SECTION_GLOBAL "failed_pin" ≠ Some p ∧
         w_tty_out (world_after (udiald_enter_pin st w))
         = w_tty_out w ++ [snprintf 512 ("AT+CPIN=" ++ DQs ++ p ++ DQs ++ CRs)].
Proof.
  intros T H st w.
  destruct (enter_pin_out st w) as [Hq|(p & H1 & H2 & H3 & H4 & _ & H6)]; [left; exact Hq|].
  right. exists p. auto.
Qed.

(** X16.  A PIN the modem has rejected is not sent again: when
    [udiald_enter_pin] ends the process after it has written to the control
    line, the PIN is stored as [failed_pin], and [udiald_enter_pin] run on
    the store it has left refuses that PIN with [UDIALD_ESIM] without
    writing to the control line. *)
Theorem rejected_pin_is_not_sent_again :
  ∀ (T : target) (H : udiald_h) (st : udiald_state) (w w' : world) (c : Z),
    udiald_enter_pin st w = Exit c w' →
    w_tty_out w' ≠ w_tty_out w →
    ucix_get_option w' UCI_SECTION_GLOBAL "failed_pin" = candidate_pin st w ∧
    candidate_pin st w' = candidate_pin st w ∧
    ∃ w'', udiald_enter_pin st w' = Exit (surfaced st UDIALD_ESIM) w'' ∧
           w_tty_out w'' = w_tty_out w'.
Proof.
  intros T H st w w' c Hrun Hsent.
  destruct (enter_pin_out st w) as [Hq|(p & Hpin & Hne & Hok & Hf & Hatt & _)].
  { rewrite Hrun in Hq. contradiction. }
  rewrite Hatt in Hrun.
  destruct (pin_attempt_exit p st w c w' Hrun) as (Happ & Hfailed & Hkeep).
  assert (Hpin' : candidate_pin st w' = Some p).
  { unfold candidate_pin in *. destruct (pin st); [exact Hpin|].
    rewrite Hkeep; [exact Hpin|]. unfold exit_keys. not_among. }
  rewrite Hpin. split; [exact Hfailed|]. split; [exact Hpin'|].
  destruct (proj1 (enter_pin_refuses_failed_pin st w' p Hpin' Hne Hok Hfailed) Happ)
    as (w'' & Hrun' & Hsame).
  exists w''. split; [exact Hrun'|].
  destruct Hsame as (_ & Ho & _). exact Ho.
Qed.

Lemma rejected_pin_is_not_sent_again_witness :
  let st := state_of UDIALD_APP_CONNECT 0 in
  let w1 := world_after (udiald_enter_pin (T := lp64) (H := header) st wrong_pin_world) in
  (udiald_enter_pin (T := lp64) (H := header) st wrong_pin_world = Exit UDIALD_EUNLOCK w1 ∧
   w_tty_out w1 ≠ w_tty_out wrong_pin_world) ∧
  ucix_get_option w1 UCI_SECTION_GLOBAL "failed_pin" = Some "1234"%string.
Proof.
  cbv zeta.
  assert (H1 : udiald_enter_pin (T := lp64) (H := header) (state_of UDIALD_APP_CONNECT 0)
                 wrong_pin_world
               = Exit UDIALD_EUNLOCK
                   (world_after (udiald_enter_pin (T := lp64) (H := header)
                                   (state_of UDIALD_APP_CONNECT 0) wrong_pin_world)))
    by (vm_compute; reflexivity).
  assert (H2 : w_tty_out (world_after (udiald_enter_pin (T := lp64) (H := header)
                                         (state_of UDIALD_APP_CONNECT 0) wrong_pin_world))
               ≠ w_tty_out wrong_pin_world)
    by (vm_compute; discriminate).
  split; [split; assumption|].
  exact (proj1 (rejected_pin_is_not_sent_again lp64 header _ _ _ _ H1 H2)).
Defined.

Section PukAndFinish.
Context {T : target} {H : udiald_h}.

Lemma surfaced_zero st code : surfaced st code = 0%Z ↔ code = 0%Z.
Proof.
  unfold surfaced. split.
  - destruct (code =? 0)%Z eqn:E; cbn [negb andb].
    + intros _. apply Z.eqb_eq. exact E.
    + destruct (negb _); [discriminate|auto].
  - intros ->. reflexivity.
Qed.

(** A call of [udiald_exitcode] with a code other than 0. *)
Lemma exit_from {A : Type} code msg st wi :
  code ≠ 0%Z →
  ∃ c w', udiald_exitcode (A := A) code msg st wi = Exit c w' ∧ c ≠ 0%Z ∧
          same_but exit_keys wi w' ∧
          (app st = UDIALD_APP_CONNECT →
           udiald_config_get st "udiald_state" w' = Some "error"%string).
Proof.
  intros Hne.
  destruct (exitcode_store (A := A) code msg st wi) as (w' & Hrun & Hsame & _ & _ & Hst & _).
  exists (surfaced st code), w'. split; [exact Hrun|].
  assert (Hc : surfaced st code ≠ 0%Z) by (rewrite surfaced_zero; exact Hne).
  split; [exact Hc|]. split; [exact Hsame|].
  intros Happ. rewrite (Hst Happ). apply Z.eqb_neq in Hc. rewrite Hc. reflexivity.
Qed.

Lemma enter_puk_outcome puk pin st w :
  (∀ w', udiald_enter_puk puk pin st w ≠ Ret tt w') ∧
  (sim_state st ≠ 2%Z →
   ∃ w', udiald_enter_puk puk pin st w = Exit (surfaced st UDIALD_ESIM) w' ∧
         same_but exit_keys w w') ∧
  (∀ w', udiald_enter_puk puk pin st w = Exit 0 w' →
     sim_state st = 2%Z ∧ w_tty_out w' = w_tty_out w ++ [puk_command puk pin] ∧
     udiald_config_get st "sim_state" w' = Some "ready"%string).
Proof.
  unfold udiald_enter_puk.
  destruct (sim_state st =? 2)%Z eqn:Hsim; cbn [negb].
  2:{ destruct (exitcode_store (A := unit) UDIALD_ESIM
                  (Some "Cannot use PUK - SIM not locked"%string) st w)
        as (w1 & Hrun & Hsame & _).
      rewrite Hrun. cbn [bind]. split; [discriminate|]. split; [eauto|].
      intros w' [= Hc _]. apply surfaced_zero in Hc. discriminate. }
  apply Z.eqb_eq in Hsim. cbn [bind].
  split; [|split; [intros Hne; contradiction|]].
  - intros w'.
    destruct (_ || _).
    + destruct (exitcode_exits (A := unit) UDIALD_EINVAL (Some "Invalid PIN or PUK"%string)
                  st w) as (w1 & -> & _). discriminate.
    + cbn [bind]. unfold udiald_tty_put, tty_get, got. cbv zeta. cbn [fst snd].
      repeat match goal with
             | |- context [if ?b then _ else _] => destruct b
             | |- context [match go_ret ?o with _ => _ end] => destruct (go_ret o)
             | |- context [udiald_exitcode ?c ?m ?s ?x] =>
                 destruct (exitcode_exits (A := unit) c m s x) as (? & -> & _)
             end; discriminate.
  - intros w'.
    destruct (_ || _).
    + destruct (exitcode_exits (A := unit) UDIALD_EINVAL (Some "Invalid PIN or PUK"%string)
                  st w) as (w1 & -> & _). cbn [bind].
      intros [= Hc _]. apply surfaced_zero in Hc. discriminate.
    + cbn [bind]. unfold udiald_tty_put, tty_get, got. cbv zeta. cbn [fst snd].
      fold (puk_command puk pin).
      assert (Hfail : ∀ wi, udiald_exitcode (A := unit) UDIALD_EUNLOCK
                              (Some "Failed to reset PIN"%string) st wi ≠ Exit 0 w').
      { intros wi. destruct (exitcode_exits (A := unit) UDIALD_EUNLOCK
                               (Some "Failed to reset PIN"%string) st wi) as (? & -> & _).
        intros [= Hc _]. apply surfaced_zero in Hc. discriminate. }
      destruct (0 <=? _)%Z; [|intros Hrun; destruct (Hfail _ Hrun)].
      destruct (go_ret _) eqn:Hret; try discriminate;
        cbn [is_at_ok]; try (intros Hrun; destruct (Hfail _ Hrun)).
      destruct t; try (intros Hrun; destruct (Hfail _ Hrun)).
      match goal with |- udiald_exitcode ?c ?m ?s ?x = _ → _ =>
        destruct (exitcode_store (A := unit) c m s x)
          as (w1 & -> & Hsame & _ & _ & _ & _) end.
      intros [= <-]. split; [exact Hsim|].
      destruct Hsame as (_ & Ho & _ & _ & _ & _ & _ & _ & _ & _ & Hk).
      split; [rewrite Ho; reflexivity|].
      unfold udiald_config_get, ucix_get_option.
      rewrite Hk by (unfold exit_keys; not_among).
      cbn. apply lookup_insert_eq.
Qed.

End PukAndFinish.

(** X17.  [udiald_enter_puk] never returns to its caller.  Unless
    [sim_state] says that the SIM wants the PUK it ends the process with
    [UDIALD_ESIM] and nothing is written to the control line or the store
    beyond what [udiald_exitcode] records.  It ends the process with code 0
    only after it has written [AT+CPIN="<puk>","<pin>"], and then
    [sim_state] is stored as [ready]. *)
Theorem enter_puk_never_returns :
  ∀ (T : target) (H : udiald_h) (puk pin : string) (st : udiald_state) (w : world),
    (∀ w', udiald_enter_puk puk pin st w ≠ Ret tt w') ∧
    (sim_state st ≠ 2%Z →
     ∃ w', udiald_enter_puk puk pin st w = Exit (surfaced st UDIALD_ESIM) w' ∧
           same_but exit_keys w w') ∧
    (∀ w', udiald_enter_puk puk pin st w = Exit 0 w' →
       sim_state st = 2%Z ∧
       w_tty_out w' = w_tty_out w ++
         [snprintf 512 ("AT+CPIN=" ++ DQs ++ puk ++ DQs ++ "," ++ DQs ++ pin ++ DQs ++ CRs)] ∧
       udiald_config_get st "sim_state" w' = Some "ready"%string).
Proof. intros T H puk pin st w. apply enter_puk_outcome. Qed.
Section FinishAlways.
Context {T : target} {H : udiald_h}.

(** The statements of the [switch] from any label on begin with a call of
    [udiald_exitcode] with a code other than 0. *)
Lemma run_cases_exit code st wi :
  ∃ c msg, c ≠ 0%Z ∧
    run_cases (drop (pppd_label code) (pppd_cases code)) st wi
    = bind (udiald_exitcode (A := unit) c (Some msg) st wi)
           (fun _ w => run_cases (drop (S (pppd_label code)) (pppd_cases code)) st w).
Proof.
  unfold pppd_label, pppd_cases.
  repeat match goal with |- context [if ?b then _ else _] => destruct b end;
    cbn [drop run_cases]; eexists _, _; (split; [|reflexivity]); discriminate.
Qed.

(** [udiald_connect_finish] ends in one call of [udiald_exitcode] with a
    code other than 0, made once the four options are reverted and the
    hang-up is written. *)
Lemma connect_finish_shape st w :
  ∃ c msg wi,
    c ≠ 0%Z ∧
    (∃ w', udiald_connect_finish st w = Exit (surfaced st c) w' ∧
           udiald_exitcode (A := unit) c msg st wi = Exit (surfaced st c) w') ∧
    w_tty_out wi = w_tty_out w ++ ["ATH;&F" ++ CRs]%string ∧
    w_killed wi = (if w_pppd_gone w then w_killed w else w_killed w ++ [SIGTERM]) ∧
    (∀ key, key ∈ ["pid"; "connected"; "provider"; "rssi"]%string →
            udiald_config_get st key wi = None).
Proof.
  unfold udiald_connect_finish, udiald_tty_put. cbv zeta. cbn [fst snd].
  set (w1 := with_tty_out _ _ _).
  assert (Hkeys : ∀ key, key ∈ ["pid"; "connected"; "provider"; "rssi"]%string →
                         udiald_config_get st key w1 = None).
  { intros key Hkey. unfold udiald_config_get, ucix_get_option. subst w1. cbn.
    rewrite !elem_of_cons, elem_of_nil in Hkey.
    destruct Hkey as [->|[->|[->|[->|[]]]]];
      repeat first [apply lookup_delete_eq
                   |rewrite lookup_delete_ne by (intros [=])]. }
  assert (Hout : w_tty_out w1 = w_tty_out w ++ ["ATH;&F" ++ CRs]%string) by reflexivity.
  assert (Hkill : w_killed w1 = w_killed w) by reflexivity.
  assert (Hgone : w_pppd_gone w1 = w_pppd_gone w) by reflexivity.
  assert (Hstat : w_pppd_status w1 = w_pppd_status w) by reflexivity.
  rewrite Hgone. clearbody w1.
  destruct (w_pppd_gone w); cbn [negb bind].
  - assert (Hcases : ∀ code, ∃ c msg wi,
              c ≠ 0%Z ∧
              (∃ w', run_cases (drop (pppd_label code) (pppd_cases code)) st w1
                     = Exit (surfaced st c) w' ∧
                     udiald_exitcode (A := unit) c msg st wi = Exit (surfaced st c) w') ∧
              w_tty_out wi = w_tty_out w ++ ["ATH;&F" ++ CRs]%string ∧
              w_killed wi = w_killed w ∧
              (∀ key, key ∈ ["pid"; "connected"; "provider"; "rssi"]%string →
                      udiald_config_get st key wi = None)).
    { intros code. destruct (run_cases_exit code st w1) as (c & msg & Hc & Hrun).
      exists c, (Some msg), w1. split; [exact Hc|]. split; [|auto].
      rewrite Hrun.
      destruct (exitcode_exits (A := unit) c (Some msg) st w1) as (w' & Hex & _).
      rewrite Hex. cbn [bind]. eauto. }
    assert (Hterm : ∃ c msg wi,
              c ≠ 0%Z ∧
              (∃ w', bind (udiald_exitcode (A := unit) UDIALD_ESIGNALED
                             (Some "pppd terminated"%string) st w1)
                       (fun _ w =>
                          let code := match w_pppd_status w with
                                      | WExited c => c
                                      | WSignaled _ => 0%Z
                                      end in
                          run_cases (drop (pppd_label code) (pppd_cases code)) st w)
                     = Exit (surfaced st c) w' ∧
                     udiald_exitcode (A := unit) c msg st wi = Exit (surfaced st c) w') ∧
              w_tty_out wi = w_tty_out w ++ ["ATH;&F" ++ CRs]%string ∧
              w_killed wi = w_killed w ∧
              (∀ key, key ∈ ["pid"; "connected"; "provider"; "rssi"]%string →
                      udiald_config_get st key wi = None)).
    { exists UDIALD_ESIGNALED, (Some "pppd terminated"%string), w1.
      split; [discriminate|]. split; [|auto].
      destruct (exitcode_exits (A := unit) UDIALD_ESIGNALED
                  (Some "pppd terminated"%string) st w1) as (w' & Hex & _).
      rewrite Hex. cbn [bind]. eauto. }
    destruct (w_pppd_status w1) as [code|sg] eqn:Hs; [|exact Hterm].
    destruct (code =? 5)%Z; [exact Hterm|].
    cbn [bind]. rewrite Hs. apply Hcases.
  - match goal with |- context [udiald_exitcode ?c ?m ?s ?x] =>
      exists c, m, x; destruct (exitcode_exits (A := unit) c m s x) as (w' & Hex & _) end.
    split; [discriminate|]. split.
    + rewrite Hex. cbn [bind]. eauto.
    + cbn. rewrite Hout, Hkill. split; [reflexivity|]. split; [reflexivity|].
      intros key Hkey. apply Hkeys in Hkey. exact Hkey.
Qed.

End FinishAlways.

(** X18.  [udiald_connect_finish] never returns: it always ends the
    process, and never with code 0.  By then [pid], [connected], [provider]
    and [rssi] are unset, the hang-up [ATH;&F] is the one command it has
    written, [SIGTERM] has been sent if and only if the link daemon was still
    running, and in connect mode [udiald_state] is [error]. *)
Theorem connect_finish_always_exits_nonzero :
  ∀ (T : target) (H : udiald_h) (st : udiald_state) (w : world),
    ∃ c w', udiald_connect_finish st w = Exit c w' ∧ c ≠ 0%Z ∧
            w_tty_out w' = w_tty_out w ++ ["ATH;&F" ++ CRs]%string ∧
            w_killed w' = (if w_pppd_gone w then w_killed w
                           else w_killed w ++ [SIGTERM]) ∧
            (∀ key, key ∈ ["pid"; "connected"; "provider"; "rssi"]%string →
                    udiald_config_get st key w' = None) ∧
            (app st = UDIALD_APP_CONNECT →
             udiald_config_get st "udiald_state" w' = Some "error"%string).
Proof.
  intros T H st w.
  destruct (connect_finish_shape st w)
    as (c & msg & wi & Hc & (w' & Hrun & Hex) & Hout & Hkill & Hkeys).
  destruct (exit_from (A := unit) c msg st wi Hc) as (c' & w'' & Hex' & Hc' & Hsame & Hst).
  rewrite Hex in Hex'. injection Hex' as <- <-.
  exists (surfaced st c), w'. split; [exact Hrun|]. split; [exact Hc'|].
  destruct Hsame as (_ & Ho & _ & _ & _ & _ & _ & _ & _ & Hk & Huci).
  split; [congruence|]. split; [congruence|]. split; [|exact Hst].
  intros key Hkey. rewrite <- (Hkeys key Hkey).
  unfold udiald_config_get, ucix_get_option. apply Huci.
  rewrite !elem_of_cons, elem_of_nil in Hkey.
  destruct Hkey as [->|[->|[->|[->|[]]]]]; unfold exit_keys; not_among.
Qed.

(** ** udiald.c: SIM state, capabilities and probing *)

Section SimAndCaps.
Context {T : target} {H : udiald_h}.

Lemma written_put cmd w :
  written cmd w ↔ fst (udiald_tty_put cmd w) = Z.of_nat (String.length cmd).
Proof.
  unfold written, udiald_tty_put. cbn [fst]. split.
  - intros ->. rewrite Z.eqb_refl. reflexivity.
  - destruct (_ =? _)%Z eqn:E; [intros _; apply Z.eqb_eq; exact E|lia].
Qed.

Lemma check_sim_outcome st w : sim_checked st w (udiald_check_sim st w).
Proof.
  unfold udiald_check_sim, udiald_tty_put, tty_get, got, flattened. cbv zeta. cbn [fst snd].
  set (w1 := with_tty_out _ _ w).
  change (w_tty_in w1) with (w_tty_in w).
  fold (cpin_answer w).
  set (w2 := with_tty_in _ w1).
  assert (Hleave : ∀ wi msg,
            w_tty_out wi = w_tty_out w ++ ["AT+CPIN?" ++ CRs]%string →
            sim_checked st w
              (if negb (app_eqb (app (set_sim_state (-1) st)) UDIALD_APP_PROBE)
               then udiald_exitcode UDIALD_ESIM msg (set_sim_state (-1) st)
                      (udiald_config_set st "sim_state" "error" wi)
               else Ret (set_sim_state (-1) st)
                      (udiald_config_set st "sim_state" "error" wi))).
  { intros wi msg Hout. cbn [app set_sim_state].
    destruct (app_eqb (app st) UDIALD_APP_PROBE) eqn:Happ; cbn [negb].
    - cbn [sim_checked sim_state set_sim_state]. split; [reflexivity|].
      split; [apply config_get_set|]. split; [exact Hout|].
      left. split; [reflexivity|]. destruct (app st); try discriminate. reflexivity.
    - destruct (exitcode_exits (A := udiald_state) UDIALD_ESIM msg (set_sim_state (-1) st)
                  (udiald_config_set st "sim_state" "error" wi)) as (w' & -> & Hsame).
      cbn [sim_checked].
      split; [reflexivity|]. split; [intros E; rewrite E in Happ; discriminate|].
      destruct Hsame as (_ & Ho & _ & _ & _ & _ & _ & _ & _ & _ & Hk).
      split; [|rewrite Ho; exact Hout].
      unfold udiald_config_get, ucix_get_option.
      rewrite Hk by (unfold exit_keys; not_among). cbn. apply lookup_insert_eq. }
  assert (Hunable : ∀ r wi,
            w_tty_out wi = w_tty_out w ++ ["AT+CPIN?" ++ CRs]%string →
            sim_checked st w
              (match udiald_tty_flatten_result r with
               | FlatOk _ s =>
                   if negb (app_eqb (app (set_sim_state (-1) st)) UDIALD_APP_PROBE)
                   then udiald_exitcode UDIALD_ESIM
                          (Some "Unable to get SIM status"%string)
                          (set_sim_state (-1) st)
                          (udiald_config_set st "sim_state" "error" wi)
                   else Ret (set_sim_state (-1) st)
                          (udiald_config_set st "sim_state" "error" wi)
               | FlatFault => Stuck Fault wi
               | FlatHang => Stuck Hang wi
               end)).
  { intros r wi Hout. destruct (udiald_tty_flatten_result r); [|exact Hout|exact Hout].
    apply Hleave. exact Hout. }
  destruct (_ <? 1)%Z; [apply Hunable; reflexivity|].
  destruct (go_ret (cpin_answer w)) as [t| | |] eqn:Hret; cbn [is_at_ok negb];
    try (apply Hunable; reflexivity); try reflexivity.
  destruct t; cbn [negb]; try (apply Hunable; reflexivity).
  destruct (result_line (go_r (cpin_answer w))) as [off|] eqn:Hres;
    [|apply Hunable; reflexivity].
  unfold strcmp_eq.
  assert (Htext : result_text (cpin_answer w)
                  = Some (string_of_list_ascii (cstr_at (raw_buf (go_r (cpin_answer w))) off))).
  { unfold result_text. rewrite Hres. reflexivity. }
  set (line := string_of_list_ascii (cstr_at (raw_buf (go_r (cpin_answer w))) off)) in *.
  destruct (String.eqb line "+CPIN: READY") eqn:E0.
  { apply String.eqb_eq in E0. cbn [sim_checked sim_state set_sim_state].
    split; [reflexivity|]. split; [apply config_get_set|]. split; [reflexivity|].
    right. split; [exact Hret|]. left. rewrite Htext, E0. auto. }
  destruct (String.eqb line "+CPIN: SIM PIN") eqn:E1.
  { apply String.eqb_eq in E1. cbn [sim_checked sim_state set_sim_state].
    split; [reflexivity|]. split; [apply config_get_set|]. split; [reflexivity|].
    right. split; [exact Hret|]. right. left. rewrite Htext, E1. auto. }
  destruct (String.eqb line "+CPIN: SIM PUK") eqn:E2.
  { apply String.eqb_eq in E2. cbn [sim_checked sim_state set_sim_state].
    split; [reflexivity|]. split; [apply config_get_set|]. split; [reflexivity|].
    right. split; [exact Hret|]. right. right. rewrite Htext, E2. auto. }
  apply Hleave. reflexivity.
Qed.


Lemma begins_spec l p : begins l p = true ↔ ∃ post, l = p ++ post.
Proof.
  revert l. induction p as [|c p IH]; intros l; cbn [begins].
  - split; [intros _; exists l; reflexivity|auto].
  - destruct l as [|a l].
    + split; [discriminate|intros (post & [=])].
    + rewrite andb_true_iff, Ascii.eqb_eq, IH. split.
      * intros (-> & post & ->). exists post. reflexivity.
      * intros (post & [= -> ->]). eauto.
Qed.

Lemma strstr_spec h n : strstr h n = true ↔ ∃ pre post, h = pre ++ n ++ post.
Proof.
  induction h as [|a h IH]; cbn [strstr]; rewrite orb_true_iff, begins_spec.
  - split.
    + intros [(post & E)|[=]]. exists [], post. exact E.
    + intros (pre & post & E). left.
      destruct pre; [exists post; exact E|discriminate].
  - rewrite IH. split.
    + intros [(post & E)|(pre & post & E)].
      * exists [], post. exact E.
      * exists (a :: pre), post. rewrite E. reflexivity.
    + intros (pre & post & E). destruct pre as [|b pre].
      * left. exists post. exact E.
      * right. injection E as -> E. eauto.
Qed.

Lemma check_caps_outcome st w : caps_checked st w (udiald_check_caps st w).
Proof.
  unfold udiald_check_caps, tty_get, got. cbv zeta.
  pose proof (written_put ("AT+GCAP" ++ CRs) w) as Hw.
  unfold udiald_tty_put in *. cbn [fst snd] in *.
  set (w1 := with_tty_out _ _ w).
  change (w_tty_in w1) with (w_tty_in w). change (w_auto w1) with (w_auto w).
  fold (caps_answer w).
  assert (Hno : ∀ wi, w_tty_out wi = w_tty_out w ++ ["AT+GCAP" ++ CRs]%string →
                      w_uci wi = w_uci w →
                      (¬ (written ("AT+GCAP" ++ CRs) w ∧
                          go_ret (caps_answer w) = GetTag UDIALD_AT_OK ∧
                          ∃ pre post,
                            cstr_at (raw_buf (go_r (caps_answer w)))
                              <$> result_line (go_r (caps_answer w))
                            = Some (pre ++ chars "CGSM" ++ post))) →
                      caps_checked st w (Ret (set_is_gsm false st) wi)).
  { intros wi Hout Huci Hnot. cbn [caps_checked is_gsm set_is_gsm].
    split; [reflexivity|]. split; [exact Hout|]. split; [exact Huci|].
    split; [discriminate|]. intros Hyes. contradiction. }
  destruct (_ =? _)%Z eqn:Hput.
  2:{ cbn [Z.leb Z.compare]. apply Hno; try reflexivity.
      intros (Hwr & _). apply Hw in Hwr. discriminate. }
  assert (Hpos : (0 <=? Z.of_nat (String.length ("AT+GCAP" ++ CRs)))%Z = true) by reflexivity.
  rewrite Hpos.
  destruct (go_ret (caps_answer w)) as [t| | |] eqn:Hret; cbn [is_at_ok];
    try reflexivity;
    try (apply Hno; try reflexivity; intros (_ & [=] & _)).
  destruct t; try (apply Hno; try reflexivity; intros (_ & [=] & _)).
  destruct (result_line (go_r (caps_answer w))) as [off|] eqn:Hres.
  2:{ apply Hno; try reflexivity. intros (_ & _ & pre & post & [=]). }
  destruct (strstr _ _) eqn:Hstr.
  - cbn [caps_checked is_gsm set_is_gsm].
    split; [reflexivity|]. split; [reflexivity|]. split; [reflexivity|].
    split; [|reflexivity]. intros _. split; [apply Hw; reflexivity|].
    split; [exact Hret|]. apply strstr_spec in Hstr as (pre & post & E).
    exists pre, post. rewrite Hres. cbn. rewrite E. reflexivity.
  - apply Hno; try reflexivity.
    intros (_ & _ & pre & post & E). cbn in E. injection E as E.
    assert (Hyes : strstr (cstr_at (raw_buf (go_r (caps_answer w))) off) (chars "CGSM") = true).
    { apply strstr_spec. exists pre, post. exact E. }
    rewrite Hyes in Hstr. discriminate.
Qed.

(** A probe command leaves everything but the control line as it was. *)
Lemma probe_cmd_outcome cmd timeout st w :
  match udiald_probe_cmd cmd timeout st w with
  | Exit _ _ => False
  | Ret _ w' | Stuck _ w' =>
      w_uci w' = w_uci w ∧ w_uci_lists w' = w_uci_lists w ∧ w_killed w' = w_killed w ∧
      w_tty_out w' = w_tty_out w ++ [snprintf 511 (cmd ++ CRs)]
  end.
Proof.
  unfold udiald_probe_cmd, udiald_tty_put, tty_get, got, flattened. cbv zeta. cbn [fst snd].
  repeat match goal with
         | |- context [if ?b then _ else _] => destruct b
         | |- context [match udiald_tty_flatten_result ?r with _ => _ end] =>
             destruct (udiald_tty_flatten_result r)
         | |- context [match go_ret ?o with _ => _ end] => destruct (go_ret o)
         end; cbn; auto.
Qed.

Lemma run_probe_outcome cmds st : ∀ w,
  match run_probe cmds st w with
  | Exit _ _ => False
  | Ret _ w' =>
      w_uci w' = w_uci w ∧ w_uci_lists w' = w_uci_lists w ∧ w_killed w' = w_killed w ∧
      w_tty_out w' = w_tty_out w ++ ((fun c => snprintf 511 (fst c ++ CRs)) <$> cmds)
  | Stuck _ w' =>
      w_uci w' = w_uci w ∧ w_uci_lists w' = w_uci_lists w ∧ w_killed w' = w_killed w ∧
      ∃ n, w_tty_out w' = w_tty_out w ++ ((fun c => snprintf 511 (fst c ++ CRs)) <$> take n cmds)
  end.
Proof.
  induction cmds as [|[cmd timeout] cmds IH]; intros w; cbn [run_probe].
  - cbn. rewrite app_nil_r. auto.
  - pose proof (probe_cmd_outcome cmd timeout st w) as Hc.
    destruct (udiald_probe_cmd cmd timeout st w) as [[] w1|c w1|y w1]; cbn [bind].
    + destruct Hc as (H1 & H2 & H3 & H4). specialize (IH w1).
      destruct (run_probe cmds st w1) as [[] w2|c w2|y w2]; [|exact IH|].
      * destruct IH as (I1 & I2 & I3 & I4).
        rewrite I1, I2, I3, I4, H1, H2, H3, H4, <- app_assoc. cbn. auto.
      * destruct IH as (I1 & I2 & I3 & n & I4).
        rewrite I1, I2, I3, I4, H1, H2, H3, H4, <- app_assoc.
        repeat split; auto. exists (S n). reflexivity.
    + exact Hc.
    + destruct Hc as (H1 & H2 & H3 & H4). repeat split; auto.
      exists 1. rewrite H4. destruct cmds; reflexivity.
Qed.

End SimAndCaps.

(** X19.  [udiald_check_sim] writes the one query [AT+CPIN?].  When it
    returns, the state stored under [sim_state] names the state it leaves in
    memory (0 ready, 1 wantpin, 2 wantpuk, -1 error); it returns with 0, 1 or
    2 only after an answer that ended in [OK] and whose result line is
    exactly [+CPIN: READY], [+CPIN: SIM PIN] or [+CPIN: SIM PUK], and with
    -1 only in probe mode.  When it ends the process, the code is
    [UDIALD_ESIM], the mode is not probe, and [error] is stored. *)
Theorem check_sim_stores_what_it_finds :
  ∀ (T : target) (H : udiald_h) (st : udiald_state) (w : world),
    sim_checked st w (udiald_check_sim st w).
Proof. intros T H st w. apply check_sim_outcome. Qed.

(** X20.  [udiald_check_caps] never ends the process and writes the one
    query [AT+GCAP].  Whatever [is_gsm] was before, it is set afterwards
    exactly when the query was written in full, the answer ended in [OK] and
    the result line, the first line that begins with [+GCAP: ], has [CGSM]
    somewhere in it; then, and only then, [modem_gsm] is stored as 1, and no
    other option is touched. *)
Theorem check_caps_detects_gsm :
  ∀ (T : target) (H : udiald_h) (st : udiald_state) (w : world),
    caps_checked st w (udiald_check_caps st w).
Proof. intros T H st w. apply check_caps_outcome. Qed.

(** X21.  [udiald_probe] never ends the process and changes nothing in the
    store; a probe that returns has written its twenty-five commands, each
    followed by a CR, in the order of the source, and a probe that is stuck
    has written the first few of them. *)
Theorem probe_only_talks_to_the_modem :
  ∀ (T : target) (H : udiald_h) (st : udiald_state) (w : world),
    match udiald_probe st w with
    | Exit _ _ => False
    | Ret _ w' =>
        w_uci w' = w_uci w ∧ w_uci_lists w' = w_uci_lists w ∧
        w_tty_out w' = w_tty_out w ++ ((fun c => (fst c ++ CRs)%string) <$> probe_cmds)
    | Stuck _ w' =>
        w_uci w' = w_uci w ∧ w_uci_lists w' = w_uci_lists w ∧
        ∃ n, w_tty_out w' = w_tty_out w ++ ((fun c => (fst c ++ CRs)%string) <$> take n probe_cmds)
    end ∧
    length probe_cmds = 25.
Proof.
  intros T H st w. split; [|reflexivity].
  pose proof (run_probe_outcome probe_cmds st w) as Hp. unfold udiald_probe.
  assert (Hsame : Forall (fun c => snprintf 511 (fst c ++ CRs) = (fst c ++ CRs)%string)
                    probe_cmds) by (repeat constructor).
  assert (Hmap : ∀ l, Forall (fun c => snprintf 511 (fst c ++ CRs) = (fst c ++ CRs)%string) l →
                      (fun c => snprintf 511 (fst c ++ CRs)) <$> l
                      = (fun c : string * Z => (fst c ++ CRs)%string) <$> l).
  { intros l Hl. apply list_fmap_ext. intros i c Hi. cbn.
    rewrite Forall_forall in Hl. apply Hl. eapply list_elem_of_lookup_2. exact Hi. }
  destruct (run_probe probe_cmds st w) as [[] w'|c w'|y w']; [|exact Hp|].
  - destruct Hp as (H1 & H2 & _ & H4). rewrite Hmap in H4 by exact Hsame. auto.
  - destruct Hp as (H1 & H2 & _ & n & H4).
    rewrite Hmap in H4 by (apply Forall_take; exact Hsame). eauto.
Qed.

(** ** udiald.c: the supervise loop *)

Section Tokens.








End Tokens.


Section Talking.

Lemma talked_but_refl keys w : talked_but keys w w.
Proof. repeat split. Qed.

Lemma talked_but_trans keys w1 w2 w3 :
  talked_but keys w1 w2 → talked_but keys w2 w3 → talked_but keys w1 w3.
Proof.
  unfold talked_but.
  intros (?&?&?&?&?&?&?&Hk1) (?&?&?&?&?&?&?&Hk2).
  repeat split; try congruence.
  intros sec key Hkey. rewrite Hk2, Hk1 by exact Hkey. reflexivity.
Qed.

Lemma talked_but_more keys keys' w w' :
  keys ⊆ keys' → talked_but keys w w' → talked_but keys' w w'.
Proof.
  unfold talked_but. intros Hsub (?&?&?&?&?&?&?&Hk).
  repeat split; try assumption.
  intros sec key Hkey. apply Hk. intros Hin. apply Hkey, Hsub, Hin.
Qed.

Lemma same_but_talked keys w w' : same_but keys w w' → talked_but keys w w'.
Proof.
  unfold same_but, talked_but. intros (?&?&?&?&?&?&?&?&?&?&Hk). repeat split; assumption.
Qed.

Lemma talked_but_set keys st key v w :
  key ∈ keys → talked_but keys w (udiald_config_set st key v w).
Proof. intros Hin. apply same_but_talked, same_but_set. exact Hin. Qed.

Lemma talked_but_revert keys st key w :
  key ∈ keys → talked_but keys w (udiald_config_revert st key w).
Proof. intros Hin. apply same_but_talked, same_but_revert. exact Hin. Qed.

Lemma talked_but_line keys w out rets scripts :
  talked_but keys w (with_tty_in scripts (with_tty_out out rets w)).
Proof. repeat split. Qed.

Lemma talked_but_out keys w out rets : talked_but keys w (with_tty_out out rets w).
Proof. repeat split. Qed.

End Talking.

Section SuperviseLoop.
Context {T : target} {H : udiald_h}.

Lemma mainloop_query_outcome r provider st w :
  match mainloop_query r provider st w with
  | Exit _ _ => False
  | Ret _ w' | Stuck _ w' =>
      talked_but ["provider"; "rssi"]%string w w' ∧ w_tty_out w' = w_tty_out w ++ [status_query]
  end.
Proof.
  unfold mainloop_query, udiald_tty_put, tty_get, got. cbv zeta. cbn [fst snd].
  set (w2 := with_tty_in _ (with_tty_out _ _ w)).
  assert (H2 : talked_but ["provider"; "rssi"]%string w w2 ∧
               w_tty_out w2 = w_tty_out w ++ [status_query]) by (split; [repeat split|reflexivity]).
  destruct (go_ret _); try exact H2.
  all: destruct (_ || _); try exact H2.
  all: destruct (raw_lines _ !! 0) as [l0|]; [|exact H2].
  all: destruct (raw_lines _ !! 1) as [l1|]; [|exact H2].
  all: destruct H2 as [Ht Ho].
  all: match goal with |- context [provider_of ?c] => destruct (provider_of c) as [name|] end.
  all: try match goal with |- context [strncmp_eq ?a ?b ?c ?d] =>
             destruct (strncmp_eq a b c d) end; cbn [negb].
  all: match goal with |- context [rssi_of ?c] => destruct (rssi_of c) as [v|] end.
  all: split; [|exact Ho].
  all: repeat first
         [exact Ht
         |eapply talked_but_trans; [|apply talked_but_set; among]
         |eapply talked_but_trans; [|apply talked_but_revert; among]].
Qed.


Lemma mainloop_rounds_later n : ∀ r provider st w,
  match mainloop_rounds n false r provider st w with
  | Exit _ _ => False
  | Ret _ w' =>
      talked_but ["provider"; "rssi"]%string w w' ∧
      w_tty_out w' = w_tty_out w ++ replicate (Nat.div2 n) status_query
  | Stuck _ w' =>
      talked_but ["provider"; "rssi"]%string w w' ∧
      ∃ k, 0 < k ≤ Nat.div2 n ∧ w_tty_out w' = w_tty_out w ++ replicate k status_query
  end.
Proof.
  induction n as [n IH] using lt_wf_ind. intros r provider st w.
  destruct n as [|[|n]].
  - cbn. split; [apply talked_but_refl|]. rewrite app_nil_r. reflexivity.
  - cbn. split; [apply talked_but_refl|]. rewrite app_nil_r. reflexivity.
  - cbn [mainloop_rounds].
    pose proof (mainloop_query_outcome r provider st w) as Hq.
    destruct (mainloop_query r provider st w) as [[r1 p1] w1| |e w1]; cbn [bind fst snd].
    + destruct Hq as [Ht Ho].
      specialize (IH n ltac:(lia) r1 p1 st w1).
      destruct (mainloop_rounds n false r1 p1 st w1) as [u w2| |e w2].
      * destruct IH as [Ht2 Ho2]. split; [eapply talked_but_trans; eassumption|].
        change (Nat.div2 (S (S n))) with (S (Nat.div2 n)).
        rewrite Ho2, Ho, <- app_assoc. reflexivity.
      * exact IH.
      * destruct IH as [Ht2 (k & Hk & Ho2)]. split; [eapply talked_but_trans; eassumption|].
        exists (S k). split; [change (Nat.div2 (S (S n))) with (S (Nat.div2 n)); revert Hk; generalize (Nat.div2 n); lia|].
        rewrite Ho2, Ho, <- app_assoc. reflexivity.
    + exact Hq.
    + destruct Hq as [Ht Ho]. split; [exact Ht|].
      exists 1. split; [|exact Ho].
      change (Nat.div2 (S (S n))) with (S (Nat.div2 n)). generalize (Nat.div2 n). lia.
Qed.

Lemma talked_but_keeps keys st key w w' :
  key ∉ keys → talked_but keys w w' →
  udiald_config_get st key w' = udiald_config_get st key w.
Proof.
  intros Hk (_&_&_&_&_&_&_&Hu). unfold udiald_config_get, ucix_get_option. apply Hu, Hk.
Qed.

End SuperviseLoop.

(** X23.  [udiald_connect_status_mainloop] never ends the process.  It
    touches no option but [connected], [provider] and [rssi], and nothing of
    the world besides these and the control line.  When it returns after [n]
    reads of [signaled] that found it zero, it has written [AT+COPS=3,0] and
    then one [AT+COPS?;+CSQ] for the first round and one for every two
    further reads, whatever the modem answered, and if the loop was entered
    at all [connected] is stored as 1.  A loop that is stuck in a read has
    written a part of these commands. *)
Theorem supervise_loop_only_reports :
  ∀ (T : target) (n : nat) (st : udiald_state) (w : world),
    match udiald_connect_status_mainloop n st w with
    | Exit _ _ => False
    | Ret _ w' =>
        talked_but status_keys w w' ∧
        w_tty_out w' = w_tty_out w ++
          ("AT+COPS=3,0" ++ CRs)%string :: replicate (Nat.div2 (S n)) status_query ∧
        (0 < n → udiald_config_get st "connected" w' = Some "1"%string) ∧
        (n = 0 → w_uci w' = w_uci w)
    | Stuck _ w' =>
        talked_but status_keys w w' ∧
        ∃ k, k ≤ Nat.div2 (S n) ∧
          w_tty_out w' = w_tty_out w ++
            ("AT+COPS=3,0" ++ CRs)%string :: replicate k status_query
    end.
Proof.
  intros T n st w.
  unfold udiald_connect_status_mainloop, udiald_tty_put, tty_get, got. cbv zeta. cbn [fst snd].
  set (w1 := with_tty_in _ (with_tty_out _ _ w)).
  assert (Ht1 : talked_but status_keys w w1) by (repeat split).
  assert (Ho1 : w_tty_out w1 = w_tty_out w ++ [("AT+COPS=3,0" ++ CRs)%string]) by reflexivity.
  assert (Hu1 : w_uci w1 = w_uci w) by reflexivity.
  assert (Hstuck : talked_but status_keys w w1 ∧
            ∃ k, k ≤ Nat.div2 (S n) ∧
              w_tty_out w1 = w_tty_out w ++
                ("AT+COPS=3,0" ++ CRs)%string :: replicate k status_query).
  { split; [exact Ht1|]. exists 0. split; [apply Nat.le_0_l|exact Ho1]. }
  assert (Hrounds : ∀ r,
    match mainloop_rounds n true r [] st w1 with
    | Exit _ _ => False
    | Ret _ w' =>
        talked_but status_keys w w' ∧
        w_tty_out w' = w_tty_out w ++
          ("AT+COPS=3,0" ++ CRs)%string :: replicate (Nat.div2 (S n)) status_query ∧
        (0 < n → udiald_config_get st "connected" w' = Some "1"%string) ∧
        (n = 0 → w_uci w' = w_uci w)
    | Stuck _ w' =>
        talked_but status_keys w w' ∧
        ∃ k, k ≤ Nat.div2 (S n) ∧
          w_tty_out w' = w_tty_out w ++
            ("AT+COPS=3,0" ++ CRs)%string :: replicate k status_query
    end).
  { intros r. clearbody w1. clear Hstuck.
    destruct n as [|n].
    - cbn [mainloop_rounds]. split; [exact Ht1|]. split; [exact Ho1|].
      split; [lia|]. intros _. exact Hu1.
    - cbn [mainloop_rounds].
      set (w2 := udiald_config_set st "connected" "1" w1).
      assert (Ht2 : talked_but status_keys w w2).
      { eapply talked_but_trans; [exact Ht1|]. apply talked_but_set. unfold status_keys. among. }
      assert (Hc2 : udiald_config_get st "connected" w2 = Some "1"%string).
      { unfold w2, udiald_config_get, udiald_config_set, ucix_get_option, ucix_add_option.
        cbn. apply lookup_insert_eq. }
      assert (Ho2 : w_tty_out w2 = w_tty_out w1) by reflexivity.
      pose proof (mainloop_query_outcome r [] st w2) as Hq.
      assert (Hsub : ["provider"; "rssi"]%string ⊆ status_keys).
      { intros x Hx. unfold status_keys. apply elem_of_cons. right. exact Hx. }
      assert (Hnot : "connected"%string ∉ ["provider"; "rssi"]%string).
      { intros Hin. apply list_elem_of_In in Hin. cbn in Hin.
        destruct Hin as [E|[E|[]]]; discriminate E. }
      destruct (mainloop_query r [] st w2) as [[r1 p1] w3| |e w3]; cbn [bind fst snd].
      + destruct Hq as [Ht3 Ho3].
        pose proof (mainloop_rounds_later n r1 p1 st w3) as Hl.
        destruct (mainloop_rounds n false r1 p1 st w3) as [u w4| |e w4].
        * destruct Hl as [Ht4 Ho4].
          split; [|split; [|split; [|lia]]].
          -- eapply talked_but_trans; [exact Ht2|].
             eapply talked_but_more; [exact Hsub|].
             eapply talked_but_trans; eassumption.
          -- rewrite Ho4, Ho3, Ho2, Ho1, <- !app_assoc. reflexivity.
          -- intros _.
             rewrite (talked_but_keeps _ st _ w3 w4 Hnot Ht4).
             rewrite (talked_but_keeps _ st _ w2 w3 Hnot Ht3). exact Hc2.
        * exact Hl.
        * destruct Hl as [Ht4 (k & Hk & Ho4)]. split.
          -- eapply talked_but_trans; [exact Ht2|].
             eapply talked_but_more; [exact Hsub|].
             eapply talked_but_trans; eassumption.
          -- exists (S k). split.
             ++ change (Nat.div2 (S (S n))) with (S (Nat.div2 n)).
                destruct Hk as [_ Hk]. revert Hk. generalize (Nat.div2 n). lia.
             ++ rewrite Ho4, Ho3, Ho2, Ho1, <- !app_assoc. reflexivity.
      + exact Hq.
      + destruct Hq as [Ht3 Ho3]. split.
        * eapply talked_but_trans; [exact Ht2|].
          eapply talked_but_more; [exact Hsub|exact Ht3].
        * exists 1. split.
          -- change (Nat.div2 (S (S n))) with (S (Nat.div2 n)). generalize (Nat.div2 n). lia.
          -- rewrite Ho3, Ho2, Ho1, <- !app_assoc. reflexivity. }
  destruct (go_ret _); first [apply Hrounds | exact Hstuck].
Qed.

(** ** udiald.c: [main] behind modem selection *)

Section RunSpecs.
Context {T : target} {H : udiald_h}.

Lemma run_spec_bind {A B : Type} (R : A → world → Prop) (R' : B → world → Prop) E S
    (r : run A) (k : A → world → run B) :
  run_spec R E S r → (∀ a w, R a w → run_spec R' E S (k a w)) →
  run_spec R' E S (bind r k).
Proof. destruct r; cbn; auto. Qed.

Lemma run_spec_weaken {A : Type} (R R' : A → world → Prop) (E E' : Z → world → Prop)
    (S S' : world → Prop) (r : run A) :
  run_spec R E S r → (∀ a w, R a w → R' a w) → (∀ c w, E c w → E' c w) →
  (∀ w, S w → S' w) → run_spec R' E' S' r.
Proof. destruct r; cbn; auto. Qed.

Lemma exitcode_spec {A : Type} (R : A → world → Prop) (E : Z → world → Prop) S code msg st w :
  (∀ c w', exit_of st code w c w' → E c w') →
  run_spec R E S (udiald_exitcode (A := A) code msg st w).
Proof.
  intros HE. destruct (exitcode_exits (A := A) code msg st w) as (w' & Hx & _).
  rewrite Hx. cbn. apply HE. exists msg.
  destruct (exitcode_exits (A := unit) code msg st w) as (w2 & Hx2 & _).
  rewrite Hx2. unfold udiald_exitcode in Hx, Hx2.
  injection Hx as Hw. injection Hx2 as Hw2. rewrite <- Hw, <- Hw2. reflexivity.
Qed.

Lemma exit_of_facts st code wi c w' :
  exit_of st code wi c w' →
  c = surfaced st code ∧ same_but exit_keys wi w' ∧
  (c ≠ 0%Z → c ≠ UDIALD_ESIGNALED →
   udiald_config_get st "udiald_error_code" w' = Some (dec c)) ∧
  (app st = UDIALD_APP_CONNECT →
   udiald_config_get st "udiald_state" w' = if (c =? 0)%Z then None else Some "error"%string).
Proof.
  intros [msg Hx].
  destruct (exitcode_store (A := unit) code msg st wi) as (w2 & Hx2 & Hs & Hc & _ & Hst & _).
  rewrite Hx in Hx2. injection Hx2 as -> ->.
  split; [reflexivity|]. split; [exact Hs|]. split; [|exact Hst].
  intros Hn1 Hn2. apply Hc; assumption.
Qed.

Lemma open_control_spec e st w :
  run_spec (fun _ w' => w' = w) (fun c w' => exit_of st UDIALD_EMODEM w c w') (fun _ => False)
    (udiald_open_control e st w).
Proof.
  unfold udiald_open_control. destruct (se_open_ok e); cbn [negb].
  - reflexivity.
  - apply exitcode_spec. auto.
Qed.

Lemma modem_reset_spec st w :
  run_spec (fun _ w' => w_tty_out w' = w_tty_out w ++ [("ATE0" ++ CRs)%string])
    (fun _ _ => False)
    (fun w' => w_tty_out w' = w_tty_out w ++ [("ATE0" ++ CRs)%string])
    (udiald_modem_reset st w).
Proof.
  unfold udiald_modem_reset, udiald_tty_put, tty_get, got. cbv zeta. cbn [fst snd].
  destruct (go_ret _); reflexivity.
Qed.

Lemma identify_spec st w :
  run_spec (fun _ w' => w_tty_out w' = w_tty_out w ++ [identify_cmd])
    (fun c w' => ∃ wi, exit_of st UDIALD_EMODEM wi c w' ∧
                       w_tty_out wi = w_tty_out w ++ [identify_cmd])
    (fun w' => w_tty_out w' = w_tty_out w ++ [identify_cmd])
    (udiald_identify st w).
Proof.
  unfold udiald_identify, udiald_tty_put, tty_get, got. cbv zeta. cbn [fst snd].
  set (w1 := with_tty_out _ _ w). set (w2 := with_tty_in _ w1).
  destruct (_ <? 1)%Z.
  { apply exitcode_spec. intros c w' Hx. exists w1. split; [exact Hx|reflexivity]. }
  destruct (go_ret _); try reflexivity.
  all: destruct (_ || _);
    [apply exitcode_spec; intros c w' Hx; exists w2; split; [exact Hx|reflexivity]|].
  all: destruct (raw_lines _ !! 0); [|reflexivity].
  all: destruct (raw_lines _ !! 1); reflexivity.
Qed.


Lemma flattened_spec {A : Type} (R : A → world → Prop) E (S : world → Prop) r w
    (k : string → run A) :
  S w → (∀ flat, run_spec R E S (k flat)) → run_spec R E S (flattened r w k).
Proof.
  intros HS Hk. unfold flattened. destruct (udiald_tty_flatten_result r); cbn; auto.
Qed.

Lemma got_spec {A : Type} (R : A → world → Prop) E (S : world → Prop) o w (k : run A) :
  S w → run_spec R E S k → run_spec R E S (got o w k).
Proof. intros HS Hk. unfold got. destruct (go_ret o); cbn; auto. Qed.

Lemma check_sim_spec st w :
  run_spec
    (fun st' w' => st' = set_sim_state (sim_state st') st ∧
                   w_tty_out w' = w_tty_out w ++ [("AT+CPIN?" ++ CRs)%string])
    (fun c w' => ∃ wi, exit_of st UDIALD_ESIM wi c w' ∧
                       w_tty_out wi = w_tty_out w ++ [("AT+CPIN?" ++ CRs)%string])
    (fun w' => w_tty_out w' = w_tty_out w ++ [("AT+CPIN?" ++ CRs)%string])
    (udiald_check_sim st w).
Proof.
  unfold udiald_check_sim, udiald_tty_put, tty_get. cbv zeta. cbn [fst snd].
  set (w1 := with_tty_out _ _ w). set (w2 := with_tty_in _ w1).
  assert (Hunable : ∀ r wi, w_tty_out wi = w_tty_out w ++ [("AT+CPIN?" ++ CRs)%string] →
    run_spec
      (fun st' w' => st' = set_sim_state (sim_state st') st ∧
                     w_tty_out w' = w_tty_out w ++ [("AT+CPIN?" ++ CRs)%string])
      (fun c w' => ∃ wi, exit_of st UDIALD_ESIM wi c w' ∧
                         w_tty_out wi = w_tty_out w ++ [("AT+CPIN?" ++ CRs)%string])
      (fun w' => w_tty_out w' = w_tty_out w ++ [("AT+CPIN?" ++ CRs)%string])
      (flattened r wi (fun _ =>
         if negb (app_eqb (app (set_sim_state (-1) st)) UDIALD_APP_PROBE)
         then udiald_exitcode UDIALD_ESIM (Some "Unable to get SIM status"%string)
                (set_sim_state (-1) st) (udiald_config_set st "sim_state" "error" wi)
         else Ret (set_sim_state (-1) st) (udiald_config_set st "sim_state" "error" wi)))).
  { intros r wi Hwi. apply flattened_spec; [exact Hwi|]. intros _.
    destruct (negb _).
    - apply exitcode_spec. intros c w' Hx.
      exists (udiald_config_set st "sim_state" "error" wi). split; [exact Hx|exact Hwi].
    - cbn. split; [reflexivity|exact Hwi]. }
  destruct (_ <? 1)%Z; [apply Hunable; reflexivity|].
  apply got_spec; [reflexivity|].
  destruct (negb (is_at_ok _)); [apply Hunable; reflexivity|].
  destruct (result_line _) as [off|]; [|apply Hunable; reflexivity].
  repeat (destruct (strcmp_eq _ _ _); [cbn; split; reflexivity|]).
  destruct (negb _).
  - apply exitcode_spec. intros c w' Hx.
    exists (udiald_config_set st "sim_state" "error" w2). split; [exact Hx|reflexivity].
  - cbn. split; reflexivity.
Qed.

Lemma refuse_spec code msg st w (S : world → Prop) :
  code ≠ 0%Z →
  run_spec (fun _ _ => True) (exits_nz st) S (refuse code msg st w).
Proof.
  intros Hnz. unfold refuse. destruct (negb _); [|exact I].
  apply exitcode_spec. intros c w' Hx. exists code, w. auto.
Qed.

Lemma enter_pin_spec st w :
  run_spec (fun _ _ => True) (exits_nz st) (fun _ => True) (udiald_enter_pin st w).
Proof.
  rewrite enter_pin_unfold.
  destruct (candidate_pin st w) as [[|a p]|]; try (apply refuse_spec; discriminate).
  destruct (strpbrk _ _); [apply refuse_spec; discriminate|].
  cbv zeta. destruct (match ucix_get_option _ _ _ with Some _ => _ | None => _ end);
    [apply refuse_spec; discriminate|].
  unfold pin_attempt, udiald_tty_put, tty_get. cbv zeta. cbn [fst snd].
  destruct (_ <? 0)%Z.
  { apply flattened_spec; [exact I|]. intros flat. apply refuse_spec. discriminate. }
  apply got_spec; [exact I|].
  destruct (negb _); [|exact I].
  apply flattened_spec; [exact I|]. intros flat. apply refuse_spec. discriminate.
Qed.

Lemma enter_puk_spec puk pin st w :
  run_spec (fun _ _ => False)
    (fun c w' => exits_nz st c w' ∨ ∃ wi, exit_of st 0 wi c w')
    (fun _ => True) (udiald_enter_puk puk pin st w).
Proof.
  unfold udiald_enter_puk.
  assert (Hnz : ∀ code msg wi, code ≠ 0%Z →
            run_spec (fun (_ : unit) _ => False)
              (fun c w' => exits_nz st c w' ∨ ∃ wi, exit_of st 0 wi c w')
              (fun _ => True) (udiald_exitcode code msg st wi)).
  { intros code msg wi Hc. apply exitcode_spec. intros c w' Hx. left. exists code, wi. auto. }
  destruct (negb (sim_state st =? 2)%Z); cbn [bind].
  { destruct (exitcode_exits (A := unit) UDIALD_ESIM
                (Some "Cannot use PUK - SIM not locked"%string) st w) as (w' & Hx & _).
    pose proof (Hnz UDIALD_ESIM (Some "Cannot use PUK - SIM not locked"%string) w
                  ltac:(discriminate)) as Hs.
    rewrite Hx in *. exact Hs. }
  destruct (_ || _); cbn [bind].
  { destruct (exitcode_exits (A := unit) UDIALD_EINVAL
                (Some "Invalid PIN or PUK"%string) st w) as (w' & Hx & _).
    pose proof (Hnz UDIALD_EINVAL (Some "Invalid PIN or PUK"%string) w
                  ltac:(discriminate)) as Hs.
    rewrite Hx in *. exact Hs. }
  unfold udiald_tty_put, tty_get. cbv zeta. cbn [fst snd].
  destruct (0 <=? _)%Z; [|apply Hnz; discriminate].
  apply got_spec; [exact I|].
  destruct (is_at_ok _); [|apply Hnz; discriminate].
  apply exitcode_spec. intros c w' Hx. right. eexists. exact Hx.
Qed.


Lemma probe_spec st w :
  run_spec (fun _ _ => True) (fun _ _ => False) (fun _ => True) (udiald_probe st w).
Proof.
  pose proof (run_probe_outcome probe_cmds st w) as Hp. unfold udiald_probe.
  destruct (run_probe probe_cmds st w); cbn; auto.
Qed.

Lemma check_caps_spec st w :
  run_spec (fun st' _ => st' = set_is_gsm (is_gsm st') st) (fun _ _ => False) (fun _ => True)
    (udiald_check_caps st w).
Proof.
  pose proof (check_caps_outcome st w) as Hc. unfold caps_checked in Hc.
  destruct (udiald_check_caps st w); cbn; [apply Hc|exact Hc|exact I].
Qed.

Lemma set_mode_spec st w :
  run_spec (fun _ _ => True) (exits_nz st) (fun _ => True) (udiald_set_mode st w).
Proof.
  assert (Hnz : ∀ code msg wi, code ≠ 0%Z →
            run_spec (fun (_ : unit) _ => True) (exits_nz st) (fun _ => True)
              (udiald_exitcode code msg st wi)).
  { intros code msg wi Hc. apply exitcode_spec. intros c w' Hx. exists code, wi. auto. }
  rewrite set_mode_unfold. cbv zeta.
  destruct (udiald_modem_modeval _) as [md|]; [|apply Hnz; discriminate].
  destruct (profile _) as [prof|]; [|exact I].
  destruct (modecmd _ _) as [[|a cmd]|]; [exact I| |apply Hnz; discriminate].
  unfold udiald_tty_put, tty_get. cbn [fst snd].
  destruct (_ <? 0)%Z.
  { apply flattened_spec; [exact I|]. intros _. apply Hnz. discriminate. }
  apply got_spec; [exact I|].
  destruct (negb _); [|exact I].
  apply flattened_spec; [exact I|]. intros _. apply Hnz. discriminate.
Qed.

Lemma mainloop_spec n st w :
  run_spec (fun _ _ => True) (fun _ _ => False) (fun _ => True)
    (udiald_connect_status_mainloop n st w).
Proof.
  unfold udiald_connect_status_mainloop, udiald_tty_put, tty_get. cbv zeta. cbn [fst snd].
  apply got_spec; [exact I|].
  set (w1 := with_tty_in _ _). set (r := go_r _). clearbody w1 r.
  destruct n as [|n]; [exact I|]. cbn [mainloop_rounds].
  pose proof (mainloop_query_outcome r [] st (udiald_config_set st "connected" "1" w1)) as Hq.
  destruct (mainloop_query _ _ _ _) as [[r1 p1] w3| |e w3]; cbn [bind fst snd];
    [|exact Hq|exact I].
  pose proof (mainloop_rounds_later n r1 p1 st w3) as Hl.
  destruct (mainloop_rounds n false r1 p1 st w3); cbn; auto.
Qed.

Lemma connect_finish_spec st w :
  run_spec (fun _ _ => False) (exits_nz st) (fun _ => False) (udiald_connect_finish st w).
Proof.
  destruct (connect_finish_shape st w) as (c & msg & wi & Hc & (w' & Hf & Hx) & _).
  rewrite Hf. cbn. exists c, wi. split; [exact Hc|]. exists msg. exact Hx.
Qed.


Lemma app_eqb_eq a b : app_eqb a b = true → a = b.
Proof. destruct a, b; cbn; congruence. Qed.

Lemma session_exit_nz {A : Type} (R : A → world → Prop) (S : world → Prop) st (r : run A) :
  run_spec R (exits_nz st) S r → run_spec R (session_exit st) S r.
Proof. intros Hr. eapply run_spec_weaken; [exact Hr|auto|intros c w' Hx; left; exact Hx|auto]. Qed.

Lemma session_exit_code {A : Type} (R : A → world → Prop) (S : world → Prop) code msg st w :
  code ≠ 0%Z → run_spec R (session_exit st) S (udiald_exitcode (A := A) code msg st w).
Proof.
  intros Hc. apply exitcode_spec. intros c w' Hx. left. exists code, w. auto.
Qed.

Lemma session_exit_ok {A : Type} (R : A → world → Prop) (S : world → Prop) msg st w :
  may_succeed (app st) →
  run_spec R (session_exit st) S (udiald_exitcode (A := A) UDIALD_OK msg st w).
Proof.
  intros Hm. apply exitcode_spec. intros c w' Hx. right. split; [exact Hm|]. exists w. exact Hx.
Qed.

Lemma main_after_sim_spec e st w :
  run_spec (fun _ _ => False) (session_exit st) (fun _ => True) (main_after_sim e st w).
Proof.
  unfold main_after_sim.
  eapply run_spec_bind with (R := fun _ _ => True).
  { destruct (app_eqb (app st) UDIALD_APP_SCAN) eqn:Escan.
    { apply session_exit_ok. left. apply app_eqb_eq. exact Escan. }
    destruct (app_eqb (app st) UDIALD_APP_PINPUK) eqn:Epuk; [|exact I].
    apply app_eqb_eq in Epuk.
    destruct (se_args e) as [|puk [|pin [|x l]]]; try (apply session_exit_code; discriminate).
    eapply run_spec_weaken; [apply enter_puk_spec|contradiction| |auto].
    intros c w' [Hx|Hx]; [left; exact Hx|right].
    split; [|exact Hx]. right. right. left. exact Epuk. }
  intros _ w1 _. eapply run_spec_bind with (R := fun _ _ => True).
  { destruct (sim_state st =? 1)%Z; [|exact I]. apply session_exit_nz, enter_pin_spec. }
  intros _ w2 _. eapply run_spec_bind with (R := fun _ _ => True).
  { destruct (app_eqb (app st) UDIALD_APP_UNLOCK) eqn:Eu; [|exact I].
    apply session_exit_ok. right. left. apply app_eqb_eq. exact Eu. }
  intros _ w3 _. eapply run_spec_bind with (R := fun _ _ => True).
  { destruct (app_eqb (app st) UDIALD_APP_PROBE) eqn:Ep; [|exact I].
    eapply run_spec_bind with (R := fun _ _ => True).
    - eapply run_spec_weaken; [apply probe_spec|auto|contradiction|auto].
    - intros _ w4 _. apply session_exit_ok. right. right. right. apply app_eqb_eq. exact Ep. }
  intros _ w4 _. eapply run_spec_bind with (R := fun _ _ => True).
  { destruct (sim_state st =? 2)%Z; [|exact I]. apply session_exit_code. discriminate. }
  intros _ w5 _.
  eapply run_spec_bind with (R := fun st' _ => st' = set_is_gsm (is_gsm st') st).
  { eapply run_spec_weaken; [apply check_caps_spec|auto|contradiction|auto]. }
  intros st' w6 Hst.
  assert (Hsame : ∀ c w', exits_nz st' c w' → session_exit st c w').
  { intros c w' Hx. left. rewrite Hst in Hx. exact Hx. }
  eapply run_spec_bind with (R := fun _ _ => True).
  { destruct (is_gsm st'); [|exact I].
    eapply run_spec_weaken; [apply set_mode_spec|auto|exact Hsame|auto]. }
  intros _ w7 _. cbv zeta.
  destruct (udiald_tty_pppd _ _ _) as [out|]; [|exact I].
  destruct (po_ret out =? 0)%Z.
  { apply exitcode_spec. intros c w' Hx. apply Hsame.
    exists UDIALD_EINTERNAL. eexists. split; [discriminate|exact Hx]. }
  eapply run_spec_bind with (R := fun _ _ => True).
  { eapply run_spec_weaken; [apply mainloop_spec|auto|contradiction|auto]. }
  intros _ w8 _.
  eapply run_spec_weaken; [apply connect_finish_spec|auto| |auto].
  intros c w' Hx. apply Hsame. exact Hx.
Qed.


Lemma session_exit_facts st c w' :
  session_exit st c w' →
  (c = 0%Z → may_succeed (app st)) ∧
  (c ≠ 0%Z → c ≠ UDIALD_ESIGNALED →
   udiald_config_get st "udiald_error_code" w' = Some (dec c)) ∧
  (app st = UDIALD_APP_CONNECT →
   c ≠ 0%Z ∧ udiald_config_get st "udiald_state" w' = Some "error"%string).
Proof.
  intros [(code & wi & Hnz & Hx)|[Hm (wi & Hx)]];
    apply exit_of_facts in Hx as (Hc & _ & Hcode & Hstate).
  - assert (Hc0 : c ≠ 0%Z) by (rewrite Hc; intros E; apply surfaced_zero in E; auto).
    split; [intros E; contradiction|]. split; [exact Hcode|].
    intros Happ. split; [exact Hc0|]. rewrite (Hstate Happ).
    apply Z.eqb_neq in Hc0. rewrite Hc0. reflexivity.
  - assert (Hc0 : c = 0%Z) by (rewrite Hc; apply surfaced_zero; reflexivity).
    split; [auto|]. split; [intros E; contradiction|].
    intros Happ. rewrite Happ in Hm. destruct Hm as [E|[E|[E|E]]]; discriminate E.
Qed.

Lemma main_session_spec e st w :
  run_spec (fun _ _ => False) (session_exit st) (fun _ => True) (main_session e st w).
Proof.
  unfold main_session.
  eapply run_spec_bind with (R := fun _ _ => True).
  { eapply run_spec_weaken; [apply open_control_spec|auto| |auto].
    intros c w' Hx. left. exists UDIALD_EMODEM, w. split; [discriminate|exact Hx]. }
  intros _ w1 _. eapply run_spec_bind with (R := fun _ _ => True).
  { eapply run_spec_weaken; [apply modem_reset_spec|auto|contradiction|auto]. }
  intros _ w2 _. eapply run_spec_bind with (R := fun _ _ => True).
  { eapply run_spec_weaken; [apply identify_spec|auto| |auto].
    intros c w' (wi & Hx & _). left. exists UDIALD_EMODEM, wi. split; [discriminate|exact Hx]. }
  intros _ w3 _.
  eapply run_spec_bind with (R := fun st' _ => st' = set_sim_state (sim_state st') st).
  { eapply run_spec_weaken; [apply check_sim_spec| | |auto].
    - intros st' w' [Hst _]. exact Hst.
    - intros c w' (wi & Hx & _). left. exists UDIALD_ESIM, wi. split; [discriminate|exact Hx]. }
  intros st' w4 Hst.
  eapply run_spec_weaken; [apply main_after_sim_spec|auto| |auto].
  intros c w' Hx. rewrite Hst in Hx. exact Hx.
Qed.

End RunSpecs.

(** X24.  Behind modem selection [main] never reaches its last [return]:
    the session ends in [udiald_exitcode] or is stuck.  It ends with 0 only
    in the applications scan, unlock-pin, unlock-puk and probe; every code
    other than 0 and [UDIALD_ESIGNALED] it ends with is stored as
    [udiald_error_code]; and in connect mode the code is never 0 and
    [udiald_state] is left as [error]. *)
Theorem session_ends_through_exitcode :
  ∀ (T : target) (H : udiald_h) (e : session_env) (st : udiald_state) (w : world),
    match main_session e st w with
    | Ret _ _ => False
    | Exit c w' =>
        (c = 0%Z →
         app st = UDIALD_APP_SCAN ∨ app st = UDIALD_APP_UNLOCK ∨
         app st = UDIALD_APP_PINPUK ∨ app st = UDIALD_APP_PROBE) ∧
        (c ≠ 0%Z → c ≠ UDIALD_ESIGNALED →
         udiald_config_get st "udiald_error_code" w' = Some (dec c)) ∧
        (app st = UDIALD_APP_CONNECT →
         c ≠ 0%Z ∧ udiald_config_get st "udiald_state" w' = Some "error"%string)
    | Stuck _ _ => True
    end.
Proof.
  intros T H e st w. pose proof (main_session_spec e st w) as Hs.
  destruct (main_session e st w) as [u w'|c w'|y w']; cbn in Hs.
  - exact Hs.
  - apply session_exit_facts. exact Hs.
  - exact I.
Qed.

Section ScanSession.
Context {T : target} {H : udiald_h}.

Lemma scan_after_sim e st w :
  app st = UDIALD_APP_SCAN →
  ∃ w', main_after_sim e st w = Exit 0 w' ∧ same_but exit_keys w w'.
Proof.
  intros Happ. unfold main_after_sim. rewrite Happ. cbn [app_eqb].
  destruct (exitcode_exits (A := unit) UDIALD_OK None st w) as (w' & Hx & Hs).
  rewrite Hx. cbn [bind]. exists w'. split; [|exact Hs].
  f_equal.
Qed.


Lemma same_but_get keys st key w w' :
  key ∉ keys → same_but keys w w' →
  udiald_config_get st key w' = udiald_config_get st key w.
Proof. intros Hk Hs. apply talked_but_keeps with (keys := keys); [exact Hk|]. apply same_but_talked, Hs. Qed.

Lemma same_but_out keys w w' : same_but keys w w' → w_tty_out w' = w_tty_out w.
Proof. intros (_ & Ho & _). exact Ho. Qed.

Lemma scan_session e st w :
  app st = UDIALD_APP_SCAN →
  run_spec (fun _ _ => False)
    (fun c w' =>
       (c = surfaced st UDIALD_EMODEM ∧
        ∃ k, k ≤ 2 ∧ w_tty_out w' = w_tty_out w ++ take k scan_commands) ∨
       (c = surfaced st UDIALD_ESIM ∧ w_tty_out w' = w_tty_out w ++ scan_commands ∧
        udiald_config_get st "sim_state" w' = Some "error"%string) ∨
       (c = 0%Z ∧ w_tty_out w' = w_tty_out w ++ scan_commands ∧
        ∃ z, (z = 0 ∨ z = 1 ∨ z = 2)%Z ∧
             udiald_config_get st "sim_state" w' = Some (sim_state_name z)))
    (fun w' => ∃ k, 1 ≤ k ≤ 3 ∧ w_tty_out w' = w_tty_out w ++ take k scan_commands)
    (main_session e st w).
Proof.
  intros Happ. unfold main_session.
  eapply run_spec_bind with (R := fun _ w' => w' = w).
  { eapply run_spec_weaken; [apply open_control_spec|auto| |contradiction].
    intros c w' Hx. apply exit_of_facts in Hx as (Hc & Hs & _). left.
    split; [exact Hc|]. exists 0. split; [lia|].
    rewrite (same_but_out _ _ _ Hs). cbn [take]. rewrite app_nil_r. reflexivity. }
  intros _ w1 ->.
  eapply run_spec_bind
    with (R := fun _ w' => w_tty_out w' = w_tty_out w ++ take 1 scan_commands).
  { eapply run_spec_weaken; [apply modem_reset_spec|auto|contradiction|].
    intros w' Ho. exists 1. split; [lia|exact Ho]. }
  intros _ w2 Ho2.
  eapply run_spec_bind
    with (R := fun _ w' => w_tty_out w' = w_tty_out w ++ take 2 scan_commands).
  { eapply run_spec_weaken; [apply identify_spec| | |].
    - intros u w' Ho. cbn beta in Ho. rewrite Ho, Ho2, <- app_assoc. reflexivity.
    - intros c w' (wi & Hx & Ho). apply exit_of_facts in Hx as (Hc & Hs & _). left.
      split; [exact Hc|]. exists 2. split; [lia|].
      rewrite (same_but_out _ _ _ Hs), Ho, Ho2, <- app_assoc. reflexivity.
    - intros w' Ho. exists 2. split; [lia|]. rewrite Ho, Ho2, <- app_assoc. reflexivity. }
  intros _ w3 Ho3.
  pose proof (check_sim_spec st w3) as Hspec.
  pose proof (check_sim_outcome st w3) as Hout. unfold sim_checked in Hout.
  destruct (udiald_check_sim st w3) as [st' w4|c w4|y w4]; cbn [bind run_spec] in *.
  - destruct Hspec as [Hst Ho4]. destruct Hout as (_ & Hsim & _ & Hkind).
    assert (Happ' : app st' = UDIALD_APP_SCAN) by (rewrite Hst; exact Happ).
    destruct (scan_after_sim e st' w4 Happ') as (w' & Hrun & Hs).
    rewrite Hrun. cbn. right. right. split; [reflexivity|].
    split; [rewrite (same_but_out _ _ _ Hs), Ho4, Ho3, <- app_assoc; reflexivity|].
    exists (sim_state st'). split.
    + destruct Hkind as [[_ Hp]|(_ & [[Hz _]|[[Hz _]|[Hz _]]])]; auto.
      rewrite Happ in Hp. discriminate Hp.
    + rewrite (same_but_get exit_keys st "sim_state" w4 w'); [exact Hsim| |exact Hs].
      unfold exit_keys. intros Hin. apply list_elem_of_In in Hin. cbn in Hin.
      destruct Hin as [E|[E|[E|[]]]]; discriminate E.
  - destruct Hspec as (wi & Hx & Ho). destruct Hout as (Hc & _ & Hsim & Ho4).
    right. left. split; [exact Hc|]. split; [|exact Hsim].
    rewrite Ho4, Ho3, <- app_assoc. reflexivity.
  - exists 3. split; [lia|]. rewrite Hspec, Ho3, <- app_assoc. reflexivity.
Qed.

End ScanSession.

(** X25.  A scan sends the modem at most [ATE0], [AT+CGMI;+CGMM] and
    [AT+CPIN?], in this order, and so never a PIN or a PUK, whatever the
    store holds and the modem answers.  It ends with [UDIALD_EMODEM] before
    the third query, or after all three with [UDIALD_ESIM] and the SIM state
    stored as [error], or with 0 and the SIM state stored as [ready],
    [wantpin] or [wantpuk]; it never returns. *)
Theorem scan_sends_three_queries :
  ∀ (T : target) (H : udiald_h) (e : session_env) (st : udiald_state) (w : world),
    app st = UDIALD_APP_SCAN →
    match main_session e st w with
    | Ret _ _ => False
    | Exit c w' =>
        (c = surfaced st UDIALD_EMODEM ∧
         ∃ k, k ≤ 2 ∧ w_tty_out w' = w_tty_out w ++ take k scan_commands) ∨
        (c = surfaced st UDIALD_ESIM ∧ w_tty_out w' = w_tty_out w ++ scan_commands ∧
         udiald_config_get st "sim_state" w' = Some "error"%string) ∨
        (c = 0%Z ∧ w_tty_out w' = w_tty_out w ++ scan_commands ∧
         (udiald_config_get st "sim_state" w' = Some "ready"%string ∨
          udiald_config_get st "sim_state" w' = Some "wantpin"%string ∨
          udiald_config_get st "sim_state" w' = Some "wantpuk"%string))
    | Stuck _ w' => ∃ k, 1 ≤ k ≤ 3 ∧ w_tty_out w' = w_tty_out w ++ take k scan_commands
    end.
Proof.
  intros T H e st w Happ. pose proof (scan_session e st w Happ) as Hs.
  destruct (main_session e st w) as [u w'|c w'|y w']; cbn in Hs; [exact Hs| |exact Hs].
  destruct Hs as [Hs|[Hs|(Hc & Ho & z & Hz & Hsim)]]; [left; exact Hs|right; left; exact Hs|].
  right. right. split; [exact Hc|]. split; [exact Ho|].
  destruct Hz as [ -> | [ -> | -> ] ]; rewrite Hsim; cbn; auto.
Qed.

Lemma scan_sends_three_queries_witness :
  app (state_of UDIALD_APP_SCAN 0) = UDIALD_APP_SCAN ∧
  ∃ w', main_session (T := lp64) (H := header) plain_session
          (state_of UDIALD_APP_SCAN 0) scan_world = Exit 0 w' ∧
        w_tty_out w' = scan_commands ∧
        udiald_config_get (state_of UDIALD_APP_SCAN 0) "sim_state" w' = Some "wantpin"%string.
Proof.
  split; [reflexivity|].
  pose proof (scan_sends_three_queries lp64 header plain_session
                (state_of UDIALD_APP_SCAN 0) scan_world eq_refl) as Hs.
  destruct (main_session (T := lp64) (H := header) plain_session
              (state_of UDIALD_APP_SCAN 0) scan_world) as [u w'|c w'|y w'] eqn:Hrun.
  - destruct Hs.
  - assert (Hc : c = 0%Z) by (vm_compute in Hrun; congruence).
    assert (Hsim : udiald_config_get (state_of UDIALD_APP_SCAN 0) "sim_state" w'
                   = Some "wantpin"%string) by (vm_compute in Hrun; injection Hrun as _ <-; reflexivity).
    exists w'. subst c. split; [reflexivity|]. split; [|exact Hsim].
    destruct Hs as [[Hm _]|[[Hm _]|(_ & Ho & _)]]; [discriminate Hm|discriminate Hm|exact Ho].
  - exfalso. vm_compute in Hrun. discriminate Hrun.
Defined.

Section LockedSim.
Context {T : target} {H : udiald_h}.

Lemma unlock_without_pin_request e st w :
  app st = UDIALD_APP_UNLOCK → sim_state st ≠ 1%Z → main_after_sim e st w = Exit 0 w.
Proof.
  intros Happ Hsim. unfold main_after_sim. rewrite Happ. cbn [app_eqb bind].
  apply Z.eqb_neq in Hsim. rewrite Hsim. cbn [bind].
  unfold udiald_exitcode. rewrite Happ. reflexivity.
Qed.

Lemma connect_on_locked_sim e st w :
  app st = UDIALD_APP_CONNECT → sim_state st = 2%Z →
  ∃ w', main_after_sim e st w = Exit (surfaced st UDIALD_EUNLOCK) w' ∧
        same_but exit_keys w w' ∧
        (surfaced st UDIALD_EUNLOCK ≠ UDIALD_ESIGNALED →
         udiald_config_get st "udiald_error_msg" w' = Some "SIM locked - need PUK"%string).
Proof.
  intros Happ Hsim. unfold main_after_sim. rewrite Happ, Hsim. cbn [app_eqb bind Z.eqb Pos.eqb].
  destruct (exitcode_store (A := unit) UDIALD_EUNLOCK (Some "SIM locked - need PUK"%string) st w)
    as (w' & Hx & Hs & Hc & _).
  rewrite Hx. cbn [bind]. exists w'. split; [reflexivity|]. split; [exact Hs|].
  intros Hns. apply Hc; [|exact Hns].
  intros E. apply surfaced_zero in E. discriminate E.
Qed.

End LockedSim.

(** X26.  What [main] does behind [udiald_check_sim] with a SIM that does
    not wait for a PIN.  In unlock-pin mode it ends with 0 at once, the
    world untouched, also when the SIM is locked and waits for the PUK.  In
    connect mode with a SIM that waits for the PUK it ends with
    [UDIALD_EUNLOCK] and the message [SIM locked - need PUK] before anything
    is sent to the modem and before the link daemon is started. *)
Theorem sim_without_pin_request :
  ∀ (T : target) (H : udiald_h) (e : session_env) (st : udiald_state) (w : world),
    sim_state st ≠ 1%Z →
    (app st = UDIALD_APP_UNLOCK → main_after_sim e st w = Exit 0 w) ∧
    (app st = UDIALD_APP_CONNECT → sim_state st = 2%Z →
     ∃ w', main_after_sim e st w = Exit (surfaced st UDIALD_EUNLOCK) w' ∧
           same_but exit_keys w w' ∧
           (surfaced st UDIALD_EUNLOCK ≠ UDIALD_ESIGNALED →
            udiald_config_get st "udiald_error_msg" w'
            = Some "SIM locked - need PUK"%string)).
Proof.
  intros T H e st w Hsim. split.
  - intros Happ. apply unlock_without_pin_request; assumption.
  - intros Happ H2. apply connect_on_locked_sim; assumption.
Qed.

Lemma sim_without_pin_request_witness :
  let st := set_sim_state 2 (state_of UDIALD_APP_UNLOCK 0) in
  sim_state st ≠ 1%Z ∧
  main_after_sim (T := lp64) (H := header) plain_session st scan_world = Exit 0 scan_world.
Proof.
  cbv zeta.
  assert (H1 : sim_state (set_sim_state 2 (state_of UDIALD_APP_UNLOCK 0)) ≠ 1%Z)
    by (vm_compute; discriminate).
  split; [exact H1|].
  exact (proj1 (sim_without_pin_request lp64 header plain_session _ scan_world H1) eq_refl).
Defined.

(** ** tty.c: the [connect] directive *)

Section ConnectLine.

Lemma chars_app a b : chars (a ++ b) = chars a ++ chars b.
Proof. induction a as [|c a IH]; simpl; [reflexivity|]. rewrite IH. reflexivity. Qed.

Lemma soa_app a b :
  string_of_list_ascii (a ++ b) = (string_of_list_ascii a ++ string_of_list_ascii b)%string.
Proof. induction a as [|c a IH]; simpl; [reflexivity|]. rewrite IH. reflexivity. Qed.

Lemma length_chars s : length (chars s) = String.length s.
Proof. induction s as [|c s IH]; simpl; [reflexivity|]. rewrite IH. reflexivity. Qed.

Lemma connect_line_some st prof p :
  chars (connect_line st prof (Some p))
  = take 255 (chars ("connect " ++ DQs ++ p ++ connect_options st prof)).
Proof.
  unfold connect_line, snprintf. cbv zeta. fold (connect_options st prof).
  set (opts := connect_options st prof).
  set (path := take 246 (chars p)).
  assert (Hl : length path ≤ 246) by (unfold path; rewrite length_take; lia).
  rewrite chars_app, !list_ascii_of_string_of_list_ascii.
  replace (Z.to_nat (9 + Z.of_nat (length path))) with (9 + length path) by lia.
  replace (Z.to_nat (256 - 9 - Z.of_nat (length path)) - 1) with (246 - length path) by lia.
  rewrite !chars_app.
  change (chars "connect ") with (take 8 (chars ("connect " ++ DQs))).
  change (chars DQs) with (drop 8 (chars ("connect " ++ DQs))).
  rewrite (app_assoc (take 8 _)), take_drop.
  set (c9 := chars ("connect " ++ DQs)).
  assert (H9 : length c9 = 9) by reflexivity.
  rewrite (take_ge (c9 ++ path)) by (rewrite length_app; lia).
  rewrite (take_app c9), (take_ge c9) by lia. rewrite H9.
  change (255 - 9) with 246. rewrite take_app. fold path.
  rewrite <- app_assoc. do 2 f_equal.
  unfold path. rewrite length_take.
  destruct (Nat.le_gt_cases (length (chars p)) 246) as [Hle|Hgt].
  - rewrite Nat.min_r by lia. reflexivity.
  - rewrite Nat.min_l by lia. replace (246 - length (chars p)) with 0 by lia.
    replace (246 - 246) with 0 by lia. reflexivity.
Qed.

Lemma connect_line_none st prof :
  chars (connect_line st prof None)
  = chars "connect " ++ take 247 (chars (connect_options st prof)).
Proof.
  unfold connect_line, snprintf. cbv zeta. fold (connect_options st prof).
  rewrite chars_app, !list_ascii_of_string_of_list_ascii. reflexivity.
Qed.

Lemma connect_line_length st prof exe : String.length (connect_line st prof exe) ≤ 255.
Proof.
  rewrite <- length_chars. destruct exe as [p|].
  - rewrite connect_line_some, length_take. lia.
  - rewrite connect_line_none, length_app, length_take.
    change (length (chars "connect ")) with 8. lia.
Qed.

Lemma connect_line_whole st prof p :
  connect_line st prof (Some p) = ("connect " ++ DQs ++ p ++ connect_options st prof)%string
  ↔ String.length p + String.length (connect_options st prof) ≤ 246.
Proof.
  set (full := ("connect " ++ DQs ++ p ++ connect_options st prof)%string).
  assert (Hfull : String.length full = 9 + String.length p
                                       + String.length (connect_options st prof)).
  { unfold full. rewrite <- !length_chars, !chars_app, !length_app. simpl. lia. }
  split.
  - intros Heq. pose proof (connect_line_length st prof (Some p)) as Hlen.
    rewrite Heq in Hlen. fold full in Hlen. lia.
  - intros Hfit. rewrite <- (string_of_list_ascii_of_string (connect_line _ _ _)).
    rewrite connect_line_some. fold full.
    rewrite take_ge by (rewrite length_chars; lia).
    apply string_of_list_ascii_of_string.
Qed.

End ConnectLine.

(** X27.  The [connect] directive of the options file is what fits the 256
    bytes of [buf]: the first 255 bytes of the word [connect], a space, a
    double quote, the path of the executable, the options and the closing
    quote and line feed.  It is
    never longer than 255 bytes, and it is whole, closing quote and line
    feed included, exactly when path and options together have at most 246
    bytes.  When [readlink] fails, the options are printed over the opening
    quote. *)
Theorem connect_line_is_cut_to_its_buffer :
  ∀ (st : udiald_state) (prof : udiald_profile),
    (∀ p, chars (connect_line st prof (Some p))
          = take 255 (chars ("connect " ++ DQs ++ p ++ connect_options st prof))) ∧
    chars (connect_line st prof None)
    = chars "connect " ++ take 247 (chars (connect_options st prof)) ∧
    (∀ exe, String.length (connect_line st prof exe) ≤ 255) ∧
    (∀ p, connect_line st prof (Some p)
          = ("connect " ++ DQs ++ p ++ connect_options st prof)%string
          ↔ String.length p + String.length (connect_options st prof) ≤ 246).
Proof.
  intros st prof. split; [intros p; apply connect_line_some|].
  split; [apply connect_line_none|].
  split; [intros exe; apply connect_line_length|].
  intros p. apply connect_line_whole.
Qed.

(** ** deviceconfig.h: the built-in profiles under [udiald_set_mode] *)

Section BuiltinProfiles.
Context {T : target} {H : udiald_h}.

Lemma set_mode_send st w prof md cmd :
  udiald_modem_modeval (wanted_mode st w) = Some md →
  profile (modem st) = Some prof →
  modecmd (cfg prof) md = Some cmd → cmd ≠ EmptyString →
  run_spec (fun _ w' => w_tty_out w' = w_tty_out w ++ [cmd])
    (fun c w' => c = surfaced st UDIALD_EMODEM ∧ w_tty_out w' = w_tty_out w ++ [cmd])
    (fun w' => w_tty_out w' = w_tty_out w ++ [cmd])
    (udiald_set_mode st w).
Proof.
  intros Hmd Hprof Hcmd Hne. rewrite set_mode_unfold. cbv zeta.
  rewrite Hmd, Hprof, Hcmd. destruct cmd as [|a cmd]; [contradiction|].
  unfold udiald_tty_put, tty_get. cbn [fst snd].
  set (w1 := with_tty_out _ _ w). set (w2 := with_tty_in _ w1).
  assert (Hfail : ∀ r wi msg, w_tty_out wi = w_tty_out w ++ [String a cmd] →
    run_spec (fun (_ : unit) w' => w_tty_out w' = w_tty_out w ++ [String a cmd])
      (fun c w' => c = surfaced st UDIALD_EMODEM ∧
                   w_tty_out w' = w_tty_out w ++ [String a cmd])
      (fun w' => w_tty_out w' = w_tty_out w ++ [String a cmd])
      (flattened r wi (fun _ => udiald_exitcode UDIALD_EMODEM msg st wi))).
  { intros r wi msg Hwi. apply flattened_spec; [exact Hwi|]. intros _.
    apply exitcode_spec. intros c w' Hx. apply exit_of_facts in Hx as (Hc & Hs & _).
    split; [exact Hc|]. rewrite (same_but_out _ _ _ Hs). exact Hwi. }
  destruct (_ <? 0)%Z; [apply Hfail; reflexivity|].
  apply got_spec; [reflexivity|].
  destruct (negb _); [apply Hfail; reflexivity|reflexivity].
Qed.

Lemma builtin_commands i prof md cmd :
  profiles !! i = Some prof → modecmd (cfg prof) md = Some cmd →
  cmd = EmptyString ∨
  ∃ body, cmd = (body ++ CRs)%string ∧ body ≠ EmptyString ∧
          strpbrk body (CRs ++ LFs) = false.
Proof.
  intros Hi Hcmd.
  do 11 (destruct i as [|i]; [injection Hi as <-; destruct md; cbn in Hcmd;
    first [discriminate Hcmd
          |injection Hcmd as <-;
           first [left; reflexivity
                 |right; eexists; split; [reflexivity|split; [discriminate|reflexivity]]]]|]).
  discriminate Hi.
Qed.

Lemma builtin_auto i prof :
  profiles !! i = Some prof → ∃ cmd, modecmd (cfg prof) UDIALD_MODE_AUTO = Some cmd.
Proof.
  intros Hi.
  do 11 (destruct i as [|i]; [injection Hi as <-; eexists; reflexivity|]).
  discriminate Hi.
Qed.

End BuiltinProfiles.

(** X28.  Under every profile of the built-in table [udiald_set_mode]
    supports the default mode: with [udiald_mode] unset or empty it never
    ends with [UDIALD_EINVAL].  When the [auto] command of the profile is
    empty it returns with the world untouched; otherwise it writes this one
    command and ends the process only with [UDIALD_EMODEM].  Every command of
    the table is empty or a single line that ends in a carriage return, so
    that what is written is a whole command. *)
Theorem builtin_profiles_support_auto :
  ∀ (T : target) (H : udiald_h) (i : nat) (prof : udiald_profile)
    (st : udiald_state) (w : world),
    profiles !! i = Some prof →
    profile (modem st) = Some prof →
    udiald_config_get st "udiald_mode" w = None ∨
    udiald_config_get st "udiald_mode" w = Some EmptyString →
    (∃ cmd, modecmd (cfg prof) UDIALD_MODE_AUTO = Some cmd ∧
       match udiald_set_mode st w with
       | Ret _ w' =>
           (cmd = EmptyString ∧ w' = w) ∨
           (cmd ≠ EmptyString ∧ w_tty_out w' = w_tty_out w ++ [cmd])
       | Exit c w' =>
           cmd ≠ EmptyString ∧ c = surfaced st UDIALD_EMODEM ∧
           w_tty_out w' = w_tty_out w ++ [cmd]
       | Stuck _ w' => cmd ≠ EmptyString ∧ w_tty_out w' = w_tty_out w ++ [cmd]
       end) ∧
    (∀ md cmd, modecmd (cfg prof) md = Some cmd →
       cmd = EmptyString ∨
       ∃ body, cmd = (body ++ CRs)%string ∧ body ≠ EmptyString ∧
               strpbrk body (CRs ++ LFs) = false).
Proof.
  intros T H i prof st w Hi Hprof Hmode.
  split; [|intros md cmd; apply (builtin_commands i); exact Hi].
  destruct (builtin_auto i prof Hi) as [cmd Hcmd]. exists cmd. split; [exact Hcmd|].
  assert (Hmd : udiald_modem_modeval (wanted_mode st w) = Some UDIALD_MODE_AUTO).
  { unfold wanted_mode. destruct Hmode as [-> | ->]; reflexivity. }
  destruct cmd as [|a cmd].
  - rewrite (set_mode_empty_command st w prof UDIALD_MODE_AUTO Hprof Hmd Hcmd).
    left. split; reflexivity.
  - pose proof (set_mode_send st w prof UDIALD_MODE_AUTO (String a cmd) Hmd Hprof Hcmd
                  ltac:(discriminate)) as Hs.
    destruct (udiald_set_mode st w) as [u w'|c w'|y w']; cbn in Hs.
    + right. split; [discriminate|exact Hs].
    + split; [discriminate|exact Hs].
    + split; [discriminate|exact Hs].
Qed.

Lemma builtin_profiles_support_auto_witness :
  let st := with_profile huawei_k3520 (state_of UDIALD_APP_CONNECT 0) in
  let w := world_of [] [ok_answer] in
  (profiles !! 2 = Some huawei_k3520 ∧ profile (modem st) = Some huawei_k3520 ∧
   udiald_config_get st "udiald_mode" w = None) ∧
  ∃ cmd, modecmd (cfg huawei_k3520) UDIALD_MODE_AUTO = Some cmd ∧
    match udiald_set_mode (T := lp64) (H := header) st w with
    | Ret _ w' =>
        (cmd = EmptyString ∧ w' = w) ∨
        (cmd ≠ EmptyString ∧ w_tty_out w' = w_tty_out w ++ [cmd])
    | Exit c w' =>
        cmd ≠ EmptyString ∧ c = surfaced (H := header) st UDIALD_EMODEM ∧
        w_tty_out w' = w_tty_out w ++ [cmd]
    | Stuck _ w' => cmd ≠ EmptyString ∧ w_tty_out w' = w_tty_out w ++ [cmd]
    end.
Proof.
  cbv zeta.
  assert (H1 : profiles !! 2 = Some huawei_k3520) by reflexivity.
  assert (H2 : profile (modem (with_profile huawei_k3520 (state_of UDIALD_APP_CONNECT 0)))
               = Some huawei_k3520) by reflexivity.
  assert (H3 : udiald_config_get (with_profile huawei_k3520 (state_of UDIALD_APP_CONNECT 0))
                 "udiald_mode" (world_of [] [ok_answer]) = None) by reflexivity.
  split; [repeat split; assumption|].
  exact (proj1 (builtin_profiles_support_auto lp64 header 2 huawei_k3520 _ _ H1 H2
                  (or_introl H3))).
Defined.
